(** * claude-zuma: the chain engine, checked against its specification

    Shallow embedding of the simulation core of the game
    (core/types.ts, core/Ball.ts, core/Chain.ts, core/Collision.ts,
    core/BallSpawner.ts, core/Path.ts, core/Shooter.ts, core/Score.ts and
    the collision glue of Game.ts).

    Modelling conventions
    - a JavaScript [number] that carries a continuous quantity (a distance
      along the path, a time, a velocity, a coordinate) is an exact rational
      [Q]; a [number] that only ever holds a count or a score is a [Z].
      The countdown of the shooter is the exception: there every result is
      rounded to a double ([binary64]);
    - [Ball] objects live in a store [gmap positive Ball]; a reference to a
      ball is its key, [Ball | null] is [option positive].  Every field
      access re-reads the store, so aliasing between references behaves as
      in the source;
    - a method that mutates [this] and the balls takes the store and the
      receiver and returns the new ones.  [None] is reserved for what has no
      JavaScript counterpart on a well-formed chain: a dangling reference,
      or a pointer walk that does not end (the walks are given the size of
      the store as fuel, which an acyclic chain cannot exceed);
    - [Math.random()] is a sequence of draws consumed in order. *)

From Stdlib Require Import QArith Qround Qminmax Qabs Qpower Lqa ZArith Lia String.
From stdpp Require Import base option list sorting gmap.

Local Open Scope Q_scope.

(** ** core/types.ts *)

Inductive BallColor := RED | BLUE | GREEN | YELLOW | PURPLE.

#[global] Instance BallColor_eq_dec : EqDecision BallColor.
Proof. solve_decision. Defined.

Inductive BallState := NORMAL | INSERTED | EXPLODING.

Record Point := mkPoint { x : Q; y : Q }.

Definition BALL_RADIUS : Q := 16.
Definition SHOOTER_COOLDOWN : Q := 200.
Definition FIRED_BALL_SPEED : Q := 800.
Definition SNAP_BACK_SPEED : Q := 400.
Definition CANVAS_WIDTH : Q := 800.
Definition CANVAS_HEIGHT : Q := 600.

(** [a < b] and [a <= b] on numbers, as booleans. *)
Definition Qltb (a b : Q) : bool := if Qlt_le_dec a b then true else false.
Definition Qleb (a b : Q) : bool := if Qlt_le_dec b a then false else true.

(** ** core/Ball.ts *)

Abbreviation BallRef := positive (only parsing).

Record Ball := mkBall {
  color : BallColor;
  distanceAlongPath : Q;
  state : BallState;
  prev : option BallRef;
  next : option BallRef;
  ball_x : Q;
  ball_y : Q;
  velocityX : Q;
  velocityY : Q
}.

Abbreviation Heap := (gmap positive Ball) (only parsing).

(** [new Ball(color, distanceAlongPath)] *)
Definition newBall (col : BallColor) (d : Q) : Ball :=
  mkBall col d NORMAL None None 0 0 0 0.

Definition set_distanceAlongPath (d : Q) (b : Ball) : Ball :=
  mkBall (color b) d (state b) (prev b) (next b)
         (ball_x b) (ball_y b) (velocityX b) (velocityY b).
Definition set_state (s : BallState) (b : Ball) : Ball :=
  mkBall (color b) (distanceAlongPath b) s (prev b) (next b)
         (ball_x b) (ball_y b) (velocityX b) (velocityY b).
Definition set_prev (p : option BallRef) (b : Ball) : Ball :=
  mkBall (color b) (distanceAlongPath b) (state b) p (next b)
         (ball_x b) (ball_y b) (velocityX b) (velocityY b).
Definition set_next (n : option BallRef) (b : Ball) : Ball :=
  mkBall (color b) (distanceAlongPath b) (state b) (prev b) n
         (ball_x b) (ball_y b) (velocityX b) (velocityY b).
Definition set_position (px py : Q) (b : Ball) : Ball :=
  mkBall (color b) (distanceAlongPath b) (state b) (prev b) (next b)
         px py (velocityX b) (velocityY b).

(** A field assignment [r.f = v] on the object behind reference [r]. *)
Definition assign (f : Ball -> Ball) (r : BallRef) (h : Heap) : option Heap :=
  b ← h !! r; Some (<[r := f b]> h).

(** Allocation of a new object: a reference the store does not hold yet. *)
Definition alloc (b : Ball) (h : Heap) : BallRef * Heap :=
  let r := fresh (dom h) in (r, <[r := b]> h).

(** [ball.markInserted()] *)
Definition markInserted (r : BallRef) (h : Heap) : option Heap :=
  assign (set_state INSERTED) r h.

(** ** core/Chain.ts *)

Record Chain := mkChain {
  head : option BallRef;
  tail : option BallRef;
  velocity : Q;
  splitPoint : option Q;
  backVelocity : Q;
  isClosingGap : bool
}.

(** [new Chain()] *)
Definition newChain : Chain := mkChain None None 50 None 0 false.

Definition set_head (r : option BallRef) (c : Chain) : Chain :=
  mkChain r (tail c) (velocity c) (splitPoint c) (backVelocity c) (isClosingGap c).
Definition set_tail (r : option BallRef) (c : Chain) : Chain :=
  mkChain (head c) r (velocity c) (splitPoint c) (backVelocity c) (isClosingGap c).
Definition set_gap (sp : option Q) (bv : Q) (g : bool) (c : Chain) : Chain :=
  mkChain (head c) (tail c) (velocity c) sp bv g.

(** The [while (current)] loop of [pushBallsBack]. *)
Fixpoint pushLoop (fuel : nat) (current : option BallRef) (prevDistance : Q)
    (h : Heap) : option Heap :=
  match current with
  | None => Some h
  | Some cur =>
    match fuel with
    | O => None
    | S fuel' =>
      cb ← h !! cur;
      h ← (if Qltb (distanceAlongPath cb) (prevDistance + BALL_RADIUS * 2)
           then assign (set_distanceAlongPath (prevDistance + BALL_RADIUS * 2)) cur h
           else Some h);
      cb ← h !! cur;
      pushLoop fuel' (next cb) (distanceAlongPath cb) h
    end
  end.

Definition pushBallsBack (insertedBall : BallRef) (h : Heap) : option Heap :=
  ib ← h !! insertedBall;
  pushLoop (size h) (next ib) (distanceAlongPath ib) h.

(** The list splice of [insertBall] (its [if (afterBall === null)] block). *)
Definition linkBall (ball : BallRef) (afterBall : option BallRef)
    (h : Heap) (c : Chain) : option (Heap * Chain) :=
  match afterBall with
  | None =>
    h ← assign (set_prev None) ball h;
    h ← assign (set_next (head c)) ball h;
    h ← match head c with
        | Some hd => assign (set_prev (Some ball)) hd h
        | None => Some h
        end;
    let c := set_head (Some ball) c in
    let c := match tail c with
             | None => set_tail (Some ball) c
             | Some _ => c
             end in
    Some (h, c)
  | Some a =>
    h ← assign (set_prev (Some a)) ball h;
    ab ← h !! a;
    h ← assign (set_next (next ab)) ball h;
    ab ← h !! a;
    h ← match next ab with
        | Some n => assign (set_prev (Some ball)) n h
        | None => Some h
        end;
    h ← assign (set_next (Some ball)) a h;
    let c := if decide (Some a = tail c)
             then set_tail (Some ball) c else c in
    Some (h, c)
  end.

Definition insertBall (ball : BallRef) (afterBall : option BallRef)
    (h : Heap) (c : Chain) : option (Heap * Chain) :=
  '(h, c) ← linkBall ball afterBall h c;
  h ← pushBallsBack ball h;
  Some (h, c).

Definition removeBall (ball : BallRef) (h : Heap) (c : Chain)
    : option (Heap * Chain) :=
  b ← h !! ball;
  '(h, c) ← match prev b with
            | Some p => h ← assign (set_next (next b)) p h; Some (h, c)
            | None => Some (h, set_head (next b) c)
            end;
  b ← h !! ball;
  '(h, c) ← match next b with
            | Some n => h ← assign (set_prev (prev b)) n h; Some (h, c)
            | None => Some (h, set_tail (prev b) c)
            end;
  h ← assign (set_prev None) ball h;
  h ← assign (set_next None) ball h;
  Some (h, c).

(** [r.distanceAlongPath] *)
Definition distOf (h : Heap) (r : BallRef) : Q :=
  from_option distanceAlongPath 0 (h !! r).

(** [r.color] *)
Definition colorOf (h : Heap) (r : BallRef) : option BallColor :=
  color <$> h !! r.

(** [balls.sort((a, b) => a.distanceAlongPath - b.distanceAlongPath)]:
    [Array.prototype.sort] is stable, so the sorted array is the one a
    stable insertion sort builds. *)

Fixpoint insertByDistance (h : Heap) (r : BallRef) (l : list BallRef)
    : list BallRef :=
  match l with
  | [] => [r]
  | r' :: l' => if Qleb (distOf h r) (distOf h r')
                then r :: r' :: l'
                else r' :: insertByDistance h r l'
  end.

Definition sortByDistance (h : Heap) (l : list BallRef) : list BallRef :=
  foldr (insertByDistance h) [] l.

(** [for (const ball of balls) this.removeBall(ball)] *)
Fixpoint removeEach (balls : list BallRef) (h : Heap) (c : Chain)
    : option (Heap * Chain) :=
  match balls with
  | [] => Some (h, c)
  | ball :: rest => '(h, c) ← removeBall ball h c; removeEach rest h c
  end.

Record GapInfo := mkGapInfo {
  frontBall : option BallRef;
  backBall : option BallRef
}.

Definition removeBalls (balls : list BallRef) (h : Heap) (c : Chain)
    : option (GapInfo * Heap * Chain) :=
  match balls with
  | [] => Some (mkGapInfo None None, h, c)
  | _ =>
    let balls := sortByDistance h balls in
    first ← list.head balls;
    fb ← h !! first;
    let front := prev fb in
    final ← last balls;
    lb ← h !! final;
    let back := next lb in
    '(h, c) ← removeEach balls h c;
    c ← match front, back with
        | Some f, Some _ =>
          fb ← h !! f;
          Some (set_gap (Some (distanceAlongPath fb + BALL_RADIUS * 2))
                        (- SNAP_BACK_SPEED) true c)
        | _, _ => Some c
        end;
    Some (mkGapInfo front back, h, c)
  end.

(** The pointer walk shared by [getBalls] and [getLength]. *)
Fixpoint walk (fuel : nat) (current : option BallRef) (h : Heap)
    : option (list BallRef) :=
  match current with
  | None => Some []
  | Some cur =>
    match fuel with
    | O => None
    | S fuel' => cb ← h !! cur; rest ← walk fuel' (next cb) h; Some (cur :: rest)
    end
  end.

Definition getBalls (h : Heap) (c : Chain) : option (list BallRef) :=
  walk (size h) (head c) h.

Definition isEmpty (c : Chain) : bool :=
  match head c with None => true | Some _ => false end.

Definition getLength (h : Heap) (c : Chain) : option Z :=
  balls ← getBalls h c; Some (Z.of_nat (length balls)).


(** The loop of [updateNormalMovement]. *)
Fixpoint moveLoop (fuel : nat) (current : option BallRef) (delta : Q)
    (h : Heap) : option Heap :=
  match current with
  | None => Some h
  | Some cur =>
    match fuel with
    | O => None
    | S fuel' =>
      cb ← h !! cur;
      h ← assign (set_distanceAlongPath (distanceAlongPath cb + delta)) cur h;
      cb ← h !! cur;
      moveLoop fuel' (next cb) delta h
    end
  end.

Definition updateNormalMovement (deltaTime : Q) (h : Heap) (c : Chain)
    : option (Heap * Chain) :=
  let movement := velocity c * deltaTime in
  h ← moveLoop (size h) (head c) (- movement) h;
  Some (h, c).

(** The search loop of [updateGapClosing]: the first ball at or beyond the
    split point. *)
Fixpoint findBackStart (fuel : nat) (current : option BallRef) (split : Q)
    (h : Heap) : option (option BallRef) :=
  match current with
  | None => Some None
  | Some cur =>
    match fuel with
    | O => None
    | S fuel' =>
      cb ← h !! cur;
      if Qleb split (distanceAlongPath cb) then Some (Some cur)
      else findBackStart fuel' (next cb) split h
    end
  end.

(** The repositioning loop of [snapGapClosed]. *)
Fixpoint repackLoop (fuel : nat) (current : option BallRef) (prevDistance : Q)
    (h : Heap) : option Heap :=
  match current with
  | None => Some h
  | Some cur =>
    match fuel with
    | O => None
    | S fuel' =>
      h ← assign (set_distanceAlongPath (prevDistance + BALL_RADIUS * 2)) cur h;
      cb ← h !! cur;
      repackLoop fuel' (next cb) (distanceAlongPath cb) h
    end
  end.

Definition snapGapClosed (front back : BallRef) (h : Heap) (c : Chain)
    : option (Heap * Chain) :=
  fb ← h !! front;
  h ← assign (set_distanceAlongPath (distanceAlongPath fb + BALL_RADIUS * 2)) back h;
  bb ← h !! back;
  h ← repackLoop (size h) (next bb) (distanceAlongPath bb) h;
  Some (h, set_gap None 0 false c).

Definition updateGapClosing (deltaTime : Q) (h : Heap) (c : Chain)
    : option (Heap * Chain) :=
  match splitPoint c with
  | None => Some (h, c)
  | Some split =>
    let backMovement := backVelocity c * deltaTime in
    backStart ← findBackStart (size h) (head c) split h;
    match backStart with
    | None => Some (h, c)
    | Some bs =>
      h ← moveLoop (size h) (Some bs) backMovement h;
      bb ← h !! bs;
      match prev bb with
      | None => Some (h, c)
      | Some front =>
        fb ← h !! front;
        let gap := distanceAlongPath bb - distanceAlongPath fb in
        if Qleb gap (BALL_RADIUS * 2) then snapGapClosed front bs h c
        else Some (h, c)
      end
    end
  end.

Definition update (deltaTime : Q) (h : Heap) (c : Chain)
    : option (Heap * Chain) :=
  if isClosingGap c then updateGapClosing deltaTime h c
  else updateNormalMovement deltaTime h c.

Definition isGapClosing (c : Chain) : bool := isClosingGap c.

(** The loop of [findInsertionPoint]. *)
Fixpoint insertionLoop (fuel : nat) (current insertAfter : option BallRef)
    (distance : Q) (h : Heap) : option (option BallRef) :=
  match current with
  | None => Some insertAfter
  | Some cur =>
    match fuel with
    | O => None
    | S fuel' =>
      cb ← h !! cur;
      if Qltb (distanceAlongPath cb) distance
      then insertionLoop fuel' (next cb) (Some cur) distance h
      else Some insertAfter
    end
  end.

Definition findInsertionPoint (distance : Q) (h : Heap) (c : Chain)
    : option (option BallRef) :=
  insertionLoop (size h) (head c) None distance h.

(** [chain.clear()] *)
Definition clear (c : Chain) : Chain :=
  mkChain None None (velocity c) None 0 false.

(** ** core/Collision.ts *)

Record CollisionResult := mkCollisionResult {
  collidedWith : BallRef;
  insertBefore : bool;
  insertionDistance : Q
}.

Record MatchResult := mkMatchResult {
  balls : list BallRef;
  matchColor : BallColor
}.


(** The backward loop of [findMatch]: [unshift] while the colour matches. *)
Fixpoint scanBackward (fuel : nat) (current : option BallRef) (col : BallColor)
    (matching : list BallRef) (h : Heap) : option (list BallRef) :=
  match current with
  | None => Some matching
  | Some cur =>
    match fuel with
    | O => None
    | S fuel' =>
      cb ← h !! cur;
      if decide (color cb = col)
      then scanBackward fuel' (prev cb) col (cur :: matching) h
      else Some matching
    end
  end.

(** The forward loop of [findMatch]: [push] while the colour matches. *)
Fixpoint scanForward (fuel : nat) (current : option BallRef) (col : BallColor)
    (matching : list BallRef) (h : Heap) : option (list BallRef) :=
  match current with
  | None => Some matching
  | Some cur =>
    match fuel with
    | O => None
    | S fuel' =>
      cb ← h !! cur;
      if decide (color cb = col)
      then scanForward fuel' (next cb) col (matching ++ [cur]) h
      else Some matching
    end
  end.

Definition findMatch (startBall : BallRef) (h : Heap)
    : option (option MatchResult) :=
  sb ← h !! startBall;
  let col := color sb in
  let matchingBalls := [startBall] in
  matchingBalls ← scanBackward (size h) (prev sb) col matchingBalls h;
  sb ← h !! startBall;
  matchingBalls ← scanForward (size h) (next sb) col matchingBalls h;
  if decide (3 <= length matchingBalls)%nat
  then Some (Some (mkMatchResult matchingBalls col))
  else Some None.

(** [checkChainReaction(frontBall, backBall)] *)
Definition checkChainReaction (front back : option BallRef) (h : Heap)
    : option (option MatchResult) :=
  match front, back with
  | Some f, Some b =>
    fb ← h !! f; bb ← h !! b;
    if decide (color fb = color bb) then
      let col := color fb in
      matchingBalls ← scanBackward (size h) (Some f) col [] h;
      matchingBalls ← scanForward (size h) (Some b) col matchingBalls h;
      if decide (3 <= length matchingBalls)%nat
      then Some (Some (mkMatchResult matchingBalls col))
      else Some None
    else Some None
  | _, _ => Some None
  end.

Section Geometry.

(** [Math.sqrt], and the two queries of the current [Path] the collision
    test asks: [path.getPointAtDistance] and [path.getTangentAtDistance]. *)
Variable sqrt : Q -> Q.
Variable getPointAtDistance : Q -> Point.
Variable getTangentAtDistance : Q -> Point.

(** [distance(a, b)] of types.ts *)
Definition distance (a b : Point) : Q :=
  let dx := x b - x a in
  let dy := y b - y a in
  sqrt (dx * dx + dy * dy).

(** The scan of [checkBallChainCollision] for the closest ball in range;
    [closestDist = None] is [Infinity]. *)
Fixpoint closestLoop (fuel : nat) (current : option BallRef) (firedPos : Point)
    (closestBall : option BallRef) (closestDist : option Q) (closestPathDist : Q)
    (h : Heap) : option (option BallRef * Q) :=
  match current with
  | None => Some (closestBall, closestPathDist)
  | Some cur =>
    match fuel with
    | O => None
    | S fuel' =>
      cb ← h !! cur;
      let ballPos := getPointAtDistance (distanceAlongPath cb) in
      let dist := distance firedPos ballPos in
      if Qltb dist (BALL_RADIUS * 2) &&
         match closestDist with None => true | Some cd => Qltb dist cd end
      then closestLoop fuel' (next cb) firedPos (Some cur) (Some dist)
                       (distanceAlongPath cb) h
      else closestLoop fuel' (next cb) firedPos closestBall closestDist
                       closestPathDist h
    end
  end.

Definition checkBallChainCollision (firedBall : BallRef) (h : Heap) (c : Chain)
    : option (option CollisionResult) :=
  fb ← h !! firedBall;
  let firedPos := mkPoint (ball_x fb) (ball_y fb) in
  '(closestBall, closestPathDist) ←
    closestLoop (size h) (head c) firedPos None None 0 h;
  match closestBall with
  | None => Some None
  | Some closest =>
    cb ← h !! closest;
    let collidedPos := getPointAtDistance (distanceAlongPath cb) in
    let tangent := getTangentAtDistance (distanceAlongPath cb) in
    let toFired := mkPoint (x firedPos - x collidedPos) (y firedPos - y collidedPos) in
    let dot := x toFired * x tangent + y toFired * y tangent in
    let before := Qltb dot 0 in
    let insertionDistance :=
      if before then closestPathDist - BALL_RADIUS * 2
      else closestPathDist + BALL_RADIUS * 2 in
    Some (Some (mkCollisionResult closest before (Qmax 0 insertionDistance)))
  end.

(** Game.ts, [updateFiredBalls]: what is done with one fired ball that is
    still on screen (the collision test and, on a hit, the insertion). *)
Definition collideFiredBall (ball : BallRef) (h : Heap) (c : Chain)
    : option (bool * Heap * Chain) :=
  collision ← checkBallChainCollision ball h c;
  match collision with
  | None => Some (false, h, c)
  | Some col =>
    h ← assign (set_distanceAlongPath (insertionDistance col)) ball h;
    h ← markInserted ball h;
    '(h, c) ← (if insertBefore col
               then cw ← h !! collidedWith col; insertBall ball (prev cw) h c
               else insertBall ball (Some (collidedWith col)) h c);
    Some (true, h, c)
  end.

End Geometry.

(** ** core/Path.ts *)

(** What a constructor call produces: the object, or a thrown error. *)
Inductive Result (A : Type) :=
  | Ok (a : A)
  | Throw (message : string).
Arguments Ok {A} a.
Arguments Throw {A} message.

Record Path := mkPath {
  id : string;
  controlPoints : list Point;
  totalLength : Q;
  holePosition : Point;
  spawnPosition : Point;
  arcLengthTable : list Q
}.

Definition SEGMENTS_PER_CURVE : Z := 50.

(** [array[i]] for an integer [i]; [None] is [undefined]. *)
Definition elementAt {A} (l : list A) (i : Z) : option A :=
  if (i <? 0)%Z then None else l !! Z.to_nat i.

(** [Math.floor((this.controlPoints.length - 1) / 3)] *)
Definition numSegments (cps : list Point) : Z :=
  ((Z.of_nat (length cps) - 1) / 3)%Z.

Definition cubicBezier (p0 p1 p2 p3 : Point) (t : Q) : Point :=
  let t2 := t * t in
  let t3 := t2 * t in
  let mt := 1 - t in
  let mt2 := mt * mt in
  let mt3 := mt2 * mt in
  mkPoint (mt3 * x p0 + 3 * mt2 * t * x p1 + 3 * mt * t2 * x p2 + t3 * x p3)
          (mt3 * y p0 + 3 * mt2 * t * y p1 + 3 * mt * t2 * y p2 + t3 * y p3).

(** [getPointAtT]; reading a coordinate of [undefined] throws, which is
    [None] here. *)
Definition getPointAtT (cps : list Point) (t : Q) : option Point :=
  let t := Qmax 0 (Qmin 1 t) in
  let segmentT := t * inject_Z (numSegments cps) in
  let segmentIndex := Z.min (Qfloor segmentT) (numSegments cps - 1) in
  let localT := segmentT - inject_Z segmentIndex in
  let i := (segmentIndex * 3)%Z in
  p0 ← elementAt cps i;
  p1 ← elementAt cps (i + 1);
  p2 ← elementAt cps (i + 2);
  p3 ← elementAt cps (i + 3);
  Some (cubicBezier p0 p1 p2 p3 localT).

Section PathLength.

Variable sqrt : Q -> Q.

(** The loop shared by [calculateTotalLength] and [buildArcLengthTable]:
    steps [i .. steps], the running length and the table built so far. *)
Fixpoint chordLoop (cps : list Point) (steps : Z) (todo : nat) (i : Z)
    (prevPoint : Point) (len : Q) (table : list Q) : option (Q * list Q) :=
  match todo with
  | O => Some (len, table)
  | S todo' =>
    let t := inject_Z i / inject_Z steps in
    point ← getPointAtT cps t;
    let dx := x point - x prevPoint in
    let dy := y point - y prevPoint in
    let len := len + sqrt (dx * dx + dy * dy) in
    chordLoop cps steps todo' (i + 1) point len (table ++ [len])
  end.

Definition calculateTotalLength (cps : list Point) : option Q :=
  let steps := (SEGMENTS_PER_CURVE * numSegments cps)%Z in
  prevPoint ← getPointAtT cps 0;
  '(len, _) ← chordLoop cps steps (Z.to_nat steps) 1 prevPoint 0 [];
  Some len.

Definition buildArcLengthTable (cps : list Point) : option (list Q) :=
  let steps := (SEGMENTS_PER_CURVE * numSegments cps)%Z in
  prevPoint ← getPointAtT cps 0;
  '(_, table) ← chordLoop cps steps (Z.to_nat steps) 1 prevPoint 0 [0];
  Some table.

(** [new Path(id, controlPoints)] *)
Definition newPath (ident : string) (cps : list Point) : Result Path :=
  if (length cps <? 4)%nat
  then Throw "Path requires at least 4 control points"
  else
    match (len ← calculateTotalLength cps;
           hole ← getPointAtT cps 0;
           spawn ← getPointAtT cps 1;
           table ← buildArcLengthTable cps;
           Some (mkPath ident cps len hole spawn table)) with
    | Some p => Ok p
    | None => Throw "TypeError: Cannot read properties of undefined"
    end.

End PathLength.

(** ** core/Shooter.ts *)

Record Shooter := mkShooter {
  position : Point;
  rotation : Q;
  currentBall : BallColor;
  reserveBall : BallColor;
  cooldown : Q;
  shooterColors : list BallColor
}.

(** [shooter.swap()] *)
Definition swap (s : Shooter) : Shooter :=
  let temp := currentBall s in
  mkShooter (position s) (rotation s) (reserveBall s) temp
            (cooldown s) (shooterColors s).

(** [shooter.canFire()] *)
Definition canFire (s : Shooter) : bool := Qleb (cooldown s) 0.

(** ** core/Score.ts *)

Record Score := mkScore {
  current : Z;
  total : Z;
  chainMultiplier : Z;
  highScore : Z
}.

(** [score.addMatchPoints(ballCount)]: the points returned and the new
    score object. *)
Definition addMatchPoints (ballCount : Z) (s : Score) : Z * Score :=
  let tier :=
    if (ballCount =? 3)%Z then Some 100%Z
    else if (ballCount =? 4)%Z then Some 150%Z
    else if (5 <=? ballCount)%Z then Some (200 + 50 * (ballCount - 5))%Z
    else None in
  match tier with
  | None => (0%Z, s)
  | Some base =>
    let points := (base * chainMultiplier s)%Z in
    (points, mkScore (current s + points) (total s) (chainMultiplier s) (highScore s))
  end.

Definition incrementChainMultiplier (s : Score) : Score :=
  mkScore (current s) (total s) (chainMultiplier s + 1) (highScore s).

Definition resetChainMultiplier (s : Score) : Score :=
  mkScore (current s) (total s) 1 (highScore s).

(** The tier table of the specification. *)
Definition basePoints (n : Z) : Z :=
  if (n =? 3)%Z then 100 else if (n =? 4)%Z then 150 else (200 + 50 * (n - 5))%Z.

(** ** core/BallSpawner.ts *)

Record BallSpawner := mkBallSpawner {
  availableColors : list BallColor;
  spawnRate : Q;
  accumulator : Q
}.

Definition set_accumulator (a : Q) (sp : BallSpawner) : BallSpawner :=
  mkBallSpawner (availableColors sp) (spawnRate sp) a.

Section Random.

(** [random n] is the value of the [n]-th call of [Math.random()]; the
    functions that draw take the number of calls made so far and return
    the new one. *)
Variable random : nat -> Q.

(** [getRandomColor()]: an empty palette (or a draw outside [0, 1)) reads
    [undefined], which has no colour here. *)
Definition getRandomColor (sp : BallSpawner) (n : nat) : option (BallColor * nat) :=
  let i := Qfloor (random n * inject_Z (Z.of_nat (length (availableColors sp)))) in
  col ← elementAt (availableColors sp) i;
  Some (col, S n).

(** [countChainColors(chain).get(color) ?? 0] *)
Definition countColor (h : Heap) (balls : list BallRef) (col : BallColor) : Z :=
  Z.of_nat (length (filter (fun r => colorOf h r = Some col) balls)).

(** The selection loop of [getWeightedRandomColor]. *)
Fixpoint pickWeighted (weight : BallColor -> Q) (colors : list BallColor)
    (rnd : Q) : option BallColor :=
  match colors with
  | [] => None
  | col :: rest =>
    let rnd := rnd - weight col in
    if Qleb rnd 0 then Some col else pickWeighted weight rest rnd
  end.

Definition getWeightedRandomColor (sp : BallSpawner) (h : Heap) (c : Chain)
    (n : nat) : option (BallColor * nat) :=
  chainBalls ← getBalls h c;
  match chainBalls with
  | [] => getRandomColor sp n
  | _ =>
    let baseWeight := 1 in
    let weight col := inject_Z (countColor h chainBalls col) + baseWeight in
    let totalWeight := foldl (fun acc col => acc + weight col) 0 (availableColors sp) in
    let rnd := random n * totalWeight in
    match pickWeighted weight (availableColors sp) rnd with
    | Some col => Some (col, S n)
    | None => getRandomColor sp (S n)
    end
  end.

(** [spawnBall(chain, path)]; the path enters only through [totalLength]. *)
Definition spawnBall (sp : BallSpawner) (pathLength : Q) (h : Heap) (c : Chain)
    (n : nat) : option (option BallRef * Heap * Chain * nat) :=
  let spawnDistance := pathLength in
  let minSpacing := BALL_RADIUS * 2 in
  blocked ← match tail c with
            | Some t => tb ← h !! t;
                        Some (Qltb (spawnDistance - distanceAlongPath tb) minSpacing)
            | None => Some false
            end;
  if blocked : bool then Some (None, h, c, n)
  else
    '(col, n) ← getWeightedRandomColor sp h c n;
    let '(ball, h) := alloc (newBall col spawnDistance) h in
    '(h, c) ← insertBall ball (tail c) h c;
    Some (Some ball, h, c, n).

(** The [while] loop of [update]. *)
Fixpoint spawnLoop (fuel : nat) (spawnInterval : Q) (pathLength : Q)
    (maxBalls : Z) (spawned : Z) (sp : BallSpawner) (h : Heap) (c : Chain)
    (n : nat) : option (Z * BallSpawner * Heap * Chain * nat) :=
  len ← getLength h c;
  if Qleb spawnInterval (accumulator sp) && (len <? maxBalls)%Z then
    match fuel with
    | O => None
    | S fuel' =>
      '(ball, h, c, n) ← spawnBall sp pathLength h c n;
      let spawned := match ball with Some _ => (spawned + 1)%Z | None => spawned end in
      let sp := set_accumulator (accumulator sp - spawnInterval) sp in
      spawnLoop fuel' spawnInterval pathLength maxBalls spawned sp h c n
    end
  else Some (spawned, sp, h, c, n).

(** [update(deltaTime, chain, path, maxBalls)].  [1 / 0] is [Infinity] in
    JavaScript, which no accumulator reaches: with a zero rate the loop is
    not entered.  The fuel is the number of whole intervals the accumulator
    holds, plus one. *)
Definition spawnerUpdate (deltaTime : Q) (sp : BallSpawner) (pathLength : Q)
    (maxBalls : Z) (h : Heap) (c : Chain) (n : nat)
    : option (Z * BallSpawner * Heap * Chain * nat) :=
  let sp := set_accumulator (accumulator sp + deltaTime) sp in
  if Qeq_bool (spawnRate sp) 0 then Some (0%Z, sp, h, c, n)
  else
    let spawnInterval := 1 / spawnRate sp in
    let fuel := S (Z.to_nat (Qfloor (accumulator sp / spawnInterval))) in
    spawnLoop fuel spawnInterval pathLength maxBalls 0 sp h c n.


(** [spawnInitialBalls(chain, path, count)] *)
Fixpoint spawnInitialLoop (count : nat) (sp : BallSpawner) (currentDistance : Q)
    (h : Heap) (c : Chain) (n : nat) : option (Heap * Chain * nat) :=
  match count with
  | O => Some (h, c, n)
  | S count' =>
    '(col, n) ← getRandomColor sp n;
    let '(ball, h) := alloc (newBall col currentDistance) h in
    '(h, c) ← insertBall ball (tail c) h c;
    spawnInitialLoop count' sp (currentDistance - BALL_RADIUS * 2) h c n
  end.

Definition spawnInitialBalls (sp : BallSpawner) (pathLength : Q) (count : nat)
    (h : Heap) (c : Chain) (n : nat) : option (Heap * Chain * nat) :=
  spawnInitialLoop count sp pathLength h c n.

End Random.

(** * Specification vocabulary *)

(** ** The chain as a list

    [dseg h p l n]: in store [h] the references [l] form a doubly linked
    segment, entered from [p] and left towards [n]. *)

Definition headOr (l : list positive) (n : option positive) : option positive :=
  match l with [] => n | r :: _ => Some r end.

Definition lastOr (l : list positive) (p : option positive) : option positive :=
  match last l with Some r => Some r | None => p end.

Fixpoint dseg (h : Heap) (p : option BallRef) (l : list BallRef)
    (n : option BallRef) : Prop :=
  match l with
  | [] => True
  | r :: l' => exists b, h !! r = Some b /\ prev b = p /\
                         next b = headOr l' n /\ dseg h (Some r) l' n
  end.

(** [chain_repr h c l]: the chain object [c] over store [h] holds exactly
    the balls [l], head first. *)
Definition chain_repr (h : Heap) (c : Chain) (l : list BallRef) : Prop :=
  NoDup l /\ head c = list.head l /\ tail c = last l /\ dseg h None l None.

(** [h'] differs from [h] at most in the distances of its balls. *)
Definition dist_update (h h' : Heap) : Prop :=
  forall r, h' !! r = set_distanceAlongPath (distOf h' r) <$> h !! r.

(** Neither the chain links nor the colours differ between [h] and [h']
    on the references [l]. *)
Definition same_links (l : list BallRef) (h h' : Heap) : Prop :=
  forall r b, r ∈ l -> h !! r = Some b ->
    exists b', h' !! r = Some b' /\ prev b' = prev b /\ next b' = next b.

(** Distances after a head-to-tail sweep that rewrites each distance from
    the previous one. *)
Fixpoint scan (step : Q -> Q -> Q) (d : Q) (ds : list Q) : list Q :=
  match ds with
  | [] => []
  | e :: ds' => let e' := step d e in e' :: scan step e' ds'
  end.

Definition pushStep (p d : Q) : Q :=
  if Qltb d (p + BALL_RADIUS * 2) then p + BALL_RADIUS * 2 else d.
Definition moveStep (delta : Q) (p d : Q) : Q := d + delta.
Definition repackStep (p d : Q) : Q := p + BALL_RADIUS * 2.

(** Every ball is at least two radii beyond the one before it. *)
Fixpoint spacedFrom (d : Q) (ds : list Q) : Prop :=
  match ds with
  | [] => True
  | e :: ds' => d + BALL_RADIUS * 2 <= e /\ spacedFrom e ds'
  end.

Definition spaced (ds : list Q) : Prop :=
  match ds with [] => True | d :: ds' => spacedFrom d ds' end.

(** Strictly increasing distances. *)
Fixpoint ascendingFrom (d : Q) (ds : list Q) : Prop :=
  match ds with
  | [] => True
  | e :: ds' => d < e /\ ascendingFrom e ds'
  end.

Definition ascending (ds : list Q) : Prop :=
  match ds with [] => True | d :: ds' => ascendingFrom d ds' end.

(** The generic sweep the three distance loops of the chain instantiate. *)
Fixpoint scanLoop (step : Q -> Q -> Q) (fuel : nat) (current : option BallRef)
    (prevDistance : Q) (h : Heap) : option Heap :=
  match current with
  | None => Some h
  | Some cur =>
    match fuel with
    | O => None
    | S fuel' =>
      cb ← h !! cur;
      h ← assign (set_distanceAlongPath (step prevDistance (distanceAlongPath cb))) cur h;
      cb ← h !! cur;
      scanLoop step fuel' (next cb) (distanceAlongPath cb) h
    end
  end.

(** [h'] differs from [h] at most in the [prev]/[next] links of its balls. *)
Definition relinked (h h' : Heap) : Prop :=
  forall r, colorOf h' r = colorOf h r /\
            (distanceAlongPath <$> h' !! r) = (distanceAlongPath <$> h !! r).

(** The movement and gap-closing fields of two chain objects agree. *)
Definition gap_state_eq (c c' : Chain) : Prop :=
  velocity c' = velocity c /\ splitPoint c' = splitPoint c /\
  backVelocity c' = backVelocity c /\ isClosingGap c' = isClosingGap c.

(** The ball right before the first ball of [l] that is in [balls]
    ([seen] is the ball before [l]). *)
Fixpoint boundaryBefore (balls l : list positive) (seen : option positive)
    : option positive :=
  match l with
  | [] => None
  | r :: l' => if decide (r ∈ balls) then seen
               else boundaryBefore balls l' (Some r)
  end.

(** The ball right after the last ball of [l] that is in [balls]. *)
Definition boundaryAfter (balls l : list positive) : option positive :=
  boundaryBefore balls (reverse l) None.

(** The order [removeBalls] sorts by. *)
Definition distLe (h : Heap) (a b : BallRef) : Prop := distOf h a <= distOf h b.

(** ** Sequences of insertions *)

(** Adjacent balls are at least two radii apart, in either direction. *)
Fixpoint spacedAbsFrom (d : Q) (ds : list Q) : Prop :=
  match ds with
  | [] => True
  | e :: ds' => BALL_RADIUS * 2 <= Qabs (e - d) /\ spacedAbsFrom e ds'
  end.

Definition spacedAbs (ds : list Q) : Prop :=
  match ds with [] => True | d :: ds' => spacedAbsFrom d ds' end.

(** A run of [insertBall] calls, each given the ball and [afterBall]. *)
Fixpoint insertAll (ops : list (BallRef * option BallRef)) (h : Heap) (c : Chain)
    : option (Heap * Chain) :=
  match ops with
  | [] => Some (h, c)
  | (ball, afterBall) :: ops' =>
    '(h, c) ← insertBall ball afterBall h c; insertAll ops' h c
  end.

(** The calls a caller may make: the ball is an object that is not in the
    chain, and [afterBall] is null or a ball of the chain. *)
Definition insertable (ball : BallRef) (afterBall : option BallRef)
    (h : Heap) (c : Chain) : Prop :=
  exists l, getBalls h c = Some l /\ (ball ∉ l) /\ is_Some (h !! ball) /\
            match afterBall with None => True | Some a => a ∈ l end.

Fixpoint insertableAll (ops : list (BallRef * option BallRef)) (h : Heap)
    (c : Chain) : Prop :=
  match ops with
  | [] => True
  | (ball, afterBall) :: ops' =>
    insertable ball afterBall h c /\
    forall h' c', insertBall ball afterBall h c = Some (h', c') ->
                  insertableAll ops' h' c'
  end.

(** Each ball inserted after a resident ball lies at least two radii away
    from that ball, on either side, at the time of the call. *)
Fixpoint clearOfPredecessor (ops : list (BallRef * option BallRef)) (h : Heap)
    (c : Chain) : Prop :=
  match ops with
  | [] => True
  | (ball, afterBall) :: ops' =>
    match afterBall with
    | None => True
    | Some a => BALL_RADIUS * 2 <= Qabs (distOf h ball - distOf h a)
    end /\
    forall h' c', insertBall ball afterBall h c = Some (h', c') ->
                  clearOfPredecessor ops' h' c'
  end.

(** ** Runs of chain updates *)

(** Every ball sits exactly two radii beyond the one before it. *)
Fixpoint packedFrom (d : Q) (ds : list Q) : Prop :=
  match ds with
  | [] => True
  | e :: ds' => e = d + BALL_RADIUS * 2 /\ packedFrom e ds'
  end.

(** One [chain.update(dt)] call per elapsed time in [dts]. *)
Fixpoint updateAll (dts : list Q) (h : Heap) (c : Chain) : option (Heap * Chain) :=
  match dts with
  | [] => Some (h, c)
  | dt :: dts' => '(h, c) ← update dt h c; updateAll dts' h c
  end.

(** The time a run of updates covers. *)
Definition sumQ (dts : list Q) : Q := foldr Qplus 0 dts.

(** The longest prefix of [l] whose balls all have colour [col]. *)
Fixpoint colorPrefix (h : Heap) (col : BallColor) (l : list BallRef)
    : list BallRef :=
  match l with
  | [] => []
  | r :: l' => if decide (colorOf h r = Some col)
               then r :: colorPrefix h col l' else []
  end.

(** The balls of colour [col] that surround [s] without interruption in the
    chain [l1 ++ s :: l2]. *)
Definition colorRun (h : Heap) (col : BallColor) (l1 : list BallRef)
    (s : BallRef) (l2 : list BallRef) : list BallRef :=
  reverse (colorPrefix h col (reverse l1)) ++ s :: colorPrefix h col l2.

(** ** Example stores *)

(** Three free balls, as [new Ball(color, distance)] makes them. *)
Definition threeBalls (d1 d2 d3 : Q) : Heap :=
  <[3%positive := newBall RED d3]>
    (<[2%positive := newBall RED d2]> (<[1%positive := newBall RED d1]> ∅)).

(** A square root that is exact on the squares of integers. *)
Definition integerSqrt (q : Q) : Q := inject_Z (Z.sqrt (Qfloor q)).

(** A straight horizontal track: the point at distance [d] is [(d, 0)] and
    the tangent is [(1, 0)] everywhere. *)
Definition straightPoint (d : Q) : Point := mkPoint d 0.
Definition straightTangent (d : Q) : Point := mkPoint 1 0.

(** Balls 1 and 2 in the chain at distances 100 and 132, touching; ball 3
    in flight at [(120, 0)], which is on the track between them. *)
Definition packedPairAndShot : option (Heap * Chain) :=
  let h := <[3%positive := set_position 120 0 (newBall RED 0)]>
             (<[2%positive := newBall BLUE 132]>
                (<[1%positive := newBall GREEN 100]> ∅)) in
  insertAll [(1, None); (2, Some 1)]%positive h newChain.

Definition redBlueSpawner : BallSpawner := mkBallSpawner [RED; BLUE] 1 0.

(** Balls 1, 2, 3 chained in this order at the given distances. *)
Definition chainOfThree (d1 d2 d3 : Q) : Heap * Chain :=
  default (∅, newChain)
    (insertAll [(1, None); (2, Some 1); (3, Some 2)]%positive
               (threeBalls d1 d2 d3) newChain).

(** A gap is closing behind ball 1: balls at 100, 200 and 240, the split
    point at 132. *)
Definition openGap : Heap * Chain :=
  let '(h, c) := chainOfThree 100 200 240 in
  (h, set_gap (Some 132) (- SNAP_BACK_SPEED) true c).

(** A chain of one ball, at distance 100. *)
Definition loneBall : Heap * Chain :=
  default (∅, newChain)
    (insertBall 1%positive None (<[1%positive := newBall RED 100]> ∅) newChain).

(** * More of the source *)

(** ** core/Chain.ts, the remaining queries *)

(** The loop of [getGapColors]: the last ball before the split point and the
    first ball at or beyond it. *)
Fixpoint gapLoop (fuel : nat) (current front : option BallRef) (split : Q)
    (h : Heap) : option (option BallRef * option BallRef) :=
  match current with
  | None => Some (front, None)
  | Some cur =>
    match fuel with
    | O => None
    | S fuel' =>
      cb ← h !! cur;
      if Qltb (distanceAlongPath cb) split
      then gapLoop fuel' (next cb) (Some cur) split h
      else Some (front, Some cur)
    end
  end.

(** [getGapColors()].  [!this.splitPoint] is true for [null] and for [0]. *)
Definition getGapColors (h : Heap) (c : Chain)
    : option (option BallColor * option BallColor) :=
  match splitPoint c with
  | None => Some (None, None)
  | Some split =>
    if Qeq_bool split 0 then Some (None, None)
    else
      '(front, back) ← gapLoop (size h) (head c) None split h;
      Some (front ≫= colorOf h, back ≫= colorOf h)
  end.

(** The loop of [findBallAtDistance]. *)
Fixpoint findAtLoop (fuel : nat) (current : option BallRef) (distance : Q)
    (h : Heap) : option (option BallRef) :=
  match current with
  | None => Some None
  | Some cur =>
    match fuel with
    | O => None
    | S fuel' =>
      cb ← h !! cur;
      if Qltb (Qabs (distanceAlongPath cb - distance)) (BALL_RADIUS * 2)
      then Some (Some cur)
      else findAtLoop fuel' (next cb) distance h
    end
  end.

Definition findBallAtDistance (distance : Q) (h : Heap) (c : Chain)
    : option (option BallRef) :=
  findAtLoop (size h) (head c) distance h.

(** ** Runs of chain operations *)

Inductive ChainOp :=
  | OpInsert (ball : BallRef) (afterBall : option BallRef)
  | OpRemove (ball : BallRef)
  | OpRemoveBalls (batch : list BallRef)
  | OpUpdate (deltaTime : Q)
  | OpClear.

Definition runOp (op : ChainOp) (h : Heap) (c : Chain) : option (Heap * Chain) :=
  match op with
  | OpInsert ball afterBall => insertBall ball afterBall h c
  | OpRemove ball => removeBall ball h c
  | OpRemoveBalls batch => '(_, h, c) ← removeBalls batch h c; Some (h, c)
  | OpUpdate dt => update dt h c
  | OpClear => Some (h, clear c)
  end.

Fixpoint runOps (ops : list ChainOp) (h : Heap) (c : Chain)
    : option (Heap * Chain) :=
  match ops with
  | [] => Some (h, c)
  | op :: ops' => '(h, c) ← runOp op h c; runOps ops' h c
  end.

(** What a caller owes each call: an inserted ball is an object outside the
    chain and [afterBall] is null or in the chain; a removed ball is in the
    chain; a removed batch holds chain balls, each once. *)
Definition opAllowed (op : ChainOp) (h : Heap) (c : Chain) : Prop :=
  match op with
  | OpInsert ball afterBall => insertable ball afterBall h c
  | OpRemove ball => exists l, getBalls h c = Some l /\ ball ∈ l
  | OpRemoveBalls batch =>
      exists l, getBalls h c = Some l /\ NoDup batch /\ forall r, r ∈ batch -> r ∈ l
  | OpUpdate _ => True
  | OpClear => True
  end.

Fixpoint opsAllowed (ops : list ChainOp) (h : Heap) (c : Chain) : Prop :=
  match ops with
  | [] => True
  | op :: ops' =>
    opAllowed op h c /\
    forall h' c', runOp op h c = Some (h', c') -> opsAllowed ops' h' c'
  end.


(** ** core/Collision.ts, the chain-reaction forecast *)

(** [willCreateChainReaction(ballsToRemove)].  The function sorts the
    caller's array in place; the result is what is modelled here. *)
Definition willCreateChainReaction (ballsToRemove : list BallRef) (h : Heap)
    : option (option (BallColor * BallColor)) :=
  match ballsToRemove with
  | [] => Some None
  | _ =>
    let sorted := sortByDistance h ballsToRemove in
    first ← list.head sorted;
    fb ← h !! first;
    final ← last sorted;
    lb ← h !! final;
    match prev fb, next lb with
    | Some f, Some b =>
      frontBall ← h !! f;
      backBall ← h !! b;
      if decide (color frontBall = color backBall)
      then Some (Some (color frontBall, color backBall))
      else Some None
    | _, _ => Some None
    end
  end.

(** The distance on screen from a fired ball at [firedPos] to the place of
    chain ball [r] on the path. *)
Definition screenDistance (sqrt : Q -> Q) (getPointAtDistance : Q -> Point)
    (firedPos : Point) (h : Heap) (r : BallRef) : Q :=
  distance sqrt firedPos (getPointAtDistance (distOf h r)).

(** The tail of the chain [l] leaves no room at the spawn point: it is less
    than two radii short of the end of the path. *)
Definition tailBlocks (pathLength : Q) (h : Heap) (l : list BallRef) : Prop :=
  exists t, last l = Some t /\ pathLength - distOf h t < BALL_RADIUS * 2.

(** The distances [spawnInitialBalls] hands out: [count] of them, from [d]
    down in steps of two radii. *)
Fixpoint spawnDistances (d : Q) (count : nat) : list Q :=
  match count with
  | O => []
  | S count' => d :: spawnDistances (d - BALL_RADIUS * 2) count'
  end.

(** ** game/GameState.ts and Game.ts, the spawn budget *)

(** What [updateSpawning] reads of the game: [this.currentPath.totalLength]
    and [this.currentLevel.spawnThreshold] ([None] for a null path or
    level), [this.state.levelConfig.spawnThreshold] ([None] for a null
    configuration) and [this.state.ballsSpawned]. *)
Record SpawnBudget := mkSpawnBudget {
  currentPathLength : option Q;
  currentLevelThreshold : option Z;
  levelConfigThreshold : option Z;
  ballsSpawned : Z
}.

(** [GameState.isSpawningComplete()] *)
Definition isSpawningComplete (g : SpawnBudget) : bool :=
  match levelConfigThreshold g with
  | None => false
  | Some threshold => (threshold <=? ballsSpawned g)%Z
  end.

(** [Game.updateSpawning(deltaTime)] *)
Definition updateSpawning (random : nat -> Q) (deltaTime : Q) (g : SpawnBudget)
    (sp : BallSpawner) (h : Heap) (c : Chain) (n : nat)
    : option (SpawnBudget * BallSpawner * Heap * Chain * nat) :=
  match currentPathLength g, currentLevelThreshold g with
  | Some pathLength, Some threshold =>
    if isSpawningComplete g then Some (g, sp, h, c, n)
    else
      let remaining := (threshold - ballsSpawned g)%Z in
      len ← getLength h c;
      '(spawned, sp, h, c, n) ←
        spawnerUpdate random deltaTime sp pathLength (remaining + len)%Z h c n;
      Some (mkSpawnBudget (currentPathLength g) (currentLevelThreshold g)
                          (levelConfigThreshold g) (ballsSpawned g + spawned)%Z,
            sp, h, c, n)
  | _, _ => Some (g, sp, h, c, n)
  end.

(** ** core/Ball.ts, the fired ball *)

(** [ball.setVelocity(vx, vy)] *)
Definition set_velocity (vx vy : Q) (b : Ball) : Ball :=
  mkBall (color b) (distanceAlongPath b) (state b) (prev b) (next b)
         (ball_x b) (ball_y b) vx vy.

(** [ball.updatePosition(deltaTime)] *)
Definition updatePosition (deltaTime : Q) (b : Ball) : Ball :=
  set_position (ball_x b + velocityX b * deltaTime)
               (ball_y b + velocityY b * deltaTime) b.

(** [ball.isOffScreen(width, height)], with the default margin of 50. *)
Definition isOffScreen (width height : Q) (b : Ball) : bool :=
  let margin := 50 in
  Qltb (ball_x b) (- margin) || Qltb (width + margin) (ball_x b) ||
  Qltb (ball_y b) (- margin) || Qltb (height + margin) (ball_y b).

(** ** core/Shooter.ts, firing *)

(** A [Map<BallColor, number>] in insertion order. *)
Abbreviation ColorCounts := (list (BallColor * Z)) (only parsing).

(** [counts.get(color)] *)
Fixpoint mapGet (counts : ColorCounts) (col : BallColor) : option Z :=
  match counts with
  | [] => None
  | (k, v) :: rest => if decide (k = col) then Some v else mapGet rest col
  end.

(** [counts.set(color, value)] *)
Fixpoint mapSet (counts : ColorCounts) (col : BallColor) (value : Z)
    : ColorCounts :=
  match counts with
  | [] => [(col, value)]
  | (k, v) :: rest => if decide (k = col) then (k, value) :: rest
                      else (k, v) :: mapSet rest col value
  end.

(** [BallSpawner.countChainColors(chain)] *)
Definition countChainColors (h : Heap) (c : Chain) : option ColorCounts :=
  chainBalls ← getBalls h c;
  foldl (fun counts ball =>
           counts ← counts;
           b ← h !! ball;
           let current := default 0%Z (mapGet counts (color b)) in
           Some (mapSet counts (color b) (current + 1)%Z))
        (Some []) chainBalls.

(** *** Rounding to a double

    The cooldown of the shooter is counted down by repeated subtraction and
    then compared with 0, so there the rounding of each result decides the
    outcome.  It is modelled for that countdown. *)

(** Round to an integer, halves to the even one. *)
Definition roundHalfEven (q : Q) : Z :=
  let f := Qfloor q in
  let r := q - inject_Z f in
  if Qltb r (1 # 2) then f
  else if Qltb (1 # 2) r then (f + 1)%Z
  else if Z.even f then f else (f + 1)%Z.

(** The exponent [e] with [2 ^ e <= q < 2 ^ (e + 1)], for positive [q]. *)
Definition binade (q : Q) : Z :=
  let e := (Z.log2 (Qnum q) - Z.log2 (Zpos (Qden q)))%Z in
  if Qltb q (2 ^ e) then (e - 1)%Z else e.

(** A positive number rounded to 53 significant bits. *)
Definition roundPositive (a : Q) : Q :=
  let ulp := 2 ^ (binade a - 52) in
  inject_Z (roundHalfEven (a / ulp)) * ulp.

(** The double nearest to [q]: 53 significant bits, ties to even.  The
    exponent is not bounded, so there is neither overflow nor underflow. *)
Definition binary64 (q : Q) : Q :=
  if Qeq_bool q 0 then 0
  else if Qltb q 0 then - roundPositive (- q)
  else roundPositive q.

(** [shooter.update(deltaTime)]: the product and the difference are
    doubles. *)
Definition shooterUpdate (deltaTime : Q) (s : Shooter) : Shooter :=
  if Qltb 0 (cooldown s) then
    let cd := binary64 (cooldown s - binary64 (deltaTime * 1000)) in
    let cd := if Qltb cd 0 then 0 else cd in
    mkShooter (position s) (rotation s) (currentBall s) (reserveBall s) cd
              (shooterColors s)
  else s.

(** One [shooter.update] call per elapsed time. *)
Definition shooterUpdates (dts : list Q) (s : Shooter) : Shooter :=
  foldl (fun s dt => shooterUpdate dt s) s dts.

(** The double nearest to [1 / 15], written 0.06666666666666667: the time of
    a frame at 15 frames per second. *)
Definition frame15 : Q := 4803839602528529 # 72057594037927936.

Section Firing.

Variable random : nat -> Q.

(** [angleToVector(angle)] is [(Math.cos(angle), Math.sin(angle))]. *)
Variable cos sin : Q -> Q.

(** The shooter's own [getRandomColor()]. *)
Definition shooterRandomColor (s : Shooter) (n : nat) : option (BallColor * nat) :=
  let i := Qfloor (random n * inject_Z (Z.of_nat (length (shooterColors s)))) in
  col ← elementAt (shooterColors s) i;
  Some (col, S n).

(** The shooter's [getWeightedRandomColor(colorCounts)].  The entries it
    adds to the caller's map, of count 0, are read back in the same call
    only. *)
Definition shooterWeightedRandomColor (s : Shooter) (colorCounts : ColorCounts)
    (n : nat) : option (BallColor * nat) :=
  match colorCounts with
  | [] => shooterRandomColor s n
  | _ =>
    let totalWeight := foldl (fun acc p => acc + inject_Z (snd p)) 0 colorCounts in
    let baseWeight := Qmax 1 (totalWeight * (1 # 10)) in
    let colorCounts :=
      foldl (fun m col => match mapGet m col with
                          | Some _ => m
                          | None => mapSet m col 0%Z
                          end) colorCounts (shooterColors s) in
    let weight col := inject_Z (default 0%Z (mapGet colorCounts col)) + baseWeight in
    let totalWeight := foldl (fun acc col => acc + weight col) 0 (shooterColors s) in
    let rnd := random n * totalWeight in
    match pickWeighted weight (shooterColors s) rnd with
    | Some col => Some (col, S n)
    | None => shooterRandomColor s (S n)
    end
  end.

(** [shooter.fire(colorCounts)]: the ball made, if any, and the shooter
    afterwards.  A ball's [id], a random string no code here reads, is not
    part of the ball record. *)
Definition fire (colorCounts : option ColorCounts) (s : Shooter) (n : nat)
    : option (option Ball * Shooter * nat) :=
  if negb (canFire s) then Some (None, s, n)
  else
    let ball := newBall (currentBall s) 0 in
    let ball := set_position (x (position s)) (y (position s)) ball in
    let ball := set_velocity (cos (rotation s) * FIRED_BALL_SPEED)
                             (sin (rotation s) * FIRED_BALL_SPEED) ball in
    '(reserve, n) ← match colorCounts with
                    | Some counts => shooterWeightedRandomColor s counts n
                    | None => shooterRandomColor s n
                    end;
    Some (Some ball,
          mkShooter (position s) (rotation s) (reserveBall s) reserve
                    SHOOTER_COOLDOWN (shooterColors s),
          n).

(** Game.ts, [fireShooter()]: the fired ball is a new object, appended to
    [this.firedBalls]. *)
Definition fireShooter (s : Shooter) (firedBalls : list BallRef) (h : Heap)
    (c : Chain) (n : nat) : option (Shooter * list BallRef * Heap * nat) :=
  colorCounts ← countChainColors h c;
  '(ball, s, n) ← fire (Some colorCounts) s n;
  match ball with
  | Some b => let '(r, h) := alloc b h in Some (s, firedBalls ++ [r], h, n)
  | None => Some (s, firedBalls, h, n)
  end.

End Firing.

(** ** core/Score.ts, levels and games *)

(** [score.resetLevel()] *)
Definition resetLevel (s : Score) : Score :=
  mkScore 0 (total s) 1 (highScore s).

(** [score.updateHighScore()]; the write to [localStorage] leaves the
    object as it is. *)
Definition updateHighScore (s : Score) : Score :=
  if (highScore s <? total s)%Z
  then mkScore (current s) (total s) (chainMultiplier s) (total s)
  else s.

(** [score.completeLevel()] *)
Definition completeLevel (s : Score) : Score :=
  updateHighScore
    (mkScore (current s) (total s + current s) (chainMultiplier s) (highScore s)).

(** [score.resetGame()] *)
Definition resetGame (s : Score) : Score :=
  mkScore 0 0 1 (highScore s).

(** The calls a game makes on its score. *)
Inductive ScoreOp :=
  | SAddMatchPoints (ballCount : Z)
  | SIncrementChainMultiplier
  | SResetChainMultiplier
  | SResetLevel
  | SCompleteLevel
  | SResetGame.

Definition runScoreOp (s : Score) (op : ScoreOp) : Score :=
  match op with
  | SAddMatchPoints ballCount => snd (addMatchPoints ballCount s)
  | SIncrementChainMultiplier => incrementChainMultiplier s
  | SResetChainMultiplier => resetChainMultiplier s
  | SResetLevel => resetLevel s
  | SCompleteLevel => completeLevel s
  | SResetGame => resetGame s
  end.

Definition runScoreOps (ops : list ScoreOp) (s : Score) : Score :=
  foldl runScoreOp s ops.

(** [ball.startExploding()] *)
Definition startExploding (r : BallRef) (h : Heap) : option Heap :=
  assign (set_state EXPLODING) r h.

(** [for (const ball of balls) ball.startExploding()]; the explosions
    handed to the effects renderer are not part of the game's logic. *)
Fixpoint explodeEach (balls : list BallRef) (h : Heap) : option Heap :=
  match balls with
  | [] => Some h
  | ball :: rest => h ← startExploding ball h; explodeEach rest h
  end.

(** ** core/types.ts, the game status *)

Inductive GameStatus := MENU | PLAYING | PAUSED | WIN | LOSE.

#[global] Instance GameStatus_eq_dec : EqDecision GameStatus.
Proof. solve_decision. Defined.

(** ** core/Level.ts, the level record *)

Record LevelConfig := mkLevelConfig {
  levelId : Z;
  levelName : string;
  levelPath : Path;
  levelColors : list BallColor;
  levelBallSpeed : Q;
  levelSpawnRate : Q;
  levelSpawnThreshold : Z;
  levelInitialBallCount : Z
}.

(** ** game/GameState.ts *)

Module GameState.

(** The [LevelConfig] interface of GameState.ts, which has neither path nor
    colours. *)
Record LevelConfig := mkLevelConfig {
  id : Z;
  name : string;
  ballSpeed : Q;
  spawnRate : Q;
  spawnThreshold : Z;
  initialBallCount : Z
}.

Record ShooterState := mkShooterState {
  x : Q;
  y : Q;
  rotation : Q;
  currentBallColor : string;
  reserveBallColor : string;
  cooldown : Q
}.

Record ScoreState := mkScoreState {
  current : Z;
  total : Z;
  chainMultiplier : Z;
  highScore : Z
}.

Record Explosion := mkExplosion {
  explosionX : Q;
  explosionY : Q;
  explosionColor : string;
  progress : Q
}.

Record t := mk {
  status : GameStatus;
  currentLevel : Z;
  levelConfig : option LevelConfig;
  chain : Chain;
  firedBalls : list BallRef;
  shooter : ShooterState;
  score : ScoreState;
  ballsSpawned : Z;
  timeElapsed : Q;
  spawnAccumulator : Q;
  explosions : list Explosion
}.

(** [new GameState()] *)
Definition new : t :=
  mk MENU 1 None newChain []
     (mkShooterState 400 300 0 "red" "blue" 0)
     (mkScoreState 0 0 1 0) 0 0 0 [].

Definition set_status (st : GameStatus) (s : t) : t :=
  mk st (currentLevel s) (levelConfig s) (chain s) (firedBalls s) (shooter s)
     (score s) (ballsSpawned s) (timeElapsed s) (spawnAccumulator s)
     (explosions s).

Definition set_currentLevel (n : Z) (s : t) : t :=
  mk (status s) n (levelConfig s) (chain s) (firedBalls s) (shooter s)
     (score s) (ballsSpawned s) (timeElapsed s) (spawnAccumulator s)
     (explosions s).

Definition set_score (sc : ScoreState) (s : t) : t :=
  mk (status s) (currentLevel s) (levelConfig s) (chain s) (firedBalls s)
     (shooter s) sc (ballsSpawned s) (timeElapsed s) (spawnAccumulator s)
     (explosions s).

Definition set_ballsSpawned (n : Z) (s : t) : t :=
  mk (status s) (currentLevel s) (levelConfig s) (chain s) (firedBalls s)
     (shooter s) (score s) n (timeElapsed s) (spawnAccumulator s)
     (explosions s).

Definition set_timeElapsed (e : Q) (s : t) : t :=
  mk (status s) (currentLevel s) (levelConfig s) (chain s) (firedBalls s)
     (shooter s) (score s) (ballsSpawned s) e (spawnAccumulator s)
     (explosions s).

(** [resetForNewGame()] *)
Definition resetForNewGame (s : t) : t :=
  mk MENU 1 (levelConfig s) (clear (chain s)) [] (shooter s)
     (mkScoreState 0 0 1 (highScore (score s))) 0 0 0 [].

(** [resetForLevel(levelConfig)] *)
Definition resetForLevel (cfg : LevelConfig) (s : t) : t :=
  let ch := clear (chain s) in
  let ch := mkChain (head ch) (tail ch) (ballSpeed cfg) (splitPoint ch)
                    (backVelocity ch) (isClosingGap ch) in
  let sh := shooter s in
  mk (status s) (currentLevel s) (Some cfg) ch [] 
     (mkShooterState (x sh) (y sh) (rotation sh) (currentBallColor sh)
                     (reserveBallColor sh) 0)
     (mkScoreState 0 (total (score s)) 1 (highScore (score s))) 0 0 0 [].

(** [isSpawningComplete()] *)
Definition isSpawningComplete (s : t) : bool :=
  match levelConfig s with
  | None => false
  | Some cfg => (spawnThreshold cfg <=? ballsSpawned s)%Z
  end.

(** [hasWon()] *)
Definition hasWon (s : t) : bool :=
  isSpawningComplete s && isEmpty (chain s) &&
  bool_decide (firedBalls s = []).

(** [saveHighScore()]; the write to [localStorage] leaves the object as it
    is. *)
Definition saveHighScore (s : t) : t :=
  let sc := score s in
  if (highScore sc <? total sc)%Z
  then set_score (mkScoreState (current sc) (total sc) (chainMultiplier sc)
                               (total sc)) s
  else s.

End GameState.

(** ** Game.ts and game/StateManager.ts *)

Module Game.

(** The objects a [Game] holds, without the renderers, the audio and the
    input devices, together with the store of ball objects and the number
    of colour draws made so far.  The state manager's callback is
    [onStateChange] below, as the constructor installs it. *)
Record t := mk {
  state : GameState.t;
  chain : Chain;
  shooter : Shooter;
  spawner : BallSpawner;
  score : Score;
  firedBalls : list BallRef;
  currentLevel : option LevelConfig;
  currentPath : option Path;
  pendingChainReaction : option GapInfo;
  heap : Heap;
  draws : nat
}.

Definition withState (s : GameState.t) (g : t) : t :=
  mk s (chain g) (shooter g) (spawner g) (score g) (firedBalls g)
     (currentLevel g) (currentPath g) (pendingChainReaction g) (heap g) (draws g).

Definition withScore (s : Score) (g : t) : t :=
  mk (state g) (chain g) (shooter g) (spawner g) s (firedBalls g)
     (currentLevel g) (currentPath g) (pendingChainReaction g) (heap g) (draws g).

Section Play.

Variable random : nat -> Q.

(** [levels] of levels/index.ts. *)
Variable levels : list LevelConfig.

(** [TOTAL_LEVELS] *)
Definition TOTAL_LEVELS : Z := Z.of_nat (length levels).

(** [getLevel(id)] *)
Definition getLevel (n : Z) : option LevelConfig :=
  List.find (fun l => (levelId l =? n)%Z) levels.

(** [new Shooter(x, y)] *)
Definition newShooter (px py : Q) (n : nat) : option (Shooter * nat) :=
  let s := mkShooter (mkPoint px py) 0 RED RED 0 [RED; BLUE; GREEN; YELLOW] in
  '(cur, n) ← shooterRandomColor random s n;
  '(res, n) ← shooterRandomColor random s n;
  Some (mkShooter (mkPoint px py) 0 cur res 0 [RED; BLUE; GREEN; YELLOW], n).

(** [shooter.setAvailableColors(colors)] *)
Definition setAvailableColors (colors : list BallColor) (s : Shooter) (n : nat)
    : option (Shooter * nat) :=
  let s := mkShooter (position s) (rotation s) (currentBall s)
                     (reserveBall s) (cooldown s) colors in
  '(cur, n) ← shooterRandomColor random s n;
  '(res, n) ← shooterRandomColor random s n;
  Some (mkShooter (position s) (rotation s) cur res
                  (cooldown s) colors, n).

(** [handleNewGame()] *)
Definition handleNewGame (g : t) : t := withScore (resetGame (score g)) g.

(** [handleLevelComplete()] *)
Definition handleLevelComplete (g : t) : t :=
  withScore (completeLevel (score g)) g.

(** [initializeLevel()] *)
Definition initializeLevel (g : t) : option t :=
  match getLevel (GameState.currentLevel (state g)) with
  | None => Some g
  | Some levelConfig =>
    let path := levelPath levelConfig in
    let ch := mkChain None None (levelBallSpeed levelConfig) None 0 false in
    let sp := mkBallSpawner (levelColors levelConfig)
                            (levelSpawnRate levelConfig) 0 in
    '(sh, n) ← newShooter (CANVAS_WIDTH / 2) (CANVAS_HEIGHT / 2) (draws g);
    '(sh, n) ← setAvailableColors (levelColors levelConfig) sh n;
    '(h, ch, n) ← spawnInitialBalls random sp (totalLength path)
                    (Z.to_nat (levelInitialBallCount levelConfig))
                    (heap g) ch n;
    let sc := resetLevel (score g) in
    let st := GameState.resetForLevel
                (GameState.mkLevelConfig
                   (levelId levelConfig) (levelName levelConfig)
                   (levelBallSpeed levelConfig) (levelSpawnRate levelConfig)
                   (levelSpawnThreshold levelConfig)
                   (levelInitialBallCount levelConfig))
                (state g) in
    let st := GameState.set_ballsSpawned (levelInitialBallCount levelConfig) st in
    Some (mk st ch sh sp sc [] (Some levelConfig) (Some path)
             (pendingChainReaction g) h n)
  end.

(** [onStateChange(newStatus)] *)
Definition onStateChange (newStatus : GameStatus) (g : t) : option t :=
  match newStatus with
  | PLAYING =>
    let g := if (GameState.currentLevel (state g) =? 1)%Z
             then handleNewGame g else g in
    initializeLevel g
  | WIN => Some (handleLevelComplete g)
  | _ => Some g
  end.

(** [addMatchScore(ballCount, isChainReaction)] *)
Definition addMatchScore (ballCount : Z) (isChainReaction : bool) (g : t) : t :=
  let sc := if isChainReaction then incrementChainMultiplier (score g)
            else score g in
  withScore (snd (addMatchPoints ballCount sc)) g.

(** The branch both [checkAndProcessMatch] and [updateGapClosing] take on a
    match: explode, remove, score, and remember the new gap. *)
Definition processMatch (m : MatchResult) (isChainReaction : bool) (g : t)
    : option t :=
  h ← explodeEach (balls m) (heap g);
  '(gapInfo, h, c) ← removeBalls (balls m) h (chain g);
  let g := mk (state g) c (shooter g) (spawner g) (score g) (firedBalls g)
              (currentLevel g) (currentPath g) (pendingChainReaction g) h
              (draws g) in
  let g := addMatchScore (Z.of_nat (length (balls m))) isChainReaction g in
  let pending := match frontBall gapInfo, backBall gapInfo with
                 | Some _, Some _ => Some gapInfo
                 | _, _ => pendingChainReaction g
                 end in
  Some (mk (state g) (chain g) (shooter g) (spawner g) (score g) (firedBalls g)
           (currentLevel g) (currentPath g) pending (heap g) (draws g)).

(** [checkAndProcessMatch(insertedBall)] *)
Definition checkAndProcessMatch (insertedBall : BallRef) (g : t) : option t :=
  match currentPath g with
  | None => Some g
  | Some _ =>
    m ← findMatch insertedBall (heap g);
    match m with
    | Some m => processMatch m false g
    | None => Some (withScore (resetChainMultiplier (score g)) g)
    end
  end.

(** [updateGapClosing(deltaTime)] *)
Definition updateGapClosing (deltaTime : Q) (g : t) : option t :=
  '(h, c) ← update deltaTime (heap g) (chain g);
  let g := mk (state g) c (shooter g) (spawner g) (score g) (firedBalls g)
              (currentLevel g) (currentPath g) (pendingChainReaction g) h
              (draws g) in
  match isGapClosing c, pendingChainReaction g with
  | false, Some pending =>
    let g := mk (state g) (chain g) (shooter g) (spawner g) (score g)
                (firedBalls g) (currentLevel g) (currentPath g) None (heap g)
                (draws g) in
    chainMatch ← checkChainReaction (frontBall pending) (backBall pending) (heap g);
    match chainMatch, currentPath g with
    | Some m, Some _ => processMatch m true g
    | _, _ => Some (withScore (resetChainMultiplier (score g)) g)
    end
  | _, _ => Some g
  end.

End Play.

End Game.

Module StateManager.

Section Transitions.

Variable random : nat -> Q.
Variable levels : list LevelConfig.

(** [transitionTo(newStatus)] *)
Definition transitionTo (newStatus : GameStatus) (g : Game.t) : option Game.t :=
  let g := Game.withState (GameState.set_status newStatus (Game.state g)) g in
  Game.onStateChange random levels newStatus g.

Definition getStatus (g : Game.t) : GameStatus := GameState.status (Game.state g).

(** [startGame()] *)
Definition startGame (g : Game.t) : option Game.t :=
  if decide (getStatus g <> MENU) then Some g
  else
    let st := GameState.set_currentLevel 1 (Game.state g) in
    let sc := GameState.score st in
    let st := GameState.set_score
                (GameState.mkScoreState (GameState.current sc) 0
                   (GameState.chainMultiplier sc) (GameState.highScore sc)) st in
    transitionTo PLAYING (Game.withState st g).

(** [startLevel(levelNumber)] *)
Definition startLevel (levelNumber : Z) (g : Game.t) : option Game.t :=
  transitionTo PLAYING
    (Game.withState (GameState.set_currentLevel levelNumber (Game.state g)) g).

(** [pause()] *)
Definition pause (g : Game.t) : option Game.t :=
  if decide (getStatus g <> PLAYING) then Some g else transitionTo PAUSED g.

(** [resume()] *)
Definition resume (g : Game.t) : option Game.t :=
  if decide (getStatus g <> PAUSED) then Some g else transitionTo PLAYING g.

(** [togglePause()] *)
Definition togglePause (g : Game.t) : option Game.t :=
  if decide (getStatus g = PLAYING) then pause g
  else if decide (getStatus g = PAUSED) then resume g
  else Some g.

(** [win()] *)
Definition win (g : Game.t) : option Game.t :=
  if decide (getStatus g <> PLAYING) then Some g
  else
    let st := Game.state g in
    let sc := GameState.score st in
    let st := GameState.set_score
                (GameState.mkScoreState (GameState.current sc)
                   (GameState.total sc + GameState.current sc)
                   (GameState.chainMultiplier sc) (GameState.highScore sc)) st in
    let st := GameState.saveHighScore st in
    transitionTo WIN (Game.withState st g).

(** [lose()] *)
Definition lose (g : Game.t) : option Game.t :=
  if decide (getStatus g <> PLAYING) then Some g
  else
    transitionTo LOSE
      (Game.withState (GameState.saveHighScore (Game.state g)) g).

(** [nextLevel()] *)
Definition nextLevel (g : Game.t) : option Game.t :=
  if decide (getStatus g <> WIN) then Some g
  else if (GameState.currentLevel (Game.state g) <? Game.TOTAL_LEVELS levels)%Z
  then
    let st := Game.state g in
    transitionTo PLAYING
      (Game.withState
         (GameState.set_currentLevel (GameState.currentLevel st + 1) st) g)
  else transitionTo MENU g.

(** [retry()] *)
Definition retry (g : Game.t) : option Game.t :=
  if decide (getStatus g <> LOSE /\ getStatus g <> WIN) then Some g
  else transitionTo PLAYING g.

(** [quitToMenu()] *)
Definition quitToMenu (g : Game.t) : option Game.t :=
  transitionTo MENU
    (Game.withState (GameState.resetForNewGame (Game.state g)) g).

Definition isPlaying (g : Game.t) : bool := bool_decide (getStatus g = PLAYING).
Definition isPaused (g : Game.t) : bool := bool_decide (getStatus g = PAUSED).
Definition isInMenu (g : Game.t) : bool := bool_decide (getStatus g = MENU).
Definition isGameOver (g : Game.t) : bool :=
  bool_decide (getStatus g = WIN) || bool_decide (getStatus g = LOSE).
Definition hasWon (g : Game.t) : bool := bool_decide (getStatus g = WIN).
Definition hasLost (g : Game.t) : bool := bool_decide (getStatus g = LOSE).

(** [isFinalLevel()] *)
Definition isFinalLevel (g : Game.t) : bool :=
  (Game.TOTAL_LEVELS levels <=? GameState.currentLevel (Game.state g))%Z.

End Transitions.

End StateManager.

(** A level of three initial balls on a path of length 200, and a game in
    play on it with one ball in the chain and a level score of 300. *)
Definition exampleLevel : LevelConfig :=
  mkLevelConfig 2 "example"
    (mkPath "example" [] 200 (mkPoint 0 0) (mkPoint 200 0) [])
    [RED; BLUE] 60 1 10 3.

Definition exampleGame : Game.t :=
  Game.mk (GameState.set_currentLevel 2
             (GameState.set_status PLAYING GameState.new))
          (snd loneBall)
          (mkShooter (mkPoint 400 300) 0 RED BLUE 0 [RED; BLUE])
          redBlueSpawner (mkScore 300 0 2 0) [] (Some exampleLevel)
          (Some (levelPath exampleLevel)) None (fst loneBall) 0.

(** ** core/Path.ts, distances and parameters *)

(** A quotient that is a finite number; dividing by 0 gives [Infinity] or
    [NaN] in JavaScript, which is [None] here. *)
Definition finiteQuotient (a b : Q) : option Q :=
  if Qeq_bool b 0 then None else Some (a / b).

(** The binary search of [distanceToT].  A comparison with [undefined] is
    false.  Each round brings [low] and [high] closer, so [high - low]
    rounds are enough. *)
Fixpoint searchLoop (fuel : nat) (table : list Q) (distance : Q) (low high : Z)
    : option Z :=
  if (low <? high)%Z then
    match fuel with
    | O => None
    | S fuel' =>
      let mid := ((low + high) / 2)%Z in
      if match elementAt table mid with
         | Some entry => Qltb entry distance
         | None => false
         end
      then searchLoop fuel' table distance (mid + 1) high
      else searchLoop fuel' table distance low mid
    end
  else Some low.

(** [distanceToT(distance)] *)
Definition distanceToT (p : Path) (distance : Q) : option Q :=
  let distance := Qmax 0 (Qmin (totalLength p) distance) in
  let table := arcLengthTable p in
  let high := (Z.of_nat (length table) - 1)%Z in
  low ← searchLoop (length table) table distance 0 high;
  if (low =? 0)%Z then Some 0
  else
    d0 ← elementAt table (low - 1);
    d1 ← elementAt table low;
    frac ← finiteQuotient (distance - d0) (d1 - d0);
    finiteQuotient (inject_Z (low - 1) + frac)
                   (inject_Z (Z.of_nat (length table) - 1)).

(** [tToDistance(t)] *)
Definition tToDistance (p : Path) (t : Q) : option Q :=
  let t := Qmax 0 (Qmin 1 t) in
  let table := arcLengthTable p in
  let index := t * inject_Z (Z.of_nat (length table) - 1) in
  let low := Qfloor index in
  let high := Qceiling index in
  let frac := index - inject_Z low in
  if (low =? high)%Z then elementAt table low
  else
    dl ← elementAt table low;
    dh ← elementAt table high;
    Some (dl + frac * (dh - dl)).

(** [getPointAtDistance(distance)] *)
Definition getPointAtDistance (p : Path) (distance : Q) : option Point :=
  t ← distanceToT p distance;
  getPointAtT (controlPoints p) t.

(** ** core/Level.ts, paths for the levels *)

(** [createPath(id, points)] *)
Definition createPath (sqrt : Q -> Q) (ident : string) (points : list Point)
    : Result Path :=
  newPath sqrt ident points.

(** [i % 2 === 0 ? 1 : -1] *)
Definition waveDirection (i : nat) : Q := if Nat.even i then 1 else - (1).

(** The points one round of the loop of [generateSCurvePath] pushes. *)
Definition sCurveRound (startX startY width segmentHeight : Q) (i : nat)
    : list Point :=
  let py := startY + inject_Z (Z.of_nat i) * segmentHeight in
  let direction := waveDirection i in
  match i with
  | O => [mkPoint startX py]
  | S i' =>
    let prevY := startY + inject_Z (Z.of_nat i') * segmentHeight in
    let prevDirection := waveDirection i' in
    [mkPoint (startX + prevDirection * width) (prevY + segmentHeight * (3 # 10));
     mkPoint (startX + direction * width) (py - segmentHeight * (3 # 10));
     mkPoint (startX + direction * width * (1 # 2)) py]
  end.

(** [generateSCurvePath(startX, startY, width, height, waves)] for a whole
    number of waves.  With no wave, [height / waves] is not a finite number
    and neither is the one point pushed. *)
Definition generateSCurvePath (startX startY width height : Q) (waves : nat)
    : option (list Point) :=
  segmentHeight ← finiteQuotient height (inject_Z (Z.of_nat waves));
  Some (flat_map (sCurveRound startX startY width segmentHeight)
                 (seq 0 (S waves))).

(** * Properties *)

Section Numbers.

Lemma Qltb_true a b : Qltb a b = true <-> a < b.
Proof. unfold Qltb. destruct (Qlt_le_dec a b); split; intros; try easy. lra. Qed.

Lemma Qltb_false a b : Qltb a b = false <-> b <= a.
Proof. unfold Qltb. destruct (Qlt_le_dec a b); split; intros; try easy. lra. Qed.

Lemma Qleb_true a b : Qleb a b = true <-> a <= b.
Proof. unfold Qleb. destruct (Qlt_le_dec b a); split; intros; try easy. lra. Qed.

Lemma Qleb_false a b : Qleb a b = false <-> b < a.
Proof. unfold Qleb. destruct (Qlt_le_dec b a); split; intros; try easy. lra. Qed.

Lemma elementAt_is_Some {A} (l : list A) (i : Z) :
  (0 <= i < Z.of_nat (length l))%Z -> is_Some (elementAt l i).
Proof.
  intros Hi. unfold elementAt. destruct (Z.ltb_spec i 0); [lia|].
  apply lookup_lt_is_Some. lia.
Qed.

End Numbers.

Section Store.

Implicit Types (h : gmap positive Ball) (l : list positive) (r : positive).

Lemma set_distanceAlongPath_id b :
  set_distanceAlongPath (distanceAlongPath b) b = b.
Proof. by destruct b. Qed.

Lemma distOf_lookup h r b : h !! r = Some b -> distOf h r = distanceAlongPath b.
Proof. unfold distOf. by intros ->. Qed.

Lemma distOf_insert h r b : distOf (<[r := b]> h) r = distanceAlongPath b.
Proof. unfold distOf. by rewrite lookup_insert_eq. Qed.

Lemma distOf_insert_ne h r r' b : r <> r' -> distOf (<[r := b]> h) r' = distOf h r'.
Proof. unfold distOf. intros. by rewrite lookup_insert_ne. Qed.

Lemma assign_Some f r h b :
  h !! r = Some b -> assign f r h = Some (<[r := f b]> h).
Proof. unfold assign. by intros ->. Qed.

Lemma dist_update_refl h : dist_update h h.
Proof.
  intros r. unfold distOf. destruct (h !! r) as [b|] eqn:E; simpl; [|done].
  by rewrite set_distanceAlongPath_id.
Qed.

Lemma dist_update_trans h1 h2 h3 :
  dist_update h1 h2 -> dist_update h2 h3 -> dist_update h1 h3.
Proof.
  intros H12 H23 r. rewrite (H23 r), (H12 r).
  destruct (h1 !! r) as [b|]; simpl; [|done]. by destruct b.
Qed.

Lemma dist_update_insert h r b d :
  h !! r = Some b -> dist_update h (<[r := set_distanceAlongPath d b]> h).
Proof.
  intros Hb r'. destruct (decide (r = r')) as [<-|Hne].
  - rewrite distOf_insert, lookup_insert_eq, Hb. by destruct b.
  - rewrite distOf_insert_ne, lookup_insert_ne by done. apply dist_update_refl.
Qed.

Lemma dist_update_Some h h' r b :
  dist_update h h' -> h !! r = Some b ->
  h' !! r = Some (set_distanceAlongPath (distOf h' r) b).
Proof. intros Hu Hb. by rewrite (Hu r), Hb. Qed.

Lemma dist_update_None h h' r :
  dist_update h h' -> h !! r = None -> h' !! r = None.
Proof. intros Hu Hb. by rewrite (Hu r), Hb. Qed.

Lemma dist_update_color h h' r :
  dist_update h h' -> colorOf h' r = colorOf h r.
Proof.
  intros Hu. unfold colorOf. rewrite (Hu r). by destruct (h !! r).
Qed.

Lemma dist_update_dom h h' : dist_update h h' -> dom h' = dom h.
Proof.
  intros Hu. apply set_eq. intros r. rewrite !elem_of_dom, (Hu r).
  destruct (h !! r); simpl; split; intros [? ?]; by eauto.
Qed.

Lemma dist_update_size h h' : dist_update h h' -> size h' = size h.
Proof.
  intros Hu.
  assert (Hs : size (dom h') = size (dom h)) by by rewrite (dist_update_dom h h').
  by rewrite !size_dom in Hs.
Qed.

Lemma dist_update_links l h h' : dist_update h h' -> same_links l h h'.
Proof.
  intros Hu r b _ Hb. eexists. split; [by eapply dist_update_Some|]. done.
Qed.

(** *** Segments *)

Lemma dseg_links h h' p l n :
  same_links l h h' -> dseg h p l n -> dseg h' p l n.
Proof.
  revert p. induction l as [|r l IH]; intros p Hs; simpl; [done|].
  intros (b & Hb & Hp & Hn & Hd).
  destruct (Hs r b) as (b' & Hb' & Hp' & Hn'); [left|done|].
  exists b'. repeat split; [done|congruence|congruence|].
  apply IH; [|done]. intros r0 b0 Hin. apply Hs. by right.
Qed.

Lemma dseg_app h p l1 l2 n :
  dseg h p (l1 ++ l2) n <->
  dseg h p l1 (headOr l2 n) /\ dseg h (lastOr l1 p) l2 n.
Proof.
  revert p. induction l1 as [|r l1 IH]; intros p; simpl.
  - unfold lastOr; simpl. tauto.
  - assert (Hl : lastOr (r :: l1) p = lastOr l1 (Some r)).
    { unfold lastOr. rewrite last_cons. by destruct (last l1). }
    rewrite Hl. assert (Hh : headOr (l1 ++ l2) n = headOr l1 (headOr l2 n))
      by by destruct l1.
    rewrite Hh. split.
    + intros (b & Hb & Hp & Hn & Hd). apply IH in Hd as [Hd1 Hd2].
      split; [|done]. by exists b.
    + intros [(b & Hb & Hp & Hn & Hd1) Hd2]. exists b. repeat split; try done.
      apply IH. done.
Qed.

Lemma dseg_lookup h p l n r : dseg h p l n -> r ∈ l -> is_Some (h !! r).
Proof.
  revert p. induction l as [|r' l IH]; intros p; simpl.
  - intros _ Hin. by apply elem_of_nil in Hin.
  - intros (b & Hb & _ & _ & Hd) [->|Hin]%elem_of_cons; eauto.
Qed.

Lemma dseg_length h p l n : dseg h p l n -> NoDup l -> (length l <= size h)%nat.
Proof.
  intros Hd Hnd.
  rewrite <- (size_dom (D := gset positive) h). unfold size, set_size; simpl.
  apply submseteq_length, NoDup_submseteq; [done|].
  intros r Hin. apply elem_of_elements, elem_of_dom. by eapply dseg_lookup.
Qed.

Lemma chain_repr_length h c l : chain_repr h c l -> (length l <= size h)%nat.
Proof. intros (Hnd & _ & _ & Hd). by eapply dseg_length. Qed.

(** *** The distance sweeps *)

Lemma scanLoop_spec step l : forall p d h fuel,
  dseg h p l None -> NoDup l -> (length l <= fuel)%nat ->
  exists h', scanLoop step fuel (list.head l) d h = Some h' /\
             dist_update h h' /\
             (forall r, r ∉ l -> h' !! r = h !! r) /\
             map (distOf h') l = scan step d (map (distOf h) l).
Proof.
  induction l as [|r l IH]; intros p d h fuel Hd Hnd Hf; simpl in *.
  - exists h. split; [by destruct fuel|]. split; [apply dist_update_refl|]. done.
  - destruct Hd as (b & Hb & Hp & Hn & Hd).
    apply NoDup_cons in Hnd as [Hr Hnd].
    destruct fuel as [|fuel]; [lia|]. simpl.
    rewrite Hb; simpl. rewrite (assign_Some _ _ _ _ Hb); simpl.
    rewrite lookup_insert_eq; simpl.
    set (b1 := set_distanceAlongPath (step d (distanceAlongPath b)) b).
    set (h1 := <[r := b1]> h).
    assert (Hu1 : dist_update h h1) by by apply dist_update_insert.
    assert (Hd1 : dseg h1 (Some r) l None).
    { eapply dseg_links; [|exact Hd]. by apply dist_update_links. }
    destruct (IH (Some r) (step d (distanceAlongPath b)) h1 fuel Hd1 Hnd)
      as (h' & Hrun & Hu & Hout & Hds); [lia|].
    assert (Hhd : next b = list.head l) by (rewrite Hn; by destruct l).
    exists h'. rewrite Hhd. split; [exact Hrun|].
    split; [by eapply dist_update_trans|].
    split.
    + intros r0 Hr0. apply not_elem_of_cons in Hr0 as [Hne Hr0].
      rewrite (Hout r0 Hr0). unfold h1. by rewrite lookup_insert_ne.
    + assert (Hr' : distOf h' r = step d (distanceAlongPath b)).
      { unfold distOf. rewrite (Hout r Hr). unfold h1.
        by rewrite lookup_insert_eq. }
      rewrite Hr', (distOf_lookup h r b Hb). f_equal.
      rewrite Hds. f_equal. apply map_ext_in. intros r0 Hin.
      apply distOf_insert_ne. intros ->. apply Hr. by apply list_elem_of_In.
Qed.

End Store.

Section Links.

Implicit Types (h : gmap positive Ball) (l : list positive) (r : positive).

Lemma relinked_refl h : relinked h h.
Proof. done. Qed.

Lemma relinked_trans h1 h2 h3 : relinked h1 h2 -> relinked h2 h3 -> relinked h1 h3.
Proof.
  intros H12 H23 r. destruct (H12 r) as [Hc Hd], (H23 r) as [Hc' Hd'].
  split; congruence.
Qed.

Lemma relinked_insert h r b b' :
  h !! r = Some b -> color b' = color b ->
  distanceAlongPath b' = distanceAlongPath b ->
  relinked h (<[r := b']> h).
Proof.
  intros Hb Hc Hd r'. unfold colorOf. destruct (decide (r = r')) as [<-|Hne].
  - rewrite lookup_insert_eq, Hb; simpl. by rewrite Hc, Hd.
  - by rewrite lookup_insert_ne.
Qed.

Lemma relinked_distOf h h' r : relinked h h' -> distOf h' r = distOf h r.
Proof.
  intros Hr. destruct (Hr r) as [_ Hd]. unfold distOf.
  destruct (h' !! r), (h !! r); simpl in *; congruence.
Qed.

Lemma relinked_colorOf h h' r : relinked h h' -> colorOf h' r = colorOf h r.
Proof. intros Hr. apply Hr. Qed.

Lemma dist_update_relinked_color h1 h2 h3 r :
  relinked h1 h2 -> dist_update h2 h3 -> colorOf h3 r = colorOf h1 r.
Proof.
  intros H12 H23. rewrite (dist_update_color h2 h3 r H23). apply H12.
Qed.

Lemma dseg_insert_out h p l n r b :
  r ∉ l -> dseg h p l n -> dseg (<[r := b]> h) p l n.
Proof.
  intros Hr. apply dseg_links. intros r0 b0 Hin Hb0.
  exists b0. rewrite lookup_insert_ne; [done|]. by intros ->.
Qed.

Lemma dseg_head h p l n r :
  dseg h p (r :: l) n ->
  exists b, h !! r = Some b /\ prev b = p /\ next b = headOr l n.
Proof. intros (b & ? & ? & ? & _). by exists b. Qed.

Lemma dseg_last h p l n r :
  dseg h p (l ++ [r]) n ->
  exists b, h !! r = Some b /\ prev b = lastOr l p /\ next b = n.
Proof.
  intros [_ Hd]%dseg_app. destruct Hd as (b & ? & ? & ? & _). by exists b.
Qed.

(** Re-pointing the [prev] link of the first ball of a segment. *)
Lemma dseg_set_prev h p p' l n r b :
  r ∉ l -> h !! r = Some b -> dseg h p (r :: l) n ->
  dseg (<[r := set_prev p' b]> h) p' (r :: l) n.
Proof.
  intros Hr Hb (b1 & Hb1 & Hp & Hn & Hd). simpl.
  exists (set_prev p' b). rewrite lookup_insert_eq.
  assert (b1 = b) as -> by congruence.
  repeat split; try done. by apply dseg_insert_out.
Qed.

(** Re-pointing the [next] link of the last ball of a segment. *)
Lemma dseg_set_next h p l n n' r b :
  r ∉ l -> h !! r = Some b -> dseg h p (l ++ [r]) n ->
  dseg (<[r := set_next n' b]> h) p (l ++ [r]) n'.
Proof.
  intros Hr Hb. rewrite !dseg_app. simpl. intros [Hd1 (b1 & Hb1 & Hp & Hn & _)].
  assert (b1 = b) as -> by congruence. split.
  - by apply dseg_insert_out.
  - exists (set_next n' b). by rewrite lookup_insert_eq.
Qed.

Lemma pushLoop_scanLoop fuel : forall current d h,
  pushLoop fuel current d h = scanLoop pushStep fuel current d h.
Proof.
  induction fuel as [|fuel IH]; intros [cur|] d h; simpl; try done.
  destruct (h !! cur) as [cb|] eqn:Hcb; simpl; [|done].
  unfold pushStep.
  destruct (Qltb (distanceAlongPath cb) (d + BALL_RADIUS * 2)); simpl.
  - rewrite (assign_Some _ _ _ _ Hcb). simpl. rewrite lookup_insert_eq. simpl.
    apply IH.
  - rewrite (assign_Some _ _ _ _ Hcb). simpl.
    rewrite set_distanceAlongPath_id, (insert_id h cur cb Hcb), Hcb. simpl.
    apply IH.
Qed.

Lemma moveLoop_scanLoop delta fuel : forall current d h,
  moveLoop fuel current delta h = scanLoop (moveStep delta) fuel current d h.
Proof.
  induction fuel as [|fuel IH]; intros [cur|] d h; simpl; try done.
  destruct (h !! cur) as [cb|] eqn:Hcb; simpl; [|done].
  change (moveStep delta d (distanceAlongPath cb)) with (distanceAlongPath cb + delta).
  rewrite (assign_Some _ _ _ _ Hcb). simpl. rewrite lookup_insert_eq. simpl.
  apply IH.
Qed.

Lemma repackLoop_scanLoop fuel : forall current d h,
  repackLoop fuel current d h = scanLoop repackStep fuel current d h.
Proof.
  induction fuel as [|fuel IH]; intros [cur|] d h; simpl; try done.
  unfold assign at 1. destruct (h !! cur) as [cb|] eqn:Hcb; simpl; [|done].
  change (repackStep d (distanceAlongPath cb)) with (d + BALL_RADIUS * 2).
  rewrite (assign_Some _ _ _ _ Hcb). simpl. rewrite lookup_insert_eq. simpl.
  apply IH.
Qed.

Lemma headOr_None l : headOr l None = list.head l.
Proof. by destruct l. Qed.

Lemma lastOr_None l : lastOr l None = last l.
Proof. unfold lastOr. by destruct (last l). Qed.

End Links.

Section Walk.

Implicit Types (h : gmap positive Ball) (l : list positive) (r : positive).

Lemma walk_spec l : forall h p fuel,
  dseg h p l None -> (length l <= fuel)%nat -> walk fuel (list.head l) h = Some l.
Proof.
  induction l as [|r l IH]; intros h p fuel Hd Hf; simpl in *.
  - by destruct fuel.
  - destruct fuel as [|fuel]; [lia|]. destruct Hd as (b & Hb & _ & Hn & Hd).
    simpl. rewrite Hb. simpl. rewrite Hn, headOr_None.
    rewrite (IH h (Some r) fuel Hd) by lia. done.
Qed.

Lemma getBalls_spec h c l : chain_repr h c l -> getBalls h c = Some l.
Proof.
  intros Hrepr. pose proof (chain_repr_length _ _ _ Hrepr) as Hlen.
  destruct Hrepr as (_ & Hh & _ & Hd). unfold getBalls. rewrite Hh.
  by eapply walk_spec.
Qed.

Lemma getLength_spec h c l :
  chain_repr h c l -> getLength h c = Some (Z.of_nat (length l)).
Proof. intros Hrepr. unfold getLength. by rewrite (getBalls_spec h c l). Qed.

End Walk.

(** [chain_repr] on a store and chain given in full. *)
Ltac concrete_repr :=
  split; [by apply (bool_decide_unpack _); vm_compute|];
  split; [by vm_compute|];
  split; [by vm_compute|];
  simpl;
  repeat (eexists; split; [by vm_compute|];
          split; [by vm_compute|]; split; [by vm_compute|]);
  exact I.

Section Insert.

Implicit Types (h : gmap positive Ball) (l : list positive) (r : positive).

Lemma pushBallsBack_spec h p ball l :
  dseg h p (ball :: l) None -> NoDup l ->
  exists h', pushBallsBack ball h = Some h' /\
             dist_update h h' /\
             (forall r, r ∉ l -> h' !! r = h !! r) /\
             map (distOf h') l = scan pushStep (distOf h ball) (map (distOf h) l).
Proof.
  intros (b & Hb & Hp & Hn & Hd) Hnd.
  unfold pushBallsBack. rewrite Hb; simpl. rewrite pushLoop_scanLoop.
  assert (Hhd : next b = list.head l) by (rewrite Hn; by destruct l).
  rewrite Hhd, (distOf_lookup h ball b Hb).
  eapply scanLoop_spec; [exact Hd|done|]. by eapply dseg_length.
Qed.

Lemma last_snoc_inv l : last l = None \/ exists l' a, l = l' ++ [a] /\ last l = Some a.
Proof.
  destruct l as [|r l] using rev_ind; [by left|].
  right. exists l, r. by rewrite last_snoc.
Qed.

Lemma linkBall_head_spec h c l ball b0 :
  chain_repr h c l -> h !! ball = Some b0 -> ball ∉ l ->
  exists h' c', linkBall ball None h c = Some (h', c') /\
    chain_repr h' c' (ball :: l) /\ relinked h h' /\ gap_state_eq c c'.
Proof.
  intros (Hnd & Hh & Ht & Hd) Hb Hball. unfold linkBall.
  rewrite (assign_Some _ _ _ _ Hb). simpl.
  rewrite (assign_Some _ _ (<[ball := _]> h) (set_prev None b0)) by apply lookup_insert_eq.
  simpl. rewrite insert_insert_eq.
  assert (Hrel1 : relinked h (<[ball:=set_next (head c) (set_prev None b0)]> h))
    by by eapply relinked_insert.
  destruct l as [|hd l].
  - simpl in Hh, Ht. rewrite Hh, Ht in *. simpl. eexists _, _. split; [done|].
    split; [|split; [exact Hrel1|done]].
    split; [apply NoDup_singleton|]. do 2 (split; [done|]).
    simpl. eexists. rewrite lookup_insert_eq. done.
  - simpl in Hh. rewrite Hh in *. simpl.
    apply not_elem_of_cons in Hball as [Hne Hball].
    apply NoDup_cons in Hnd as [Hhd Hnd].
    destruct (dseg_head _ _ _ _ _ Hd) as (hb & Hhb & Hhp & Hhn).
    rewrite (assign_Some _ _ _ hb) by by rewrite lookup_insert_ne.
    simpl. rewrite Ht, last_cons.
    assert (Htl : exists t, match last l with Some y => Some y | None => Some hd end = Some t)
      by (destruct (last l); eauto).
    destruct Htl as [t Htl]. rewrite Htl. eexists _, _. split; [done|].
    split; [|split].
    + split; [|split; [done|split]].
      * apply NoDup_cons. split; [|by apply NoDup_cons].
        apply not_elem_of_cons. done.
      * change (tail c = last (ball :: hd :: l)).
        rewrite Ht, !last_cons. by destruct (last l).
      * simpl. eexists. rewrite lookup_insert_ne, lookup_insert_eq by done.
        do 3 (split; [done|]).
        apply (dseg_set_prev _ None); [done|by rewrite lookup_insert_ne|].
        apply dseg_insert_out; [|done]. by apply not_elem_of_cons.
    + eapply relinked_trans; [exact Hrel1|].
      eapply relinked_insert; [by rewrite lookup_insert_ne|done..].
    + done.
Qed.

Lemma NoDup_snoc_last l1 a l2 :
  NoDup (l1 ++ a :: l2) -> (Some a = last (l1 ++ a :: l2) <-> l2 = []).
Proof.
  intros Hnd. split.
  - intros Hl. destruct l2 as [|r l2] using rev_ind; [done|].
    rewrite app_comm_cons, app_assoc, last_snoc in Hl. injection Hl as ->.
    apply NoDup_app in Hnd as (_ & _ & Hnd). apply NoDup_cons in Hnd as [Hr _].
    exfalso. apply Hr. apply elem_of_app. right. by left.
  - intros ->. by rewrite last_snoc.
Qed.

Lemma linkBall_after_spec h c l1 a l2 ball b0 :
  chain_repr h c (l1 ++ a :: l2) -> h !! ball = Some b0 -> ball ∉ l1 ++ a :: l2 ->
  exists h' c', linkBall ball (Some a) h c = Some (h', c') /\
    chain_repr h' c' (l1 ++ a :: ball :: l2) /\ relinked h h' /\ gap_state_eq c c'.
Proof.
  intros (Hnd & Hh & Ht & Hd) Hb Hball. unfold linkBall.
  assert (Hsplit : l1 ++ a :: l2 = (l1 ++ [a]) ++ l2) by by rewrite <- app_assoc.
  rewrite Hsplit in Hd. apply dseg_app in Hd as [Hd1 Hd2].
  destruct (dseg_last _ _ _ _ _ Hd1) as (ab & Hab & Hap & Han).
  assert (Hla : lastOr (l1 ++ [a]) None = Some a)
    by (unfold lastOr; by rewrite last_snoc).
  rewrite Hla in Hd2.
  apply not_elem_of_app in Hball as [Hb1 Hball].
  apply not_elem_of_cons in Hball as [Hnea Hb2].
  pose proof Hnd as Hnd0.
  apply NoDup_app in Hnd as (Hnd1 & Hdisj & Hnd2).
  apply NoDup_cons in Hnd2 as [Ha2 Hnd2].
  assert (Ha1 : a ∉ l1). { intros Hin. apply (Hdisj a Hin). by left. }
  rewrite (assign_Some _ _ _ _ Hb). simpl.
  rewrite lookup_insert_ne by done. rewrite Hab. simpl.
  rewrite (assign_Some _ _ (<[ball := _]> h) (set_prev (Some a) b0)) by apply lookup_insert_eq.
  simpl. rewrite insert_insert_eq, lookup_insert_ne by done. rewrite Hab. simpl.
  set (h2 := <[ball:=set_next (next ab) (set_prev (Some a) b0)]> h).
  assert (Hrel2 : relinked h h2) by by eapply relinked_insert.
  assert (Hstep3 : exists h3,
    match next ab with
    | Some n => assign (set_prev (Some ball)) n h2
    | None => Some h2
    end = Some h3 /\ relinked h2 h3 /\ h3 !! ball = h2 !! ball /\
    h3 !! a = Some ab /\ dseg h3 (Some ball) l2 None /\
    dseg h3 None (l1 ++ [a]) (headOr l2 None)).
  { assert (Hd1' : dseg h2 None (l1 ++ [a]) (headOr l2 None)).
    { apply dseg_insert_out; [|done]. apply not_elem_of_app. split; [done|].
      apply not_elem_of_cons. split; [done|]. apply not_elem_of_nil. }
    rewrite Han. destruct l2 as [|n2 l2]; simpl.
    - exists h2. split; [done|]. split; [done|]. split; [done|].
      split; [unfold h2; by rewrite lookup_insert_ne|]. done.
    - apply not_elem_of_cons in Hb2 as [Hne2 Hb2].
      apply not_elem_of_cons in Ha2 as [Hna2 Ha2].
      apply NoDup_cons in Hnd2 as [Hn2 Hnd2].
      destruct (dseg_head _ _ _ _ _ Hd2) as (nb & Hnb & Hnp & Hnn).
      assert (Hnb2 : h2 !! n2 = Some nb) by (unfold h2; by rewrite lookup_insert_ne).
      rewrite (assign_Some _ _ _ _ Hnb2).
      eexists. split; [done|].
      split; [by eapply relinked_insert|].
      split; [by rewrite lookup_insert_ne|].
      split; [unfold h2; by rewrite !lookup_insert_ne|].
      split.
      + apply (dseg_set_prev _ (Some a)); [done|done|].
        apply dseg_insert_out; [|done]. by apply not_elem_of_cons.
      + apply dseg_insert_out; [|done]. apply not_elem_of_app. split.
        * intros Hin. apply (Hdisj n2 Hin). right. by left.
        * apply not_elem_of_cons. split; [done|]. apply not_elem_of_nil. }
  destruct Hstep3 as (h3 & -> & Hrel3 & Hball3 & Ha3 & Hd3 & Hd13). simpl.
  rewrite (assign_Some _ _ _ _ Ha3). simpl.
  eexists _, _. split; [done|]. split; [|split].
  - split; [|split; [|split]].
    + apply NoDup_app. split; [done|]. split.
      * intros x Hx. specialize (Hdisj x Hx).
        apply not_elem_of_cons in Hdisj as [Hxa Hx2].
        apply not_elem_of_cons. split; [done|].
        apply not_elem_of_cons. split; [|done]. by intros ->.
      * apply NoDup_cons. split; [|by apply NoDup_cons].
        apply not_elem_of_cons. split; [done|done].
    + transitivity (head c); [by destruct (decide _)|].
      rewrite Hh. by destruct l1.
    + destruct (decide (Some a = tail c)) as [Heq|Hneq].
      * rewrite Ht in Heq. apply NoDup_snoc_last in Heq; [|done]. subst l2.
        simpl. change (l1 ++ [a; ball]) with (l1 ++ [a] ++ [ball]).
        by rewrite app_assoc, last_snoc.
      * rewrite Ht. rewrite Ht in Hneq.
        destruct l2 as [|n2 l2] using rev_ind.
        { exfalso. apply Hneq. by rewrite last_snoc. }
        clear IHl2. rewrite !app_comm_cons, !app_assoc, !last_snoc. done.
    + assert (Hs2 : l1 ++ a :: ball :: l2 = (l1 ++ [a]) ++ ball :: l2)
        by by rewrite <- app_assoc.
      rewrite Hs2. apply dseg_app. rewrite Hla. split.
      * simpl. eapply dseg_set_next; [done|done|exact Hd13].
      * simpl. eexists. rewrite lookup_insert_ne by done. rewrite Hball3.
        unfold h2. rewrite lookup_insert_eq. split; [done|]. split; [done|].
        split; [simpl; by rewrite Han|].
        apply dseg_insert_out; done.
  - eapply relinked_trans; [exact Hrel2|]. eapply relinked_trans; [exact Hrel3|].
    by eapply relinked_insert.
  - by destruct (decide _).
Qed.

Lemma chain_repr_dist_update h h' c l :
  dist_update h h' -> chain_repr h c l -> chain_repr h' c l.
Proof.
  intros Hu (Hnd & Hh & Ht & Hd). repeat split; try done.
  eapply dseg_links; [|exact Hd]. by apply dist_update_links.
Qed.

(** [insertBall] splices [ball] right after the last ball of [l1] (at the
    head when [l1] is empty) and sweeps the balls behind it. *)
Lemma insertBall_spec h c l1 l2 ball b0 :
  chain_repr h c (l1 ++ l2) -> h !! ball = Some b0 -> ball ∉ l1 ++ l2 ->
  exists h' c', insertBall ball (last l1) h c = Some (h', c') /\
    chain_repr h' c' (l1 ++ ball :: l2) /\
    (forall r, colorOf h' r = colorOf h r) /\
    (forall r, r ∉ l2 -> distOf h' r = distOf h r) /\
    map (distOf h') l2 = scan pushStep (distOf h ball) (map (distOf h) l2) /\
    gap_state_eq c c'.
Proof.
  intros Hrepr Hb Hball.
  assert (Hlink : exists h1 c', linkBall ball (last l1) h c = Some (h1, c') /\
    chain_repr h1 c' (l1 ++ ball :: l2) /\ relinked h h1 /\ gap_state_eq c c').
  { destruct (last_snoc_inv l1) as [Hl|(l1' & a & -> & Hl)].
    - rewrite Hl. apply last_None in Hl as ->. by eapply linkBall_head_spec.
    - rewrite Hl, <- !app_assoc. rewrite <- app_assoc in Hrepr, Hball.
      by eapply linkBall_after_spec. }
  destruct Hlink as (h1 & c' & Hlink & Hrepr1 & Hrel & Hgap).
  unfold insertBall. rewrite Hlink. simpl.
  pose proof Hrepr1 as (Hnd & _ & _ & Hd).
  apply dseg_app in Hd as [_ Hd].
  apply NoDup_app in Hnd as (_ & _ & Hnd2). apply NoDup_cons in Hnd2 as [_ Hnd2].
  destruct (pushBallsBack_spec _ _ _ _ Hd Hnd2) as (h' & -> & Hu & Hout & Hds).
  simpl. exists h', c'. split; [done|].
  split; [|split; [|split; [|split]]].
  - by eapply chain_repr_dist_update.
  - intros r. by eapply dist_update_relinked_color.
  - intros r Hr. unfold distOf at 1. rewrite (Hout r Hr).
    by apply relinked_distOf.
  - rewrite Hds, (relinked_distOf h h1 ball Hrel). f_equal.
    apply map_ext. intros r. by apply relinked_distOf.
  - done.
Qed.

End Insert.

Section Spacing.

Implicit Types (h : gmap positive Ball) (l : list positive) (r : positive).

Lemma scan_push_spaced d ds : spacedFrom d (scan pushStep d ds).
Proof.
  revert d. induction ds as [|e ds IH]; intros d; simpl; [done|].
  split; [|apply IH]. unfold pushStep.
  destruct (Qltb e (d + BALL_RADIUS * 2)) eqn:E; [lra|].
  by apply Qltb_false in E.
Qed.

Lemma spacedFrom_app d ds1 ds2 :
  spacedFrom d (ds1 ++ ds2) <->
  spacedFrom d ds1 /\ spacedFrom (default d (last ds1)) ds2.
Proof.
  revert d. induction ds1 as [|e ds1 IH]; intros d; simpl; [tauto|].
  rewrite IH, last_cons. destruct (last ds1); simpl; tauto.
Qed.

Lemma spaced_cons d ds : spaced (d :: ds) <-> spacedFrom d ds.
Proof. done. Qed.

Lemma spacedFrom_spaced d ds : spacedFrom d ds -> spaced ds.
Proof. destruct ds; simpl; tauto. Qed.

Lemma spacedFrom_abs d ds : spacedFrom d ds -> spacedAbsFrom d ds.
Proof.
  revert d. induction ds as [|e ds IH]; intros d; [done|].
  cbn [spacedFrom spacedAbsFrom].
  intros [Hde Hs]. split; [|by apply IH].
  eapply Qle_trans; [|apply Qle_Qabs]. lra.
Qed.

Lemma spaced_abs ds : spaced ds -> spacedAbs ds.
Proof. destruct ds; simpl; [done|]. apply spacedFrom_abs. Qed.

(** One insertion: the spacing holds from the inserted ball to the tail
    whatever the chain looked like; it holds at the inserted ball's
    predecessor when the caller put the ball far enough. *)
Lemma insertBall_spaced h c l ball afterBall :
  chain_repr h c l -> spaced (map (distOf h) l) ->
  insertable ball afterBall h c ->
  match afterBall with
  | None => True
  | Some a => distOf h a + BALL_RADIUS * 2 <= distOf h ball
  end ->
  exists h' c' l', insertBall ball afterBall h c = Some (h', c') /\
    chain_repr h' c' l' /\ spaced (map (distOf h') l').
Proof.
  intros Hrepr Hsp (l0 & Hl0 & Hball & [b0 Hb0] & Hafter) Hclear.
  rewrite (getBalls_spec h c l Hrepr) in Hl0. injection Hl0 as <-.
  assert (Hsplit : exists l1 l2, l = l1 ++ l2 /\ afterBall = last l1).
  { destruct afterBall as [a|].
    - destruct (list_elem_of_split l a Hafter) as (l1 & l2 & ->).
      exists (l1 ++ [a]), l2. by rewrite <- app_assoc, last_snoc.
    - by exists [], l. }
  destruct Hsplit as (l1 & l2 & -> & ->).
  destruct (insertBall_spec h c l1 l2 ball b0 Hrepr Hb0 Hball)
    as (h' & c' & Hrun & Hrepr' & _ & Hout & Hds & _).
  exists h', c', (l1 ++ ball :: l2). split; [done|]. split; [done|].
  pose proof Hrepr as (Hnd & _).
  apply NoDup_app in Hnd as (_ & Hdisj & _).
  apply not_elem_of_app in Hball as [_ Hb2].
  assert (Hd1 : map (distOf h') l1 = map (distOf h) l1).
  { apply map_ext_in. intros r Hr. apply Hout, Hdisj. by apply list_elem_of_In. }
  rewrite map_app in *. simpl. rewrite Hd1, Hds, (Hout ball Hb2).
  destruct (map (distOf h) l1) as [|d0 ds1] eqn:Hm1; simpl in *.
  - apply scan_push_spaced.
  - apply spacedFrom_app in Hsp as [Hsp1 _].
    change (d0 :: ds1 ++ distOf h ball :: scan pushStep (distOf h ball)
             (map (distOf h) l2))
      with (d0 :: ds1 ++ [distOf h ball] ++ scan pushStep (distOf h ball)
             (map (distOf h) l2)).
    simpl. apply spacedFrom_app. split; [done|]. simpl.
    split; [|apply scan_push_spaced].
    destruct (last_snoc_inv l1) as [Hl|(l1' & a & -> & Hl)].
    + apply last_None in Hl as ->. done.
    + rewrite Hl in Hclear. rewrite map_app in Hm1. simpl in Hm1.
      assert (Hlast : last (d0 :: ds1) = Some (distOf h a))
        by (rewrite <- Hm1; apply last_snoc).
      rewrite last_cons in Hlast. destruct (last ds1); simpl.
      * by injection Hlast as ->.
      * by injection Hlast as ->.
Qed.

Lemma spacedAbsFrom_app d ds1 ds2 :
  spacedAbsFrom d (ds1 ++ ds2) <->
  spacedAbsFrom d ds1 /\ spacedAbsFrom (default d (last ds1)) ds2.
Proof.
  revert d. induction ds1 as [|e ds1 IH]; intros d; cbn [app spacedAbsFrom].
  - simpl. tauto.
  - rewrite IH, last_cons. destruct (last ds1); simpl; tauto.
Qed.

(** One insertion, distances read in either direction: the balls ahead of
    the inserted ball stay where they are, the inserted ball is as far from
    its predecessor as the caller put it, and the sweep spaces everything
    behind it. *)
Lemma insertBall_spacedAbs h c l ball afterBall :
  chain_repr h c l -> spacedAbs (map (distOf h) l) ->
  insertable ball afterBall h c ->
  match afterBall with
  | None => True
  | Some a => BALL_RADIUS * 2 <= Qabs (distOf h ball - distOf h a)
  end ->
  exists h' c' l', insertBall ball afterBall h c = Some (h', c') /\
    chain_repr h' c' l' /\ spacedAbs (map (distOf h') l').
Proof.
  intros Hrepr Hsp (l0 & Hl0 & Hball & [b0 Hb0] & Hafter) Hclear.
  rewrite (getBalls_spec h c l Hrepr) in Hl0. injection Hl0 as <-.
  assert (Hsplit : exists l1 l2, l = l1 ++ l2 /\ afterBall = last l1).
  { destruct afterBall as [a|].
    - destruct (list_elem_of_split l a Hafter) as (l1 & l2 & ->).
      exists (l1 ++ [a]), l2. by rewrite <- app_assoc, last_snoc.
    - by exists [], l. }
  destruct Hsplit as (l1 & l2 & -> & ->).
  destruct (insertBall_spec h c l1 l2 ball b0 Hrepr Hb0 Hball)
    as (h' & c' & Hrun & Hrepr' & _ & Hout & Hds & _).
  exists h', c', (l1 ++ ball :: l2). split; [done|]. split; [done|].
  pose proof Hrepr as (Hnd & _).
  apply NoDup_app in Hnd as (_ & Hdisj & _).
  apply not_elem_of_app in Hball as [_ Hb2].
  assert (Hd1 : map (distOf h') l1 = map (distOf h) l1).
  { apply map_ext_in. intros r Hr. apply Hout, Hdisj. by apply list_elem_of_In. }
  rewrite map_app in *. cbn [map]. rewrite Hd1, Hds, (Hout ball Hb2).
  pose proof (spacedFrom_abs _ _
    (scan_push_spaced (distOf h ball) (map (distOf h) l2))) as Hbehind.
  destruct (map (distOf h) l1) as [|d0 ds1] eqn:Hm1.
  - exact Hbehind.
  - cbn [app spacedAbs] in Hsp |- *.
    apply spacedAbsFrom_app in Hsp as [Hsp1 _].
    apply spacedAbsFrom_app. split; [done|]. cbn [spacedAbsFrom].
    split; [|exact Hbehind].
    destruct (last_snoc_inv l1) as [Hl|(l1' & a & -> & Hl)].
    + apply last_None in Hl as ->. done.
    + rewrite Hl in Hclear. rewrite map_app in Hm1. simpl in Hm1.
      assert (Hlast : last (d0 :: ds1) = Some (distOf h a))
        by (rewrite <- Hm1; apply last_snoc).
      rewrite last_cons in Hlast. destruct (last ds1); simpl.
      * by injection Hlast as ->.
      * by injection Hlast as ->.
Qed.

End Spacing.

(** ** C1: spacing after insertions *)

(** C1, corrected.  Starting from a chain whose adjacent balls are at least
    [2 * BALL_RADIUS] apart in absolute value (the empty chain is one),
    after any run of [insertBall] calls in which every ball inserted after
    a chain ball lies at least [2 * BALL_RADIUS] away from that ball, on
    either side of it, the calls all return and every chain-adjacent pair
    satisfies [|next - prev| >= 2 * BALL_RADIUS].  Insertions at the head
    are unrestricted. *)
Theorem insertions_keep_spacing ops : forall (h : gmap positive Ball) c l,
  chain_repr h c l -> spacedAbs (map (distOf h) l) ->
  insertableAll ops h c -> clearOfPredecessor ops h c ->
  exists h' c' l', insertAll ops h c = Some (h', c') /\
    chain_repr h' c' l' /\ spacedAbs (map (distOf h') l').
Proof.
  induction ops as [|[ball afterBall] ops IH]; intros h c l Hrepr Hsp Hins Hclr.
  - by exists h, c, l.
  - simpl in Hins, Hclr. destruct Hins as [Hins Hrest], Hclr as [Hclr Hclrs].
    destruct (insertBall_spacedAbs h c l ball afterBall Hrepr Hsp Hins Hclr)
      as (h1 & c1 & l1 & Hrun & Hrepr1 & Hsp1).
    destruct (IH h1 c1 l1 Hrepr1 Hsp1 (Hrest _ _ Hrun) (Hclrs _ _ Hrun))
      as (h' & c' & l' & Hall & Hfin).
    exists h', c', l'. split; [|done]. simpl. by rewrite Hrun.
Qed.

(** The insertions of a level start: balls at 200, 168 and 136, each
    appended at the tail. *)
Lemma insertions_keep_spacing_witness :
  exists h' c' l',
    insertAll [(1, None); (2, Some 1); (3, Some 2)]%positive
              (threeBalls 200 168 136) newChain = Some (h', c') /\
    chain_repr h' c' l' /\ spacedAbs (map (distOf h') l').
Proof.
  apply (insertions_keep_spacing _ _ _ []).
  - repeat split; [apply NoDup_nil_2|done..].
  - done.
  - split.
    { exists []. repeat split; [apply not_elem_of_nil|by eexists]. }
    intros h1 c1 H1. vm_compute in H1. injection H1 as <- <-.
    split.
    { exists [1%positive]. split; [by vm_compute|].
      split; [|split; [by eexists|by left]].
      apply not_elem_of_cons. split; [done|apply not_elem_of_nil]. }
    intros h2 c2 H2. vm_compute in H2. injection H2 as <- <-.
    split; [|done].
    exists [1; 2]%positive. split; [by vm_compute|].
    split; [|split; [by eexists|by right; left]].
    apply not_elem_of_cons. split; [done|].
    apply not_elem_of_cons. split; [done|apply not_elem_of_nil].
  - split; [done|].
    intros h1 c1 H1. vm_compute in H1. injection H1 as <- <-.
    split; [vm_compute; discriminate|].
    intros h2 c2 H2. vm_compute in H2. injection H2 as <- <-.
    split; [vm_compute; discriminate|].
    intros h3 c3 H3. done.
Defined.

(** C1 as stated fails: on the empty chain, insert a ball at distance 100 at
    the head and then a ball at distance 110 after it.  Nothing is behind
    the second ball to be pushed, and the two end up 10 apart. *)
Lemma insertions_spacing_counterexample :
  exists h' c',
    insertAll [(1, None); (2, Some 1)]%positive
              (threeBalls 100 110 0) newChain = Some (h', c') /\
    getBalls h' c' = Some [1; 2]%positive /\
    map (distOf h') [1; 2]%positive = [100; 110] /\
    ~ spacedAbs (map (distOf h') [1; 2]%positive).
Proof.
  eexists _, _. split; [by vm_compute|]. split; [by vm_compute|].
  split; [by vm_compute|]. vm_compute. intros [H _]. by apply H.
Qed.

Section Remove.
Implicit Types (h : gmap positive Ball) (l : list positive) (r : positive).

Lemma removeBall_spec h c l1 r l2 :
  chain_repr h c (l1 ++ r :: l2) ->
  exists h' c', removeBall r h c = Some (h', c') /\
    chain_repr h' c' (l1 ++ l2) /\ relinked h h' /\ gap_state_eq c c'.
Proof.
  intros (Hnd & Hh & Ht & Hd). unfold removeBall.
  apply dseg_app in Hd as [Hd1 Hd2].
  destruct Hd2 as (b & Hb & Hp & Hn & Hd2). simpl in Hd1.
  rewrite lastOr_None in Hp. rewrite headOr_None in Hn.
  apply NoDup_app in Hnd as (Hnd1 & Hdisj & Hnd2).
  apply NoDup_cons in Hnd2 as [Hr2 Hnd2].
  assert (Hr1 : r ∉ l1). { intros Hin. apply (Hdisj r Hin). by left. }
  assert (Hdisj' : forall x, x ∈ l1 -> x ∉ l2).
  { intros x Hx Hx2. apply (Hdisj x Hx). by right. }
  rewrite Hb. simpl.
  (* first statement: unlink from the predecessor *)
  assert (Hstep1 : exists h1 c1,
    match prev b with
    | Some p => assign (set_next (next b)) p h ≫= λ h0, Some (h0, c)
    | None => Some (h, set_head (next b) c)
    end = Some (h1, c1) /\ relinked h h1 /\ gap_state_eq c c1 /\
    h1 !! r = Some b /\ dseg h1 None l1 (list.head l2) /\
    dseg h1 (Some r) l2 None /\
    head c1 = list.head (l1 ++ l2) /\ tail c1 = tail c).
  { rewrite Hp. destruct (last_snoc_inv l1) as [Hl|(l1' & p & -> & Hl)].
    - rewrite Hl. apply last_None in Hl as ->. eexists _, _. split; [done|].
      split; [done|]. split; [done|]. split; [done|]. split; [done|].
      split; [done|]. simpl. by rewrite Hn.
    - rewrite Hl. destruct (dseg_last _ _ _ _ _ Hd1) as (pb & Hpb & _ & _).
      rewrite (assign_Some _ _ _ _ Hpb). simpl. eexists _, _. split; [done|].
      assert (Hpr : p <> r).
      { intros ->. apply Hr1. apply elem_of_app. right. by left. }
      assert (Hp1 : p ∉ l1').
      { apply NoDup_app in Hnd1 as (_ & Hdj & _). intros Hin.
        apply (Hdj p Hin). by left. }
      split; [by eapply relinked_insert|]. split; [done|].
      split; [by rewrite lookup_insert_ne|].
      split; [rewrite Hn; by eapply dseg_set_next|].
      split.
      + apply dseg_insert_out; [|done]. apply Hdisj'. apply elem_of_app.
        right. by left.
      + split; [|done]. simpl. rewrite Hh. rewrite <- !app_assoc.
        destruct l1'; done. }
  destruct Hstep1 as (h1 & c1 & -> & Hrel1 & Hgap1 & Hb1 & Hd11 & Hd12 & Hh1 & Ht1).
  simpl. rewrite Hb1. simpl.
  assert (Hstep2 : exists h2 c2,
    match next b with
    | Some n => assign (set_prev (prev b)) n h1 ≫= λ h0, Some (h0, c1)
    | None => Some (h1, set_tail (prev b) c1)
    end = Some (h2, c2) /\ relinked h1 h2 /\ gap_state_eq c1 c2 /\
    h2 !! r = Some b /\ dseg h2 None l1 (list.head l2) /\
    dseg h2 (last l1) l2 None /\
    head c2 = list.head (l1 ++ l2) /\ tail c2 = last (l1 ++ l2)).
  { rewrite Hn. destruct l2 as [|n l2].
    - simpl. eexists _, _. split; [done|]. split; [done|].
      split; [done|]. split; [done|]. split; [done|]. split; [done|].
      split; [done|]. simpl. by rewrite Hp, app_nil_r.
    - simpl. destruct (dseg_head _ _ _ _ _ Hd12) as (nb & Hnb & _ & _).
      rewrite (assign_Some _ _ _ _ Hnb). simpl. eexists _, _. split; [done|].
      apply not_elem_of_cons in Hr2 as [Hrn Hr2].
      apply NoDup_cons in Hnd2 as [Hn2 Hnd2].
      split; [by eapply relinked_insert|]. split; [done|].
      split; [by rewrite lookup_insert_ne|].
      split.
      + apply dseg_insert_out; [|done]. intros Hin.
        apply (Hdisj' n Hin). by left.
      + split; [rewrite Hp; by eapply dseg_set_prev|]. split; [done|].
        rewrite Ht1, Ht.
        rewrite !last_app, !last_cons. by destruct (last l2). }
  destruct Hstep2 as (h2 & c2 & -> & Hrel2 & Hgap2 & Hb2 & Hd21 & Hd22 & Hh2 & Ht2).
  simpl. rewrite (assign_Some _ _ _ _ Hb2). simpl.
  rewrite (assign_Some _ _ (<[r := _]> h2) (set_prev None b)) by apply lookup_insert_eq.
  simpl. rewrite insert_insert_eq. eexists _, _. split; [done|].
  split; [|split].
  - split; [|split; [done|split; [done|]]].
    + apply NoDup_app. done.
    + apply dseg_app. rewrite headOr_None, lastOr_None.
      split; by apply dseg_insert_out.
  - eapply relinked_trans; [exact Hrel1|]. eapply relinked_trans; [exact Hrel2|].
    by eapply relinked_insert.
  - destruct Hgap1 as (?&?&?&?), Hgap2 as (?&?&?&?). repeat split; congruence.
Qed.


Lemma list_difference_app (l1 l2 k : list positive) :
  list_difference (l1 ++ l2) k = list_difference l1 k ++ list_difference l2 k.
Proof.
  induction l1 as [|x l1 IH]; simpl; [done|].
  destruct (decide_rel elem_of x k); simpl; by rewrite IH.
Qed.

Lemma list_difference_cons_out (l k : list positive) r :
  r ∉ l -> list_difference l (r :: k) = list_difference l k.
Proof.
  induction l as [|x l IH]; simpl; [done|].
  intros [Hne Hr]%not_elem_of_cons.
  rewrite (IH Hr).
  destruct (decide_rel elem_of x (r :: k)) as [Hin|Hin],
           (decide_rel elem_of x k) as [Hin'|Hin']; try done.
  - apply elem_of_cons in Hin as [->|Hin]; done.
  - exfalso. apply Hin. by right.
Qed.

Lemma removeEach_spec balls : forall h c l,
  chain_repr h c l -> NoDup balls -> (forall r, r ∈ balls -> r ∈ l) ->
  exists h' c', removeEach balls h c = Some (h', c') /\
    chain_repr h' c' (list_difference l balls) /\ relinked h h' /\
    gap_state_eq c c'.
Proof.
  induction balls as [|r balls IH]; intros h c l Hrepr Hnd Hsub; simpl.
  - exists h, c. split; [done|]. split; [|done].
    assert (Hl : list_difference l [] = l).
    { clear. induction l as [|x l IH]; simpl; [done|]. rewrite IH.
      destruct (decide_rel elem_of x []) as [Hin|]; [|done].
      by apply elem_of_nil in Hin. }
    by rewrite Hl.
  - apply NoDup_cons in Hnd as [Hr Hnd].
    destruct (list_elem_of_split l r) as (l1 & l2 & ->); [apply Hsub; by left|].
    destruct (removeBall_spec _ _ _ _ _ Hrepr) as (h1 & c1 & -> & Hrepr1 & Hrel1 & Hgap1).
    simpl. pose proof Hrepr as (Hndl & _).
    apply NoDup_app in Hndl as (_ & Hdisj & Hnd2).
    apply NoDup_cons in Hnd2 as [Hr2 _].
    assert (Hr1 : r ∉ l1). { intros Hin. apply (Hdisj r Hin). by left. }
    destruct (IH h1 c1 (l1 ++ l2) Hrepr1 Hnd) as (h' & c' & -> & Hrepr' & Hrel' & Hgap').
    { intros x Hx. specialize (Hsub x (list_elem_of_further _ _ _ Hx)).
      apply elem_of_app in Hsub as [?|Hsub]; apply elem_of_app; [by left|].
      apply elem_of_cons in Hsub as [->|?]; [done|by right]. }
    exists h', c'. split; [done|]. split; [|split].
    + assert (Heq : list_difference (l1 ++ r :: l2) (r :: balls)
                    = list_difference (l1 ++ l2) balls).
      { rewrite !list_difference_app. simpl.
        destruct (decide_rel elem_of r (r :: balls)) as [_|Hn];
          [|exfalso; apply Hn; by left].
        by rewrite !list_difference_cons_out. }
      by rewrite Heq.
    + by eapply relinked_trans.
    + destruct Hgap1 as (?&?&?&?), Hgap' as (?&?&?&?). repeat split; congruence.
Qed.

(** *** The sort of [removeBalls] *)


Lemma insertByDistance_perm h r l : insertByDistance h r l ≡ₚ r :: l.
Proof.
  induction l as [|x l IH]; simpl; [done|].
  destruct (Qleb _ _); [done|]. rewrite IH. apply Permutation_swap.
Qed.

Lemma sortByDistance_perm h l : sortByDistance h l ≡ₚ l.
Proof.
  induction l as [|x l IH]; simpl; [done|].
  rewrite insertByDistance_perm. by rewrite IH.
Qed.

Lemma insertByDistance_sorted h r l :
  StronglySorted (distLe h) l -> StronglySorted (distLe h) (insertByDistance h r l).
Proof.
  induction 1 as [|x l Hs IH Hall]; simpl.
  - repeat constructor.
  - destruct (Qleb (distOf h r) (distOf h x)) eqn:E.
    + apply Qleb_true in E. constructor; [by constructor|].
      constructor; [done|]. eapply Forall_impl; [exact Hall|].
      intros y Hy. unfold distLe in *. lra.
    + apply Qleb_false in E. constructor; [done|].
      rewrite insertByDistance_perm. constructor; [|done].
      unfold distLe. lra.
Qed.

Lemma sortByDistance_sorted h l : StronglySorted (distLe h) (sortByDistance h l).
Proof.
  induction l as [|x l IH]; simpl; [constructor|].
  by apply insertByDistance_sorted.
Qed.

Lemma sorted_head_min h l m :
  StronglySorted (distLe h) l -> list.head l = Some m ->
  forall r, r ∈ l -> distOf h m <= distOf h r.
Proof.
  intros Hs Hm r Hr. destruct l as [|x l]; [done|]. injection Hm as ->.
  apply StronglySorted_inv in Hs as [_ Hall].
  apply elem_of_cons in Hr as [->|Hr]; [lra|].
  rewrite Forall_forall in Hall. by apply Hall.
Qed.

Lemma sorted_last_max h l m :
  StronglySorted (distLe h) l -> last l = Some m ->
  forall r, r ∈ l -> distOf h r <= distOf h m.
Proof.
  induction 1 as [|x l Hs IH Hall]; [done|].
  rewrite last_cons. intros Hm r Hr.
  destruct (last l) as [y|] eqn:Hl.
  - injection Hm as ->. apply elem_of_cons in Hr as [->|Hr]; [|by apply IH].
    rewrite Forall_forall in Hall. apply Hall. by apply last_Some_elem_of.
  - apply last_None in Hl as ->. injection Hm as ->.
    apply elem_of_cons in Hr as [->|Hr]; [lra|]. by apply elem_of_nil in Hr.
Qed.


Lemma ascendingFrom_all d ds : ascendingFrom d ds -> forall e, e ∈ ds -> d < e.
Proof.
  revert d. induction ds as [|x ds IH]; intros d; simpl.
  - intros _ e He. by apply elem_of_nil in He.
  - intros [Hdx Hx] e [->|He]%elem_of_cons; [done|].
    specialize (IH x Hx e He). lra.
Qed.

Lemma ascending_split (f : positive -> Q) l1 x l2 :
  ascending (map f (l1 ++ x :: l2)) ->
  (forall y, y ∈ l1 -> f y < f x) /\ (forall y, y ∈ l2 -> f x < f y).
Proof.
  induction l1 as [|z l1 IH]; simpl.
  - intros Ha. split; [intros y Hy; by apply elem_of_nil in Hy|].
    intros y Hy. apply (ascendingFrom_all _ _ Ha). by apply list_elem_of_fmap_2.
  - intros Ha. split.
    + intros y [->|Hy]%elem_of_cons.
      * apply (ascendingFrom_all _ _ Ha). apply (list_elem_of_fmap_2 f).
        apply elem_of_app. right. by left.
      * apply IH; [|done]. destruct l1; simpl in *; tauto.
    + apply IH. destruct l1; simpl in *; tauto.
Qed.

Lemma boundaryBefore_split balls lf f rest seen :
  f ∈ balls -> (forall y, y ∈ lf -> y ∉ balls) ->
  boundaryBefore balls (lf ++ f :: rest) seen = lastOr lf seen.
Proof.
  intros Hf. revert seen. induction lf as [|z lf IH]; intros seen Hlf; simpl.
  - by destruct (decide (f ∈ balls)).
  - destruct (decide (z ∈ balls)) as [Hz|_].
    + exfalso. apply (Hlf z); [by left|done].
    + rewrite IH by (intros y Hy; apply Hlf; by right).
      unfold lastOr. rewrite last_cons. by destruct (last lf).
Qed.

Lemma first_in_split (balls l : list positive) r :
  r ∈ balls -> r ∈ l ->
  exists lf f rest, l = lf ++ f :: rest /\ f ∈ balls /\
                    forall y, y ∈ lf -> y ∉ balls.
Proof.
  intros Hr. induction l as [|z l IH]; intros Hin.
  - by apply elem_of_nil in Hin.
  - destruct (decide (z ∈ balls)) as [Hz|Hz].
    + exists [], z, l. split; [done|]. split; [done|].
      intros y Hy. by apply elem_of_nil in Hy.
    + apply elem_of_cons in Hin as [->|Hin]; [done|].
      destruct (IH Hin) as (lf & f & rest & -> & Hf & Hlf).
      exists (z :: lf), f, rest. split; [done|]. split; [done|].
      intros y [->|Hy]%elem_of_cons; [done|by apply Hlf].
Qed.

Lemma last_in_split (balls l : list positive) r :
  r ∈ balls -> r ∈ l ->
  exists rest g lb, l = rest ++ g :: lb /\ g ∈ balls /\
                    forall y, y ∈ lb -> y ∉ balls.
Proof.
  intros Hr Hin.
  destruct (first_in_split balls (reverse l) r Hr) as (lf & g & rest & Hl & Hg & Hlf).
  { by apply elem_of_reverse. }
  exists (reverse rest), g, (reverse lf).
  split; [|split; [done|]].
  - rewrite <- (reverse_involutive l), Hl, reverse_app, reverse_cons.
    by rewrite <- app_assoc.
  - intros y Hy. apply Hlf. by apply elem_of_reverse.
Qed.

Lemma list_difference_ext (l k k' : list positive) :
  (forall x, x ∈ k <-> x ∈ k') -> list_difference l k = list_difference l k'.
Proof.
  intros Hk. induction l as [|x l IH]; simpl; [done|]. rewrite IH.
  destruct (decide_rel elem_of x k) as [Hin|Hin],
           (decide_rel elem_of x k') as [Hin'|Hin']; try done.
  - exfalso. apply Hin'. by apply Hk.
  - exfalso. apply Hin. by apply Hk.
Qed.

(** [removeBalls] on a chain whose distances increase from head to tail. *)
Lemma removeBalls_spec h c l balls :
  chain_repr h c l -> ascending (map (distOf h) l) ->
  balls <> [] -> NoDup balls -> (forall r, r ∈ balls -> r ∈ l) ->
  exists h' c',
    removeBalls balls h c =
      Some (mkGapInfo (boundaryBefore balls l None) (boundaryAfter balls l), h', c') /\
    chain_repr h' c' (list_difference l balls) /\
    relinked h h' /\
    match boundaryBefore balls l None, boundaryAfter balls l with
    | Some f, Some _ =>
        isClosingGap c' = true /\
        splitPoint c' = Some (distOf h f + BALL_RADIUS * 2) /\
        backVelocity c' = - SNAP_BACK_SPEED /\
        velocity c' = velocity c
    | _, _ => gap_state_eq c c'
    end.
Proof.
  intros Hrepr Hasc Hne Hnd Hsub.
  unfold removeBalls. destruct balls as [|b0 balls0]; [done|].
  set (balls := b0 :: balls0) in *.
  assert (Hb0 : b0 ∈ balls) by by left.
  set (sorted := sortByDistance h balls).
  assert (Hperm : sorted ≡ₚ balls) by apply sortByDistance_perm.
  assert (Hmem : forall x, x ∈ sorted <-> x ∈ balls)
    by (intros x; by rewrite Hperm).
  assert (Hss : StronglySorted (distLe h) sorted) by apply sortByDistance_sorted.
  pose proof Hrepr as (Hndl & _ & _ & Hd).
  (* the front boundary *)
  destruct (first_in_split balls l b0 Hb0 (Hsub b0 Hb0))
    as (lf & f & rest & Hl & Hf & Hlf).
  destruct (last_in_split balls l b0 Hb0 (Hsub b0 Hb0))
    as (rest' & g & lb & Hl' & Hg & Hlb).
  assert (Hfirst : list.head sorted = Some f).
  { destruct sorted as [|m sorted'] eqn:Hs.
    - exfalso. apply (elem_of_nil f). by apply Hmem.
    - simpl. f_equal. destruct (decide (m = f)) as [|Hmf]; [done|exfalso].
      assert (Hm : m ∈ balls) by (apply Hmem; by left).
      pose proof (sorted_head_min h _ m Hss eq_refl f (proj2 (Hmem f) Hf)) as Hle.
      rewrite Hl in Hasc. apply ascending_split in Hasc as [_ Hafter].
      specialize (Hsub m Hm). rewrite Hl in Hsub.
      apply elem_of_app in Hsub as [Hin|Hin]; [by apply (Hlf m)|].
      apply elem_of_cons in Hin as [->|Hin]; [done|].
      specialize (Hafter m Hin). lra. }
  assert (Hlast : last sorted = Some g).
  { destruct (last sorted) as [m|] eqn:Hs.
    - f_equal. destruct (decide (m = g)) as [|Hmg]; [done|exfalso].
      assert (Hm : m ∈ balls) by (apply Hmem; by apply last_Some_elem_of).
      pose proof (sorted_last_max h _ m Hss Hs g (proj2 (Hmem g) Hg)) as Hle.
      rewrite Hl' in Hasc. apply ascending_split in Hasc as [Hbefore _].
      specialize (Hsub m Hm). rewrite Hl' in Hsub.
      apply elem_of_app in Hsub as [Hin|Hin].
      + specialize (Hbefore m Hin). lra.
      + apply elem_of_cons in Hin as [->|Hin]; [done|]. by apply (Hlb m).
    - apply last_None in Hs. exfalso. apply (elem_of_nil f).
      rewrite <- Hs. by apply Hmem. }
  rewrite Hfirst, Hlast. simpl.
  assert (Hfb : exists fb, h !! f = Some fb /\ prev fb = last lf).
  { rewrite Hl in Hd. apply dseg_app in Hd as [_ Hd].
    destruct Hd as (fb & ? & Hp & _). exists fb. by rewrite <- lastOr_None. }
  assert (Hgb : exists gb, h !! g = Some gb /\ next gb = list.head lb).
  { rewrite Hl' in Hd. apply dseg_app in Hd as [_ Hd].
    destruct Hd as (gb & ? & _ & Hn & _). exists gb. by rewrite <- headOr_None. }
  destruct Hfb as (fb & -> & Hfront), Hgb as (gb & -> & Hback). simpl.
  assert (Hbb : boundaryBefore balls l None = last lf).
  { rewrite Hl, boundaryBefore_split by done. apply lastOr_None. }
  assert (Hba : boundaryAfter balls l = list.head lb).
  { unfold boundaryAfter. rewrite Hl', reverse_app, reverse_cons, <- app_assoc.
    simpl. rewrite boundaryBefore_split; [|done|].
    - rewrite lastOr_None. apply last_reverse.
    - intros y Hy. apply Hlb. by apply elem_of_reverse. }
  rewrite Hbb, Hba, Hfront, Hback.
  destruct (removeEach_spec sorted h c l Hrepr) as (h' & c' & -> & Hrepr' & Hrel & Hgap).
  { by rewrite Hperm. }
  { intros x Hx. apply Hsub. by apply Hmem. }
  simpl. rewrite (list_difference_ext l sorted balls Hmem) in Hrepr'.
  destruct (last lf) as [f'|] eqn:Hlf'; [|by exists h', c'].
  destruct (list.head lb) as [g'|] eqn:Hlb'; [|by exists h', c'].
  assert (Hf' : f' ∈ l).
  { rewrite Hl. apply elem_of_app. left. by apply last_Some_elem_of. }
  destruct (dseg_lookup _ _ _ _ _ Hd Hf') as [fb' Hfb'].
  destruct (Hrel f') as [_ Hdist]. rewrite Hfb' in Hdist.
  destruct (h' !! f') as [fb''|] eqn:Hfb''; [|done]. simpl in Hdist.
  injection Hdist as Hdist. simpl.
  eexists _, _. split; [reflexivity|].
  split; [|split; [done|]].
  - destruct Hrepr' as (? & ? & ? & ?). by repeat split.
  - unfold distOf. rewrite Hfb'. simpl. rewrite Hdist.
    destruct Hgap as (Hv & _). by repeat split.
Qed.

End Remove.

(** ** C5: removing a batch *)

(** Where the chain is in increasing order of distance, as the code's
    ordering rule has it, [removeBalls] does what C5 says: applied to a
    non-empty set of chain balls it removes exactly those balls, moves no
    ball, and returns the ball before the first removed ball and the ball
    after the last removed one (null where the removed balls reach an end
    of the chain).  When both exist it starts gap closing, with the split
    point at the front boundary's distance plus [2 * BALL_RADIUS] and the
    negative back velocity [- SNAP_BACK_SPEED]; otherwise it leaves the
    gap-closing state as it was. *)
Lemma removeBalls_boundaries (h : gmap positive Ball) c l balls :
  chain_repr h c l -> ascending (map (distOf h) l) ->
  balls <> [] -> NoDup balls -> (forall r, r ∈ balls -> r ∈ l) ->
  exists h' c',
    removeBalls balls h c =
      Some (mkGapInfo (boundaryBefore balls l None) (boundaryAfter balls l), h', c') /\
    chain_repr h' c' (list_difference l balls) /\
    (forall r, distOf h' r = distOf h r) /\
    match boundaryBefore balls l None, boundaryAfter balls l with
    | Some f, Some _ =>
        isClosingGap c' = true /\
        splitPoint c' = Some (distOf h f + BALL_RADIUS * 2) /\
        backVelocity c' = - SNAP_BACK_SPEED /\ backVelocity c' < 0
    | _, _ => gap_state_eq c c'
    end.
Proof.
  intros Hrepr Hasc Hne Hnd Hsub.
  destruct (removeBalls_spec h c l balls Hrepr Hasc Hne Hnd Hsub)
    as (h' & c' & Hrun & Hrepr' & Hrel & Hgap).
  exists h', c'. split; [done|]. split; [done|].
  split; [intros r; by apply relinked_distOf|].
  destruct (boundaryBefore balls l None); [|done].
  destruct (boundaryAfter balls l); [|done].
  destruct Hgap as (? & ? & Hbv & _). repeat split; try done.
  rewrite Hbv. by vm_compute.
Qed.

Lemma removeBalls_boundaries_witness :
  let h := fst (chainOfThree 100 132 164) in
  let c := snd (chainOfThree 100 132 164) in
  let l := [1; 2; 3]%positive in
  let balls := [2%positive] in
  exists h' c',
    removeBalls balls h c =
      Some (mkGapInfo (boundaryBefore balls l None) (boundaryAfter balls l), h', c') /\
    chain_repr h' c' (list_difference l balls) /\
    (forall r, distOf h' r = distOf h r) /\
    match boundaryBefore balls l None, boundaryAfter balls l with
    | Some f, Some _ =>
        isClosingGap c' = true /\
        splitPoint c' = Some (distOf h f + BALL_RADIUS * 2) /\
        backVelocity c' = - SNAP_BACK_SPEED /\ backVelocity c' < 0
    | _, _ => gap_state_eq c c'
    end.
Proof.
  apply (removeBalls_boundaries (fst (chainOfThree 100 132 164))
           (snd (chainOfThree 100 132 164)) [1; 2; 3]%positive [2%positive]).
  - concrete_repr.
  - by vm_compute.
  - done.
  - apply NoDup_singleton.
  - intros r Hr. apply list_elem_of_singleton in Hr as ->. right. by left.
Defined.

(** C5: a defect of the code.  [removeBalls] finds its boundaries by
    sorting the batch by distance ('sort by distance to find front and back
    boundaries'), which finds them only on a chain in increasing order, and
    the game starts from a chain that is not: [spawnInitialBalls] leaves
    three balls at 200, 168, 136 from head to tail (the ordering slip of
    C3).  With the three of one colour, [findMatch] returns all of them and
    [removeBalls] removes all of them.  The removed balls reach both ends
    of the chain, so there is no ball on either side; yet the call returns
    ball 2, one of the balls it removed, as both boundaries, and starts gap
    closing on the chain it has just emptied, against its own comment
    ('initiate gap closing if there are balls on both sides') and against
    C5. *)
Theorem removeBalls_boundaries_lost_on_descending :
  exists h c n gi h' c',
    spawnInitialBalls (fun _ => 0) redBlueSpawner 200 3 ∅ newChain 0
      = Some (h, c, n) /\
    chain_repr h c [1; 2; 3]%positive /\
    findMatch 2%positive h = Some (Some (mkMatchResult [1; 2; 3]%positive RED)) /\
    removeBalls [1; 2; 3]%positive h c = Some (gi, h', c') /\
    getBalls h' c' = Some [] /\
    boundaryBefore [1; 2; 3]%positive [1; 2; 3]%positive None = None /\
    boundaryAfter [1; 2; 3]%positive [1; 2; 3]%positive = None /\
    frontBall gi = Some 2%positive /\ backBall gi = Some 2%positive /\
    isClosingGap c = false /\ isClosingGap c' = true.
Proof.
  eexists _, _, _, _, _, _. split; [by vm_compute|].
  split; [concrete_repr|].
  split; [by vm_compute|]. split; [by vm_compute|].
  repeat (split; [by vm_compute|]). by vm_compute.
Qed.

Section Movement.

Implicit Types (h : gmap positive Ball) (l : list positive) (r : positive).

Lemma scan_move delta d ds : scan (moveStep delta) d ds = map (fun e => e + delta) ds.
Proof.
  revert d. induction ds as [|e ds IH]; intros d; simpl; [done|]. by rewrite IH.
Qed.

Lemma scan_repack_packed d ds : packedFrom d (scan repackStep d ds).
Proof.
  revert d. induction ds as [|e ds IH]; intros d; simpl; [done|].
  split; [done|apply IH].
Qed.

Lemma packedFrom_spaced d ds : packedFrom d ds -> spacedFrom d ds.
Proof.
  revert d. induction ds as [|e ds IH]; intros d; simpl; [done|].
  intros [-> Hp]. split; [lra|by apply IH].
Qed.

(** A distance sweep over the tail segment [l2] of a chain. *)
Lemma sweep_spec step h c l1 l2 d fuel :
  chain_repr h c (l1 ++ l2) -> (size h <= fuel)%nat ->
  exists h', scanLoop step fuel (list.head l2) d h = Some h' /\
    chain_repr h' c (l1 ++ l2) /\ dist_update h h' /\
    (forall r, r ∉ l2 -> h' !! r = h !! r) /\
    map (distOf h') l2 = scan step d (map (distOf h) l2).
Proof.
  intros Hrepr Hfuel. pose proof Hrepr as (Hnd & _ & _ & Hd).
  apply dseg_app in Hd as [_ Hd2].
  apply NoDup_app in Hnd as (_ & _ & Hnd2).
  pose proof (dseg_length _ _ _ _ Hd2 Hnd2) as Hlen.
  destruct (scanLoop_spec step l2 _ d h fuel Hd2 Hnd2) as (h' & Hrun & Hu & Hout & Hds);
    [lia|].
  exists h'. split; [done|]. split; [by eapply chain_repr_dist_update|]. done.
Qed.

Lemma updateNormalMovement_spec dt h c l :
  chain_repr h c l ->
  exists h', updateNormalMovement dt h c = Some (h', c) /\
    chain_repr h' c l /\ dist_update h h' /\
    map (distOf h') l = map (fun r => distOf h r + - (velocity c * dt)) l.
Proof.
  intros Hrepr. unfold updateNormalMovement.
  rewrite (moveLoop_scanLoop _ _ _ 0).
  destruct (sweep_spec (moveStep (- (velocity c * dt))) h c [] l 0 (size h) Hrepr)
    as (h' & Hrun & Hrepr' & Hu & _ & Hds); [done|].
  destruct Hrepr as (_ & Hh & _). rewrite Hh, Hrun. simpl.
  exists h'. split; [done|]. split; [done|]. split; [done|].
  by rewrite Hds, scan_move, map_map.
Qed.

Lemma findBackStart_found split h l1 b l2 : forall p fuel,
  dseg h p (l1 ++ b :: l2) None -> (length (l1 ++ b :: l2) <= fuel)%nat ->
  (forall r, r ∈ l1 -> distOf h r < split) -> split <= distOf h b ->
  findBackStart fuel (list.head (l1 ++ b :: l2)) split h = Some (Some b).
Proof.
  induction l1 as [|r l1 IH]; intros p fuel Hd Hf Hl1 Hb; simpl in *.
  - destruct fuel as [|fuel]; [lia|]. destruct Hd as (bb & Hbb & _).
    simpl. rewrite Hbb. simpl. rewrite (distOf_lookup _ _ _ Hbb) in Hb.
    apply Qleb_true in Hb. by rewrite Hb.
  - destruct fuel as [|fuel]; [lia|]. destruct Hd as (rb & Hrb & _ & Hn & Hd).
    simpl. rewrite Hrb. simpl.
    assert (Hr : distOf h r < split) by (apply Hl1; by left).
    rewrite (distOf_lookup _ _ _ Hrb) in Hr. apply Qleb_false in Hr.
    rewrite Hr, Hn, headOr_None. apply (IH (Some r)); [done|lia| |done].
    intros r0 Hr0. apply Hl1. by right.
Qed.

Lemma findBackStart_total split h l : forall p fuel,
  dseg h p l None -> (length l <= fuel)%nat ->
  exists res, findBackStart fuel (list.head l) split h = Some res /\
    match res with
    | None => True
    | Some b => exists l1 l2, l = l1 ++ b :: l2
    end.
Proof.
  induction l as [|r l IH]; intros p fuel Hd Hf; simpl in *.
  - exists None. by destruct fuel.
  - destruct fuel as [|fuel]; [lia|]. destruct Hd as (rb & Hrb & _ & Hn & Hd).
    simpl. rewrite Hrb. simpl.
    destruct (Qleb split (distanceAlongPath rb)).
    + exists (Some r). split; [done|]. by exists [], l.
    + rewrite Hn, headOr_None.
      destruct (IH (Some r) fuel Hd) as (res & -> & Hres); [lia|].
      exists res. split; [done|]. destruct res as [b|]; [|done].
      destruct Hres as (l1 & l2 & ->). by exists (r :: l1), l2.
Qed.

Lemma snapGapClosed_spec h c l1 f b l2 :
  chain_repr h c (l1 ++ f :: b :: l2) ->
  exists h', snapGapClosed f b h c = Some (h', set_gap None 0 false c) /\
    chain_repr h' c (l1 ++ f :: b :: l2) /\ dist_update h h' /\
    (forall r, r ∉ b :: l2 -> h' !! r = h !! r) /\
    map (distOf h') (b :: l2) =
      scan repackStep (distOf h f) (map (distOf h) (b :: l2)).
Proof.
  intros Hrepr. unfold snapGapClosed.
  pose proof Hrepr as (Hnd & _ & _ & Hd).
  assert (Hf : f ∈ l1 ++ f :: b :: l2) by (apply elem_of_app; right; by left).
  assert (Hb : b ∈ l1 ++ f :: b :: l2)
    by (apply elem_of_app; right; right; by left).
  destruct (dseg_lookup _ _ _ _ _ Hd Hf) as [fb Hfb].
  destruct (dseg_lookup _ _ _ _ _ Hd Hb) as [bb Hbb].
  rewrite Hfb. simpl. rewrite (assign_Some _ _ _ _ Hbb). simpl.
  rewrite lookup_insert_eq. simpl.
  set (h1 := <[b := set_distanceAlongPath (distanceAlongPath fb + BALL_RADIUS * 2) bb]> h).
  assert (Hu1 : dist_update h h1) by by apply dist_update_insert.
  assert (Hrepr1 : chain_repr h1 c ((l1 ++ [f; b]) ++ l2)).
  { rewrite <- app_assoc. by eapply chain_repr_dist_update. }
  destruct (sweep_spec repackStep h1 c (l1 ++ [f; b]) l2
              (distanceAlongPath fb + BALL_RADIUS * 2) (size h1) Hrepr1)
    as (h' & Hrun & Hrepr' & Hu & Hout & Hds); [done|].
  rewrite repackLoop_scanLoop.
  assert (Hnext : next bb = list.head l2).
  { apply dseg_app in Hd as [_ Hd]. destruct Hd as (_ & _ & _ & _ & Hd).
    destruct Hd as (bb' & Hbb' & _ & Hn & _). rewrite headOr_None in Hn.
    congruence. }
  rewrite Hnext, Hrun. simpl. exists h'. split; [done|].
  split; [by rewrite <- app_assoc in Hrepr'|].
  split; [by eapply dist_update_trans|].
  apply NoDup_app in Hnd as (_ & _ & Hnd2).
  apply NoDup_cons in Hnd2 as [_ Hnd2]. apply NoDup_cons in Hnd2 as [Hb2 _].
  split.
  - intros r [Hrb Hr2]%not_elem_of_cons. rewrite (Hout r Hr2).
    unfold h1. by rewrite lookup_insert_ne.
  - simpl. unfold repackStep at 1. f_equal.
    + unfold distOf at 1. rewrite (Hout b Hb2). unfold h1.
      rewrite lookup_insert_eq. simpl. by rewrite (distOf_lookup _ _ _ Hfb).
    + rewrite Hds, (distOf_lookup _ _ _ Hfb). f_equal.
      apply map_ext_in. intros r Hr. unfold h1. apply distOf_insert_ne.
      intros <-. apply Hb2. by apply list_elem_of_In.
Qed.

End Movement.

Section GapClosing.

Implicit Types (h : gmap positive Ball) (l : list positive) (r : positive).

Lemma chain_repr_set_gap h c l sp bv g :
  chain_repr h c l -> chain_repr h (set_gap sp bv g c) l.
Proof. by intros (? & ? & ? & ?). Qed.

Lemma chain_repr_prev h c l1 b l2 bb :
  chain_repr h c (l1 ++ b :: l2) -> h !! b = Some bb -> prev bb = last l1.
Proof.
  intros (_ & _ & _ & Hd) Hbb. apply dseg_app in Hd as [_ Hd].
  destruct Hd as (bb' & Hbb' & Hp & _). rewrite lastOr_None in Hp. congruence.
Qed.

Lemma updateGapClosing_total dt h c l :
  chain_repr h c l ->
  exists h' c', updateGapClosing dt h c = Some (h', c') /\
    chain_repr h' c' l /\ dist_update h h'.
Proof.
  intros Hrepr. unfold updateGapClosing.
  destruct (splitPoint c) as [sp|];
    [|exists h, c; split; [done|]; split; [done|apply dist_update_refl]].
  pose proof Hrepr as (Hnd & Hh & _ & Hd). rewrite Hh.
  destruct (findBackStart_total sp h l None (size h) Hd) as (res & -> & Hres).
  { by eapply chain_repr_length. }
  simpl. destruct res as [bs|];
    [|exists h, c; split; [done|]; split; [done|apply dist_update_refl]].
  destruct Hres as (l1 & l2 & ->).
  rewrite (moveLoop_scanLoop _ _ _ 0).
  destruct (sweep_spec (moveStep (backVelocity c * dt)) h c l1 (bs :: l2) 0
              (size h) Hrepr) as (h1 & Hrun & Hrepr1 & Hu1 & _ & _); [done|].
  simpl in Hrun. rewrite Hrun. simpl.
  pose proof Hrepr1 as (_ & _ & _ & Hd1).
  assert (Hbs : bs ∈ l1 ++ bs :: l2) by (apply elem_of_app; right; by left).
  destruct (dseg_lookup _ _ _ _ _ Hd1 Hbs) as [bb Hbb]. rewrite Hbb. simpl.
  rewrite (chain_repr_prev _ _ _ _ _ _ Hrepr1 Hbb).
  destruct (last_snoc_inv l1) as [Hl|(l1' & f & -> & Hl)]; rewrite Hl.
  { exists h1, c. split; [done|]. by split. }
  assert (Hf : f ∈ (l1' ++ [f]) ++ bs :: l2).
  { apply elem_of_app. left. apply elem_of_app. right. by left. }
  destruct (dseg_lookup _ _ _ _ _ Hd1 Hf) as [fb Hfb]. rewrite Hfb. simpl.
  destruct (Qleb _ _); [|exists h1, c; split; [done|]; by split].
  rewrite <- app_assoc in Hrepr1. simpl in Hrepr1.
  destruct (snapGapClosed_spec h1 c l1' f bs l2 Hrepr1)
    as (h' & -> & Hrepr' & Hu' & _).
  eexists _, _. split; [done|]. split.
  - rewrite <- app_assoc. simpl. by apply chain_repr_set_gap.
  - by eapply dist_update_trans.
Qed.

Lemma update_total dt h c l :
  chain_repr h c l ->
  exists h' c', update dt h c = Some (h', c') /\
    chain_repr h' c' l /\ dist_update h h'.
Proof.
  intros Hrepr. unfold update. destruct (isClosingGap c).
  - by apply updateGapClosing_total.
  - destruct (updateNormalMovement_spec dt h c l Hrepr) as (h' & ? & ? & ? & _).
    by exists h', c.
Qed.


End GapClosing.

(** ** C6: the end of a gap-closing manoeuvre *)

(** C6.  While a gap is closing, let [b] be the first ball at or beyond the
    split distance and [f] the ball before it.  If the step's movement
    leaves [b] within [2 * BALL_RADIUS] of [f], the step ends the manoeuvre:
    [b] sits at exactly [f]'s distance plus [2 * BALL_RADIUS], every ball
    behind [b] sits exactly [2 * BALL_RADIUS] beyond the one before it, the
    balls up to [f] have not moved, and [isGapClosing()] is false. *)
Theorem gap_closing_snap (h : gmap positive Ball) c l1 f b l2 dt split :
  chain_repr h c (l1 ++ f :: b :: l2) ->
  isClosingGap c = true -> splitPoint c = Some split ->
  (forall r, r ∈ l1 ++ [f] -> distOf h r < split) ->
  split <= distOf h b ->
  (distOf h b + backVelocity c * dt) - distOf h f <= BALL_RADIUS * 2 ->
  exists h' c', update dt h c = Some (h', c') /\
    chain_repr h' c' (l1 ++ f :: b :: l2) /\
    (forall r, r ∈ l1 ++ [f] -> distOf h' r = distOf h r) /\
    distOf h' b = distOf h f + BALL_RADIUS * 2 /\
    packedFrom (distOf h' b) (map (distOf h') l2) /\
    spacedFrom (distOf h' f) (map (distOf h') (b :: l2)) /\
    isGapClosing c' = false /\ splitPoint c' = None /\ backVelocity c' = 0.
Proof.
  intros Hrepr Hclosing Hsplit Hfront Hb Hgap.
  unfold update. rewrite Hclosing. unfold updateGapClosing. rewrite Hsplit.
  assert (Hl : l1 ++ f :: b :: l2 = (l1 ++ [f]) ++ b :: l2)
    by by rewrite <- app_assoc.
  rewrite Hl in Hrepr.
  pose proof Hrepr as (Hnd & Hh & _ & Hd). rewrite Hh.
  rewrite (findBackStart_found split h (l1 ++ [f]) b l2 None (size h));
    [|done|by eapply chain_repr_length|done|done].
  simpl. rewrite (moveLoop_scanLoop _ _ _ 0).
  destruct (sweep_spec (moveStep (backVelocity c * dt)) h c (l1 ++ [f]) (b :: l2) 0
              (size h) Hrepr) as (h1 & Hrun & Hrepr1 & Hu1 & Hout1 & Hds1); [done|].
  simpl in Hrun. rewrite Hrun. simpl.
  pose proof Hrepr1 as (_ & _ & _ & Hd1).
  assert (Hbin : b ∈ (l1 ++ [f]) ++ b :: l2) by (apply elem_of_app; right; by left).
  destruct (dseg_lookup _ _ _ _ _ Hd1 Hbin) as [bb Hbb]. rewrite Hbb. simpl.
  rewrite (chain_repr_prev _ _ _ _ _ _ Hrepr1 Hbb), last_snoc.
  assert (Hfin : f ∈ (l1 ++ [f]) ++ b :: l2).
  { apply elem_of_app. left. apply elem_of_app. right. by left. }
  destruct (dseg_lookup _ _ _ _ _ Hd1 Hfin) as [fb Hfb]. rewrite Hfb. simpl.
  apply NoDup_app in Hnd as (_ & Hdisj & Hnd2).
  assert (Hkeep1 : forall r, r ∈ l1 ++ [f] -> h1 !! r = h !! r).
  { intros r Hr. apply Hout1. by apply Hdisj. }
  assert (Hbd : distanceAlongPath bb = distOf h b + backVelocity c * dt).
  { rewrite <- (distOf_lookup _ _ _ Hbb). simpl in Hds1.
    rewrite scan_move in Hds1. by injection Hds1 as -> _. }
  assert (Hfd : distanceAlongPath fb = distOf h f).
  { rewrite <- (distOf_lookup _ _ _ Hfb). unfold distOf.
    rewrite Hkeep1; [done|]. apply elem_of_app. right. by left. }
  rewrite Hbd, Hfd. apply Qleb_true in Hgap. rewrite Hgap.
  rewrite <- Hl in Hrepr1.
  destruct (snapGapClosed_spec h1 c l1 f b l2 Hrepr1)
    as (h' & -> & Hrepr' & Hu' & Hout' & Hds').
  eexists _, _. split; [done|].
  assert (Hkeep : forall r, r ∈ l1 ++ [f] -> distOf h' r = distOf h r).
  { intros r Hr. unfold distOf. rewrite Hout', Hkeep1; [done|done|].
    by apply Hdisj. }
  assert (Hf1 : distOf h1 f = distOf h f).
  { unfold distOf. rewrite Hkeep1; [done|]. apply elem_of_app. right. by left. }
  simpl in Hds'. unfold repackStep at 1 in Hds'. rewrite Hf1 in Hds'.
  injection Hds' as Hb' Hl2'.
  split; [by apply chain_repr_set_gap|]. split; [done|]. split; [done|].
  split; [rewrite Hb', Hl2'; apply scan_repack_packed|].
  split; [|done].
  rewrite Hkeep by (apply elem_of_app; right; by left).
  simpl. split; [rewrite Hb'; lra|].
  apply packedFrom_spaced. rewrite Hb', Hl2'. apply scan_repack_packed.
Qed.

Lemma gap_closing_snap_witness :
  exists h' c', update (1 # 4) (fst openGap) (snd openGap) = Some (h', c') /\
    chain_repr h' c' [1; 2; 3]%positive /\
    (forall r, r ∈ [1%positive] -> distOf h' r = distOf (fst openGap) r) /\
    distOf h' 2%positive = distOf (fst openGap) 1%positive + BALL_RADIUS * 2 /\
    packedFrom (distOf h' 2%positive) (map (distOf h') [3%positive]) /\
    spacedFrom (distOf h' 1%positive) (map (distOf h') [2; 3]%positive) /\
    isGapClosing c' = false /\ splitPoint c' = None /\ backVelocity c' = 0.
Proof.
  apply (gap_closing_snap (fst openGap) (snd openGap) [] 1 2 [3] (1 # 4) 132)%positive.
  - concrete_repr.
  - by vm_compute.
  - by vm_compute.
  - intros r Hr. apply list_elem_of_singleton in Hr as ->. by vm_compute.
  - vm_compute. discriminate.
  - vm_compute. discriminate.
Defined.

(** ** C8: the hole *)

Section Hole.

Implicit Types (h : gmap positive Ball) (l : list positive) (r : positive).



End Hole.



(** ** C7: finding a match *)

Section Match.

Implicit Types (h : gmap positive Ball) (l : list positive) (r : positive).

Lemma colorOf_lookup h r b : h !! r = Some b -> colorOf h r = Some (color b).
Proof. unfold colorOf. by intros ->. Qed.

Lemma scanBackward_spec h col l : forall n fuel matching,
  dseg h None l n -> (length l <= fuel)%nat ->
  scanBackward fuel (last l) col matching h =
    Some (reverse (colorPrefix h col (reverse l)) ++ matching).
Proof.
  induction l as [|r l IH] using rev_ind; intros n fuel matching Hd Hf.
  - by destruct fuel.
  - rewrite length_app in Hf. simpl in Hf. destruct fuel as [|fuel]; [lia|].
    rewrite last_snoc, reverse_snoc. simpl.
    destruct (dseg_last _ _ _ _ _ Hd) as (rb & Hrb & Hp & _).
    rewrite lastOr_None in Hp. apply dseg_app in Hd as [Hd _]. simpl in Hd.
    rewrite Hrb. simpl. rewrite (colorOf_lookup _ _ _ Hrb).
    destruct (decide (color rb = col)) as [->|Hne].
    + rewrite decide_True by done. rewrite Hp, (IH (Some r) fuel) by (done || lia).
      by rewrite reverse_cons, <- app_assoc.
    + rewrite decide_False by congruence. done.
Qed.

Lemma scanForward_spec h col l : forall p fuel matching,
  dseg h p l None -> (length l <= fuel)%nat ->
  scanForward fuel (list.head l) col matching h =
    Some (matching ++ colorPrefix h col l).
Proof.
  induction l as [|r l IH]; intros p fuel matching Hd Hf; simpl in *.
  - destruct fuel; by rewrite app_nil_r.
  - destruct fuel as [|fuel]; [lia|]. destruct Hd as (rb & Hrb & _ & Hn & Hd).
    simpl. rewrite Hrb. simpl. rewrite (colorOf_lookup _ _ _ Hrb).
    destruct (decide (color rb = col)) as [->|Hne].
    + rewrite decide_True by done. rewrite Hn, headOr_None.
      rewrite (IH (Some r) fuel) by (done || lia). by rewrite <- app_assoc.
    + rewrite decide_False by congruence. by rewrite app_nil_r.
Qed.

Lemma colorPrefix_split h col l :
  exists rest, l = colorPrefix h col l ++ rest /\
    (forall r, r ∈ colorPrefix h col l -> colorOf h r = Some col) /\
    (forall r, list.head rest = Some r -> colorOf h r <> Some col).
Proof.
  induction l as [|x l (rest & Hl & Hall & Hrest)]; simpl.
  - exists []. split; [done|]. split; [|done]. intros r Hr. by apply elem_of_nil in Hr.
  - destruct (decide (colorOf h x = Some col)) as [Hx|Hx].
    + exists rest. split; [simpl; by rewrite <- Hl|]. split; [|done].
      intros r [->|Hr]%elem_of_cons; [done|by apply Hall].
    + exists (x :: l). split; [done|]. split.
      * intros r Hr. by apply elem_of_nil in Hr.
      * by intros r [= <-].
Qed.

(** The run is a block of the chain, of one colour, that contains [s] and
    cannot be extended on either side. *)
Lemma colorRun_maximal h col l1 s l2 :
  colorOf h s = Some col ->
  exists before after,
    l1 ++ s :: l2 = before ++ colorRun h col l1 s l2 ++ after /\
    s ∈ colorRun h col l1 s l2 /\
    (forall r, r ∈ colorRun h col l1 s l2 -> colorOf h r = Some col) /\
    (forall r, last before = Some r -> colorOf h r <> Some col) /\
    (forall r, list.head after = Some r -> colorOf h r <> Some col).
Proof.
  intros Hs. unfold colorRun.
  destruct (colorPrefix_split h col (reverse l1)) as (rest1 & Hl1 & Hall1 & Hrest1).
  destruct (colorPrefix_split h col l2) as (rest2 & Hl2 & Hall2 & Hrest2).
  exists (reverse rest1), rest2. split; [|split; [|split; [|split]]].
  - rewrite <- !app_assoc. simpl. rewrite <- Hl2, app_assoc. f_equal.
    rewrite <- reverse_app, <- Hl1. by rewrite reverse_involutive.
  - apply elem_of_app. right. by left.
  - intros r [Hr|Hr]%elem_of_app.
    + apply Hall1. by apply elem_of_reverse.
    + apply elem_of_cons in Hr as [->|Hr]; [done|by apply Hall2].
  - intros r Hr. apply Hrest1. by rewrite last_reverse in Hr.
  - done.
Qed.

End Match.

(** C7.  For a ball [s] of the chain, [findMatch] returns the maximal
    unbroken run of balls of [s]'s colour around [s] when that run has three
    balls or more, and null otherwise; a returned run never has fewer than
    three balls, so two adjacent balls of one colour are no match. *)
Theorem findMatch_maximal_run (h : gmap positive Ball) c l1 s l2 col :
  chain_repr h c (l1 ++ s :: l2) -> colorOf h s = Some col ->
  findMatch s h =
    Some (if decide (3 <= length (colorRun h col l1 s l2))%nat
          then Some (mkMatchResult (colorRun h col l1 s l2) col)
          else None) /\
  (exists before after,
     l1 ++ s :: l2 = before ++ colorRun h col l1 s l2 ++ after /\
     s ∈ colorRun h col l1 s l2 /\
     (forall r, r ∈ colorRun h col l1 s l2 -> colorOf h r = Some col) /\
     (forall r, last before = Some r -> colorOf h r <> Some col) /\
     (forall r, list.head after = Some r -> colorOf h r <> Some col)) /\
  (forall m, findMatch s h = Some (Some m) -> (3 <= length (balls m))%nat) /\
  (length (l1 ++ s :: l2) = 2%nat -> findMatch s h = Some None).
Proof.
  intros Hrepr Hs.
  assert (Hfind : findMatch s h =
    Some (if decide (3 <= length (colorRun h col l1 s l2))%nat
          then Some (mkMatchResult (colorRun h col l1 s l2) col)
          else None)).
  { pose proof (chain_repr_length _ _ _ Hrepr) as Hlen.
    rewrite length_app in Hlen. simpl in Hlen.
    destruct Hrepr as (_ & _ & _ & Hd). apply dseg_app in Hd as [Hd1 Hd2].
    destruct Hd2 as (sb & Hsb & Hp & Hn & Hd2).
    rewrite lastOr_None in Hp. rewrite headOr_None in Hn.
    rewrite (colorOf_lookup _ _ _ Hsb) in Hs. injection Hs as Hs.
    unfold findMatch. rewrite Hsb. simpl. rewrite Hp, Hs.
    rewrite (scanBackward_spec h col l1 _ (size h) [s] Hd1) by lia.
    simpl. rewrite Hn.
    rewrite (scanForward_spec h col l2 _ (size h) _ Hd2) by lia.
    simpl.
    assert (Hrun : (reverse (colorPrefix h col (reverse l1)) ++ [s])
                   ++ colorPrefix h col l2 = colorRun h col l1 s l2)
      by (unfold colorRun; by rewrite <- app_assoc).
    rewrite Hrun. by destruct (decide _). }
  split; [done|]. split; [by apply colorRun_maximal|]. split.
  - intros m. rewrite Hfind. destruct (decide _) as [Hge|]; [|done].
    by intros [= <-].
  - intros Hlen. rewrite Hfind. rewrite decide_False; [done|].
    destruct (colorRun_maximal h col l1 s l2 Hs) as (before & after & Hl & _).
    apply (f_equal length) in Hl. rewrite !length_app in Hl.
    rewrite length_app in Hlen. lia.
Qed.

Lemma findMatch_maximal_run_witness :
  let h := fst (chainOfThree 100 132 164) in
  let run := colorRun h RED [1%positive] 2%positive [3%positive] in
  findMatch 2%positive h =
    Some (if decide (3 <= length run)%nat
          then Some (mkMatchResult run RED) else None) /\
  (exists before after,
     [1%positive] ++ 2%positive :: [3%positive] = before ++ run ++ after /\
     2%positive ∈ run /\
     (forall r, r ∈ run -> colorOf h r = Some RED) /\
     (forall r, last before = Some r -> colorOf h r <> Some RED) /\
     (forall r, list.head after = Some r -> colorOf h r <> Some RED)) /\
  (forall m, findMatch 2%positive h = Some (Some m) ->
             (3 <= length (balls m))%nat) /\
  (length ([1%positive] ++ 2%positive :: [3%positive]) = 2%nat ->
   findMatch 2%positive h = Some None).
Proof.
  apply (findMatch_maximal_run (fst (chainOfThree 100 132 164))
           (snd (chainOfThree 100 132 164)) [1%positive] 2%positive
           [3%positive] RED).
  - concrete_repr.
  - by vm_compute.
Defined.

(** ** C3: ordering of the chain *)

Section Ordering.

Implicit Types (h : gmap positive Ball) (l : list positive) (r : positive).

(** Whatever the chain looked like before, after [insertBall] the inserted
    ball and all balls behind it are spaced; the balls before it keep their
    distances. *)
Lemma insertBall_spaced_behind h c l1 l2 ball b0 :
  chain_repr h c (l1 ++ l2) -> h !! ball = Some b0 -> ball ∉ l1 ++ l2 ->
  exists h' c', insertBall ball (last l1) h c = Some (h', c') /\
    chain_repr h' c' (l1 ++ ball :: l2) /\
    map (distOf h') l1 = map (distOf h) l1 /\
    distOf h' ball = distOf h ball /\
    spacedFrom (distOf h' ball) (map (distOf h') l2).
Proof.
  intros Hrepr Hb Hball.
  destruct (insertBall_spec h c l1 l2 ball b0 Hrepr Hb Hball)
    as (h' & c' & Hrun & Hrepr' & _ & Hout & Hds & _).
  exists h', c'. split; [done|]. split; [done|].
  pose proof Hrepr as (Hnd & _). apply NoDup_app in Hnd as (_ & Hdisj & _).
  apply not_elem_of_app in Hball as [_ Hb2].
  split; [|split].
  - apply map_ext_in. intros r Hr. apply Hout, Hdisj. by apply list_elem_of_In.
  - by apply Hout.
  - rewrite Hds, (Hout ball Hb2). apply scan_push_spaced.
Qed.

Lemma ascendingFrom_shift delta d ds :
  ascendingFrom d ds -> ascendingFrom (d + delta) (map (fun e => e + delta) ds).
Proof.
  revert d. induction ds as [|e ds IH]; intros d; simpl; [done|].
  intros [Hde Ha]. split; [lra|by apply IH].
Qed.

(** Normal movement keeps the chain in increasing order. *)
Lemma updateNormalMovement_ascending dt h c l :
  chain_repr h c l -> ascending (map (distOf h) l) ->
  exists h', updateNormalMovement dt h c = Some (h', c) /\
    chain_repr h' c l /\ ascending (map (distOf h') l).
Proof.
  intros Hrepr Hasc.
  destruct (updateNormalMovement_spec dt h c l Hrepr) as (h' & Hrun & Hrepr' & _ & Hds).
  exists h'. split; [done|]. split; [done|]. rewrite Hds.
  rewrite <- (map_map (distOf h) (fun e => e + - (velocity c * dt))).
  destruct (map (distOf h) l) as [|d ds]; simpl; [done|].
  by apply ascendingFrom_shift.
Qed.

Lemma ascendingFrom_weaken d d' ds : d' <= d -> ascendingFrom d ds -> ascendingFrom d' ds.
Proof. destruct ds; simpl; [done|]. intros Hle [Hlt Ha]. split; [lra|done]. Qed.

Lemma ascendingFrom_difference (f : positive -> Q) d l k :
  ascendingFrom d (map f l) -> ascendingFrom d (map f (list_difference l k)).
Proof.
  revert d. induction l as [|x l IH]; intros d; simpl; [done|].
  intros [Hdx Ha]. destruct (decide_rel elem_of x k); simpl.
  - apply IH. eapply ascendingFrom_weaken; [|exact Ha]. lra.
  - split; [done|by apply IH].
Qed.

Lemma ascending_difference (f : positive -> Q) l k :
  ascending (map f l) -> ascending (map f (list_difference l k)).
Proof.
  induction l as [|x l IH]; simpl; [done|]. intros Ha.
  destruct (decide_rel elem_of x k); simpl.
  - apply IH. destruct (map f l); simpl in *; tauto.
  - by apply ascendingFrom_difference.
Qed.

(** Removing a batch keeps the chain in increasing order. *)
Lemma removeBalls_ascending h c l balls :
  chain_repr h c l -> ascending (map (distOf h) l) ->
  balls <> [] -> NoDup balls -> (forall r, r ∈ balls -> r ∈ l) ->
  exists gi h' c', removeBalls balls h c = Some (gi, h', c') /\
    chain_repr h' c' (list_difference l balls) /\
    ascending (map (distOf h') (list_difference l balls)).
Proof.
  intros Hrepr Hasc Hne Hnd Hsub.
  destruct (removeBalls_spec h c l balls Hrepr Hasc Hne Hnd Hsub)
    as (h' & c' & Hrun & Hrepr' & Hrel & _).
  eexists _, h', c'. split; [done|]. split; [done|].
  rewrite (map_ext (distOf h') (distOf h)) by (intros r; by apply relinked_distOf).
  by apply ascending_difference.
Qed.

Lemma ascendingFrom_app d ds1 ds2 :
  ascendingFrom d (ds1 ++ ds2) <->
  ascendingFrom d ds1 /\ ascendingFrom (default d (last ds1)) ds2.
Proof.
  revert d. induction ds1 as [|e ds1 IH]; intros d; simpl; [tauto|].
  rewrite IH, last_cons. destruct (last ds1); simpl; tauto.
Qed.

Lemma ascendingFrom_tail d ds : ascendingFrom d ds -> ascending ds.
Proof. destruct ds; simpl; tauto. Qed.

Lemma ascending_app_r ds1 ds2 : ascending (ds1 ++ ds2) -> ascending ds2.
Proof.
  induction ds1 as [|d ds1 IH]; simpl; [done|]. intros Ha.
  apply IH. by apply (ascendingFrom_tail d).
Qed.

Lemma packedFrom_ascending d ds : packedFrom d ds -> ascendingFrom d ds.
Proof.
  revert d. induction ds as [|e ds IH]; intros d; simpl; [done|].
  intros [-> Hp]. split; [unfold BALL_RADIUS; lra|by apply IH].
Qed.

(** A gap-closing step keeps the chain in increasing order. *)
Lemma updateGapClosing_ascending dt h c l :
  chain_repr h c l -> ascending (map (distOf h) l) ->
  exists h' c', updateGapClosing dt h c = Some (h', c') /\
    chain_repr h' c' l /\ ascending (map (distOf h') l).
Proof.
  intros Hrepr Hasc. unfold updateGapClosing.
  destruct (splitPoint c) as [sp|]; [|by exists h, c].
  pose proof Hrepr as (Hnd & Hh & _ & Hd). rewrite Hh.
  destruct (findBackStart_total sp h l None (size h) Hd) as (res & -> & Hres).
  { by eapply chain_repr_length. }
  simpl. destruct res as [bs|]; [|by exists h, c].
  destruct Hres as (l1 & l2 & ->).
  rewrite (moveLoop_scanLoop _ _ _ 0).
  destruct (sweep_spec (moveStep (backVelocity c * dt)) h c l1 (bs :: l2) 0
              (size h) Hrepr) as (h1 & Hrun & Hrepr1 & Hu1 & Hout1 & Hds1); [done|].
  simpl in Hrun. rewrite Hrun. simpl. rewrite scan_move in Hds1.
  apply NoDup_app in Hnd as (_ & Hdisj & _).
  assert (Hkeep1 : map (distOf h1) l1 = map (distOf h) l1).
  { apply map_ext_in. intros r Hr. unfold distOf. rewrite Hout1; [done|].
    apply Hdisj. by apply list_elem_of_In. }
  pose proof Hrepr1 as (_ & _ & _ & Hd1).
  assert (Hbs : bs ∈ l1 ++ bs :: l2) by (apply elem_of_app; right; by left).
  destruct (dseg_lookup _ _ _ _ _ Hd1 Hbs) as [bb Hbb]. rewrite Hbb. simpl.
  rewrite (chain_repr_prev _ _ _ _ _ _ Hrepr1 Hbb).
  rewrite map_app in Hasc.
  destruct (last_snoc_inv l1) as [Hl|(l1' & f & -> & Hl)]; rewrite Hl.
  { apply last_None in Hl as ->. exists h1, c. split; [done|]. split; [done|].
    rewrite app_nil_l, Hds1. simpl in Hasc. simpl.
    by apply (ascendingFrom_shift (backVelocity c * dt)). }
  assert (Hf : f ∈ (l1' ++ [f]) ++ bs :: l2).
  { apply elem_of_app. left. apply elem_of_app. right. by left. }
  destruct (dseg_lookup _ _ _ _ _ Hd1 Hf) as [fb Hfb]. rewrite Hfb. simpl.
  assert (Hfront : ascending (map (distOf h) (l1' ++ [f])) /\
                   last (map (distOf h) (l1' ++ [f])) = Some (distOf h1 f)).
  { split.
    - destruct (map (distOf h) (l1' ++ [f])) as [|d0 ds0]; [done|].
      simpl in Hasc. by apply ascendingFrom_app in Hasc as [? _].
    - rewrite map_app. simpl. rewrite last_snoc. f_equal. unfold distOf.
      rewrite Hout1; [done|].
      apply Hdisj. apply elem_of_app. right. by left. }
  destruct Hfront as [Hfront Hlastf].
  assert (Hjoin : forall ds, ascendingFrom (distOf h1 f) ds ->
                  ascending (map (distOf h) (l1' ++ [f]) ++ ds)).
  { intros ds Hds. destruct (map (distOf h) (l1' ++ [f])) as [|d0 ds0] eqn:Hm.
    - by rewrite map_app in Hm; destruct (map (distOf h) l1').
    - simpl. apply ascendingFrom_app. split; [done|].
      rewrite last_cons in Hlastf. destruct (last ds0); simpl;
        injection Hlastf as ->; done. }
  destruct (Qleb _ _) eqn:Hgap.
  - rewrite <- app_assoc in Hrepr1. simpl in Hrepr1.
    destruct (snapGapClosed_spec h1 c l1' f bs l2 Hrepr1)
      as (h' & -> & Hrepr' & _ & Hout' & Hds').
    eexists _, _. split; [done|]. split.
    { rewrite <- app_assoc. simpl. by apply chain_repr_set_gap. }
    rewrite map_app.
    assert (Hkeep' : map (distOf h') (l1' ++ [f]) = map (distOf h) (l1' ++ [f])).
    { rewrite <- Hkeep1. apply map_ext_in. intros r Hr. unfold distOf.
      rewrite Hout'; [done|]. apply Hdisj. by apply list_elem_of_In. }
    rewrite Hkeep', Hds'. apply Hjoin. apply packedFrom_ascending.
    apply scan_repack_packed.
  - apply Qleb_false in Hgap. exists h1, c. split; [done|]. split; [done|].
    rewrite map_app, Hkeep1, Hds1. apply Hjoin. simpl.
    assert (Hbd : distanceAlongPath bb = distOf h bs + backVelocity c * dt).
    { rewrite <- (distOf_lookup _ _ _ Hbb). simpl in Hds1. by injection Hds1 as -> _. }
    rewrite (distOf_lookup _ _ _ Hfb). rewrite Hbd in Hgap.
    split; [unfold BALL_RADIUS in Hgap; lra|].
    apply ascending_app_r in Hasc. simpl in Hasc.
    by apply (ascendingFrom_shift (backVelocity c * dt)).
Qed.

(** Any run of [chain.update] calls keeps the chain in increasing order. *)
Lemma updateAll_ascending dts : forall h c l,
  chain_repr h c l -> ascending (map (distOf h) l) ->
  exists h' c', updateAll dts h c = Some (h', c') /\
    chain_repr h' c' l /\ ascending (map (distOf h') l).
Proof.
  induction dts as [|dt dts IH]; intros h c l Hrepr Hasc; simpl.
  - by exists h, c.
  - assert (Hstep : exists h1 c1, update dt h c = Some (h1, c1) /\
      chain_repr h1 c1 l /\ ascending (map (distOf h1) l)).
    { unfold update. destruct (isClosingGap c).
      - by apply updateGapClosing_ascending.
      - destruct (updateNormalMovement_ascending dt h c l Hrepr Hasc)
          as (h1 & ? & ? & ?). by exists h1, c. }
    destruct Hstep as (h1 & c1 & -> & Hrepr1 & Hasc1). simpl. by apply IH.
Qed.

End Ordering.

(** C3 fails on the code.  Balls at 100 and 132 touch; a fired ball that
    hits the ball at 132 on its sink side is given the distance
    [132 - 2 * BALL_RADIUS = 100] and is spliced in after the ball at 100:
    the chain then reads 100, 100, 132 from the head. *)
Lemma collision_insert_breaks_ordering :
  exists h0 c0 h' c',
    packedPairAndShot = Some (h0, c0) /\
    getBalls h0 c0 = Some [1; 2]%positive /\
    ascending (map (distOf h0) [1; 2]%positive) /\
    collideFiredBall integerSqrt straightPoint straightTangent 3%positive h0 c0
      = Some (true, h', c') /\
    getBalls h' c' = Some [1; 3; 2]%positive /\
    map (distOf h') [1; 3; 2]%positive = [100; 100; 132] /\
    ~ ascending (map (distOf h') [1; 3; 2]%positive).
Proof.
  eexists _, _, _, _. split; [by vm_compute|]. split; [by vm_compute|].
  split; [by vm_compute|]. split; [by vm_compute|]. split; [by vm_compute|].
  split; [by vm_compute|]. vm_compute. intros [H _]. discriminate H.
Qed.

(** The chain [spawnInitialBalls] builds at level start runs the other way:
    each ball is appended at the tail, 32 closer to the hole than the one
    before it. *)
Lemma spawnInitialBalls_descending :
  exists h' c' n',
    spawnInitialBalls (fun _ => 0) redBlueSpawner 200 3 ∅ newChain 0
      = Some (h', c', n') /\
    getBalls h' c' = Some [1; 2; 3]%positive /\
    map (distOf h') [1; 2; 3]%positive = [200; 168; 136] /\
    ~ ascending (map (distOf h') [1; 2; 3]%positive).
Proof.
  eexists _, _, _. split; [by vm_compute|]. split; [by vm_compute|].
  split; [by vm_compute|]. vm_compute. intros [H _]. discriminate H.
Qed.

(** ** C2: timed spawning *)

Section Spawning.

Variable random : nat -> Q.
Hypothesis random_range : forall n, 0 <= random n /\ random n < 1.

Implicit Types (h : gmap positive Ball) (l : list positive) (r : positive).

Lemma getRandomColor_is_Some sp n :
  availableColors sp <> [] ->
  exists col, getRandomColor random sp n = Some (col, S n).
Proof.
  intros Hne. unfold getRandomColor.
  set (len := Z.of_nat (length (availableColors sp))).
  assert (Hlen : (0 < len)%Z).
  { unfold len. destruct (availableColors sp); [done|]. simpl. lia. }
  destruct (random_range n) as [H0 H1].
  assert (Hlo : (0 <= Qfloor (random n * inject_Z len))%Z).
  { change 0%Z with (Qfloor (inject_Z 0)) at 1. apply Qfloor_resp_le.
    apply Qmult_le_0_compat; [done|]. change 0 with (inject_Z 0).
    rewrite <- Zle_Qle. lia. }
  assert (Hhi : (Qfloor (random n * inject_Z len) < len)%Z).
  { rewrite Zlt_Qlt. eapply Qle_lt_trans; [apply Qfloor_le|].
    assert (Hl : 0 < inject_Z len).
    { change 0 with (inject_Z 0). rewrite <- Zlt_Qlt. lia. }
    nra. }
  destruct (elementAt_is_Some (availableColors sp) (Qfloor (random n * inject_Z len)))
    as [col Hcol]; [fold len; lia|].
  fold len. rewrite Hcol. simpl. by exists col.
Qed.

Lemma getWeightedRandomColor_is_Some sp h c l n :
  chain_repr h c l -> availableColors sp <> [] ->
  exists col n', getWeightedRandomColor random sp h c n = Some (col, n').
Proof.
  intros Hrepr Hne. unfold getWeightedRandomColor.
  rewrite (getBalls_spec h c l Hrepr). simpl.
  destruct l as [|r l].
  - destruct (getRandomColor_is_Some sp n Hne) as [col ->]. by eexists _, _.
  - destruct (pickWeighted _ _ _) as [col|]; [by eexists _, _|].
    destruct (getRandomColor_is_Some sp (S n) Hne) as [col ->]. by eexists _, _.
Qed.

Lemma chain_repr_alloc h c l b :
  chain_repr h c l ->
  chain_repr (<[fresh (dom h) := b]> h) c l /\ fresh (dom h) ∉ l.
Proof.
  intros (Hnd & Hh & Ht & Hd).
  assert (Hfresh : fresh (dom h) ∉ l).
  { intros Hin. apply (is_fresh (dom h)). apply elem_of_dom.
    by eapply dseg_lookup. }
  split; [|done]. repeat split; try done. by apply dseg_insert_out.
Qed.

(** [spawnBall] either finds no room and changes nothing, or appends one
    new ball at the tail. *)
Lemma spawnBall_spec sp pathLength h c l n :
  chain_repr h c l -> availableColors sp <> [] ->
  exists res h' c' n' l',
    spawnBall random sp pathLength h c n = Some (res, h', c', n') /\
    chain_repr h' c' l' /\
    match res with
    | None => h' = h /\ c' = c /\ l' = l /\ n' = n
    | Some ball => l' = l ++ [ball]
    end.
Proof.
  intros Hrepr Hne. unfold spawnBall.
  pose proof Hrepr as (_ & _ & Ht & Hd).
  assert (Hblocked : exists blocked,
    match tail c with
    | Some t => h !! t ≫= λ tb,
        Some (Qltb (pathLength - distanceAlongPath tb) (BALL_RADIUS * 2))
    | None => Some false
    end = Some blocked).
  { rewrite Ht. destruct (last l) as [t|] eqn:Hl; [|by eexists].
    destruct (dseg_lookup _ _ _ _ t Hd) as [tb ->]; [by apply last_Some_elem_of|].
    by eexists. }
  destruct Hblocked as [blocked ->]. simpl.
  destruct blocked; [by exists None, h, c, n, l|].
  destruct (getWeightedRandomColor_is_Some sp h c l n Hrepr Hne) as (col & n' & ->).
  simpl. unfold alloc.
  destruct (chain_repr_alloc h c l (newBall col pathLength) Hrepr) as [Hrepr1 Hfresh].
  rewrite <- (app_nil_r l) in Hrepr1.
  destruct (insertBall_spec _ c l [] (fresh (dom h)) (newBall col pathLength) Hrepr1)
    as (h' & c' & Hrun & Hrepr' & _); [apply lookup_insert_eq|by rewrite app_nil_r|].
  rewrite Ht, Hrun. simpl.
  by exists (Some (fresh (dom h))), h', c', n', (l ++ [fresh (dom h)]).
Qed.

Lemma spawnLoop_spec interval pathLength maxBalls fuel :
  forall spawned sp h c l n,
  chain_repr h c l -> availableColors sp <> [] -> 0 < interval ->
  accumulator sp < interval * inject_Z (Z.of_nat fuel) ->
  exists k sp' h' c' n' l',
    spawnLoop random fuel interval pathLength maxBalls spawned sp h c n
      = Some (k, sp', h', c', n') /\
    chain_repr h' c' l' /\
    Z.of_nat (length l') = (Z.of_nat (length l) + (k - spawned))%Z /\
    (spawned <= k)%Z /\
    availableColors sp' = availableColors sp /\ spawnRate sp' = spawnRate sp /\
    ((Z.of_nat (length l') < maxBalls)%Z -> accumulator sp' < interval) /\
    ((maxBalls <= Z.of_nat (length l))%Z ->
       k = spawned /\ sp' = sp /\ h' = h /\ c' = c /\ n' = n).
Proof.
  induction fuel as [|fuel IH]; intros spawned sp h c l n Hrepr Hne Hint Hacc.
  - change (inject_Z (Z.of_nat 0)) with 0 in Hacc.
    simpl. rewrite (getLength_spec h c l Hrepr). simpl.
    assert (Hcond : Qleb interval (accumulator sp) = false).
    { apply Qleb_false. lra. }
    rewrite Hcond. simpl. exists spawned, sp, h, c, n, l.
    split; [done|]. split; [done|]. split; [lia|]. split; [lia|].
    split; [done|]. split; [done|]. split; [|done].
    intros _. lra.
  - cbn [spawnLoop]. rewrite (getLength_spec h c l Hrepr). simpl.
    destruct (Qleb interval (accumulator sp)) eqn:Hcond; simpl;
      [|exists spawned, sp, h, c, n, l; split; [done|]; split; [done|];
        split; [lia|]; split; [lia|]; split; [done|]; split; [done|];
        split; [|done]; intros _; by apply Qleb_false].
    destruct (Z.ltb_spec (Z.of_nat (length l)) maxBalls) as [Hroom|Hfull];
      [|exists spawned, sp, h, c, n, l; split; [done|]; split; [done|];
        split; [lia|]; split; [lia|]; split; [done|]; split; [done|];
        split; [lia|done]].
    destruct (spawnBall_spec sp pathLength h c l n Hrepr Hne)
      as (res & h1 & c1 & n1 & l1 & -> & Hrepr1 & Hres).
    simpl.
    assert (Hacc1 : accumulator sp - interval < interval * inject_Z (Z.of_nat fuel)).
    { rewrite Nat2Z.inj_succ, <- Z.add_1_r, inject_Z_plus in Hacc.
      change (inject_Z 1) with 1 in Hacc. lra. }
    destruct (IH (match res with Some _ => (spawned + 1)%Z | None => spawned end)
                (set_accumulator (accumulator sp - interval) sp) h1 c1 l1 n1
                Hrepr1 Hne Hint Hacc1)
      as (k & sp' & h' & c' & n' & l' & -> & Hrepr' & Hlen & Hk & Hcols & Hrate
          & Hrest & _).
    exists k, sp', h', c', n', l'. split; [done|]. split; [done|].
    assert (Hcount : Z.of_nat (length l') = (Z.of_nat (length l) + (k - spawned))%Z
                     /\ (spawned <= k)%Z).
    { destruct res as [ball|].
      - rewrite Hres, length_app in Hlen. simpl in Hlen. lia.
      - destruct Hres as (_ & _ & -> & _). lia. }
    destruct Hcount as [Hc1 Hc2].
    split; [done|]. split; [done|]. split; [done|]. split; [done|].
    split; [done|lia].
Qed.

Lemma spawnerUpdate_spec dt sp pathLength maxBalls h c l n :
  chain_repr h c l -> availableColors sp <> [] -> 0 < spawnRate sp ->
  exists k sp' h' c' n' l',
    spawnerUpdate random dt sp pathLength maxBalls h c n
      = Some (k, sp', h', c', n') /\
    chain_repr h' c' l' /\
    Z.of_nat (length l') = (Z.of_nat (length l) + k)%Z /\ (0 <= k)%Z /\
    ((Z.of_nat (length l') < maxBalls)%Z -> accumulator sp' < 1 / spawnRate sp) /\
    ((maxBalls <= Z.of_nat (length l))%Z ->
       k = 0%Z /\ accumulator sp' = accumulator sp + dt /\ h' = h /\ c' = c).
Proof.
  intros Hrepr Hne Hrate. unfold spawnerUpdate.
  set (sp1 := set_accumulator (accumulator sp + dt) sp).
  change (spawnRate sp1) with (spawnRate sp).
  change (accumulator sp1) with (accumulator sp + dt).
  destruct (Qeq_bool (spawnRate sp) 0) eqn:E; [apply Qeq_bool_eq in E; lra|].
  set (interval := 1 / spawnRate sp).
  assert (Hint : 0 < interval).
  { unfold interval, Qdiv. rewrite Qmult_1_l. by apply Qinv_lt_0_compat. }
  set (q := (accumulator sp + dt) / interval).
  assert (Hfuel : accumulator sp1 <
                  interval * inject_Z (Z.of_nat (S (Z.to_nat (Qfloor q))))).
  { change (accumulator sp1) with (accumulator sp + dt).
    assert (Hq : accumulator sp + dt == q * interval).
    { unfold q. field. lra. }
    assert (HF : q < inject_Z (Z.of_nat (S (Z.to_nat (Qfloor q))))).
    { eapply Qlt_le_trans; [apply Qlt_floor|]. rewrite <- Zle_Qle. lia. }
    rewrite Hq. rewrite (Qmult_comm interval). by apply Qmult_lt_compat_r. }
  destruct (spawnLoop_spec interval pathLength maxBalls _ 0%Z sp1 h c l n
              Hrepr Hne Hint Hfuel)
    as (k & sp' & h' & c' & n' & l' & Hrun & Hrepr' & Hlen & Hk & _ & _ & Hlow & Hfull).
  exists k, sp', h', c', n', l'. split; [done|]. split; [done|].
  split; [lia|]. split; [done|]. split; [done|].
  intros Hcap. destruct (Hfull Hcap) as (-> & -> & -> & -> & _). done.
Qed.

End Spawning.

(** ** C9: construction of a path *)

Section PathConstruction.

Variable sqrt : Q -> Q.

Lemma numSegments_pos cps : (4 <= length cps)%nat -> (1 <= numSegments cps)%Z.
Proof.
  intros Hl. unfold numSegments. apply Z.div_le_lower_bound; lia.
Qed.

Lemma numSegments_fit cps :
  (4 <= length cps)%nat -> (3 * numSegments cps < Z.of_nat (length cps))%Z.
Proof.
  intros Hl. unfold numSegments.
  pose proof (Z.mul_div_le (Z.of_nat (length cps) - 1) 3). lia.
Qed.

(** With four control points or more, every control point [getPointAtT]
    reads exists, whatever the parameter. *)
Lemma getPointAtT_is_Some cps t :
  (4 <= length cps)%nat -> is_Some (getPointAtT cps t).
Proof.
  intros Hl. unfold getPointAtT.
  pose proof (numSegments_pos cps Hl) as Hn.
  pose proof (numSegments_fit cps Hl) as Hfit.
  set (n := numSegments cps) in *.
  set (segmentT := Qmax 0 (Qmin 1 t) * inject_Z n).
  assert (H0 : (0 <= Qfloor segmentT)%Z).
  { change 0%Z with (Qfloor (inject_Z 0)) at 1.
    apply Qfloor_resp_le. unfold segmentT.
    apply Qmult_le_0_compat; [apply Q.le_max_l|].
    change 0 with (inject_Z 0). rewrite <- Zle_Qle. lia. }
  set (segmentIndex := Z.min (Qfloor segmentT) (n - 1)).
  assert (Hidx : (0 <= segmentIndex <= n - 1)%Z) by (unfold segmentIndex; lia).
  destruct (elementAt_is_Some cps (segmentIndex * 3)) as [p0 ->]; [lia|].
  destruct (elementAt_is_Some cps (segmentIndex * 3 + 1)) as [p1 ->]; [lia|].
  destruct (elementAt_is_Some cps (segmentIndex * 3 + 2)) as [p2 ->]; [lia|].
  destruct (elementAt_is_Some cps (segmentIndex * 3 + 3)) as [p3 ->]; [lia|].
  simpl. by eexists.
Qed.

Lemma chordLoop_is_Some cps steps todo : forall i prevPoint len table,
  (4 <= length cps)%nat ->
  is_Some (chordLoop sqrt cps steps todo i prevPoint len table).
Proof.
  induction todo as [|todo IH]; intros i prevPoint len table Hl; simpl.
  - by eexists.
  - destruct (getPointAtT_is_Some cps (inject_Z i / inject_Z steps) Hl) as [p ->].
    simpl. by apply IH.
Qed.

(** C9.  [new Path(id, controlPoints)] throws exactly when fewer than four
    control points are supplied; otherwise it returns a path that holds the
    control points it was given, at least four of them, which make up at
    least one whole curve segment. *)
Theorem newPath_throws_iff (ident : string) (cps : list Point) :
  match newPath sqrt ident cps with
  | Throw _ => (length cps < 4)%nat
  | Ok p => (4 <= length cps)%nat /\ controlPoints p = cps /\ id p = ident /\
            (1 <= numSegments (controlPoints p))%Z
  end.
Proof.
  unfold newPath. destruct (Nat.ltb_spec (length cps) 4) as [Hlt|Hge]; [done|].
  unfold calculateTotalLength, buildArcLengthTable.
  destruct (getPointAtT_is_Some cps 0 Hge) as [p0 ->].
  destruct (getPointAtT_is_Some cps 1 Hge) as [p1 ->]. simpl.
  destruct (chordLoop_is_Some cps (SEGMENTS_PER_CURVE * numSegments cps)
              (Z.to_nat (SEGMENTS_PER_CURVE * numSegments cps)) 1 p0 0 [] Hge)
    as [[len t1] ->].
  simpl.
  destruct (chordLoop_is_Some cps (SEGMENTS_PER_CURVE * numSegments cps)
              (Z.to_nat (SEGMENTS_PER_CURVE * numSegments cps)) 1 p0 0 [0] Hge)
    as [[len2 t2] ->].
  simpl. split; [done|]. split; [done|]. split; [done|].
  by apply numSegments_pos.
Qed.

End PathConstruction.

(** ** C4: scoring tiers *)

(** C4.  For a run of [n >= 3] balls and a multiplier [m >= 1],
    [addMatchPoints] returns [basePoints n * m] and adds exactly that to the
    current-level score, leaving the rest of the score alone; at multiplier
    1 a run of 5 is worth 200 and a run of 7 is worth 300. *)
Theorem addMatchPoints_tiers (n : Z) (s : Score) :
  (3 <= n)%Z -> (1 <= chainMultiplier s)%Z ->
  let '(points, s') := addMatchPoints n s in
  points = (basePoints n * chainMultiplier s)%Z /\
  current s' = (current s + basePoints n * chainMultiplier s)%Z /\
  total s' = total s /\ chainMultiplier s' = chainMultiplier s /\
  highScore s' = highScore s /\
  basePoints 3 = 100%Z /\ basePoints 4 = 150%Z /\
  basePoints 5 = 200%Z /\ basePoints 7 = 300%Z /\
  (5 <= n -> basePoints n = 200 + 50 * (n - 5))%Z.
Proof.
  intros Hn Hm. unfold addMatchPoints, basePoints.
  destruct (n =? 3)%Z eqn:E3; [simpl; repeat split; lia|].
  destruct (n =? 4)%Z eqn:E4; [simpl; repeat split; lia|].
  destruct (5 <=? n)%Z eqn:E5; [simpl; repeat split; lia|].
  lia.
Qed.

Lemma addMatchPoints_tiers_witness :
  let '(points, s') := addMatchPoints 7 (mkScore 40 0 2 0) in
  points = (basePoints 7 * 2)%Z /\
  current s' = (40 + basePoints 7 * 2)%Z /\
  total s' = 0%Z /\ chainMultiplier s' = 2%Z /\
  highScore s' = 0%Z /\
  basePoints 3 = 100%Z /\ basePoints 4 = 150%Z /\
  basePoints 5 = 200%Z /\ basePoints 7 = 300%Z /\
  (5 <= 7 -> basePoints 7 = 200 + 50 * (7 - 5))%Z.
Proof.
  apply (addMatchPoints_tiers 7 (mkScore 40 0 2 0)); simpl; lia.
Defined.

(** ** C10: swapping the held colours *)

(** C10.  [swap] exchanges [currentBall] and [reserveBall], leaves position,
    rotation, cooldown and palette as they were, and undoes itself: two
    calls in a row restore both colours. *)
Theorem swap_involution (s : Shooter) :
  currentBall (swap s) = reserveBall s /\
  reserveBall (swap s) = currentBall s /\
  position (swap s) = position s /\
  rotation (swap s) = rotation s /\
  cooldown (swap s) = cooldown s /\
  shooterColors (swap s) = shooterColors s /\
  swap (swap s) = s.
Proof. by destruct s. Qed.

(** * More properties of the chain *)

Section ChainStructure.

Implicit Types (h : gmap positive Ball) (l : list positive) (r : positive).

Lemma scan_push_ge d ds : Forall2 Qle ds (scan pushStep d ds).
Proof.
  revert d. induction ds as [|e ds IH]; intros d; simpl; constructor; [|apply IH].
  unfold pushStep. destruct (Qltb e (d + BALL_RADIUS * 2)) eqn:E; [|lra].
  apply Qltb_true in E. lra.
Qed.

Lemma Forall2_map_elem (f g : positive -> Q) l r :
  Forall2 Qle (map f l) (map g l) -> r ∈ l -> f r <= g r.
Proof.
  induction l as [|x l IH]; simpl; intros HF Hr.
  - by apply elem_of_nil in Hr.
  - apply Forall2_cons in HF as [Hx HF].
    apply elem_of_cons in Hr as [->|Hr]; [done|by apply IH].
Qed.

Lemma removeBall_links r h c h' c' :
  removeBall r h c = Some (h', c') ->
  exists b, h' !! r = Some b /\ prev b = None /\ next b = None.
Proof.
  unfold removeBall. intros Hrun.
  apply bind_Some in Hrun as (b & _ & Hrun).
  apply bind_Some in Hrun as ([h1 c1] & _ & Hrun).
  apply bind_Some in Hrun as (b1 & _ & Hrun).
  apply bind_Some in Hrun as ([h2 c2] & _ & Hrun).
  apply bind_Some in Hrun as (h3 & H3 & Hrun).
  apply bind_Some in Hrun as (h4 & H4 & Hrun).
  unfold assign in H3, H4.
  apply bind_Some in H3 as (b3 & Hb3 & H3).
  apply bind_Some in H4 as (b4 & Hb4 & H4).
  simplify_eq. rewrite lookup_insert_eq in Hb4. simplify_eq.
  eexists. split; [apply lookup_insert_eq|]. by destruct b3.
Qed.

Lemma chain_repr_elem_lookup h c l r :
  chain_repr h c l -> r ∈ l -> is_Some (h !! r).
Proof. intros (_ & _ & _ & Hd). by eapply dseg_lookup. Qed.

End ChainStructure.

(** X1.  On a well-formed chain [insertBall] returns, and the chain then
    holds the new ball right after [afterBall] (at the head for null) and
    every other ball where it was in the sequence.  No colour changes, no
    ball ahead of the new one moves, and no ball ever moves towards the
    hole. *)
Theorem insertBall_splices (h : gmap positive Ball) c l1 l2 ball b0 :
  chain_repr h c (l1 ++ l2) -> h !! ball = Some b0 -> ball ∉ l1 ++ l2 ->
  exists h' c', insertBall ball (last l1) h c = Some (h', c') /\
    getBalls h' c' = Some (l1 ++ ball :: l2) /\
    getLength h' c' = Some (Z.of_nat (length (l1 ++ l2)) + 1)%Z /\
    (forall r, colorOf h' r = colorOf h r) /\
    (forall r, r ∉ l2 -> distOf h' r = distOf h r) /\
    (forall r, distOf h r <= distOf h' r) /\
    gap_state_eq c c'.
Proof.
  intros Hrepr Hb Hball.
  destruct (insertBall_spec h c l1 l2 ball b0 Hrepr Hb Hball)
    as (h' & c' & Hrun & Hrepr' & Hcol & Hout & Hds & Hgap).
  exists h', c'. split; [done|]. split; [by apply getBalls_spec|].
  split.
  { rewrite (getLength_spec h' c' _ Hrepr'). f_equal.
    rewrite !length_app. simpl. lia. }
  split; [done|]. split; [done|]. split; [|done].
  intros r. destruct (decide (r ∈ l2)) as [Hin|Hout2].
  - apply (Forall2_map_elem (distOf h) (distOf h') l2 r); [|done].
    rewrite Hds. apply scan_push_ge.
  - rewrite (Hout r Hout2). lra.
Qed.

Lemma insertBall_splices_witness :
  let h := fst (chainOfThree 100 110 120) in
  let c := snd (chainOfThree 100 110 120) in
  let h0 := <[4%positive := newBall BLUE 105]> h in
  exists h' c', insertBall 4%positive (last [1%positive]) h0 c = Some (h', c') /\
    getBalls h' c' = Some ([1%positive] ++ 4%positive :: [2; 3]%positive) /\
    getLength h' c' =
      Some (Z.of_nat (length ([1%positive] ++ [2; 3]%positive)) + 1)%Z /\
    (forall r, colorOf h' r = colorOf h0 r) /\
    (forall r, r ∉ [2; 3]%positive -> distOf h' r = distOf h0 r) /\
    (forall r, distOf h0 r <= distOf h' r) /\
    gap_state_eq c c'.
Proof.
  apply (insertBall_splices
           (<[4%positive := newBall BLUE 105]> (fst (chainOfThree 100 110 120)))
           (snd (chainOfThree 100 110 120)) [1%positive] [2; 3]%positive
           4%positive (newBall BLUE 105)).
  - concrete_repr.
  - by vm_compute.
  - apply (bool_decide_unpack _). by vm_compute.
Defined.

(** X2.  [removeBall] undoes [insertBall]: inserting a ball and removing it
    again leaves the chain with the balls it had, in the same order, and
    leaves the removed ball with both links null.  (Balls the insertion
    pushed back stay pushed.) *)
Theorem insert_then_remove (h : gmap positive Ball) c l1 l2 ball b0 :
  chain_repr h c (l1 ++ l2) -> h !! ball = Some b0 -> ball ∉ l1 ++ l2 ->
  exists h1 c1 h2 c2 b,
    insertBall ball (last l1) h c = Some (h1, c1) /\
    removeBall ball h1 c1 = Some (h2, c2) /\
    getBalls h2 c2 = Some (l1 ++ l2) /\
    chain_repr h2 c2 (l1 ++ l2) /\
    h2 !! ball = Some b /\ prev b = None /\ next b = None /\
    (forall r, colorOf h2 r = colorOf h r) /\
    (forall r, distOf h2 r = distOf h1 r) /\
    gap_state_eq c c2.
Proof.
  intros Hrepr Hb Hball.
  destruct (insertBall_spec h c l1 l2 ball b0 Hrepr Hb Hball)
    as (h1 & c1 & Hrun1 & Hrepr1 & Hcol1 & _ & _ & Hgap1).
  destruct (removeBall_spec h1 c1 l1 ball l2 Hrepr1)
    as (h2 & c2 & Hrun2 & Hrepr2 & Hrel & Hgap2).
  destruct (removeBall_links ball h1 c1 h2 c2 Hrun2) as (b & Hb2 & Hp & Hn).
  exists h1, c1, h2, c2, b. split; [done|]. split; [done|].
  split; [by apply getBalls_spec|]. split; [done|].
  split; [done|]. split; [done|]. split; [done|].
  split; [intros r; rewrite <- Hcol1; apply Hrel|].
  split; [intros r; by apply relinked_distOf|].
  destruct Hgap1 as (?&?&?&?), Hgap2 as (?&?&?&?). repeat split; congruence.
Qed.

Lemma insert_then_remove_witness :
  let h := fst (chainOfThree 100 110 120) in
  let c := snd (chainOfThree 100 110 120) in
  let h0 := <[4%positive := newBall BLUE 105]> h in
  exists h1 c1 h2 c2 b,
    insertBall 4%positive (last [1%positive]) h0 c = Some (h1, c1) /\
    removeBall 4%positive h1 c1 = Some (h2, c2) /\
    getBalls h2 c2 = Some ([1%positive] ++ [2; 3]%positive) /\
    chain_repr h2 c2 ([1%positive] ++ [2; 3]%positive) /\
    h2 !! 4%positive = Some b /\ prev b = None /\ next b = None /\
    (forall r, colorOf h2 r = colorOf h0 r) /\
    (forall r, distOf h2 r = distOf h1 r) /\
    gap_state_eq c c2.
Proof.
  apply (insert_then_remove
           (<[4%positive := newBall BLUE 105]> (fst (chainOfThree 100 110 120)))
           (snd (chainOfThree 100 110 120)) [1%positive] [2; 3]%positive
           4%positive (newBall BLUE 105)).
  - concrete_repr.
  - by vm_compute.
  - apply (bool_decide_unpack _). by vm_compute.
Defined.

Section Batches.

Implicit Types (h : gmap positive Ball) (l : list positive) (r : positive).

Lemma list_difference_nil_r l : list_difference l [] = l.
Proof.
  induction l as [|x l IH]; simpl; [done|]. rewrite IH.
  destruct (decide_rel elem_of x []) as [Hin|]; [|done].
  by apply elem_of_nil in Hin.
Qed.

(** [removeBalls] on a chain whose balls are in any order of distance. *)
Lemma removeBalls_any h c l balls :
  chain_repr h c l -> NoDup balls -> (forall r, r ∈ balls -> r ∈ l) ->
  exists gi h' c', removeBalls balls h c = Some (gi, h', c') /\
    chain_repr h' c' (list_difference l balls) /\ relinked h h' /\
    velocity c' = velocity c /\
    ((frontBall gi = None \/ backBall gi = None) /\ gap_state_eq c c' \/
     exists f, frontBall gi = Some f /\ is_Some (backBall gi) /\
       isClosingGap c' = true /\
       splitPoint c' = Some (distOf h f + BALL_RADIUS * 2) /\
       backVelocity c' = - SNAP_BACK_SPEED).
Proof.
  intros Hrepr Hnd Hsub. unfold removeBalls.
  destruct balls as [|b0 balls0].
  { exists (mkGapInfo None None), h, c. split; [done|].
    rewrite list_difference_nil_r. split; [done|]. split; [done|].
    split; [done|]. left. split; [by left|done]. }
  set (balls := b0 :: balls0) in *.
  set (sorted := sortByDistance h balls).
  assert (Hperm : sorted ≡ₚ balls) by apply sortByDistance_perm.
  assert (Hmem : forall x, x ∈ sorted <-> x ∈ balls)
    by (intros x; by rewrite Hperm).
  pose proof Hrepr as (_ & _ & _ & Hd).
  assert (Hin : forall x, x ∈ sorted -> exists xb, h !! x = Some xb).
  { intros x Hx. apply (dseg_lookup _ _ _ _ _ Hd). by apply Hsub, Hmem. }
  destruct (list.head sorted) as [first|] eqn:Hfirst; cycle 1.
  { exfalso. apply head_None in Hfirst. apply (elem_of_nil b0).
    rewrite <- Hfirst. apply Hmem. by left. }
  destruct (last sorted) as [final|] eqn:Hlast; cycle 1.
  { exfalso. apply last_None in Hlast. apply (elem_of_nil b0).
    rewrite <- Hlast. apply Hmem. by left. }
  assert (Hf : first ∈ sorted) by (by apply head_Some_elem_of).
  destruct (Hin first Hf) as [fb Hfb].
  destruct (Hin final (last_Some_elem_of _ _ Hlast)) as [lb Hlb].
  simpl. rewrite Hfb, Hlb. simpl.
  destruct (removeEach_spec sorted h c l Hrepr)
    as (h' & c' & -> & Hrepr' & Hrel & Hgap).
  { by rewrite Hperm. }
  { intros x Hx. apply Hsub. by apply Hmem. }
  simpl. rewrite (list_difference_ext l sorted balls Hmem) in Hrepr'.
  destruct (prev fb) as [f|] eqn:Hprev; cycle 1.
  { eexists _, h', c'. split; [done|]. split; [done|]. split; [done|].
    split; [by destruct Hgap|]. left. split; [by left|done]. }
  destruct (next lb) as [g|] eqn:Hnext; cycle 1.
  { eexists _, h', c'. split; [done|]. split; [done|]. split; [done|].
    split; [by destruct Hgap|]. left. split; [by right|done]. }
  assert (Hfl : f ∈ l).
  { destruct (list_elem_of_split l first) as (l1 & l2 & Hl);
      [by apply Hsub, Hmem|].
    rewrite Hl in Hrepr. rewrite (chain_repr_prev _ _ _ _ _ _ Hrepr Hfb) in Hprev.
    rewrite Hl. apply elem_of_app. left. by apply last_Some_elem_of. }
  destruct (dseg_lookup _ _ _ _ _ Hd Hfl) as [fb' Hfb'].
  destruct (Hrel f) as [_ Hdist]. rewrite Hfb' in Hdist.
  destruct (h' !! f) as [fb''|] eqn:Hfb''; [|done]. simpl in Hdist.
  injection Hdist as Hdist. simpl.
  eexists _, h', _. split; [reflexivity|].
  split; [by apply chain_repr_set_gap|]. split; [done|].
  split; [by destruct Hgap|]. right. exists f. simpl.
  split; [done|]. split; [by eexists|]. split; [done|]. split; [|done].
  unfold distOf. rewrite Hfb'. simpl. by rewrite Hdist.
Qed.

Lemma chain_repr_nil h c : chain_repr h (clear c) [].
Proof. repeat split. apply NoDup_nil_2. Qed.

Lemma chain_repr_ends h c l :
  chain_repr h c l ->
  (isEmpty c = true <-> l = []) /\ (head c = None <-> tail c = None).
Proof.
  intros (_ & Hh & Ht & _). unfold isEmpty. rewrite Hh, Ht.
  destruct l as [|x l]; simpl; [done|].
  split; [done|]. rewrite last_cons. by destruct (last l).
Qed.

Lemma runOp_wellformed op h c l :
  chain_repr h c l -> opAllowed op h c ->
  exists h' c' l', runOp op h c = Some (h', c') /\ chain_repr h' c' l'.
Proof.
  intros Hrepr Hop. destruct op as [ball afterBall|ball|batch|dt|]; simpl in *.
  - destruct Hop as (l0 & Hl0 & Hball & [b0 Hb0] & Hafter).
    rewrite (getBalls_spec h c l Hrepr) in Hl0. injection Hl0 as <-.
    assert (Hsplit : exists l1 l2, l = l1 ++ l2 /\ afterBall = last l1).
    { destruct afterBall as [a|].
      - destruct (list_elem_of_split l a Hafter) as (l1 & l2 & ->).
        exists (l1 ++ [a]), l2. by rewrite <- app_assoc, last_snoc.
      - by exists [], l. }
    destruct Hsplit as (l1 & l2 & -> & ->).
    destruct (insertBall_spec h c l1 l2 ball b0 Hrepr Hb0 Hball)
      as (h' & c' & Hrun & Hrepr' & _).
    by exists h', c', (l1 ++ ball :: l2).
  - destruct Hop as (l0 & Hl0 & Hin).
    rewrite (getBalls_spec h c l Hrepr) in Hl0. injection Hl0 as <-.
    destruct (list_elem_of_split l ball Hin) as (l1 & l2 & ->).
    destruct (removeBall_spec h c l1 ball l2 Hrepr) as (h' & c' & Hrun & Hrepr' & _).
    by exists h', c', (l1 ++ l2).
  - destruct Hop as (l0 & Hl0 & Hnd & Hsub).
    rewrite (getBalls_spec h c l Hrepr) in Hl0. injection Hl0 as <-.
    destruct (removeBalls_any h c l batch Hrepr Hnd Hsub)
      as (gi & h' & c' & -> & Hrepr' & _).
    by exists h', c', (list_difference l batch).
  - destruct (update_total dt h c l Hrepr) as (h' & c' & Hrun & Hrepr' & _).
    by exists h', c', l.
  - exists h, (clear c), []. split; [done|apply chain_repr_nil].
Qed.

End Batches.

(** X3.  [removeBalls] needs no order on the chain to do its removing: on
    any well-formed chain and any batch of chain balls, each given once
    (the empty batch too), it returns, the chain then holds exactly the
    other balls in their old order, and no ball has moved or changed
    colour.  The forward velocity is kept; the gap-closing state is either
    kept, or a gap is opened at the returned front ball's distance plus
    [2 * BALL_RADIUS]. *)
Theorem removeBalls_removes_batch (h : gmap positive Ball) c l batch :
  chain_repr h c l -> NoDup batch -> (forall r, r ∈ batch -> r ∈ l) ->
  exists gi h' c', removeBalls batch h c = Some (gi, h', c') /\
    getBalls h' c' = Some (list_difference l batch) /\
    (forall r, distOf h' r = distOf h r) /\
    (forall r, colorOf h' r = colorOf h r) /\
    velocity c' = velocity c /\
    (gap_state_eq c c' \/
     exists f, frontBall gi = Some f /\ is_Some (backBall gi) /\
       isClosingGap c' = true /\
       splitPoint c' = Some (distOf h f + BALL_RADIUS * 2) /\
       backVelocity c' = - SNAP_BACK_SPEED).
Proof.
  intros Hrepr Hnd Hsub.
  destruct (removeBalls_any h c l batch Hrepr Hnd Hsub)
    as (gi & h' & c' & Hrun & Hrepr' & Hrel & Hv & Hgap).
  exists gi, h', c'. split; [done|]. split; [by apply getBalls_spec|].
  split; [intros r; by apply relinked_distOf|].
  split; [intros r; apply Hrel|]. split; [done|].
  destruct Hgap as [[_ Hsame]|Hopen]; [by left|by right].
Qed.

Lemma removeBalls_removes_batch_witness :
  let h := fst (chainOfThree 300 200 100) in
  let c := snd (chainOfThree 300 200 100) in
  exists gi h' c', removeBalls [1; 3]%positive h c = Some (gi, h', c') /\
    getBalls h' c' = Some (list_difference [1; 2; 3]%positive [1; 3]%positive) /\
    (forall r, distOf h' r = distOf h r) /\
    (forall r, colorOf h' r = colorOf h r) /\
    velocity c' = velocity c /\
    (gap_state_eq c c' \/
     exists f, frontBall gi = Some f /\ is_Some (backBall gi) /\
       isClosingGap c' = true /\
       splitPoint c' = Some (distOf h f + BALL_RADIUS * 2) /\
       backVelocity c' = - SNAP_BACK_SPEED).
Proof.
  apply (removeBalls_removes_batch (fst (chainOfThree 300 200 100))
           (snd (chainOfThree 300 200 100)) [1; 2; 3]%positive [1; 3]%positive).
  - concrete_repr.
  - apply (bool_decide_unpack _). by vm_compute.
  - intros r Hr. apply elem_of_cons in Hr as [->|Hr].
    + by left.
    + apply list_elem_of_singleton in Hr as ->. right. right. by left.
Defined.

(** X4.  [removeBall] does not check that its ball is in the chain: called
    a second time on a ball it has just removed, it finds both links null
    and sets head and tail to null, so a chain of any length reports
    itself empty. *)
Theorem removeBall_twice_empties (h : gmap positive Ball) c l1 r l2 :
  chain_repr h c (l1 ++ r :: l2) ->
  exists h1 c1 h2 c2,
    removeBall r h c = Some (h1, c1) /\
    getBalls h1 c1 = Some (l1 ++ l2) /\
    removeBall r h1 c1 = Some (h2, c2) /\
    head c2 = None /\ tail c2 = None /\
    isEmpty c2 = true /\ getBalls h2 c2 = Some [] /\
    getLength h2 c2 = Some 0%Z.
Proof.
  intros Hrepr.
  destruct (removeBall_spec h c l1 r l2 Hrepr) as (h1 & c1 & Hrun & Hrepr1 & _).
  destruct (removeBall_links r h c h1 c1 Hrun) as (b & Hb & Hp & Hn).
  exists h1, c1. unfold removeBall at 2. rewrite Hb. simpl. rewrite Hp. simpl.
  rewrite Hb. simpl. rewrite Hn. simpl.
  rewrite (assign_Some _ _ _ _ Hb). simpl.
  erewrite assign_Some by apply lookup_insert_eq. simpl.
  eexists _, _. split; [done|]. split; [by apply getBalls_spec|].
  split; [reflexivity|]. simpl. split; [done|]. split; [done|].
  split; [done|]. unfold getLength, getBalls. simpl.
  assert (Hw : forall fuel h0, walk fuel None h0 = Some []) by (by intros []).
  rewrite Hw. done.
Qed.

Lemma removeBall_twice_empties_witness :
  let h := fst (chainOfThree 100 132 164) in
  let c := snd (chainOfThree 100 132 164) in
  exists h1 c1 h2 c2,
    removeBall 2%positive h c = Some (h1, c1) /\
    getBalls h1 c1 = Some ([1%positive] ++ [3%positive]) /\
    removeBall 2%positive h1 c1 = Some (h2, c2) /\
    head c2 = None /\ tail c2 = None /\
    isEmpty c2 = true /\ getBalls h2 c2 = Some [] /\
    getLength h2 c2 = Some 0%Z.
Proof.
  apply (removeBall_twice_empties (fst (chainOfThree 100 132 164))
           (snd (chainOfThree 100 132 164)) [1%positive] 2%positive [3%positive]).
  concrete_repr.
Defined.

(** X5.  Well-formedness is an invariant of the chain's mutators.  From a
    well-formed chain (the new, empty one is), any run of [insertBall],
    [removeBall], [removeBalls], [update] and [clear] whose arguments are
    what the calls expect returns, and leaves a doubly linked list without
    repetition that [getBalls] walks from head to tail; head is null
    exactly when tail is, and [isEmpty] holds exactly when the length is
    0. *)
Theorem chain_ops_keep_wellformed ops : forall (h : gmap positive Ball) c l,
  chain_repr h c l -> opsAllowed ops h c ->
  exists h' c' l', runOps ops h c = Some (h', c') /\
    chain_repr h' c' l' /\ getBalls h' c' = Some l' /\
    (head c' = None <-> tail c' = None) /\
    (isEmpty c' = true <-> getLength h' c' = Some 0%Z).
Proof.
  induction ops as [|op ops IH]; intros h c l Hrepr Hops; simpl in *.
  - exists h, c, l. split; [done|]. split; [done|].
    split; [by apply getBalls_spec|].
    destruct (chain_repr_ends h c l Hrepr) as [He Hht]. split; [done|].
    rewrite (getLength_spec h c l Hrepr), He.
    destruct l; simpl; split; intros; simplify_eq; done || lia.
  - destruct Hops as [Hop Hrest].
    destruct (runOp_wellformed op h c l Hrepr Hop) as (h1 & c1 & l1 & Hrun & Hrepr1).
    destruct (IH h1 c1 l1 Hrepr1 (Hrest _ _ Hrun)) as (h' & c' & l' & Hall & Hfin).
    exists h', c', l'. split; [|done]. by rewrite Hrun.
Qed.

Lemma chain_ops_keep_wellformed_witness :
  exists h' c' l',
    runOps [OpInsert 1%positive None; OpUpdate 1; OpRemove 1%positive; OpClear]
           (threeBalls 100 132 164) newChain = Some (h', c') /\
    chain_repr h' c' l' /\ getBalls h' c' = Some l' /\
    (head c' = None <-> tail c' = None) /\
    (isEmpty c' = true <-> getLength h' c' = Some 0%Z).
Proof.
  apply (chain_ops_keep_wellformed _ _ _ []).
  - repeat split; [apply NoDup_nil_2|done..].
  - split.
    { exists []. repeat split; [apply not_elem_of_nil|by eexists]. }
    intros h1 c1 H1. vm_compute in H1. injection H1 as <- <-.
    split; [done|].
    intros h2 c2 H2. vm_compute in H2. injection H2 as <- <-.
    split.
    { exists [1%positive]. split; [by vm_compute|by left]. }
    intros h3 c3 H3. vm_compute in H3. injection H3 as <- <-.
    done.
Defined.

Section Queries.

Implicit Types (h : gmap positive Ball) (l : list positive) (r : positive).

(** A list splits at its first element that fails a test. *)
Lemma prefix_split (P : positive -> bool) l :
  exists l1 l2, l = l1 ++ l2 /\ (forall r, r ∈ l1 -> P r = true) /\
    match l2 with [] => True | b :: _ => P b = false end.
Proof.
  induction l as [|x l (l1 & l2 & -> & H1 & H2)].
  - exists [], []. split; [done|]. split; [|done].
    intros r Hr. by apply elem_of_nil in Hr.
  - destruct (P x) eqn:Hx.
    + exists (x :: l1), l2. split; [done|]. split; [|done].
      intros r [->|Hr]%elem_of_cons; [done|by apply H1].
    + exists [], (x :: l1 ++ l2). split; [done|]. split; [|done].
      intros r Hr. by apply elem_of_nil in Hr.
Qed.

Lemma insertionLoop_spec d h l1 l2 : forall p fuel acc,
  dseg h p (l1 ++ l2) None -> (length (l1 ++ l2) <= fuel)%nat ->
  (forall r, r ∈ l1 -> distOf h r < d) ->
  match l2 with [] => True | b :: _ => d <= distOf h b end ->
  insertionLoop fuel (list.head (l1 ++ l2)) acc d h = Some (lastOr l1 acc).
Proof.
  induction l1 as [|r l1 IH]; intros p fuel acc Hd Hf Hl1 Hl2; simpl in *.
  - destruct l2 as [|b l2]; [by destruct fuel|].
    destruct fuel as [|fuel]; [simpl in Hf; lia|].
    destruct Hd as (bb & Hbb & _). simpl. rewrite Hbb. simpl.
    rewrite (distOf_lookup _ _ _ Hbb) in Hl2. apply Qltb_false in Hl2.
    by rewrite Hl2.
  - destruct fuel as [|fuel]; [lia|]. destruct Hd as (rb & Hrb & _ & Hn & Hd).
    simpl. rewrite Hrb. simpl.
    assert (Hr : distOf h r < d) by (apply Hl1; by left).
    rewrite (distOf_lookup _ _ _ Hrb) in Hr. apply Qltb_true in Hr.
    rewrite Hr, Hn, headOr_None.
    rewrite (IH (Some r) fuel (Some r)); [|done|lia| |done].
    + unfold lastOr. rewrite last_cons. by destruct (last l1).
    + intros r0 Hr0. apply Hl1. by right.
Qed.

Lemma gapLoop_spec sp h l1 l2 : forall p fuel acc,
  dseg h p (l1 ++ l2) None -> (length (l1 ++ l2) <= fuel)%nat ->
  (forall r, r ∈ l1 -> distOf h r < sp) ->
  match l2 with [] => True | b :: _ => sp <= distOf h b end ->
  gapLoop fuel (list.head (l1 ++ l2)) acc sp h =
    Some (lastOr l1 acc, list.head l2).
Proof.
  induction l1 as [|r l1 IH]; intros p fuel acc Hd Hf Hl1 Hl2; simpl in *.
  - destruct l2 as [|b l2]; [by destruct fuel|].
    destruct fuel as [|fuel]; [simpl in Hf; lia|].
    destruct Hd as (bb & Hbb & _). simpl. rewrite Hbb. simpl.
    rewrite (distOf_lookup _ _ _ Hbb) in Hl2. apply Qltb_false in Hl2.
    by rewrite Hl2.
  - destruct fuel as [|fuel]; [lia|]. destruct Hd as (rb & Hrb & _ & Hn & Hd).
    simpl. rewrite Hrb. simpl.
    assert (Hr : distOf h r < sp) by (apply Hl1; by left).
    rewrite (distOf_lookup _ _ _ Hrb) in Hr. apply Qltb_true in Hr.
    rewrite Hr, Hn, headOr_None.
    rewrite (IH (Some r) fuel (Some r)); [|done|lia| |done].
    + unfold lastOr. rewrite last_cons. by destruct (last l1).
    + intros r0 Hr0. apply Hl1. by right.
Qed.

Lemma findAtLoop_spec d h l : forall p fuel,
  dseg h p l None -> (length l <= fuel)%nat ->
  exists res, findAtLoop fuel (list.head l) d h = Some res /\
    match res with
    | None => forall r, r ∈ l -> BALL_RADIUS * 2 <= Qabs (distOf h r - d)
    | Some b => exists l1 l2, l = l1 ++ b :: l2 /\
        Qabs (distOf h b - d) < BALL_RADIUS * 2 /\
        forall r, r ∈ l1 -> BALL_RADIUS * 2 <= Qabs (distOf h r - d)
    end.
Proof.
  induction l as [|x l IH]; intros p fuel Hd Hf; simpl in *.
  - exists None. split; [by destruct fuel|].
    intros r Hr. by apply elem_of_nil in Hr.
  - destruct fuel as [|fuel]; [lia|]. destruct Hd as (xb & Hxb & _ & Hn & Hd).
    cbn [findAtLoop list.head]. rewrite Hxb. cbn [mbind option_bind].
    destruct (Qltb (Qabs (distanceAlongPath xb - d)) (BALL_RADIUS * 2)) eqn:E.
    + exists (Some x). split; [done|]. exists [], l. split; [done|].
      rewrite (distOf_lookup _ _ _ Hxb). split; [by apply Qltb_true|].
      intros r Hr. by apply elem_of_nil in Hr.
    + apply Qltb_false in E. rewrite Hn, headOr_None.
      destruct (IH (Some x) fuel Hd) as (res & -> & Hres); [lia|].
      exists res. split; [done|]. destruct res as [b|].
      * destruct Hres as (l1 & l2 & -> & Hb & Hl1).
        exists (x :: l1), l2. split; [done|]. split; [done|].
        intros r [->|Hr]%elem_of_cons; [|by apply Hl1].
        by rewrite (distOf_lookup _ _ _ Hxb).
      * intros r [->|Hr]%elem_of_cons; [|by apply Hres].
        by rewrite (distOf_lookup _ _ _ Hxb).
Qed.

Lemma spacedFrom_ascendingFrom d ds : spacedFrom d ds -> ascendingFrom d ds.
Proof.
  revert d. induction ds as [|e ds IH]; intros d; simpl; [done|].
  intros [Hde Hs]. split; [unfold BALL_RADIUS in Hde; lra|by apply IH].
Qed.

Lemma ascending_snoc_cons ds1 d ds2 :
  ascending ds1 -> (forall e, e ∈ ds1 -> e < d) -> ascendingFrom d ds2 ->
  ascending (ds1 ++ d :: ds2).
Proof.
  destruct ds1 as [|x ds1]; simpl; [done|]. intros Ha Hlt Hd.
  apply ascendingFrom_app. split; [done|]. simpl. split; [|done].
  destruct (last ds1) as [y|] eqn:Hy; simpl.
  - apply Hlt. right. by apply last_Some_elem_of.
  - apply Hlt. by left.
Qed.

Lemma ascending_app_l ds1 ds2 : ascending (ds1 ++ ds2) -> ascending ds1.
Proof.
  destruct ds1 as [|x ds1]; simpl; [done|]. intros Ha.
  by apply ascendingFrom_app in Ha as [? _].
Qed.

(** On a chain in increasing order, the balls from the first one at or
    beyond [d] on are all at or beyond [d]. *)
Lemma ascending_rest_ge (f : positive -> Q) d l2 :
  ascending (map f l2) ->
  match l2 with [] => True | b :: _ => d <= f b end ->
  forall r, r ∈ l2 -> d <= f r.
Proof.
  destruct l2 as [|b l2]; simpl.
  - intros _ _ r Hr. by apply elem_of_nil in Hr.
  - intros Ha Hb r [->|Hr]%elem_of_cons; [done|].
    pose proof (ascendingFrom_all _ _ Ha (f r) (list_elem_of_fmap_2 f _ _ Hr)). lra.
Qed.

Lemma chain_split_at d h c l :
  chain_repr h c l -> ascending (map (distOf h) l) ->
  exists l1 l2, l = l1 ++ l2 /\ (forall r, r ∈ l1 -> distOf h r < d) /\
    (forall r, r ∈ l2 -> d <= distOf h r) /\
    match l2 with [] => True | b :: _ => d <= distOf h b end.
Proof.
  intros Hrepr Hasc.
  destruct (prefix_split (fun r => Qltb (distOf h r) d) l)
    as (l1 & l2 & -> & H1 & H2).
  assert (H2' : match l2 with [] => True | b :: _ => d <= distOf h b end).
  { destruct l2; [done|]. by apply Qltb_false. }
  exists l1, l2. split; [done|].
  split; [intros r Hr; by apply Qltb_true, H1|]. split; [|done].
  rewrite map_app in Hasc. apply ascending_app_r in Hasc.
  by apply ascending_rest_ge.
Qed.

End Queries.

(** X6.  On a well-formed chain in increasing order of distance,
    [findInsertionPoint(d)] returns the last ball nearer to the hole than
    [d]: every ball up to it is nearer than [d], every ball behind it is at
    [d] or beyond, and the result is null exactly when no ball is nearer
    than [d] (on the empty chain, for one). *)
Theorem findInsertionPoint_spec (h : gmap positive Ball) c l d :
  chain_repr h c l -> ascending (map (distOf h) l) ->
  exists l1 l2, l = l1 ++ l2 /\
    findInsertionPoint d h c = Some (last l1) /\
    (forall r, r ∈ l1 -> distOf h r < d) /\
    (forall r, r ∈ l2 -> d <= distOf h r) /\
    (last l1 = None <-> forall r, r ∈ l -> d <= distOf h r).
Proof.
  intros Hrepr Hasc.
  destruct (chain_split_at d h c l Hrepr Hasc) as (l1 & l2 & -> & H1 & H2 & Hh).
  exists l1, l2. split; [done|]. split.
  { unfold findInsertionPoint. pose proof Hrepr as (_ & -> & _ & Hd).
    rewrite (insertionLoop_spec d h l1 l2 None _ None Hd); [| |done..].
    - by rewrite lastOr_None.
    - by eapply chain_repr_length. }
  split; [done|]. split; [done|]. split.
  - intros ->%last_None r Hr. by apply H2.
  - intros Hall. destruct (last l1) as [a|] eqn:Ha; [exfalso|done].
    apply last_Some_elem_of in Ha.
    specialize (H1 a Ha). specialize (Hall a). 
    assert (d <= distOf h a) by (apply Hall, elem_of_app; by left). lra.
Qed.

Lemma findInsertionPoint_spec_witness :
  let h := fst (chainOfThree 100 132 164) in
  let c := snd (chainOfThree 100 132 164) in
  exists l1 l2, [1; 2; 3]%positive = l1 ++ l2 /\
    findInsertionPoint 140 h c = Some (last l1) /\
    (forall r, r ∈ l1 -> distOf h r < 140) /\
    (forall r, r ∈ l2 -> 140 <= distOf h r) /\
    (last l1 = None <-> forall r, r ∈ [1; 2; 3]%positive -> 140 <= distOf h r).
Proof.
  apply (findInsertionPoint_spec (fst (chainOfThree 100 132 164))
           (snd (chainOfThree 100 132 164)) [1; 2; 3]%positive 140).
  - concrete_repr.
  - by vm_compute.
Defined.

(** X7.  Inserting a ball after the ball [findInsertionPoint] returns for
    the ball's own distance keeps a chain in increasing order of distance
    in increasing order: the ball lands behind every nearer ball, and the
    balls behind it are pushed to at least [2 * BALL_RADIUS] apart from it
    on. *)
Theorem insert_at_insertion_point (h : gmap positive Ball) c l ball b0 :
  chain_repr h c l -> ascending (map (distOf h) l) ->
  h !! ball = Some b0 -> ball ∉ l ->
  exists after h' c' l1 l2, l = l1 ++ l2 /\
    findInsertionPoint (distanceAlongPath b0) h c = Some after /\
    insertBall ball after h c = Some (h', c') /\
    getBalls h' c' = Some (l1 ++ ball :: l2) /\
    chain_repr h' c' (l1 ++ ball :: l2) /\
    ascending (map (distOf h') (l1 ++ ball :: l2)) /\
    spaced (map (distOf h') (ball :: l2)) /\
    distOf h' ball = distanceAlongPath b0.
Proof.
  intros Hrepr Hasc Hb Hball.
  destruct (chain_split_at (distanceAlongPath b0) h c l Hrepr Hasc)
    as (l1 & l2 & -> & H1 & H2 & Hh).
  exists (last l1).
  destruct (insertBall_spaced_behind h c l1 l2 ball b0 Hrepr Hb Hball)
    as (h' & c' & Hrun & Hrepr' & Hd1 & Hdb & Hsp).
  exists h', c', l1, l2. split; [done|]. split.
  { unfold findInsertionPoint. pose proof Hrepr as (_ & -> & _ & Hd).
    rewrite (insertionLoop_spec _ h l1 l2 None _ None Hd); [| |done..].
    - by rewrite lastOr_None.
    - by eapply chain_repr_length. }
  split; [done|]. split; [by apply getBalls_spec|]. split; [done|].
  rewrite (distOf_lookup _ _ _ Hb) in Hdb.
  split; [|split; [done|done]].
  rewrite map_app. simpl. apply ascending_snoc_cons.
  - rewrite Hd1. rewrite map_app in Hasc. by apply ascending_app_l in Hasc.
  - rewrite Hd1, Hdb. intros e He. apply list_elem_of_fmap in He as (r & -> & Hr).
    by apply H1.
  - by apply spacedFrom_ascendingFrom.
Qed.

Lemma insert_at_insertion_point_witness :
  let h := <[4%positive := newBall BLUE 140]> (fst (chainOfThree 100 132 164)) in
  let c := snd (chainOfThree 100 132 164) in
  exists after h' c' l1 l2, [1; 2; 3]%positive = l1 ++ l2 /\
    findInsertionPoint (distanceAlongPath (newBall BLUE 140)) h c = Some after /\
    insertBall 4%positive after h c = Some (h', c') /\
    getBalls h' c' = Some (l1 ++ 4%positive :: l2) /\
    chain_repr h' c' (l1 ++ 4%positive :: l2) /\
    ascending (map (distOf h') (l1 ++ 4%positive :: l2)) /\
    spaced (map (distOf h') (4%positive :: l2)) /\
    distOf h' 4%positive = distanceAlongPath (newBall BLUE 140).
Proof.
  apply (insert_at_insertion_point
           (<[4%positive := newBall BLUE 140]> (fst (chainOfThree 100 132 164)))
           (snd (chainOfThree 100 132 164)) [1; 2; 3]%positive 4%positive
           (newBall BLUE 140)).
  - concrete_repr.
  - by vm_compute.
  - by vm_compute.
  - apply (bool_decide_unpack _). by vm_compute.
Defined.

(** X8.  [getGapColors] on a well-formed chain in increasing order, with a
    split point that is neither null nor 0, returns the colour of the last
    ball before the split point and the colour of the first ball at or
    beyond it, null where there is no such ball.  With the split point null
    or equal to 0 it returns null for both, whatever the chain holds. *)
Theorem getGapColors_spec (h : gmap positive Ball) c l :
  chain_repr h c l -> ascending (map (distOf h) l) ->
  match splitPoint c with
  | None => getGapColors h c = Some (None, None)
  | Some sp =>
    if Qeq_bool sp 0 then getGapColors h c = Some (None, None)
    else exists l1 l2, l = l1 ++ l2 /\
      (forall r, r ∈ l1 -> distOf h r < sp) /\
      (forall r, r ∈ l2 -> sp <= distOf h r) /\
      getGapColors h c =
        Some (last l1 ≫= colorOf h, list.head l2 ≫= colorOf h)
  end.
Proof.
  intros Hrepr Hasc. unfold getGapColors.
  destruct (splitPoint c) as [sp|]; [|done].
  destruct (Qeq_bool sp 0); [done|].
  destruct (chain_split_at sp h c l Hrepr Hasc) as (l1 & l2 & -> & H1 & H2 & Hh).
  exists l1, l2. split; [done|]. split; [done|]. split; [done|].
  pose proof Hrepr as (_ & -> & _ & Hd).
  rewrite (gapLoop_spec sp h l1 l2 None _ None Hd); [| |done..].
  - simpl. by rewrite lastOr_None.
  - by eapply chain_repr_length.
Qed.

Lemma getGapColors_spec_witness :
  let h := fst openGap in
  let c := snd openGap in
  match splitPoint c with
  | None => getGapColors h c = Some (None, None)
  | Some sp =>
    if Qeq_bool sp 0 then getGapColors h c = Some (None, None)
    else exists l1 l2, [1; 2; 3]%positive = l1 ++ l2 /\
      (forall r, r ∈ l1 -> distOf h r < sp) /\
      (forall r, r ∈ l2 -> sp <= distOf h r) /\
      getGapColors h c =
        Some (last l1 ≫= colorOf h, list.head l2 ≫= colorOf h)
  end.
Proof.
  apply (getGapColors_spec (fst openGap) (snd openGap) [1; 2; 3]%positive).
  - concrete_repr.
  - by vm_compute.
Defined.

(** X9.  [findBallAtDistance(d)] on a well-formed chain returns the first
    ball, in chain order from the head, whose distance is less than
    [2 * BALL_RADIUS] from [d]; it returns null exactly when every ball of
    the chain is [2 * BALL_RADIUS] or more away (on the empty chain, for
    one). *)
Theorem findBallAtDistance_spec (h : gmap positive Ball) c l d :
  chain_repr h c l ->
  exists res, findBallAtDistance d h c = Some res /\
    match res with
    | None => forall r, r ∈ l -> BALL_RADIUS * 2 <= Qabs (distOf h r - d)
    | Some b => exists l1 l2, l = l1 ++ b :: l2 /\
        Qabs (distOf h b - d) < BALL_RADIUS * 2 /\
        forall r, r ∈ l1 -> BALL_RADIUS * 2 <= Qabs (distOf h r - d)
    end.
Proof.
  intros Hrepr. unfold findBallAtDistance.
  pose proof Hrepr as (_ & -> & _ & Hd).
  apply (findAtLoop_spec d h l None); [done|by eapply chain_repr_length].
Qed.

Lemma findBallAtDistance_spec_witness :
  let h := fst (chainOfThree 100 132 164) in
  let c := snd (chainOfThree 100 132 164) in
  exists res, findBallAtDistance 150 h c = Some res /\
    match res with
    | None => forall r, r ∈ [1; 2; 3]%positive ->
                        BALL_RADIUS * 2 <= Qabs (distOf h r - 150)
    | Some b => exists l1 l2, [1; 2; 3]%positive = l1 ++ b :: l2 /\
        Qabs (distOf h b - 150) < BALL_RADIUS * 2 /\
        forall r, r ∈ l1 -> BALL_RADIUS * 2 <= Qabs (distOf h r - 150)
    end.
Proof.
  apply (findBallAtDistance_spec (fst (chainOfThree 100 132 164))
           (snd (chainOfThree 100 132 164)) [1; 2; 3]%positive 150).
  concrete_repr.
Defined.

Section OrderAndSpacing.

Implicit Types (h : gmap positive Ball) (l : list positive) (r : positive).











End OrderAndSpacing.



(** * More properties of the collision tests *)

Section Reactions.

Implicit Types (h : gmap positive Ball) (l : list positive) (r : positive).

Lemma colorPrefix_cons_eq h col r l :
  colorOf h r = Some col -> colorPrefix h col (r :: l) = r :: colorPrefix h col l.
Proof. intros Hr. simpl. by destruct (decide (colorOf h r = Some col)). Qed.

(** [findMatch] on a ball of the chain. *)
Lemma findMatch_run h c l1 s l2 col :
  chain_repr h c (l1 ++ s :: l2) -> colorOf h s = Some col ->
  findMatch s h =
    Some (if decide (3 <= length (colorRun h col l1 s l2))%nat
          then Some (mkMatchResult (colorRun h col l1 s l2) col)
          else None).
Proof.
  intros Hrepr Hs.
  pose proof (chain_repr_length _ _ _ Hrepr) as Hlen.
  rewrite length_app in Hlen. simpl in Hlen.
  destruct Hrepr as (_ & _ & _ & Hd). apply dseg_app in Hd as [Hd1 Hd2].
  destruct Hd2 as (sb & Hsb & Hp & Hn & Hd2).
  rewrite lastOr_None in Hp. rewrite headOr_None in Hn.
  rewrite (colorOf_lookup _ _ _ Hsb) in Hs. injection Hs as Hs.
  unfold findMatch. rewrite Hsb. simpl. rewrite Hp, Hs.
  rewrite (scanBackward_spec h col l1 _ (size h) [s] Hd1) by lia.
  simpl. rewrite Hn.
  rewrite (scanForward_spec h col l2 _ (size h) _ Hd2) by lia.
  simpl.
  assert (Hrun : (reverse (colorPrefix h col (reverse l1)) ++ [s])
                 ++ colorPrefix h col l2 = colorRun h col l1 s l2)
    by (unfold colorRun; by rewrite <- app_assoc).
  rewrite Hrun. by destruct (decide _).
Qed.

Lemma colorRun_shift h col l1 f b l2 :
  colorOf h f = Some col -> colorOf h b = Some col ->
  colorRun h col (l1 ++ [f]) b l2 = colorRun h col l1 f (b :: l2).
Proof.
  intros Hf Hb. unfold colorRun.
  rewrite reverse_snoc, (colorPrefix_cons_eq h col f _ Hf), reverse_cons.
  rewrite (colorPrefix_cons_eq h col b _ Hb). by rewrite <- app_assoc.
Qed.

Lemma checkChainReaction_run h c l1 f b l2 col :
  chain_repr h c (l1 ++ f :: b :: l2) ->
  colorOf h f = Some col -> colorOf h b = Some col ->
  checkChainReaction (Some f) (Some b) h =
    Some (if decide (3 <= length (colorRun h col l1 f (b :: l2)))%nat
          then Some (mkMatchResult (colorRun h col l1 f (b :: l2)) col)
          else None).
Proof.
  intros Hrepr Hf Hb.
  pose proof (chain_repr_length _ _ _ Hrepr) as Hlen.
  rewrite length_app in Hlen. simpl in Hlen.
  destruct Hrepr as (_ & _ & _ & Hd).
  change (l1 ++ f :: b :: l2) with (l1 ++ [f] ++ b :: l2) in Hd.
  rewrite app_assoc in Hd. apply dseg_app in Hd as [Hd1 Hd2].
  destruct (dseg_lookup _ _ _ _ f Hd1) as [fb Hfb];
    [apply elem_of_app; right; by left|].
  destruct (dseg_lookup _ _ _ _ b Hd2) as [bb Hbb]; [by left|].
  rewrite (colorOf_lookup _ _ _ Hfb) in Hf. injection Hf as Hf.
  rewrite (colorOf_lookup _ _ _ Hbb) in Hb. injection Hb as Hb.
  unfold checkChainReaction. rewrite Hfb, Hbb. cbn [mbind option_bind].
  rewrite Hf, Hb. destruct (decide (col = col)) as [_|]; [|done].
  pose proof (scanBackward_spec h col (l1 ++ [f]) _ (size h) [] Hd1) as Hback.
  rewrite last_snoc in Hback. rewrite Hback by (rewrite length_app; simpl; lia).
  cbn [mbind option_bind].
  pose proof (scanForward_spec h col (b :: l2) _ (size h)
                (reverse (colorPrefix h col (reverse (l1 ++ [f]))) ++ []) Hd2)
    as Hfwd.
  change (list.head (b :: l2)) with (Some b) in Hfwd.
  rewrite Hfwd by (simpl; lia). cbn [mbind option_bind].
  assert (Hrun : (reverse (colorPrefix h col (reverse (l1 ++ [f]))) ++ []) ++
                 colorPrefix h col (b :: l2) = colorRun h col l1 f (b :: l2)).
  { unfold colorRun. rewrite app_nil_r, reverse_snoc.
    rewrite (colorPrefix_cons_eq h col f) by (by rewrite (colorOf_lookup _ _ _ Hfb), Hf).
    by rewrite reverse_cons, <- app_assoc. }
  rewrite Hrun. by destruct (decide _).
Qed.

End Reactions.

(** X11.  At a junction of the chain, with [front] directly before [back],
    [checkChainReaction(front, back)] finds what [findMatch] finds from
    either of the two balls when their colours agree: the maximal run of
    that colour across the junction, if it has three balls or more.  When
    the colours differ, or when either argument is null, it returns null
    without looking further. *)
Theorem checkChainReaction_at_junction (h : gmap positive Ball) c l1 f b l2 :
  chain_repr h c (l1 ++ f :: b :: l2) ->
  (forall col, colorOf h f = Some col -> colorOf h b = Some col ->
     checkChainReaction (Some f) (Some b) h = findMatch f h /\
     checkChainReaction (Some f) (Some b) h = findMatch b h /\
     checkChainReaction (Some f) (Some b) h =
       Some (if decide (3 <= length (colorRun h col l1 f (b :: l2)))%nat
             then Some (mkMatchResult (colorRun h col l1 f (b :: l2)) col)
             else None)) /\
  (colorOf h f <> colorOf h b ->
     checkChainReaction (Some f) (Some b) h = Some None) /\
  checkChainReaction None (Some b) h = Some None /\
  checkChainReaction (Some f) None h = Some None.
Proof.
  intros Hrepr. split; [|split; [|done]].
  - intros col Hf Hb.
    rewrite (checkChainReaction_run h c l1 f b l2 col Hrepr Hf Hb).
    rewrite (findMatch_run h c l1 f (b :: l2) col Hrepr Hf).
    split; [done|]. split; [|done].
    change (l1 ++ f :: b :: l2) with (l1 ++ [f] ++ b :: l2) in Hrepr.
    rewrite app_assoc in Hrepr.
    rewrite (findMatch_run h c (l1 ++ [f]) b l2 col Hrepr Hb).
    by rewrite (colorRun_shift h col l1 f b l2 Hf Hb).
  - intros Hne. destruct Hrepr as (_ & _ & _ & Hd).
    destruct (dseg_lookup _ _ _ _ f Hd) as [fb Hfb];
      [apply elem_of_app; right; by left|].
    destruct (dseg_lookup _ _ _ _ b Hd) as [bb Hbb];
      [apply elem_of_app; right; right; by left|].
    unfold checkChainReaction. rewrite Hfb, Hbb. simpl.
    rewrite (colorOf_lookup _ _ _ Hfb), (colorOf_lookup _ _ _ Hbb) in Hne.
    destruct (decide (color fb = color bb)) as [E|]; [|done].
    exfalso. apply Hne. by rewrite E.
Qed.

Lemma checkChainReaction_at_junction_witness :
  let h := fst (chainOfThree 100 132 164) in
  (forall col, colorOf h 1%positive = Some col -> colorOf h 2%positive = Some col ->
     checkChainReaction (Some 1%positive) (Some 2%positive) h = findMatch 1%positive h /\
     checkChainReaction (Some 1%positive) (Some 2%positive) h = findMatch 2%positive h /\
     checkChainReaction (Some 1%positive) (Some 2%positive) h =
       Some (if decide (3 <= length (colorRun h col [] 1%positive
                                        (2%positive :: [3%positive])))%nat
             then Some (mkMatchResult
                          (colorRun h col [] 1%positive (2%positive :: [3%positive]))
                          col)
             else None)) /\
  (colorOf h 1%positive <> colorOf h 2%positive ->
     checkChainReaction (Some 1%positive) (Some 2%positive) h = Some None) /\
  checkChainReaction None (Some 2%positive) h = Some None /\
  checkChainReaction (Some 1%positive) None h = Some None.
Proof.
  apply (checkChainReaction_at_junction (fst (chainOfThree 100 132 164))
           (snd (chainOfThree 100 132 164)) [] 1%positive 2%positive [3%positive]).
  concrete_repr.
Defined.

(** X12.  [willCreateChainReaction] forecasts [removeBalls]: on a
    well-formed chain and a batch of chain balls it returns a pair of
    colours exactly when the two boundary balls [removeBalls] returns for
    the same batch both exist and have one colour, and that colour is both
    components of the pair; for the empty batch it returns null. *)
Theorem willCreateChainReaction_forecast (h : gmap positive Ball) c l batch :
  chain_repr h c l -> NoDup batch -> (forall r, r ∈ batch -> r ∈ l) ->
  exists gi h' c', removeBalls batch h c = Some (gi, h', c') /\
    willCreateChainReaction batch h =
      Some (match frontBall gi ≫= colorOf h, backBall gi ≫= colorOf h with
            | Some fc, Some bc =>
                if decide (fc = bc) then Some (fc, bc) else None
            | _, _ => None
            end) /\
    (forall fc bc, willCreateChainReaction batch h = Some (Some (fc, bc)) ->
                   fc = bc) /\
    (batch = [] -> willCreateChainReaction batch h = Some None).
Proof.
  intros Hrepr Hnd Hsub.
  destruct (removeBalls_any h c l batch Hrepr Hnd Hsub)
    as (gi & h' & c' & Hrun & Hrepr' & Hrel & _).
  exists gi, h', c'. split; [done|].
  assert (Hres : willCreateChainReaction batch h =
      Some (match frontBall gi ≫= colorOf h, backBall gi ≫= colorOf h with
            | Some fc, Some bc =>
                if decide (fc = bc) then Some (fc, bc) else None
            | _, _ => None
            end)).
  { unfold removeBalls in Hrun. unfold willCreateChainReaction.
    destruct batch as [|b0 batch0]; [by simplify_eq|].
    set (sorted := sortByDistance h (b0 :: batch0)) in *.
    assert (Hmem : forall x, x ∈ sorted -> x ∈ l).
    { intros x Hx. apply Hsub. unfold sorted in Hx.
      by rewrite sortByDistance_perm in Hx. }
    destruct (list.head sorted) as [first|] eqn:Hfirst; [|done].
    destruct (last sorted) as [final|] eqn:Hlast;
      [|simpl in Hrun; by destruct (h !! first)].
    simpl in Hrun |- *.
    destruct (h !! first) as [fb|] eqn:Hfb; [|done].
    destruct (h !! final) as [lb|] eqn:Hlb; [|done]. simpl in Hrun |- *.
    destruct (removeEach sorted h c) as [[h1 c1]|]; [|done]. simpl in Hrun.
    assert (Hgi : frontBall gi = prev fb /\ backBall gi = next lb).
    { destruct (prev fb), (next lb); simpl in Hrun;
        repeat (simplify_option_eq || case_match); done. }
    destruct Hgi as [-> ->].
    pose proof Hrepr as (_ & _ & _ & Hd).
    destruct (prev fb) as [f|] eqn:Hprev; [|done].
    destruct (next lb) as [b|] eqn:Hnext; [|simpl; by destruct (colorOf h f)].
    assert (Hf : f ∈ l).
    { destruct (list_elem_of_split l first) as (l1 & l2 & Hl);
        [by apply Hmem, head_Some_elem_of|].
      rewrite Hl in Hrepr. rewrite (chain_repr_prev _ _ _ _ _ _ Hrepr Hfb) in Hprev.
      rewrite Hl. apply elem_of_app. left. by apply last_Some_elem_of. }
    assert (Hb : b ∈ l).
    { destruct (list_elem_of_split l final) as (l1 & l2 & Hl);
        [by apply Hmem, last_Some_elem_of|].
      rewrite Hl in Hd. apply dseg_app in Hd as [_ Hd2].
      destruct Hd2 as (lb' & Hlb' & _ & Hn & _). rewrite headOr_None in Hn.
      assert (lb' = lb) by congruence. subst lb'. rewrite Hnext in Hn.
      rewrite Hl. apply elem_of_app. right. right.
      by apply head_Some_elem_of. }
    destruct (dseg_lookup _ _ _ _ _ Hd Hf) as [fB HfB].
    destruct (dseg_lookup _ _ _ _ _ Hd Hb) as [bB HbB].
    simpl. rewrite (colorOf_lookup _ _ _ HfB), (colorOf_lookup _ _ _ HbB).
    rewrite HfB, HbB. simpl. by destruct (decide _). }
  split; [done|]. split.
  - rewrite Hres. intros fc bc Heq. injection Heq as Heq.
    destruct (frontBall gi ≫= colorOf h) as [fc'|]; [|done].
    destruct (backBall gi ≫= colorOf h) as [bc'|]; [|done].
    destruct (decide (fc' = bc')); by simplify_eq.
  - by intros ->.
Qed.

Lemma willCreateChainReaction_forecast_witness :
  let h := fst (chainOfThree 100 132 164) in
  let c := snd (chainOfThree 100 132 164) in
  exists gi h' c', removeBalls [2%positive] h c = Some (gi, h', c') /\
    willCreateChainReaction [2%positive] h =
      Some (match frontBall gi ≫= colorOf h, backBall gi ≫= colorOf h with
            | Some fc, Some bc =>
                if decide (fc = bc) then Some (fc, bc) else None
            | _, _ => None
            end) /\
    (forall fc bc, willCreateChainReaction [2%positive] h = Some (Some (fc, bc)) ->
                   fc = bc) /\
    ([2%positive] = [] -> willCreateChainReaction [2%positive] h = Some None).
Proof.
  apply (willCreateChainReaction_forecast (fst (chainOfThree 100 132 164))
           (snd (chainOfThree 100 132 164)) [1; 2; 3]%positive [2%positive]).
  - concrete_repr.
  - apply NoDup_singleton.
  - intros r Hr. apply list_elem_of_singleton in Hr as ->. right. by left.
Defined.

Section FiredBall.

Variable sqrt : Q -> Q.
Variable getPointAtDistance : Q -> Point.
Variable getTangentAtDistance : Q -> Point.

Implicit Types (h : gmap positive Ball) (l : list positive) (r : positive).

Local Abbreviation D := (screenDistance sqrt getPointAtDistance).

(** The scan for the closest ball: the state it carries and what it
    returns. *)
Lemma closestLoop_spec pos h l : forall p fuel cb cd cpd,
  dseg h p l None -> (length l <= fuel)%nat ->
  match cb with
  | None => cd = None
  | Some r0 => cd = Some (D pos h r0) /\ cpd = distOf h r0 /\
               D pos h r0 < BALL_RADIUS * 2
  end ->
  exists res cpd', closestLoop sqrt getPointAtDistance fuel (list.head l) pos
                     cb cd cpd h = Some (res, cpd') /\
    match res with
    | None => cb = None /\
              forall r, r ∈ l -> BALL_RADIUS * 2 <= D pos h r
    | Some best =>
        (cb = Some best \/ best ∈ l) /\ cpd' = distOf h best /\
        D pos h best < BALL_RADIUS * 2 /\
        (forall r0, cb = Some r0 -> D pos h best <= D pos h r0) /\
        (forall r, r ∈ l -> D pos h best <= D pos h r)
    end.
Proof.
  induction l as [|x l IH]; intros p fuel cb cd cpd Hd Hf Hinv.
  - exists cb, cpd. split; [by destruct fuel|].
    destruct cb as [r0|].
    + destruct Hinv as (_ & -> & Hlt). split; [by left|]. split; [done|].
      split; [done|]. split.
      * intros ? [= <-]. lra.
      * intros r Hr. by apply elem_of_nil in Hr.
    + split; [done|]. intros r Hr. by apply elem_of_nil in Hr.
  - simpl in Hf. destruct fuel as [|fuel]; [lia|].
    destruct Hd as (xb & Hxb & _ & Hn & Hd).
    cbn [closestLoop list.head]. rewrite Hxb. cbn [mbind option_bind].
    rewrite Hn, headOr_None.
    assert (HDx : distance sqrt pos (getPointAtDistance (distanceAlongPath xb))
                  = D pos h x).
    { unfold screenDistance. by rewrite (distOf_lookup _ _ _ Hxb). }
    rewrite HDx.
    destruct (Qltb (D pos h x) (BALL_RADIUS * 2)) eqn:Hrange; cbn [andb].
    + apply Qltb_true in Hrange.
      destruct (match cd with None => true | Some cd0 => Qltb (D pos h x) cd0 end)
        eqn:Hcloser.
      * destruct (IH (Some x) fuel (Some x) (Some (D pos h x))
                    (distanceAlongPath xb) Hd) as (res & cpd' & Hrun & Hres).
        { lia. }
        { split; [done|]. split; [by rewrite (distOf_lookup _ _ _ Hxb)|done]. }
        exists res, cpd'. split; [done|].
        destruct res as [best|]; [|by destruct Hres].
        destruct Hres as (Hbest & Hcpd & Hlt & Hcb & Hall).
        split; [right; destruct Hbest as [[= <-]|Hin]; [by left|by right]|].
        split; [done|]. split; [done|]. split.
        -- intros r0 ->. destruct Hinv as (-> & _ & _).
           apply Qltb_true in Hcloser. specialize (Hcb x eq_refl). lra.
        -- intros r [->|Hr]%elem_of_cons; [by apply Hcb|by apply Hall].
      * destruct cd as [cd0|]; [|done]. apply Qltb_false in Hcloser.
        destruct cb as [r0|]; [|done]. destruct Hinv as ([= ->] & Hcpd0 & Hlt0).
        destruct (IH (Some x) fuel (Some r0) (Some (D pos h r0)) cpd Hd)
          as (res & cpd' & Hrun & Hres); [lia|done|].
        exists res, cpd'. split; [done|].
        destruct res as [best|]; [|by destruct Hres].
        destruct Hres as (Hbest & Hcpd & Hlt & Hcb & Hall).
        split; [destruct Hbest as [?|Hin]; [by left|right; by right]|].
        split; [done|]. split; [done|]. split; [done|].
        intros r [->|Hr]%elem_of_cons; [|by apply Hall].
        specialize (Hcb r0 eq_refl). lra.
    + apply Qltb_false in Hrange.
      destruct (IH (Some x) fuel cb cd cpd Hd) as (res & cpd' & Hrun & Hres);
        [lia|done|].
      exists res, cpd'. split; [done|]. destruct res as [best|].
      * destruct Hres as (Hbest & Hcpd & Hlt & Hcb & Hall).
        split; [destruct Hbest as [?|Hin]; [by left|right; by right]|].
        split; [done|]. split; [done|]. split; [done|].
        intros r [->|Hr]%elem_of_cons; [lra|by apply Hall].
      * destruct Hres as [-> Hall]. split; [done|].
        intros r [->|Hr]%elem_of_cons; [done|by apply Hall].
Qed.

Lemma checkBallChainCollision_result fired fb h c l :
  chain_repr h c l -> h !! fired = Some fb ->
  exists res, checkBallChainCollision sqrt getPointAtDistance getTangentAtDistance
                fired h c = Some res /\
    let pos := mkPoint (ball_x fb) (ball_y fb) in
    match res with
    | None => forall r, r ∈ l -> BALL_RADIUS * 2 <= D pos h r
    | Some col =>
        collidedWith col ∈ l /\
        D pos h (collidedWith col) < BALL_RADIUS * 2 /\
        (forall r, r ∈ l -> D pos h (collidedWith col) <= D pos h r) /\
        insertionDistance col =
          Qmax 0 (if insertBefore col
                  then distOf h (collidedWith col) - BALL_RADIUS * 2
                  else distOf h (collidedWith col) + BALL_RADIUS * 2)
    end.
Proof.
  intros Hrepr Hfb. unfold checkBallChainCollision. rewrite Hfb.
  cbn [mbind option_bind]. pose proof Hrepr as (_ & -> & _ & Hd).
  destruct (closestLoop_spec (mkPoint (ball_x fb) (ball_y fb)) h l None (size h)
              None None 0 Hd) as (res & cpd' & -> & Hres);
    [by eapply chain_repr_length|done|].
  cbn [mbind option_bind]. destruct res as [best|].
  - destruct Hres as (Hbest & -> & Hlt & _ & Hall).
    destruct Hbest as [|Hin]; [done|].
    destruct (dseg_lookup _ _ _ _ _ Hd Hin) as [bb Hbb]. rewrite Hbb.
    cbn [mbind option_bind]. eexists. split; [reflexivity|].
    cbn [collidedWith insertBefore insertionDistance].
    split; [done|]. split; [done|]. split; [done|]. done.
  - exists None. split; [done|]. by destruct Hres.
Qed.

End FiredBall.

(** X13.  [checkBallChainCollision] on a well-formed chain returns null
    exactly when no chain ball's place on the path is within
    [2 * BALL_RADIUS] of the fired ball on screen.  Otherwise the ball it
    names is a ball of the chain within that range and no chain ball is
    closer; the insertion distance is that ball's distance minus (insert
    before) or plus (insert after) [2 * BALL_RADIUS], raised to 0 when
    negative. *)
Theorem checkBallChainCollision_spec (sqrt : Q -> Q)
    (getPointAtDistance getTangentAtDistance : Q -> Point)
    (h : gmap positive Ball) c l fired fb :
  chain_repr h c l -> h !! fired = Some fb ->
  exists res, checkBallChainCollision sqrt getPointAtDistance getTangentAtDistance
                fired h c = Some res /\
    let pos := mkPoint (ball_x fb) (ball_y fb) in
    let D := screenDistance sqrt getPointAtDistance pos h in
    match res with
    | None => forall r, r ∈ l -> BALL_RADIUS * 2 <= D r
    | Some col =>
        collidedWith col ∈ l /\
        D (collidedWith col) < BALL_RADIUS * 2 /\
        (forall r, r ∈ l -> D (collidedWith col) <= D r) /\
        0 <= insertionDistance col /\
        insertionDistance col =
          Qmax 0 (if insertBefore col
                  then distOf h (collidedWith col) - BALL_RADIUS * 2
                  else distOf h (collidedWith col) + BALL_RADIUS * 2)
    end.
Proof.
  intros Hrepr Hfb.
  destruct (checkBallChainCollision_result sqrt getPointAtDistance
              getTangentAtDistance fired fb h c l Hrepr Hfb) as (res & Hrun & Hres).
  exists res. split; [done|]. simpl in *. destruct res as [col|]; [|done].
  destruct Hres as (? & ? & ? & Hins). split; [done|]. split; [done|].
  split; [done|]. split; [|done]. rewrite Hins. apply Q.le_max_l.
Qed.

Lemma checkBallChainCollision_spec_witness :
  let h := fst (default (∅, newChain) packedPairAndShot) in
  let c := snd (default (∅, newChain) packedPairAndShot) in
  exists res, checkBallChainCollision integerSqrt straightPoint straightTangent
                3%positive h c = Some res /\
    let pos := mkPoint (ball_x (set_position 120 0 (newBall RED 0)))
                       (ball_y (set_position 120 0 (newBall RED 0))) in
    let D := screenDistance integerSqrt straightPoint pos h in
    match res with
    | None => forall r, r ∈ [1; 2]%positive -> BALL_RADIUS * 2 <= D r
    | Some col =>
        collidedWith col ∈ [1; 2]%positive /\
        D (collidedWith col) < BALL_RADIUS * 2 /\
        (forall r, r ∈ [1; 2]%positive -> D (collidedWith col) <= D r) /\
        0 <= insertionDistance col /\
        insertionDistance col =
          Qmax 0 (if insertBefore col
                  then distOf h (collidedWith col) - BALL_RADIUS * 2
                  else distOf h (collidedWith col) + BALL_RADIUS * 2)
    end.
Proof.
  apply (checkBallChainCollision_spec integerSqrt straightPoint straightTangent
           (fst (default (∅, newChain) packedPairAndShot))
           (snd (default (∅, newChain) packedPairAndShot))
           [1; 2]%positive 3%positive (set_position 120 0 (newBall RED 0))).
  - concrete_repr.
  - by vm_compute.
Defined.

(** X14.  One fired ball against the chain, as [updateFiredBalls] treats
    it: without a collision nothing changes; on a collision the ball takes
    the insertion distance and becomes a chain ball directly before the ball
    it hit (insert before) or directly after it (insert after), every other
    ball keeping its place in the sequence.  The balls ahead of the new ball
    - in the insert-after case the ball that was hit is one of them - do not
    move; the balls behind it are swept by [pushBallsBack] from the
    insertion distance on, so no chain ball moves towards the hole. *)
Theorem collideFiredBall_inserts (sqrt : Q -> Q)
    (getPointAtDistance getTangentAtDistance : Q -> Point)
    (h : gmap positive Ball) c l fired fb :
  chain_repr h c l -> h !! fired = Some fb -> fired ∉ l ->
  exists res,
    checkBallChainCollision sqrt getPointAtDistance getTangentAtDistance
      fired h c = Some res /\
    match res with
    | None =>
        collideFiredBall sqrt getPointAtDistance getTangentAtDistance fired h c
          = Some (false, h, c)
    | Some col =>
        exists h' c' l1 l2,
          collideFiredBall sqrt getPointAtDistance getTangentAtDistance fired h c
            = Some (true, h', c') /\
          l = l1 ++ collidedWith col :: l2 /\
          getBalls h' c' =
            Some (if insertBefore col
                  then l1 ++ fired :: collidedWith col :: l2
                  else l1 ++ collidedWith col :: fired :: l2) /\
          distOf h' fired = insertionDistance col /\
          (forall r, r ∈ (if insertBefore col then l1
                          else l1 ++ [collidedWith col]) ->
                     distOf h' r = distOf h r) /\
          (let behind := if insertBefore col then collidedWith col :: l2
                         else l2 in
           map (distOf h') behind =
             scan pushStep (insertionDistance col) (map (distOf h) behind)) /\
          (forall r, r ∈ l -> distOf h r <= distOf h' r)
    end.
Proof.
  intros Hrepr Hfb Hfired.
  destruct (checkBallChainCollision_result sqrt getPointAtDistance
              getTangentAtDistance fired fb h c l Hrepr Hfb) as (res & Hrun & Hres).
  exists res. split; [done|]. unfold collideFiredBall. rewrite Hrun.
  cbn [mbind option_bind]. destruct res as [col|]; [|done].
  simpl in Hres. destruct Hres as (Hcw & _ & _ & _).
  destruct (list_elem_of_split l _ Hcw) as (l1 & l2 & ->).
  rewrite (assign_Some _ _ _ _ Hfb). cbn [mbind option_bind].
  unfold markInserted. erewrite assign_Some by apply lookup_insert_eq.
  cbn [mbind option_bind]. rewrite insert_insert_eq.
  set (b2 := set_state INSERTED (set_distanceAlongPath (insertionDistance col) fb)).
  set (h2 := <[fired := b2]> h).
  assert (Hrepr2 : chain_repr h2 c (l1 ++ collidedWith col :: l2)).
  { destruct Hrepr as (? & ? & ? & Hd). repeat split; try done.
    by apply dseg_insert_out. }
  assert (Hb2 : h2 !! fired = Some b2) by apply lookup_insert_eq.
  assert (Hold : forall r, r ∈ l1 ++ collidedWith col :: l2 ->
                           distOf h2 r = distOf h r).
  { intros r Hr. unfold h2. rewrite distOf_insert_ne; [done|]. by intros ->. }
  pose proof Hrepr2 as (Hnd & _).
  assert (Hge : forall h' l2', 
            (forall r, r ∉ l2' -> distOf h' r = distOf h2 r) ->
            map (distOf h') l2' = scan pushStep (distOf h2 fired) (map (distOf h2) l2') ->
            forall r, r ∈ l1 ++ collidedWith col :: l2 -> distOf h r <= distOf h' r).
  { intros h' l2' Hout Hds r Hr. rewrite <- (Hold r Hr).
    destruct (decide (r ∈ l2')) as [Hin|Hnin].
    - apply (Forall2_map_elem (distOf h2) (distOf h') l2' r); [|done].
      rewrite Hds. apply scan_push_ge.
    - rewrite (Hout r Hnin). lra. }
  destruct (insertBefore col) eqn:Hbefore.
  - pose proof Hrepr2 as (_ & _ & _ & Hd2).
    destruct (dseg_lookup _ _ _ _ _ Hd2 Hcw) as [cw Hcwb]. rewrite Hcwb.
    cbn [mbind option_bind].
    rewrite (chain_repr_prev _ _ _ _ _ _ Hrepr2 Hcwb).
    destruct (insertBall_spec h2 c l1 (collidedWith col :: l2) fired b2
                Hrepr2 Hb2 Hfired)
      as (h' & c' & -> & Hrepr' & _ & Hout & Hds & _).
    cbn [mbind option_bind]. exists h', c', l1, l2. split; [done|].
    split; [done|]. split; [by apply getBalls_spec|].
    apply NoDup_app in Hnd as (_ & Hdisj & _).
    assert (Hf2 : fired ∉ collidedWith col :: l2).
    { intros Hin. apply Hfired. apply elem_of_app. by right. }
    split; [by rewrite (Hout fired Hf2), (distOf_lookup _ _ _ Hb2)|].
    split; [|split; [|by apply (Hge h' (collidedWith col :: l2))]].
    + intros r Hr. rewrite (Hout r (Hdisj r Hr)). apply Hold.
      apply elem_of_app. by left.
    + cbv zeta. rewrite Hds, (distOf_lookup _ _ _ Hb2). f_equal.
      apply map_ext_in. intros r Hr. apply Hold.
      apply elem_of_app. right. by apply list_elem_of_In.
  - assert (Hsplit : l1 ++ collidedWith col :: l2 = (l1 ++ [collidedWith col]) ++ l2)
      by by rewrite <- app_assoc.
    rewrite Hsplit in Hrepr2, Hfired.
    destruct (insertBall_spec h2 c (l1 ++ [collidedWith col]) l2 fired b2
                Hrepr2 Hb2 Hfired)
      as (h' & c' & Hins & Hrepr' & _ & Hout & Hds & _).
    rewrite last_snoc in Hins. rewrite Hins.
    cbn [mbind option_bind]. exists h', c', l1, l2. split; [done|].
    split; [done|]. rewrite <- app_assoc in Hrepr'.
    split; [by apply getBalls_spec|].
    rewrite Hsplit in Hnd. apply NoDup_app in Hnd as (_ & Hdisj & _).
    assert (Hf2 : fired ∉ l2).
    { intros Hin. apply Hfired. apply elem_of_app. by right. }
    split; [by rewrite (Hout fired Hf2), (distOf_lookup _ _ _ Hb2)|].
    split; [|split; [|by apply (Hge h' l2)]].
    + intros r Hr. rewrite (Hout r (Hdisj r Hr)). apply Hold.
      rewrite Hsplit. apply elem_of_app. by left.
    + cbv zeta. rewrite Hds, (distOf_lookup _ _ _ Hb2). f_equal.
      apply map_ext_in. intros r Hr. apply Hold.
      apply elem_of_app. right. right. by apply list_elem_of_In.
Qed.

Lemma collideFiredBall_inserts_witness :
  let h := fst (default (∅, newChain) packedPairAndShot) in
  let c := snd (default (∅, newChain) packedPairAndShot) in
  exists res,
    checkBallChainCollision integerSqrt straightPoint straightTangent
      3%positive h c = Some res /\
    match res with
    | None =>
        collideFiredBall integerSqrt straightPoint straightTangent 3%positive h c
          = Some (false, h, c)
    | Some col =>
        exists h' c' l1 l2,
          collideFiredBall integerSqrt straightPoint straightTangent 3%positive h c
            = Some (true, h', c') /\
          [1; 2]%positive = l1 ++ collidedWith col :: l2 /\
          getBalls h' c' =
            Some (if insertBefore col
                  then l1 ++ 3%positive :: collidedWith col :: l2
                  else l1 ++ collidedWith col :: 3%positive :: l2) /\
          distOf h' 3%positive = insertionDistance col /\
          (forall r, r ∈ (if insertBefore col then l1
                          else l1 ++ [collidedWith col]) ->
                     distOf h' r = distOf h r) /\
          (let behind := if insertBefore col then collidedWith col :: l2
                         else l2 in
           map (distOf h') behind =
             scan pushStep (insertionDistance col) (map (distOf h) behind)) /\
          (forall r, r ∈ [1; 2]%positive -> distOf h r <= distOf h' r)
    end.
Proof.
  apply (collideFiredBall_inserts integerSqrt straightPoint straightTangent
           (fst (default (∅, newChain) packedPairAndShot))
           (snd (default (∅, newChain) packedPairAndShot))
           [1; 2]%positive 3%positive (set_position 120 0 (newBall RED 0))).
  - concrete_repr.
  - by vm_compute.
  - apply (bool_decide_unpack _). by vm_compute.
Defined.

(** * More properties of the spawner *)

Section SpawnerColours.

Variable random : nat -> Q.
Hypothesis random_range : forall n, 0 <= random n /\ random n < 1.

Implicit Types (h : gmap positive Ball) (l : list positive) (r : positive).

Lemma elementAt_elem {A} (l : list A) i x : elementAt l i = Some x -> x ∈ l.
Proof.
  unfold elementAt. destruct (i <? 0)%Z; [done|]. apply list_elem_of_lookup_2.
Qed.

Lemma getRandomColor_palette sp n col n' :
  getRandomColor random sp n = Some (col, n') ->
  col ∈ availableColors sp /\ n' = S n.
Proof.
  unfold getRandomColor. intros Hrun.
  apply bind_Some in Hrun as (col0 & Hel & [= <- <-]).
  split; [by eapply elementAt_elem|done].
Qed.

Lemma pickWeighted_elem weight cols : forall rnd col,
  pickWeighted weight cols rnd = Some col -> col ∈ cols.
Proof.
  induction cols as [|c0 cols IH]; intros rnd col; simpl; [done|].
  destruct (Qleb (rnd - weight c0) 0).
  - intros [= <-]. by left.
  - intros Hp. right. by eapply IH.
Qed.

Lemma pickWeighted_None (weight : BallColor -> Q) cols : forall a rnd,
  cols <> [] -> pickWeighted weight cols rnd = None ->
  foldl (fun acc col => acc + weight col) a cols < a + rnd.
Proof.
  induction cols as [|c0 cols IH]; intros a rnd Hne; [done|]. simpl.
  destruct (Qleb (rnd - weight c0) 0) eqn:E; [done|]. apply Qleb_false in E.
  intros Hp. destruct cols as [|c1 cols]; [simpl; lra|].
  eapply Qlt_le_trans; [apply (IH (a + weight c0) (rnd - weight c0)); done|].
  lra.
Qed.

Lemma foldl_weights_ge (weight : BallColor -> Q) cols : forall a,
  (forall col, 0 <= weight col) ->
  a <= foldl (fun acc col => acc + weight col) a cols.
Proof.
  induction cols as [|c0 cols IH]; intros a Hw; simpl; [lra|].
  eapply Qle_trans; [|by apply IH]. specialize (Hw c0). lra.
Qed.

Lemma getWeightedRandomColor_one_draw sp h c l n :
  chain_repr h c l -> availableColors sp <> [] ->
  exists col, getWeightedRandomColor random sp h c n = Some (col, S n) /\
              col ∈ availableColors sp.
Proof.
  intros Hrepr Hne. unfold getWeightedRandomColor.
  rewrite (getBalls_spec h c l Hrepr). cbn [mbind option_bind].
  assert (Hplain : exists col, getRandomColor random sp n = Some (col, S n) /\
                               col ∈ availableColors sp).
  { destruct (getRandomColor_is_Some random random_range sp n Hne) as [col Hcol].
    exists col. split; [done|]. by apply (getRandomColor_palette sp n col (S n)). }
  destruct l as [|x l]; [exact Hplain|]. clear Hplain.
  set (weight := fun col => inject_Z (countColor h (x :: l) col) + 1).
  set (total := foldl _ 0 (availableColors sp)).
  assert (Htotal : total = foldl (fun acc col => acc + weight col) 0
                             (availableColors sp)) by done.
  destruct (pickWeighted weight (availableColors sp) (random n * total))
    as [col|] eqn:Hpick.
  - exists col. split; [done|]. by eapply pickWeighted_elem.
  - exfalso.
    pose proof (pickWeighted_None weight (availableColors sp) 0 _ Hne Hpick) as Hlt.
    rewrite <- Htotal in Hlt.
    assert (Hw : forall col, 0 <= weight col).
    { intros col. unfold weight, countColor.
      assert (0 <= inject_Z (Z.of_nat (length
                (filter (fun r0 => colorOf h r0 = Some col) (x :: l))))).
      { change 0 with (inject_Z 0). rewrite <- Zle_Qle. lia. }
      lra. }
    pose proof (foldl_weights_ge weight (availableColors sp) 0 Hw) as Hge.
    rewrite <- Htotal in Hge. destruct (random_range n) as [H0 H1]. nra.
Qed.

End SpawnerColours.

(** X15.  With a non-empty palette and [Math.random] in [0, 1),
    [getWeightedRandomColor] returns a colour of the palette and draws
    exactly one random number, on the empty chain as on any other: the
    weighted selection always ends inside its loop, and the final fallback
    to [getRandomColor] is never reached. *)
Theorem getWeightedRandomColor_in_palette (random : nat -> Q) sp
    (h : gmap positive Ball) c l n :
  (forall i, 0 <= random i /\ random i < 1) ->
  chain_repr h c l -> availableColors sp <> [] ->
  exists col, getWeightedRandomColor random sp h c n = Some (col, S n) /\
              col ∈ availableColors sp.
Proof. intros Hrand Hrepr Hne. by eapply getWeightedRandomColor_one_draw. Qed.

Lemma getWeightedRandomColor_in_palette_witness :
  exists col,
    getWeightedRandomColor (fun _ => 1 # 2) redBlueSpawner
      (fst (chainOfThree 100 132 164)) (snd (chainOfThree 100 132 164)) 0
      = Some (col, 1%nat) /\
    col ∈ availableColors redBlueSpawner.
Proof.
  apply (getWeightedRandomColor_in_palette (fun _ => 1 # 2) redBlueSpawner
           (fst (chainOfThree 100 132 164)) (snd (chainOfThree 100 132 164))
           [1; 2; 3]%positive 0%nat).
  - intros _. split; [by vm_compute|by vm_compute].
  - concrete_repr.
  - done.
Defined.

Section SpawnerSteps.

Variable random : nat -> Q.
Hypothesis random_range : forall n, 0 <= random n /\ random n < 1.

Implicit Types (h : gmap positive Ball) (l : list positive) (r : positive).

Lemma spaced_snoc ds d :
  spaced ds -> (forall e, last ds = Some e -> e + BALL_RADIUS * 2 <= d) ->
  spaced (ds ++ [d]).
Proof.
  destruct ds as [|x ds]; [done|]. simpl. intros Hs Hlast.
  apply spacedFrom_app. split; [done|]. simpl. split; [|done].
  rewrite last_cons in Hlast. destruct (last ds) as [y|]; simpl; by apply Hlast.
Qed.

Lemma ascending_snoc ds d :
  ascending ds -> (forall e, last ds = Some e -> e < d) -> ascending (ds ++ [d]).
Proof.
  destruct ds as [|x ds]; [done|]. simpl. intros Hs Hlast.
  apply ascendingFrom_app. split; [done|]. simpl. split; [|done].
  rewrite last_cons in Hlast. destruct (last ds) as [y|]; simpl; by apply Hlast.
Qed.

(** What one [spawnBall] call does. *)
Lemma spawnBall_full sp pathLength h c l n :
  chain_repr h c l -> availableColors sp <> [] ->
  exists res h' c' n',
    spawnBall random sp pathLength h c n = Some (res, h', c', n') /\
    match res with
    | None => tailBlocks pathLength h l /\ h' = h /\ c' = c /\ n' = n
    | Some ball =>
        ~ tailBlocks pathLength h l /\ h !! ball = None /\
        chain_repr h' c' (l ++ [ball]) /\ n' = S n /\
        distOf h' ball = pathLength /\
        (exists col, colorOf h' ball = Some col /\ col ∈ availableColors sp) /\
        (forall r, r <> ball -> distOf h' r = distOf h r) /\
        (forall r, r <> ball -> colorOf h' r = colorOf h r) /\
        gap_state_eq c c'
    end.
Proof.
  intros Hrepr Hne. unfold spawnBall.
  pose proof Hrepr as (_ & _ & Ht & Hd). rewrite Ht.
  assert (Hblocked : exists blocked,
    match last l with
    | Some t => h !! t ≫= λ tb,
        Some (Qltb (pathLength - distanceAlongPath tb) (BALL_RADIUS * 2))
    | None => Some false
    end = Some blocked /\
    (blocked = true <-> tailBlocks pathLength h l)).
  { unfold tailBlocks. destruct (last l) as [t|] eqn:Hl.
    - destruct (dseg_lookup _ _ _ _ t Hd) as [tb Htb]; [by apply last_Some_elem_of|].
      rewrite Htb. eexists. split; [done|].
      rewrite Qltb_true, <- (distOf_lookup _ _ _ Htb). split.
      + intros Hlt. by exists t.
      + by intros (t' & [= <-] & Hlt).
    - exists false. split; [done|]. split; [done|]. by intros (t & ? & _). }
  destruct Hblocked as (blocked & -> & Hb). cbn [mbind option_bind].
  destruct blocked.
  { exists None, h, c, n. split; [done|]. split; [by apply Hb|done]. }
  destruct (getWeightedRandomColor_one_draw random random_range sp h c l n Hrepr Hne)
    as (col & -> & Hcol).
  cbn [mbind option_bind]. unfold alloc.
  destruct (chain_repr_alloc h c l (newBall col pathLength) Hrepr) as [Hrepr1 Hfresh].
  set (ball := fresh (dom h)) in *.
  set (h1 := <[ball := newBall col pathLength]> h) in *.
  rewrite <- (app_nil_r l) in Hrepr1.
  destruct (insertBall_spec h1 c l [] ball (newBall col pathLength) Hrepr1)
    as (h' & c' & Hrun & Hrepr' & Hcolor & Hout & _ & Hgap);
    [apply lookup_insert_eq|by rewrite app_nil_r|].
  rewrite Hrun. cbn [mbind option_bind].
  exists (Some ball), h', c', (S n). split; [done|].
  assert (Hnone : h !! ball = None).
  { apply not_elem_of_dom. apply is_fresh. }
  split; [intros Hblk; apply Hb in Hblk; done|]. split; [done|].
  split; [done|]. split; [done|].
  split; [rewrite (Hout ball) by apply not_elem_of_nil; apply distOf_insert|].
  split.
  { exists col. split; [|done]. rewrite Hcolor. unfold colorOf, h1.
    by rewrite lookup_insert_eq. }
  split.
  { intros r Hr. rewrite (Hout r) by apply not_elem_of_nil.
    by apply distOf_insert_ne. }
  split; [|done].
  intros r Hr. rewrite Hcolor. unfold colorOf, h1. by rewrite lookup_insert_ne.
Qed.

(** Once the tail blocks the spawn point, the rest of the loop spawns
    nothing. *)
Lemma spawnLoop_blocked interval pathLength maxBalls fuel :
  forall spawned sp h c l n k sp' h' c' n',
  chain_repr h c l -> availableColors sp <> [] -> tailBlocks pathLength h l ->
  spawnLoop random fuel interval pathLength maxBalls spawned sp h c n
    = Some (k, sp', h', c', n') ->
  k = spawned /\ h' = h /\ c' = c /\ n' = n.
Proof.
  induction fuel as [|fuel IH]; intros spawned sp h c l n k sp' h' c' n'
    Hrepr Hne Hblk; cbn [spawnLoop];
    rewrite (getLength_spec h c l Hrepr); cbn [mbind option_bind];
    destruct (Qleb interval (accumulator sp) && (Z.of_nat (length l) <? maxBalls)%Z);
    try done; try (by intros [= <- <- <- <- <-]).
  destruct (spawnBall_full sp pathLength h c l n Hrepr Hne)
    as (res & h1 & c1 & n1 & -> & Hres).
  cbn [mbind option_bind]. destruct res as [ball|]; [by destruct Hres|].
  destruct Hres as (_ & -> & -> & ->). by apply IH with (l := l).
Qed.

(** The loop of [update] puts at most one ball into the chain. *)
Lemma spawnLoop_at_most_one interval pathLength maxBalls fuel :
  forall spawned sp h c l n k sp' h' c' n',
  chain_repr h c l -> availableColors sp <> [] ->
  spawnLoop random fuel interval pathLength maxBalls spawned sp h c n
    = Some (k, sp', h', c', n') ->
  (k = spawned /\ h' = h /\ c' = c /\ n' = n) \/
  (k = (spawned + 1)%Z /\ (Z.of_nat (length l) < maxBalls)%Z /\
   ~ tailBlocks pathLength h l /\ n' = S n /\
   exists ball, h !! ball = None /\ chain_repr h' c' (l ++ [ball]) /\
     distOf h' ball = pathLength /\
     (exists col, colorOf h' ball = Some col /\ col ∈ availableColors sp) /\
     (forall r, r <> ball -> distOf h' r = distOf h r) /\
     (forall r, r <> ball -> colorOf h' r = colorOf h r) /\
     gap_state_eq c c').
Proof.
  induction fuel as [|fuel IH]; intros spawned sp h c l n k sp' h' c' n'
    Hrepr Hne; cbn [spawnLoop];
    rewrite (getLength_spec h c l Hrepr); cbn [mbind option_bind];
    destruct (Qleb interval (accumulator sp)); cbn [andb];
    try (intros [= <- <- <- <- <-]; by left);
    destruct (Z.ltb_spec (Z.of_nat (length l)) maxBalls) as [Hroom|Hfull];
    try done; try (intros [= <- <- <- <- <-]; by left).
  destruct (spawnBall_full sp pathLength h c l n Hrepr Hne)
    as (res & h1 & c1 & n1 & -> & Hres).
  cbn [mbind option_bind]. destruct res as [ball|].
  - destruct Hres as (Hfree & Hnone & Hrepr1 & -> & Hdist & Hcol & Hd & Hc & Hgap).
    intros Hrest. right.
    assert (Hblk : tailBlocks pathLength h1 (l ++ [ball])).
    { exists ball. split; [apply last_snoc|]. rewrite Hdist.
      unfold BALL_RADIUS. lra. }
    destruct (spawnLoop_blocked interval pathLength maxBalls fuel _
                (set_accumulator (accumulator sp - interval) sp)
                _ _ _ _ _ _ _ _ _ Hrepr1 Hne Hblk Hrest)
      as (-> & -> & -> & ->).
    split; [done|]. split; [done|]. split; [done|]. split; [done|].
    by exists ball.
  - destruct Hres as (_ & -> & -> & ->). intros Hrest.
    destruct (IH _ (set_accumulator (accumulator sp - interval) sp)
                _ _ _ _ _ _ _ _ _ Hrepr Hne Hrest) as [Hsame|Hone];
      [by left|by right].
Qed.

End SpawnerSteps.

(** ** C2: blocked spawn intervals

    Stated here, after the lemmas on single spawn attempts it rests on. *)

Section SpawnerCalls.

Variable random : nat -> Q.
Hypothesis random_range : forall n, 0 <= random n /\ random n < 1.

Implicit Types (h : gmap positive Ball) (l : list positive) (r : positive).



End SpawnerCalls.



(** Three intervals carried, one ball: with one ball in the chain and
    [maxBalls] 1, a call with three intervals of elapsed time spawns nothing
    and keeps all three.  The next call, made with no elapsed time when
    [maxBalls] is 5, spawns one ball and leaves the accumulator at 0: the
    second and third interval find the new ball at the spawn point. *)
Example spawner_carried_intervals_spawn_once :
  exists sp1 h1 c1 n1 sp2 h2 c2 n2,
    spawnerUpdate (fun _ => 0) 3 redBlueSpawner 200 1 (fst loneBall) (snd loneBall) 0
      = Some (0%Z, sp1, h1, c1, n1) /\
    accumulator sp1 = 3 /\
    spawnerUpdate (fun _ => 0) 0 sp1 200 5 h1 c1 n1 = Some (1%Z, sp2, h2, c2, n2) /\
    getBalls h2 c2 = Some [1; 2]%positive /\
    accumulator sp2 == 0.
Proof.
  eexists _, _, _, _, _, _, _, _. split; [by vm_compute|].
  split; [by vm_compute|]. split; [by vm_compute|].
  split; by vm_compute.
Qed.



(** X16.  [spawnBall] returns null, and changes nothing, exactly when the
    chain has a tail less than [2 * BALL_RADIUS] short of the end of the
    path.  Otherwise it makes one new ball, of a palette colour, at the end
    of the path, and links it as the new tail; no other ball moves or
    changes colour, and a chain that was in increasing order, or spaced by
    [2 * BALL_RADIUS], still is. *)
Theorem spawnBall_appends (random : nat -> Q) sp pathLength
    (h : gmap positive Ball) c l n :
  (forall i, 0 <= random i /\ random i < 1) ->
  chain_repr h c l -> availableColors sp <> [] ->
  exists res h' c' n',
    spawnBall random sp pathLength h c n = Some (res, h', c', n') /\
    match res with
    | None => tailBlocks pathLength h l /\ h' = h /\ c' = c /\ n' = n
    | Some ball =>
        ~ tailBlocks pathLength h l /\ h !! ball = None /\
        getBalls h' c' = Some (l ++ [ball]) /\ tail c' = Some ball /\
        distOf h' ball = pathLength /\
        (exists col, colorOf h' ball = Some col /\ col ∈ availableColors sp) /\
        (forall r, r <> ball -> distOf h' r = distOf h r) /\
        (forall r, r <> ball -> colorOf h' r = colorOf h r) /\
        (ascending (map (distOf h) l) ->
         ascending (map (distOf h') (l ++ [ball]))) /\
        (spaced (map (distOf h) l) -> spaced (map (distOf h') (l ++ [ball])))
    end.
Proof.
  intros Hrand Hrepr Hne.
  destruct (spawnBall_full random Hrand sp pathLength h c l n Hrepr Hne)
    as (res & h' & c' & n' & Hrun & Hres).
  exists res, h', c', n'. split; [done|]. destruct res as [ball|]; [|done].
  destruct Hres as (Hfree & Hnone & Hrepr' & _ & Hdist & Hcol & Hd & Hc & _).
  split; [done|]. split; [done|]. split; [by apply getBalls_spec|].
  split; [destruct Hrepr' as (_ & _ & -> & _); apply last_snoc|].
  split; [done|]. split; [done|]. split; [done|]. split; [done|].
  assert (Hball : ball ∉ l).
  { intros Hin. destruct (chain_repr_elem_lookup h c l ball Hrepr Hin). congruence. }
  assert (Hmap : map (distOf h') l = map (distOf h) l).
  { apply map_ext_in. intros r Hr. apply Hd. intros ->.
    by apply Hball, list_elem_of_In. }
  assert (Hroom : forall e, last (map (distOf h) l) = Some e ->
                            e + BALL_RADIUS * 2 <= pathLength).
  { intros e He. change (map (distOf h) l) with (distOf h <$> l) in He.
    rewrite fmap_last in He. destruct (last l) as [t|] eqn:Hl; [|done].
    injection He as <-.
    destruct (Qlt_le_dec (pathLength - distOf h t) (BALL_RADIUS * 2)) as [Hlt|Hle].
    - exfalso. apply Hfree. by exists t.
    - lra. }
  rewrite map_app. simpl. rewrite Hmap, Hdist. split.
  - intros Ha. apply ascending_snoc; [done|]. intros e He.
    specialize (Hroom e He). unfold BALL_RADIUS in Hroom. lra.
  - intros Hs. by apply spaced_snoc.
Qed.

Lemma spawnBall_appends_witness :
  let h := fst loneBall in
  let c := snd loneBall in
  exists res h' c' n',
    spawnBall (fun _ => 0) redBlueSpawner 200 h c 0 = Some (res, h', c', n') /\
    match res with
    | None => tailBlocks 200 h [1%positive] /\ h' = h /\ c' = c /\ n' = 0%nat
    | Some ball =>
        ~ tailBlocks 200 h [1%positive] /\ h !! ball = None /\
        getBalls h' c' = Some ([1%positive] ++ [ball]) /\ tail c' = Some ball /\
        distOf h' ball = 200 /\
        (exists col, colorOf h' ball = Some col /\
                     col ∈ availableColors redBlueSpawner) /\
        (forall r, r <> ball -> distOf h' r = distOf h r) /\
        (forall r, r <> ball -> colorOf h' r = colorOf h r) /\
        (ascending (map (distOf h) [1%positive]) ->
         ascending (map (distOf h') ([1%positive] ++ [ball]))) /\
        (spaced (map (distOf h) [1%positive]) ->
         spaced (map (distOf h') ([1%positive] ++ [ball])))
    end.
Proof.
  apply (spawnBall_appends (fun _ => 0) redBlueSpawner 200 (fst loneBall)
           (snd loneBall) [1%positive] 0%nat).
  - intros _. split; [by vm_compute|by vm_compute].
  - concrete_repr.
  - done.
Defined.

(** X17.  One [update] call of the spawner puts at most one ball into the
    chain, however many spawn intervals have elapsed: the ball it spawns
    sits at the end of the path and blocks every further attempt of the
    same call.  It spawns only while the chain is shorter than [maxBalls],
    so the chain never grows beyond [maxBalls] by spawning; the balls
    already in the chain neither move nor change colour. *)
Theorem spawner_update_at_most_one (random : nat -> Q) dt sp pathLength maxBalls
    (h : gmap positive Ball) c l n :
  (forall i, 0 <= random i /\ random i < 1) ->
  chain_repr h c l -> availableColors sp <> [] -> 0 < spawnRate sp ->
  exists k sp' h' c' n' l',
    spawnerUpdate random dt sp pathLength maxBalls h c n
      = Some (k, sp', h', c', n') /\
    getBalls h' c' = Some l' /\
    (Z.of_nat (length l') <= Z.max maxBalls (Z.of_nat (length l)))%Z /\
    (forall r, r ∈ l -> distOf h' r = distOf h r /\ colorOf h' r = colorOf h r) /\
    ((k = 0%Z /\ l' = l /\ h' = h /\ c' = c /\ n' = n) \/
     (k = 1%Z /\ (Z.of_nat (length l) < maxBalls)%Z /\
      ~ tailBlocks pathLength h l /\
      exists ball, h !! ball = None /\ l' = l ++ [ball] /\
                   distOf h' ball = pathLength)).
Proof.
  intros Hrand Hrepr Hne Hrate.
  destruct (spawnerUpdate_spec random Hrand dt sp pathLength maxBalls h c l n
              Hrepr Hne Hrate)
    as (k & sp' & h' & c' & n' & l' & Hrun & Hrepr' & _).
  exists k, sp', h', c', n', l'. split; [done|].
  split; [by apply getBalls_spec|].
  unfold spawnerUpdate in Hrun.
  destruct (Qeq_bool _ 0) eqn:E.
  { injection Hrun as <- <- <- <- <-.
    pose proof (getBalls_spec _ _ _ Hrepr) as H1.
    pose proof (getBalls_spec _ _ _ Hrepr') as H2.
    assert (l' = l) as -> by congruence.
    split; [lia|]. split; [done|]. by left. }
  apply (spawnLoop_at_most_one random Hrand) with (l := l) in Hrun; [|done|done].
  destruct Hrun as [(-> & -> & -> & ->)|(-> & Hroom & Hfree & -> & ball & Hnone
                      & Hrepr2 & Hdist & _ & Hd & Hc & _)].
  - pose proof (getBalls_spec _ _ _ Hrepr) as H1.
    pose proof (getBalls_spec _ _ _ Hrepr') as H2.
    assert (l' = l) as -> by congruence.
    split; [lia|]. split; [done|]. by left.
  - pose proof (getBalls_spec _ _ _ Hrepr2) as H1.
    pose proof (getBalls_spec _ _ _ Hrepr') as H2.
    assert (l' = l ++ [ball]) as -> by congruence.
    split; [rewrite length_app; simpl; lia|].
    split.
    { intros r Hr.
      assert (r <> ball).
      { intros ->. destruct (chain_repr_elem_lookup h c l ball Hrepr Hr). congruence. }
      split; [by apply Hd|by apply Hc]. }
    right. split; [done|]. split; [done|]. split; [done|].
    by exists ball.
Qed.

Lemma spawner_update_at_most_one_witness :
  let h := fst loneBall in
  let c := snd loneBall in
  exists k sp' h' c' n' l',
    spawnerUpdate (fun _ => 0) 5 redBlueSpawner 200 10 h c 0
      = Some (k, sp', h', c', n') /\
    getBalls h' c' = Some l' /\
    (Z.of_nat (length l') <= Z.max 10 (Z.of_nat (length [1%positive])))%Z /\
    (forall r, r ∈ [1%positive] ->
               distOf h' r = distOf h r /\ colorOf h' r = colorOf h r) /\
    ((k = 0%Z /\ l' = [1%positive] /\ h' = h /\ c' = c /\ n' = 0%nat) \/
     (k = 1%Z /\ (Z.of_nat (length [1%positive]) < 10)%Z /\
      ~ tailBlocks 200 h [1%positive] /\
      exists ball, h !! ball = None /\ l' = [1%positive] ++ [ball] /\
                   distOf h' ball = 200)).
Proof.
  apply (spawner_update_at_most_one (fun _ => 0) 5 redBlueSpawner 200 10
           (fst loneBall) (snd loneBall) [1%positive] 0%nat).
  - intros _. split; [by vm_compute|by vm_compute].
  - concrete_repr.
  - done.
  - by vm_compute.
Defined.

Section InitialBalls.

Variable random : nat -> Q.
Hypothesis random_range : forall n, 0 <= random n /\ random n < 1.

Implicit Types (h : gmap positive Ball) (l : list positive) (r : positive).

Lemma spawnInitialLoop_spec sp count : forall d h c l n,
  chain_repr h c l -> availableColors sp <> [] ->
  exists h' c' news,
    spawnInitialLoop random count sp d h c n = Some (h', c', (n + count)%nat) /\
    chain_repr h' c' (l ++ news) /\
    map (distOf h') news = spawnDistances d count /\
    (forall r, r ∈ news -> h !! r = None /\
       exists col, colorOf h' r = Some col /\ col ∈ availableColors sp) /\
    (forall r, r ∈ l -> distOf h' r = distOf h r /\ colorOf h' r = colorOf h r) /\
    gap_state_eq c c'.
Proof.
  induction count as [|count IH]; intros d h c l n Hrepr Hne.
  - exists h, c, []. simpl. rewrite Nat.add_0_r, app_nil_r.
    split; [done|]. split; [done|]. split; [done|].
    split; [intros r Hr; by apply elem_of_nil in Hr|done].
  - cbn [spawnInitialLoop].
    destruct (getRandomColor_is_Some random random_range sp n Hne) as [col Hcol].
    rewrite Hcol. cbn [mbind option_bind]. unfold alloc.
    apply getRandomColor_palette in Hcol as [Hpal _].
    destruct (chain_repr_alloc h c l (newBall col d) Hrepr) as [Hrepr1 Hfresh].
    set (ball := fresh (dom h)) in *.
    set (h1 := <[ball := newBall col d]> h) in *.
    rewrite <- (app_nil_r l) in Hrepr1.
    destruct (insertBall_spec h1 c l [] ball (newBall col d) Hrepr1)
      as (h2 & c2 & Hrun & Hrepr2 & Hcolor & Hout & _ & Hgap);
      [apply lookup_insert_eq|by rewrite app_nil_r|].
    destruct Hrepr as (? & ? & Ht & ?). rewrite Ht, Hrun.
    cbn [mbind option_bind].
    destruct (IH (d - BALL_RADIUS * 2) h2 c2 (l ++ [ball]) (S n) Hrepr2 Hne)
      as (h' & c' & news & Hloop & Hrepr' & Hds & Hnew & Hold & Hgap').
    assert (Hnone : h !! ball = None) by (apply not_elem_of_dom, is_fresh).
    assert (Hdom : forall r, h2 !! r = None -> r <> ball -> h !! r = None).
    { intros r Hr Hne'.
      assert (Hc2 : colorOf h2 r = None) by (unfold colorOf; by rewrite Hr).
      rewrite Hcolor in Hc2. unfold colorOf, h1 in Hc2.
      rewrite lookup_insert_ne in Hc2 by done.
      by destruct (h !! r). }
    exists h', c', (ball :: news).
    replace (n + S count)%nat with (S n + count)%nat by lia.
    split; [done|]. split; [by rewrite <- app_assoc in Hrepr'|].
    assert (Hb : ball ∈ l ++ [ball]) by (apply elem_of_app; right; by left).
    split.
    { simpl. f_equal; [|done]. rewrite (proj1 (Hold ball Hb)).
      rewrite (Hout ball) by apply not_elem_of_nil. apply distOf_insert. }
    split.
    { intros r [->|Hr]%elem_of_cons.
      - split; [done|]. exists col. split; [|done].
        rewrite (proj2 (Hold ball Hb)), Hcolor. unfold colorOf, h1.
        by rewrite lookup_insert_eq.
      - destruct (Hnew r Hr) as [Hr2 Hrc]. split; [|done].
        apply Hdom; [done|]. intros ->.
        destruct Hrepr' as (Hnd & _). rewrite <- app_assoc in Hnd.
        apply NoDup_app in Hnd as (_ & _ & Hnd). simpl in Hnd.
        apply NoDup_cons in Hnd as [Hnin _]. done. }
    split.
    { intros r Hr.
      assert (Hrl : r ∈ l ++ [ball]) by (apply elem_of_app; by left).
      assert (Hrb : r <> ball) by (intros ->; done).
      destruct (Hold r Hrl) as [-> ->]. split.
      - rewrite (Hout r) by apply not_elem_of_nil. by apply distOf_insert_ne.
      - rewrite Hcolor. unfold colorOf, h1. by rewrite lookup_insert_ne. }
    destruct Hgap as (?&?&?&?), Hgap' as (?&?&?&?). repeat split; congruence.
Qed.

End InitialBalls.

(** X18.  [spawnInitialBalls(chain, path, count)] with a non-empty palette
    appends [count] new balls of palette colours behind the tail, the k-th
    of them at [totalLength - k * 2 * BALL_RADIUS] (k from 0); the balls
    already in the chain neither move nor change colour.  So the first new ball is the farthest from the
    hole and each later one is [2 * BALL_RADIUS] nearer, although it is
    linked farther towards the tail. *)
Theorem spawnInitialBalls_layout (random : nat -> Q) sp pathLength count
    (h : gmap positive Ball) c l n :
  (forall i, 0 <= random i /\ random i < 1) ->
  chain_repr h c l -> availableColors sp <> [] ->
  exists h' c' n' news,
    spawnInitialBalls random sp pathLength count h c n = Some (h', c', n') /\
    getBalls h' c' = Some (l ++ news) /\
    length news = count /\
    map (distOf h') news = spawnDistances pathLength count /\
    (forall r, r ∈ news -> h !! r = None /\
       exists col, colorOf h' r = Some col /\ col ∈ availableColors sp) /\
    (forall r, r ∈ l -> distOf h' r = distOf h r /\ colorOf h' r = colorOf h r).
Proof.
  intros Hrand Hrepr Hne.
  destruct (spawnInitialLoop_spec random Hrand sp count pathLength h c l n Hrepr Hne)
    as (h' & c' & news & Hrun & Hrepr' & Hds & Hnew & Hold & _).
  exists h', c', (n + count)%nat, news. split; [done|].
  split; [by apply getBalls_spec|]. split; [|done].
  apply (f_equal length) in Hds. rewrite length_map in Hds. rewrite Hds.
  clear. revert pathLength. induction count as [|k IH]; intros d; simpl; [done|].
  by rewrite IH.
Qed.

Lemma spawnInitialBalls_layout_witness :
  exists h' c' n' news,
    spawnInitialBalls (fun _ => 0) redBlueSpawner 200 3 ∅ newChain 0
      = Some (h', c', n') /\
    getBalls h' c' = Some ([] ++ news) /\
    length news = 3%nat /\
    map (distOf h') news = spawnDistances 200 3 /\
    (forall r, r ∈ news -> (∅ : gmap positive Ball) !! r = None /\
       exists col, colorOf h' r = Some col /\
                   col ∈ availableColors redBlueSpawner) /\
    (forall r : positive, r ∈ [] ->
       distOf h' r = distOf ∅ r /\ colorOf h' r = colorOf ∅ r).
Proof.
  apply (spawnInitialBalls_layout (fun _ => 0) redBlueSpawner 200 3 ∅ newChain
           [] 0%nat).
  - intros _. split; [by vm_compute|by vm_compute].
  - repeat split; [apply NoDup_nil_2|done..].
  - done.
Defined.

(** X19.  [Game.updateSpawning] keeps the spawn budget: with the level's
    threshold the one recorded in the game state, a call adds to
    [ballsSpawned] the number of balls it put into the chain, 0 or 1, and
    never takes [ballsSpawned] beyond the threshold; once the threshold is
    reached, or while the path or the level is null, it changes nothing. *)
Theorem updateSpawning_keeps_budget (random : nat -> Q) dt g sp
    (h : gmap positive Ball) c l n threshold :
  (forall i, 0 <= random i /\ random i < 1) ->
  chain_repr h c l -> availableColors sp <> [] -> 0 < spawnRate sp ->
  currentLevelThreshold g = Some threshold ->
  levelConfigThreshold g = Some threshold ->
  exists g' sp' h' c' n' l',
    updateSpawning random dt g sp h c n = Some (g', sp', h', c', n') /\
    getBalls h' c' = Some l' /\
    (ballsSpawned g <= ballsSpawned g' <= ballsSpawned g + 1)%Z /\
    Z.of_nat (length l') =
      (Z.of_nat (length l) + (ballsSpawned g' - ballsSpawned g))%Z /\
    (ballsSpawned g' <= Z.max threshold (ballsSpawned g))%Z /\
    ((threshold <= ballsSpawned g)%Z \/ currentPathLength g = None ->
     g' = g /\ sp' = sp /\ h' = h /\ c' = c /\ n' = n).
Proof.
  intros Hrand Hrepr Hne Hrate Hcur Hcfg. unfold updateSpawning.
  rewrite Hcur. unfold isSpawningComplete. rewrite Hcfg.
  destruct (currentPathLength g) as [pathLength|] eqn:Hpath; cycle 1.
  { exists g, sp, h, c, n, l. split; [done|]. split; [by apply getBalls_spec|].
    split; [lia|]. split; [lia|]. split; [lia|done]. }
  destruct (Z.leb_spec threshold (ballsSpawned g)) as [Hdone|Hopen].
  { exists g, sp, h, c, n, l. split; [done|]. split; [by apply getBalls_spec|].
    split; [lia|]. split; [lia|]. split; [lia|done]. }
  rewrite (getLength_spec h c l Hrepr). cbn [mbind option_bind].
  destruct (spawnerUpdate_spec random Hrand dt sp pathLength
              (threshold - ballsSpawned g + Z.of_nat (length l)) h c l n
              Hrepr Hne Hrate)
    as (k & sp' & h' & c' & n' & l' & Hrun & Hrepr' & Hlen & Hk & _).
  rewrite Hrun. cbn [mbind option_bind].
  pose proof Hrun as Hone. unfold spawnerUpdate in Hone.
  destruct (Qeq_bool _ 0) eqn:E.
  { apply Qeq_bool_eq in E. simpl in E. lra. }
  apply (spawnLoop_at_most_one random Hrand) with (l := l) in Hone; [|done|done].
  eexists _, sp', h', c', n', l'. split; [reflexivity|]. simpl.
  split; [by apply getBalls_spec|].
  assert (Hk01 : (k = 0 \/ (k = 1 /\ ballsSpawned g < threshold))%Z).
  { destruct Hone as [(-> & _)|(-> & Hroom & _)]; [by left|right; lia]. }
  split; [lia|]. split; [lia|]. split; [lia|].
  intros [Hge|Hnone]; [lia|done].
Qed.

Lemma updateSpawning_keeps_budget_witness :
  let g := mkSpawnBudget (Some 200) (Some 2%Z) (Some 2%Z) 1 in
  let h := fst loneBall in
  let c := snd loneBall in
  exists g' sp' h' c' n' l',
    updateSpawning (fun _ => 0) 5 g redBlueSpawner h c 0
      = Some (g', sp', h', c', n') /\
    getBalls h' c' = Some l' /\
    (ballsSpawned g <= ballsSpawned g' <= ballsSpawned g + 1)%Z /\
    Z.of_nat (length l') =
      (Z.of_nat (length [1%positive]) + (ballsSpawned g' - ballsSpawned g))%Z /\
    (ballsSpawned g' <= Z.max 2 (ballsSpawned g))%Z /\
    ((2 <= ballsSpawned g)%Z \/ currentPathLength g = None ->
     g' = g /\ sp' = redBlueSpawner /\ h' = h /\ c' = c /\ n' = 0%nat).
Proof.
  apply (updateSpawning_keeps_budget (fun _ => 0) 5
           (mkSpawnBudget (Some 200) (Some 2%Z) (Some 2%Z) 1) redBlueSpawner
           (fst loneBall) (snd loneBall) [1%positive] 0%nat 2%Z).
  - intros _. split; [by vm_compute|by vm_compute].
  - concrete_repr.
  - done.
  - by vm_compute.
  - done.
  - done.
Defined.

(** * Properties of the shooter *)

Section ShooterFacts.

Variable random : nat -> Q.
Hypothesis random_range : forall n, 0 <= random n /\ random n < 1.

Lemma shooterRandomColor_palette s n :
  shooterColors s <> [] ->
  exists col, shooterRandomColor random s n = Some (col, S n) /\
              col ∈ shooterColors s.
Proof.
  intros Hne. unfold shooterRandomColor.
  set (len := Z.of_nat (length (shooterColors s))).
  assert (Hlen : (0 < len)%Z).
  { unfold len. destruct (shooterColors s); [done|]. simpl. lia. }
  destruct (random_range n) as [H0 H1].
  assert (Hlo : (0 <= Qfloor (random n * inject_Z len))%Z).
  { change 0%Z with (Qfloor (inject_Z 0)) at 1. apply Qfloor_resp_le.
    apply Qmult_le_0_compat; [done|]. change 0 with (inject_Z 0).
    rewrite <- Zle_Qle. lia. }
  assert (Hhi : (Qfloor (random n * inject_Z len) < len)%Z).
  { rewrite Zlt_Qlt. eapply Qle_lt_trans; [apply Qfloor_le|].
    assert (Hl : 0 < inject_Z len).
    { change 0 with (inject_Z 0). rewrite <- Zlt_Qlt. lia. }
    nra. }
  destruct (elementAt_is_Some (shooterColors s) (Qfloor (random n * inject_Z len)))
    as [col Hcol]; [fold len; lia|].
  fold len. rewrite Hcol. simpl. exists col. split; [done|].
  by eapply elementAt_elem.
Qed.

Lemma mapGet_Forall (P : Z -> Prop) (m : list (BallColor * Z)) col v :
  Forall (fun p => P (snd p)) m -> mapGet m col = Some v -> P v.
Proof.
  induction m as [|[k w] m IH]; simpl; [done|]. intros HF.
  apply Forall_cons in HF as [Hw HF].
  destruct (decide (k = col)); [by intros [= <-]|by apply IH].
Qed.

Lemma mapSet_Forall (P : Z -> Prop) (m : list (BallColor * Z)) col v :
  Forall (fun p => P (snd p)) m -> P v ->
  Forall (fun p => P (snd p)) (mapSet m col v).
Proof.
  induction m as [|[k w] m IH]; simpl; intros HF Hv.
  - by repeat constructor.
  - apply Forall_cons in HF as [Hw HF].
    destruct (decide (k = col)); constructor; try done. by apply IH.
Qed.

Lemma foldl_weights_pos (weight : BallColor -> Q) cols : forall a,
  (forall col, 0 <= weight col) -> 0 <= a ->
  0 <= foldl (fun acc col => acc + weight col) a cols.
Proof.
  intros a Hw Ha. eapply Qle_trans; [exact Ha|]. by apply foldl_weights_ge.
Qed.

Lemma shooterWeightedRandomColor_palette s counts n :
  shooterColors s <> [] ->
  Forall (fun p => (0 <= snd p)%Z) counts ->
  exists col, shooterWeightedRandomColor random s counts n = Some (col, S n) /\
              col ∈ shooterColors s.
Proof.
  intros Hne Hpos. unfold shooterWeightedRandomColor.
  destruct counts as [|p0 counts0]; [by apply shooterRandomColor_palette|].
  set (counts := p0 :: counts0) in *.
  set (base := Qmax 1 _).
  set (filled := foldl _ counts (shooterColors s)).
  set (weight := fun col => inject_Z (default 0%Z (mapGet filled col)) + base).
  set (total := foldl _ 0 (shooterColors s)).
  assert (Htotal : total = foldl (fun acc col => acc + weight col) 0
                             (shooterColors s)) by done.
  destruct (pickWeighted weight (shooterColors s) (random n * total))
    as [col|] eqn:Hpick.
  - exists col. split; [done|]. by eapply pickWeighted_elem.
  - exfalso.
    pose proof (pickWeighted_None weight (shooterColors s) 0 _ Hne Hpick) as Hlt.
    rewrite <- Htotal in Hlt.
    assert (Hfilled : Forall (fun p => (0 <= snd p)%Z) filled).
    { unfold filled. clear -Hpos. revert Hpos. generalize counts.
      induction (shooterColors s) as [|c0 cols IH]; intros m Hm; simpl; [done|].
      apply IH. destruct (mapGet m c0); [done|]. by apply mapSet_Forall. }
    assert (Hbase : 1 <= base) by apply Q.le_max_l.
    assert (Hw : forall col, 0 <= weight col).
    { intros col. unfold weight.
      assert (0 <= inject_Z (default 0%Z (mapGet filled col))).
      { change 0 with (inject_Z 0). rewrite <- Zle_Qle.
        destruct (mapGet filled col) as [v|] eqn:Hget; simpl; [|lia].
        by apply (mapGet_Forall (fun v => (0 <= v)%Z) filled col v). }
      lra. }
    pose proof (foldl_weights_ge weight (shooterColors s) 0 Hw) as Hge.
    rewrite <- Htotal in Hge. destruct (random_range n) as [H0 H1]. nra.
Qed.

Lemma countChainColors_nonneg (h : gmap positive Ball) c l :
  chain_repr h c l ->
  exists counts, countChainColors h c = Some counts /\
                 Forall (fun p => (0 <= snd p)%Z) counts.
Proof.
  intros Hrepr. unfold countChainColors.
  rewrite (getBalls_spec h c l Hrepr). cbn [mbind option_bind].
  destruct Hrepr as (_ & _ & _ & Hd).
  assert (Hin : forall r, r ∈ l -> is_Some (h !! r))
    by (intros r; by apply dseg_lookup with (p := None) (n := None)).
  clear Hd. assert (Hacc : Forall (fun p => (0 <= snd p)%Z) ([] : list (BallColor * Z)))
    by constructor.
  revert Hacc. generalize ([] : list (BallColor * Z)).
  induction l as [|r l IH]; intros m Hm; simpl.
  - by exists m.
  - destruct (Hin r) as [b Hb]; [by left|]. rewrite Hb. cbn [mbind option_bind].
    apply IH; [intros r0 Hr0; apply Hin; by right|].
    apply mapSet_Forall; [done|].
    destruct (mapGet m (color b)) as [v|] eqn:Hget; simpl; [|lia].
    assert (Hv : (0 <= v)%Z)
      by exact (mapGet_Forall (fun v => (0 <= v)%Z) m (color b) v Hm Hget).
    lia.
Qed.

End ShooterFacts.

(** * Rounding to a double *)

Section Rounding.

Lemma roundHalfEven_mono a b : a <= b -> (roundHalfEven a <= roundHalfEven b)%Z.
Proof.
  intros Hab. unfold roundHalfEven.
  pose proof (Qfloor_resp_le a b Hab) as Hf.
  pose proof (Qfloor_le a) as Ha1. pose proof (Qlt_floor a) as Ha2.
  pose proof (Qfloor_le b) as Hb1. pose proof (Qlt_floor b) as Hb2.
  destruct (Z.eq_dec (Qfloor a) (Qfloor b)) as [Heq|Hne].
  - rewrite <- Heq in *.
    destruct (Qltb (a - inject_Z (Qfloor a)) (1 # 2)) eqn:E1;
      [apply Qltb_true in E1|apply Qltb_false in E1];
    (destruct (Qltb (b - inject_Z (Qfloor a)) (1 # 2)) eqn:E2;
      [apply Qltb_true in E2|apply Qltb_false in E2]);
    (destruct (Qltb (1 # 2) (a - inject_Z (Qfloor a))) eqn:E3;
      [apply Qltb_true in E3|apply Qltb_false in E3]);
    (destruct (Qltb (1 # 2) (b - inject_Z (Qfloor a))) eqn:E4;
      [apply Qltb_true in E4|apply Qltb_false in E4]);
    destruct (Z.even (Qfloor a)); try lia; exfalso; lra.
  - assert (Hlt : (Qfloor a + 1 <= Qfloor b)%Z) by lia.
    destruct (Qltb (a - inject_Z (Qfloor a)) (1 # 2));
    destruct (Qltb (b - inject_Z (Qfloor b)) (1 # 2));
    destruct (Qltb (1 # 2) (a - inject_Z (Qfloor a)));
    destruct (Qltb (1 # 2) (b - inject_Z (Qfloor b)));
    destruct (Z.even (Qfloor a)); destruct (Z.even (Qfloor b)); lia.
Qed.

Lemma roundHalfEven_comp a b : a == b -> roundHalfEven a = roundHalfEven b.
Proof.
  intros Hab.
  assert (H1 : (roundHalfEven a <= roundHalfEven b)%Z)
    by (apply roundHalfEven_mono; lra).
  assert (H2 : (roundHalfEven b <= roundHalfEven a)%Z)
    by (apply roundHalfEven_mono; lra).
  lia.
Qed.

Lemma roundHalfEven_Z k : roundHalfEven (inject_Z k) = k.
Proof.
  unfold roundHalfEven. rewrite Qfloor_Z.
  destruct (Qltb (inject_Z k - inject_Z k) (1 # 2)) eqn:E; [done|].
  apply Qltb_false in E. lra.
Qed.

Lemma pow2_pos e : 0 < 2 ^ e.
Proof. by apply Qpower_0_lt. Qed.

Lemma pow2_plus a b : 2 ^ (a + b) == 2 ^ a * 2 ^ b.
Proof. apply Qpower_plus. lra. Qed.

Lemma pow2_le a b : (a <= b)%Z -> 2 ^ a <= 2 ^ b.
Proof. intros. apply Qpower_le_compat_l; [done|lra]. Qed.

Lemma pow2_lt_inv a b : 2 ^ a < 2 ^ b -> (a < b)%Z.
Proof. intros. eapply Qpower_lt_compat_l_inv; [done|lra]. Qed.

Lemma pow2_Z n : (0 <= n)%Z -> inject_Z (2 ^ n) == 2 ^ n.
Proof. intros Hn. by rewrite (Zpower_Qpower 2 n Hn). Qed.

(** [binade] is the position of the leading bit. *)
Lemma binade_spec q : 0 < q -> 2 ^ binade q <= q /\ q < 2 ^ (binade q + 1).
Proof.
  intros Hq. unfold binade.
  destruct q as [n d]. cbn [Qnum Qden].
  assert (Hn : (0 < n)%Z).
  { unfold Qlt in Hq. simpl in Hq. lia. }
  set (p := Z.log2 n). set (r := Z.log2 (Z.pos d)).
  destruct (Z.log2_spec n Hn) as [Hn1 Hn2]. fold p in Hn1, Hn2.
  destruct (Z.log2_spec (Z.pos d) eq_refl) as [Hd1 Hd2]. fold r in Hd1, Hd2.
  assert (Hp : (0 <= p)%Z) by apply Z.log2_nonneg.
  assert (Hr : (0 <= r)%Z) by apply Z.log2_nonneg.
  rewrite Zle_Qle, pow2_Z in Hn1 by done.
  rewrite Zlt_Qlt, pow2_Z in Hn2 by lia.
  rewrite Zle_Qle, pow2_Z in Hd1 by done.
  rewrite Zlt_Qlt, pow2_Z in Hd2 by lia.
  set (N := inject_Z n) in *. set (D := inject_Z (Z.pos d)) in *.
  assert (HD : 0 < D) by (pose proof (pow2_pos r); lra).
  assert (Hq' : (n # d) * D == N).
  { unfold N, D. rewrite (Qmake_Qdiv n d). field.
    intros H0. unfold Qeq in H0. simpl in H0. lia. }
  set (q := n # d) in *.
  assert (Hlo : 2 ^ (p - r - 1) < q).
  { assert (E : 2 ^ (p - r - 1) * 2 ^ (Z.succ r) == 2 ^ p).
    { rewrite <- pow2_plus. by replace (p - r - 1 + Z.succ r)%Z with p by lia. }
    pose proof (pow2_pos (p - r - 1)) as HA.
    assert (H1 : 2 ^ (p - r - 1) * D < q * D).
    { rewrite Hq'. eapply Qlt_le_trans; [|exact Hn1]. rewrite <- E.
      apply Qmult_lt_l; done. }
    apply Qmult_lt_r in H1; done. }
  assert (Hhi : q < 2 ^ (p - r + 1)).
  { assert (E : 2 ^ (p - r + 1) * 2 ^ r == 2 ^ Z.succ p).
    { rewrite <- pow2_plus. by replace (p - r + 1 + r)%Z with (Z.succ p) by lia. }
    pose proof (pow2_pos (p - r + 1)) as HA.
    assert (H1 : q * D < 2 ^ (p - r + 1) * D).
    { rewrite Hq'. eapply Qlt_le_trans; [exact Hn2|]. rewrite <- E.
      apply Qmult_le_l; done. }
    apply Qmult_lt_r in H1; done. }
  destruct (Qltb q (2 ^ (p - r))) eqn:E;
    [apply Qltb_true in E|apply Qltb_false in E].
  - replace (p - r - 1 + 1)%Z with (p - r)%Z by lia. split; [lra|done].
  - done.
Qed.

Lemma binade_unique q e : 0 < q -> 2 ^ e <= q -> q < 2 ^ (e + 1) -> binade q = e.
Proof.
  intros Hq Hlo Hhi. destruct (binade_spec q Hq) as [Hlo' Hhi'].
  assert (H1 : (e < binade q + 1)%Z) by (apply pow2_lt_inv; lra).
  assert (H2 : (binade q < e + 1)%Z) by (apply pow2_lt_inv; lra).
  lia.
Qed.

Lemma binade_comp a b : 0 < a -> a == b -> binade a = binade b.
Proof.
  intros Ha Hab. destruct (binade_spec a Ha) as [Hlo Hhi].
  symmetry. apply binade_unique; lra.
Qed.

Lemma binade_mono a b : 0 < a -> a <= b -> (binade a <= binade b)%Z.
Proof.
  intros Ha Hab. destruct (binade_spec a Ha) as [Hlo _].
  destruct (binade_spec b) as [_ Hhi]; [lra|].
  assert (H : (binade a < binade b + 1)%Z) by (apply pow2_lt_inv; lra). lia.
Qed.

(** The significand of a positive number, before rounding. *)
Lemma significand_range a :
  0 < a ->
  inject_Z (2 ^ 52) <= a / 2 ^ (binade a - 52) /\
  a / 2 ^ (binade a - 52) < inject_Z (2 ^ 53).
Proof.
  intros Ha. destruct (binade_spec a Ha) as [Hlo Hhi].
  pose proof (pow2_pos (binade a - 52)) as Hu.
  assert (E1 : 2 ^ binade a == inject_Z (2 ^ 52) * 2 ^ (binade a - 52)).
  { rewrite pow2_Z by lia. rewrite <- pow2_plus.
    by replace (52 + (binade a - 52))%Z with (binade a) by lia. }
  assert (E2 : 2 ^ (binade a + 1) == inject_Z (2 ^ 53) * 2 ^ (binade a - 52)).
  { rewrite pow2_Z by lia. rewrite <- pow2_plus.
    by replace (53 + (binade a - 52))%Z with (binade a + 1)%Z by lia. }
  split.
  - apply Qle_shift_div_l; [done|]. by rewrite <- E1.
  - apply Qlt_shift_div_r; [done|]. by rewrite <- E2.
Qed.

Lemma roundPositive_range a :
  0 < a ->
  (2 ^ 52 <= roundHalfEven (a / 2 ^ (binade a - 52)) <= 2 ^ 53)%Z /\
  2 ^ binade a <= roundPositive a /\ roundPositive a <= 2 ^ (binade a + 1).
Proof.
  intros Ha. destruct (significand_range a Ha) as [Hlo Hhi].
  pose proof (pow2_pos (binade a - 52)) as Hu.
  set (n := a / 2 ^ (binade a - 52)) in *.
  assert (Hm : (2 ^ 52 <= roundHalfEven n <= 2 ^ 53)%Z).
  { split.
    - rewrite <- (roundHalfEven_Z (2 ^ 52)). by apply roundHalfEven_mono.
    - rewrite <- (roundHalfEven_Z (2 ^ 53)). apply roundHalfEven_mono. lra. }
  split; [done|]. unfold roundPositive. fold n.
  assert (E1 : 2 ^ binade a == inject_Z (2 ^ 52) * 2 ^ (binade a - 52)).
  { rewrite pow2_Z by lia. rewrite <- pow2_plus.
    by replace (52 + (binade a - 52))%Z with (binade a) by lia. }
  assert (E2 : 2 ^ (binade a + 1) == inject_Z (2 ^ 53) * 2 ^ (binade a - 52)).
  { rewrite pow2_Z by lia. rewrite <- pow2_plus.
    by replace (53 + (binade a - 52))%Z with (binade a + 1)%Z by lia. }
  rewrite E1, E2. split; apply Qmult_le_compat_r; try lra;
    rewrite <- Zle_Qle; lia.
Qed.

Lemma roundPositive_pos a : 0 < a -> 0 < roundPositive a.
Proof.
  intros Ha. destruct (roundPositive_range a Ha) as (_ & Hlo & _).
  pose proof (pow2_pos (binade a)). lra.
Qed.

Lemma roundPositive_mono a b : 0 < a -> a <= b -> roundPositive a <= roundPositive b.
Proof.
  intros Ha Hab. assert (Hb : 0 < b) by lra.
  destruct (roundPositive_range a Ha) as (_ & _ & Hhi).
  destruct (roundPositive_range b Hb) as (_ & Hlo & _).
  pose proof (binade_mono a b Ha Hab) as He.
  destruct (Z.eq_dec (binade a) (binade b)) as [Heq|Hne].
  - unfold roundPositive. rewrite Heq.
    pose proof (pow2_pos (binade b - 52)) as Hu.
    apply Qmult_le_compat_r; [|lra]. rewrite <- Zle_Qle.
    apply roundHalfEven_mono. unfold Qdiv.
    apply Qmult_le_compat_r; [done|]. apply Qlt_le_weak, Qinv_lt_0_compat. done.
  - eapply Qle_trans; [exact Hhi|]. eapply Qle_trans; [|exact Hlo].
    apply pow2_le. lia.
Qed.

Lemma roundPositive_idem a : 0 < a -> roundPositive (roundPositive a) == roundPositive a.
Proof.
  intros Ha. destruct (roundPositive_range a Ha) as (Hm & Hlo & Hhi).
  pose proof (roundPositive_pos a Ha) as Hpos.
  set (e := binade a) in *. set (m := roundHalfEven (a / 2 ^ (e - 52))) in *.
  assert (HR : roundPositive a == inject_Z m * 2 ^ (e - 52)) by reflexivity.
  pose proof (pow2_pos (e - 52)) as Hu.
  destruct (Z.eq_dec m (2 ^ 53)%Z) as [Htop|Hin].
  - assert (HR' : roundPositive a == 2 ^ (e + 1)).
    { rewrite HR, Htop, pow2_Z by lia. rewrite <- pow2_plus.
      by replace (53 + (e - 52))%Z with (e + 1)%Z by lia. }
    assert (He : binade (roundPositive a) = (e + 1)%Z).
    { apply binade_unique; [done|lra|]. rewrite HR'.
      apply Qpower_lt_compat_l; [lia|lra]. }
    unfold roundPositive at 1. rewrite He.
    pose proof (pow2_pos (e + 1 - 52)) as Hu'.
    assert (Hn : roundPositive a / 2 ^ (e + 1 - 52) == inject_Z (2 ^ 52)).
    { rewrite HR'. rewrite pow2_Z by lia.
      replace (e + 1)%Z with (52 + (e + 1 - 52))%Z at 1 by lia.
      rewrite pow2_plus. field. lra. }
    rewrite (roundHalfEven_comp _ _ Hn), roundHalfEven_Z.
    rewrite HR'. rewrite pow2_Z by lia. rewrite <- pow2_plus.
    by replace (52 + (e + 1 - 52))%Z with (e + 1)%Z by lia.
  - assert (He : binade (roundPositive a) = e).
    { apply binade_unique; [done|done|].
      assert (E2 : 2 ^ (e + 1) == inject_Z (2 ^ 53) * 2 ^ (e - 52)).
      { rewrite pow2_Z by lia. rewrite <- pow2_plus.
        by replace (53 + (e - 52))%Z with (e + 1)%Z by lia. }
      rewrite E2, HR. apply Qmult_lt_r; [done|]. rewrite <- Zlt_Qlt. lia. }
    unfold roundPositive at 1. rewrite He.
    assert (Hn : roundPositive a / 2 ^ (e - 52) == inject_Z m).
    { rewrite HR. field. lra. }
    rewrite (roundHalfEven_comp _ _ Hn), roundHalfEven_Z. by rewrite HR.
Qed.

Lemma binary64_zero : binary64 0 == 0.
Proof. reflexivity. Qed.

Lemma binary64_sign q :
  (q == 0 /\ binary64 q = 0) \/
  (q < 0 /\ binary64 q = - roundPositive (- q)) \/
  (0 < q /\ binary64 q = roundPositive q).
Proof.
  unfold binary64. destruct (Qeq_bool q 0) eqn:E0.
  - left. by apply Qeq_bool_eq in E0.
  - apply Qeq_bool_neq in E0. right.
    destruct (Qltb q 0) eqn:E1; [apply Qltb_true in E1|apply Qltb_false in E1].
    + by left.
    + right. split; [|done]. apply Qle_lteq in E1 as [?|Heq]; [done|].
      exfalso. apply E0. by symmetry.
Qed.

Lemma binary64_mono a b : a <= b -> binary64 a <= binary64 b.
Proof.
  intros Hab.
  destruct (binary64_sign a) as [[Ha ->]|[[Ha ->]|[Ha ->]]];
    destruct (binary64_sign b) as [[Hb ->]|[[Hb ->]|[Hb ->]]].
  - lra.
  - exfalso; lra.
  - assert (H := roundPositive_pos b Hb). lra.
  - assert (H : 0 < roundPositive (- a)) by (apply roundPositive_pos; lra). lra.
  - assert (H : roundPositive (- b) <= roundPositive (- a))
      by (apply roundPositive_mono; lra).
    lra.
  - assert (H1 : 0 < roundPositive (- a)) by (apply roundPositive_pos; lra).
    assert (H2 := roundPositive_pos b Hb). lra.
  - exfalso; lra.
  - exfalso; lra.
  - by apply roundPositive_mono.
Qed.

Lemma binary64_idem a : binary64 (binary64 a) == binary64 a.
Proof.
  destruct (binary64_sign a) as [[Ha ->]|[[Ha ->]|[Ha ->]]]; [reflexivity| |].
  - assert (Hna : 0 < - a) by lra.
    pose proof (roundPositive_pos _ Hna) as Hpos.
    pose proof (roundPositive_idem _ Hna) as Hid.
    destruct (binary64_sign (- roundPositive (- a)))
      as [[Hb _]|[[Hb ->]|[Hb _]]]; [lra| |lra].
    assert (Hopp : - - roundPositive (- a) == roundPositive (- a)) by ring.
    assert (He : binade (- - roundPositive (- a)) = binade (roundPositive (- a))).
    { apply binade_comp; [lra|done]. }
    unfold roundPositive at 1. rewrite He.
    assert (Hn : - - roundPositive (- a) / 2 ^ (binade (roundPositive (- a)) - 52)
                 == roundPositive (- a) / 2 ^ (binade (roundPositive (- a)) - 52)).
    { by rewrite Hopp. }
    rewrite (roundHalfEven_comp _ _ Hn).
    change (- roundPositive (roundPositive (- a)) == - roundPositive (- a)).
    by rewrite Hid.
  - pose proof (roundPositive_pos _ Ha) as Hpos.
    destruct (binary64_sign (roundPositive a)) as [[Hb _]|[[Hb _]|[Hb ->]]];
      [lra|lra|]. by apply roundPositive_idem.
Qed.

End Rounding.

(** * The countdown of the shooter *)

Section Countdown.

Lemma shooterUpdate_ready dt s : canFire s = true -> shooterUpdate dt s = s.
Proof.
  unfold canFire, shooterUpdate. intros Hc. apply Qleb_true in Hc.
  destruct (Qltb 0 (cooldown s)) eqn:E; [|done].
  apply Qltb_true in E. lra.
Qed.

Lemma shooterUpdates_ready dts : forall s,
  canFire s = true -> shooterUpdates dts s = s.
Proof.
  induction dts as [|dt dts IH]; intros s Hc; [done|].
  cbn [shooterUpdates foldl]. rewrite (shooterUpdate_ready dt s Hc).
  by apply IH.
Qed.

Lemma shooterUpdate_step dt s :
  0 <= dt -> 0 <= cooldown s -> binary64 (cooldown s) == cooldown s ->
  0 <= cooldown (shooterUpdate dt s) /\
  cooldown (shooterUpdate dt s) <= cooldown s /\
  binary64 (cooldown (shooterUpdate dt s)) == cooldown (shooterUpdate dt s) /\
  (cooldown s <= dt * 1000 -> cooldown (shooterUpdate dt s) <= 0) /\
  position (shooterUpdate dt s) = position s /\
  rotation (shooterUpdate dt s) = rotation s /\
  currentBall (shooterUpdate dt s) = currentBall s /\
  reserveBall (shooterUpdate dt s) = reserveBall s /\
  shooterColors (shooterUpdate dt s) = shooterColors s.
Proof.
  intros Hdt Hcd Hrep. unfold shooterUpdate.
  destruct (Qltb 0 (cooldown s)) eqn:E1.
  - cbn [cooldown position rotation currentBall reserveBall shooterColors].
    set (m := binary64 (dt * 1000)).
    assert (Hm : 0 <= m).
    { rewrite <- binary64_zero. apply binary64_mono. nra. }
    assert (Hle : binary64 (cooldown s - m) <= cooldown s).
    { rewrite <- Hrep at 2. apply binary64_mono. lra. }
    destruct (Qltb (binary64 (cooldown s - m)) 0) eqn:E2.
    + repeat split; try done; lra.
    + apply Qltb_false in E2. repeat split; try done; [apply binary64_idem|].
      intros Hbig. rewrite <- binary64_zero. apply binary64_mono.
      assert (cooldown s <= m); [|lra].
      rewrite <- Hrep. by apply binary64_mono.
  - apply Qltb_false in E1. repeat split; try done; lra.
Qed.

Lemma shooterUpdates_run dts : forall s,
  Forall (fun dt => 0 <= dt) dts -> 0 <= cooldown s ->
  binary64 (cooldown s) == cooldown s ->
  0 <= cooldown (shooterUpdates dts s) /\
  cooldown (shooterUpdates dts s) <= cooldown s /\
  binary64 (cooldown (shooterUpdates dts s)) == cooldown (shooterUpdates dts s) /\
  (Exists (fun dt => cooldown s <= dt * 1000) dts ->
   cooldown (shooterUpdates dts s) <= 0) /\
  position (shooterUpdates dts s) = position s /\
  rotation (shooterUpdates dts s) = rotation s /\
  currentBall (shooterUpdates dts s) = currentBall s /\
  reserveBall (shooterUpdates dts s) = reserveBall s /\
  shooterColors (shooterUpdates dts s) = shooterColors s.
Proof.
  induction dts as [|dt dts IH]; intros s Hdts Hcd Hrep.
  - cbn [shooterUpdates foldl]. repeat split; try done; try lra.
    intros Hex. by apply Exists_nil in Hex.
  - apply Forall_cons in Hdts as [Hdt Hdts].
    destruct (shooterUpdate_step dt s Hdt Hcd Hrep)
      as (H0 & Hle & Hrep1 & Hbig & Hp & Hr & Hcb & Hrb & Hsc).
    destruct (IH (shooterUpdate dt s) Hdts H0 Hrep1)
      as (H0' & Hle' & Hrep' & Hbig' & Hp' & Hr' & Hcb' & Hrb' & Hsc').
    change (shooterUpdates (dt :: dts) s)
      with (shooterUpdates dts (shooterUpdate dt s)).
    split; [done|]. split; [lra|]. split; [done|].
    split; [|by rewrite Hp', Hr', Hcb', Hrb', Hsc'].
    intros Hex. apply Exists_cons in Hex as [Hhere|Hlater].
    + specialize (Hbig Hhere). lra.
    + apply Hbig'. eapply Exists_impl; [exact Hlater|].
      intros dt' Hdt'. cbv beta in Hdt' |- *. lra.
Qed.

End Countdown.

(** X20.  [Game.fireShooter] on a well-formed chain, with a non-empty
    shooter palette and [Math.random] in [0, 1): while the cooldown is
    positive nothing happens.  Otherwise one new ball is appended to the
    fired balls; it has the shooter's current colour, the shooter's
    position and the velocity [FIRED_BALL_SPEED] along the aim direction,
    and it is not linked into the chain, which stays as it was.  The
    reserve colour becomes the current one, the new reserve colour is a
    palette colour, and the cooldown is [SHOOTER_COOLDOWN], so the shooter
    cannot fire again at once. *)
Theorem fireShooter_spec (random : nat -> Q) (cos sin : Q -> Q) s fired
    (h : gmap positive Ball) c l n :
  (forall i, 0 <= random i /\ random i < 1) ->
  chain_repr h c l -> shooterColors s <> [] ->
  exists s' fired' h' n',
    fireShooter random cos sin s fired h c n = Some (s', fired', h', n') /\
    if canFire s then
      exists r b, h !! r = None /\ h' = <[r := b]> h /\
        fired' = fired ++ [r] /\ chain_repr h' c l /\
        color b = currentBall s /\ state b = NORMAL /\
        prev b = None /\ next b = None /\
        ball_x b = x (position s) /\ ball_y b = y (position s) /\
        velocityX b = cos (rotation s) * FIRED_BALL_SPEED /\
        velocityY b = sin (rotation s) * FIRED_BALL_SPEED /\
        currentBall s' = reserveBall s /\ reserveBall s' ∈ shooterColors s /\
        cooldown s' = SHOOTER_COOLDOWN /\ canFire s' = false /\
        position s' = position s /\ rotation s' = rotation s /\
        shooterColors s' = shooterColors s
    else s' = s /\ fired' = fired /\ h' = h /\ n' = n.
Proof.
  intros Hrand Hrepr Hne. unfold fireShooter.
  destruct (countChainColors_nonneg h c l Hrepr) as (counts & -> & Hpos).
  cbn [mbind option_bind]. unfold fire.
  destruct (canFire s) eqn:Hcan; cbn [negb]; [|by exists s, fired, h, n].
  destruct (shooterWeightedRandomColor_palette random Hrand s counts n Hne Hpos)
    as (col & -> & Hcol).
  cbn [mbind option_bind]. unfold alloc.
  eexists _, _, _, _. split; [reflexivity|].
  eexists _, _. split; [apply not_elem_of_dom, is_fresh|].
  split; [reflexivity|]. split; [done|].
  split; [by apply chain_repr_alloc|]. by repeat split.
Qed.

Lemma fireShooter_spec_witness :
  let s := mkShooter (mkPoint 400 300) 0 RED BLUE 0 [RED; BLUE] in
  let h := fst (chainOfThree 100 132 164) in
  let c := snd (chainOfThree 100 132 164) in
  exists s' fired' h' n',
    fireShooter (fun _ => 1 # 2) (fun _ => 1) (fun _ => 0) s [] h c 0
      = Some (s', fired', h', n') /\
    if canFire s then
      exists r b, h !! r = None /\ h' = <[r := b]> h /\
        fired' = [] ++ [r] /\ chain_repr h' c [1; 2; 3]%positive /\
        color b = currentBall s /\ state b = NORMAL /\
        prev b = None /\ next b = None /\
        ball_x b = x (position s) /\ ball_y b = y (position s) /\
        velocityX b = (fun _ => 1) (rotation s) * FIRED_BALL_SPEED /\
        velocityY b = (fun _ => 0) (rotation s) * FIRED_BALL_SPEED /\
        currentBall s' = reserveBall s /\ reserveBall s' ∈ shooterColors s /\
        cooldown s' = SHOOTER_COOLDOWN /\ canFire s' = false /\
        position s' = position s /\ rotation s' = rotation s /\
        shooterColors s' = shooterColors s
    else s' = s /\ fired' = [] /\ h' = h /\ n' = 0%nat.
Proof.
  apply (fireShooter_spec (fun _ => 1 # 2) (fun _ => 1) (fun _ => 0)
           (mkShooter (mkPoint 400 300) 0 RED BLUE 0 [RED; BLUE]) []
           (fst (chainOfThree 100 132 164)) (snd (chainOfThree 100 132 164))
           [1; 2; 3]%positive 0%nat).
  - intros _. split; [by vm_compute|by vm_compute].
  - concrete_repr.
  - done.
Defined.

(** X21.  The cooldown is a clamped countdown in milliseconds, computed in
    doubles.  Over any run of [shooter.update] calls with non-negative
    elapsed times, from a non-negative cooldown that is a double, the
    cooldown stays a double between 0 and its start value; a shooter that
    can fire is left unchanged by the run; one update whose elapsed time
    alone covers the start cooldown leaves the shooter able to fire (after
    a shot: one update of 0.2 s or more); and the updates change nothing
    else of the shooter.  When many shorter updates end the countdown
    depends on the rounding of each step and is not stated: it need not be
    when the elapsed times add up to the start value. *)
Theorem shooter_cooldown_elapses (s : Shooter) (dts : list Q) :
  Forall (fun dt => 0 <= dt) dts -> 0 <= cooldown s ->
  binary64 (cooldown s) == cooldown s ->
  let s' := shooterUpdates dts s in
  0 <= cooldown s' /\ cooldown s' <= cooldown s /\
  binary64 (cooldown s') == cooldown s' /\
  (canFire s = true -> s' = s) /\
  (Exists (fun dt => cooldown s <= dt * 1000) dts -> canFire s' = true) /\
  (cooldown s = SHOOTER_COOLDOWN ->
   Exists (fun dt => 1 # 5 <= dt) dts -> canFire s' = true) /\
  position s' = position s /\ rotation s' = rotation s /\
  currentBall s' = currentBall s /\ reserveBall s' = reserveBall s /\
  shooterColors s' = shooterColors s.
Proof.
  intros Hdts Hcd Hrep s'.
  destruct (shooterUpdates_run dts s Hdts Hcd Hrep)
    as (H0 & Hle & Hrep' & Hbig & Hrest).
  fold s' in H0, Hle, Hrep', Hbig, Hrest.
  split; [done|]. split; [done|]. split; [done|].
  split; [intros Hc; by apply shooterUpdates_ready|].
  split; [intros Hex; unfold canFire; apply Qleb_true; by apply Hbig|].
  split; [|done].
  intros H200 Hex. unfold canFire. apply Qleb_true, Hbig.
  eapply Exists_impl; [exact Hex|].
  intros dt Hdt. cbv beta in Hdt |- *. rewrite H200. unfold SHOOTER_COOLDOWN. lra.
Qed.

Lemma shooter_cooldown_elapses_witness :
  let s := mkShooter (mkPoint 400 300) 0 RED BLUE 200 [RED; BLUE] in
  let dts := [frame15; 1 # 4] in
  let s' := shooterUpdates dts s in
  0 <= cooldown s' /\ cooldown s' <= cooldown s /\
  binary64 (cooldown s') == cooldown s' /\
  (canFire s = true -> s' = s) /\
  (Exists (fun dt => cooldown s <= dt * 1000) dts -> canFire s' = true) /\
  (cooldown s = SHOOTER_COOLDOWN ->
   Exists (fun dt => 1 # 5 <= dt) dts -> canFire s' = true) /\
  position s' = position s /\ rotation s' = rotation s /\
  currentBall s' = currentBall s /\ reserveBall s' = reserveBall s /\
  shooterColors s' = shooterColors s.
Proof.
  apply (shooter_cooldown_elapses
           (mkShooter (mkPoint 400 300) 0 RED BLUE 200 [RED; BLUE])
           [frame15; 1 # 4]).
  - repeat constructor; by vm_compute.
  - by vm_compute.
  - by vm_compute.
Defined.

(** Rounding decides when a countdown of short steps ends.  Three updates
    of 0.06666666666666667 s from the cooldown of a shot: the elapsed times
    add up to less than 0.2 s, and in exact arithmetic a little cooldown is
    left; in doubles the cooldown goes 200, 133.33333333333331,
    66.66666666666664, 0, and the shooter can fire. *)
Example shooter_countdown_rounding :
  let s := mkShooter (mkPoint 400 300) 0 RED BLUE 200 [RED; BLUE] in
  1000 * sumQ [frame15; frame15; frame15] < 200 /\
  0 < 200 - 1000 * sumQ [frame15; frame15; frame15] /\
  cooldown (shooterUpdates [frame15] s) == 2345624805922133 # 17592186044416 /\
  cooldown (shooterUpdates [frame15; frame15] s)
    == 4691249611844265 # 70368744177664 /\
  cooldown (shooterUpdates [frame15; frame15; frame15] s) == 0 /\
  canFire (shooterUpdates [frame15; frame15; frame15] s) = true.
Proof. repeat split; by vm_compute. Qed.

(** * Properties of the score *)

Section ScoreFacts.

Lemma addMatchPoints_nonneg n s :
  (1 <= chainMultiplier s)%Z ->
  (0 <= fst (addMatchPoints n s))%Z /\
  current (snd (addMatchPoints n s)) = (current s + fst (addMatchPoints n s))%Z /\
  total (snd (addMatchPoints n s)) = total s /\
  chainMultiplier (snd (addMatchPoints n s)) = chainMultiplier s /\
  highScore (snd (addMatchPoints n s)) = highScore s.
Proof.
  intros Hm. unfold addMatchPoints.
  destruct (Z.eqb_spec n 3); [simpl; split; [lia|split; [done|done]]|].
  destruct (Z.eqb_spec n 4); [simpl; split; [lia|split; [done|done]]|].
  destruct (Z.leb_spec 5 n); simpl; [|split; [lia|split; [lia|done]]].
  split; [nia|done].
Qed.

Lemma runScoreOp_invariant s op :
  (1 <= chainMultiplier s)%Z -> (0 <= current s)%Z ->
  (0 <= total s)%Z -> (total s <= highScore s)%Z ->
  let s' := runScoreOp s op in
  (1 <= chainMultiplier s')%Z /\ (0 <= current s')%Z /\
  (0 <= total s')%Z /\ (total s' <= highScore s')%Z /\
  (highScore s <= highScore s')%Z.
Proof.
  intros Hm Hc Ht Hh. destruct op as [n| | | | |]; simpl.
  - destruct (addMatchPoints_nonneg n s Hm) as (Hp & -> & -> & -> & ->). lia.
  - lia.
  - lia.
  - lia.
  - unfold completeLevel, updateHighScore. simpl.
    destruct (Z.ltb_spec (highScore s) (total s + current s)); simpl; lia.
  - lia.
Qed.

End ScoreFacts.

(** X22.  The score keeps its bounds over any run of [addMatchPoints],
    [incrementChainMultiplier], [resetChainMultiplier], [resetLevel],
    [completeLevel] and [resetGame] calls: starting with a multiplier of at
    least 1, a level score and a total of at least 0 and a high score no
    less than the total (a new score with a non-negative stored high score
    is so), the multiplier stays at least 1, neither score becomes
    negative, the high score never decreases and is never below the
    total. *)
Theorem score_bounds_kept (ops : list ScoreOp) : forall s : Score,
  (1 <= chainMultiplier s)%Z -> (0 <= current s)%Z ->
  (0 <= total s)%Z -> (total s <= highScore s)%Z ->
  let s' := runScoreOps ops s in
  (1 <= chainMultiplier s')%Z /\ (0 <= current s')%Z /\
  (0 <= total s')%Z /\ (total s' <= highScore s')%Z /\
  (highScore s <= highScore s')%Z.
Proof.
  induction ops as [|op ops IH]; intros s Hm Hc Ht Hh; simpl; [lia|].
  destruct (runScoreOp_invariant s op Hm Hc Ht Hh) as (Hm1 & Hc1 & Ht1 & Hh1 & Hmono).
  destruct (IH (runScoreOp s op) Hm1 Hc1 Ht1 Hh1) as (? & ? & ? & ? & ?).
  unfold runScoreOps in *. simpl. lia.
Qed.

Lemma score_bounds_kept_witness :
  let s := mkScore 0 0 1 500 in
  let s' := runScoreOps [SAddMatchPoints 3; SIncrementChainMultiplier;
                         SAddMatchPoints 5; SCompleteLevel; SResetLevel] s in
  (1 <= chainMultiplier s')%Z /\ (0 <= current s')%Z /\
  (0 <= total s')%Z /\ (total s' <= highScore s')%Z /\
  (highScore s <= highScore s')%Z.
Proof.
  apply (score_bounds_kept
           [SAddMatchPoints 3; SIncrementChainMultiplier;
            SAddMatchPoints 5; SCompleteLevel; SResetLevel]
           (mkScore 0 0 1 500)); by vm_compute.
Defined.

(** * Properties of the game's state machine *)

Section GameFacts.

Variable random : nat -> Q.
Hypothesis random_range : forall n, 0 <= random n /\ random n < 1.
Variable levels : list LevelConfig.

Lemma spawnDistances_length d count : length (spawnDistances d count) = count.
Proof. revert d. induction count as [|k IH]; intros d; simpl; [done|]. by rewrite IH. Qed.

Lemma newShooter_is_Some px py n :
  exists sh n', Game.newShooter random px py n = Some (sh, n') /\
                cooldown sh = 0.
Proof.
  unfold Game.newShooter.
  destruct (shooterRandomColor_palette random random_range
              (mkShooter (mkPoint px py) 0 RED RED 0 [RED; BLUE; GREEN; YELLOW]) n)
    as (c1 & -> & _); [done|].
  cbn [mbind option_bind].
  destruct (shooterRandomColor_palette random random_range
              (mkShooter (mkPoint px py) 0 RED RED 0 [RED; BLUE; GREEN; YELLOW]) (S n))
    as (c2 & -> & _); [done|].
  cbn [mbind option_bind]. by eexists _, _.
Qed.

Lemma setAvailableColors_is_Some colors sh n :
  colors <> [] ->
  exists sh' n', Game.setAvailableColors random colors sh n = Some (sh', n') /\
    cooldown sh' = cooldown sh /\ shooterColors sh' = colors /\
    currentBall sh' ∈ colors /\ reserveBall sh' ∈ colors.
Proof.
  intros Hne. unfold Game.setAvailableColors.
  set (s := mkShooter _ _ _ _ _ colors).
  destruct (shooterRandomColor_palette random random_range s n) as (c1 & -> & H1);
    [done|].
  cbn [mbind option_bind].
  destruct (shooterRandomColor_palette random random_range s (S n))
    as (c2 & -> & H2); [done|].
  cbn [mbind option_bind]. by eexists _, _.
Qed.

(** What [initializeLevel] builds for a level that exists. *)
Lemma initializeLevel_spec g lvl :
  Game.getLevel levels (GameState.currentLevel (Game.state g)) = Some lvl ->
  levelColors lvl <> [] ->
  exists g' news,
    Game.initializeLevel random levels g = Some g' /\
    chain_repr (Game.heap g') (Game.chain g') news /\
    length news = Z.to_nat (levelInitialBallCount lvl) /\
    (forall r, r ∈ news -> Game.heap g !! r = None) /\
    map (distOf (Game.heap g')) news =
      spawnDistances (totalLength (levelPath lvl))
                     (Z.to_nat (levelInitialBallCount lvl)) /\
    velocity (Game.chain g') = levelBallSpeed lvl /\
    isClosingGap (Game.chain g') = false /\
    Game.firedBalls g' = [] /\
    Game.score g' = resetLevel (Game.score g) /\
    accumulator (Game.spawner g') = 0 /\
    cooldown (Game.shooter g') = 0 /\
    Game.currentLevel g' = Some lvl /\
    Game.pendingChainReaction g' = Game.pendingChainReaction g /\
    GameState.status (Game.state g') = GameState.status (Game.state g) /\
    GameState.currentLevel (Game.state g') = GameState.currentLevel (Game.state g) /\
    GameState.ballsSpawned (Game.state g') = levelInitialBallCount lvl /\
    GameState.timeElapsed (Game.state g') = 0.
Proof.
  intros Hlvl Hne. unfold Game.initializeLevel. rewrite Hlvl.
  destruct (newShooter_is_Some (CANVAS_WIDTH / 2) (CANVAS_HEIGHT / 2) (Game.draws g))
    as (sh1 & n1 & -> & Hcd1).
  cbn [mbind option_bind].
  destruct (setAvailableColors_is_Some (levelColors lvl) sh1 n1 Hne)
    as (sh2 & n2 & -> & Hcd2 & _).
  cbn [mbind option_bind].
  set (ch0 := mkChain None None (levelBallSpeed lvl) None 0 false).
  set (sp := mkBallSpawner (levelColors lvl) (levelSpawnRate lvl) 0).
  assert (Hrepr0 : chain_repr (Game.heap g) ch0 []).
  { repeat split; [apply NoDup_nil_2|done..]. }
  destruct (spawnInitialLoop_spec random random_range sp
              (Z.to_nat (levelInitialBallCount lvl)) (totalLength (levelPath lvl))
              (Game.heap g) ch0 [] n2 Hrepr0 Hne)
    as (h' & c' & news & Hrun & Hrepr' & Hds & Hnew & _ & Hgap).
  unfold spawnInitialBalls. rewrite Hrun. cbn [mbind option_bind].
  eexists _, news. split; [reflexivity|]. simpl.
  split; [done|]. split.
  { apply (f_equal length) in Hds. rewrite length_map in Hds. rewrite Hds.
    apply spawnDistances_length. }
  split; [intros r Hr; by apply Hnew|]. split; [done|].
  destruct Hgap as (Hv & _ & _ & Hg). split; [by rewrite Hv|].
  split; [by rewrite Hg|]. split; [done|]. split; [done|]. split; [done|].
  split; [by rewrite Hcd2|]. done.
Qed.

End GameFacts.

(** X23.  [win()] banks the level score once.  From PLAYING it adds the
    state's current score to its total, raises the state's high score to
    the new total if that is higher, sets the status to WIN, and the game
    answers the transition by completing the level on its own score
    object.  In any other status it does nothing, so a second [win()], or a
    [lose()], right after it changes nothing. *)
Theorem win_banks_once (random : nat -> Q) (levels : list LevelConfig)
    (g : Game.t) :
  StateManager.getStatus g = PLAYING ->
  exists g',
    StateManager.win random levels g = Some g' /\
    StateManager.getStatus g' = WIN /\
    GameState.total (GameState.score (Game.state g')) =
      (GameState.total (GameState.score (Game.state g)) +
       GameState.current (GameState.score (Game.state g)))%Z /\
    GameState.highScore (GameState.score (Game.state g')) =
      Z.max (GameState.highScore (GameState.score (Game.state g)))
            (GameState.total (GameState.score (Game.state g')))  /\
    Game.score g' = completeLevel (Game.score g) /\
    Game.chain g' = Game.chain g /\ Game.heap g' = Game.heap g /\
    StateManager.win random levels g' = Some g' /\
    StateManager.lose random levels g' = Some g'.
Proof.
  intros Hst. unfold StateManager.win, StateManager.lose, StateManager.getStatus in *.
  rewrite Hst. destruct (decide (PLAYING <> PLAYING)) as [Hn|_]; [done|].
  unfold StateManager.transitionTo. cbn [Game.onStateChange].
  eexists. split; [reflexivity|]. 
  destruct g as [st ch sh sp sc fb cl cp pcr h n].
  destruct st as [stat lv cfg gch gfb gsh [cur tot mult hs] bs te sa ex].
  unfold GameState.saveHighScore. simpl in *.
  destruct (Z.ltb_spec hs (tot + cur)); simpl;
    (split; [done|]); (split; [done|]); (split; [lia|]); done.
Qed.

Lemma win_banks_once_witness :
  let st := GameState.set_score (GameState.mkScoreState 300 1000 2 1100)
              (GameState.set_status PLAYING GameState.new) in
  let g := Game.mk st newChain
             (mkShooter (mkPoint 400 300) 0 RED BLUE 0 [RED; BLUE])
             redBlueSpawner (mkScore 300 1000 2 1100) [] None None None ∅ 0 in
  exists g',
    StateManager.win (fun _ => 0) [] g = Some g' /\
    StateManager.getStatus g' = WIN /\
    GameState.total (GameState.score (Game.state g')) =
      (GameState.total (GameState.score (Game.state g)) +
       GameState.current (GameState.score (Game.state g)))%Z /\
    GameState.highScore (GameState.score (Game.state g')) =
      Z.max (GameState.highScore (GameState.score (Game.state g)))
            (GameState.total (GameState.score (Game.state g')))  /\
    Game.score g' = completeLevel (Game.score g) /\
    Game.chain g' = Game.chain g /\ Game.heap g' = Game.heap g /\
    StateManager.win (fun _ => 0) [] g' = Some g' /\
    StateManager.lose (fun _ => 0) [] g' = Some g'.
Proof.
  apply (win_banks_once (fun _ => 0) []
           (Game.mk (GameState.set_score (GameState.mkScoreState 300 1000 2 1100)
                       (GameState.set_status PLAYING GameState.new))
                    newChain
                    (mkShooter (mkPoint 400 300) 0 RED BLUE 0 [RED; BLUE])
                    redBlueSpawner (mkScore 300 1000 2 1100) [] None None None ∅ 0)).
  done.
Defined.

(** X24.  Pausing and resuming restarts the level.  [pause()] only sets
    the status, but [resume()] goes through the same transition to PLAYING
    as a level start, and the game answers it with [initializeLevel]: for a
    level that exists and has colours, after [pause()] and [resume()] the
    chain is a new one that holds exactly the level's initial balls, none
    of them a ball that existed before, laid out from the end of the path;
    the fired balls are gone, the level score is 0, the multiplier 1, the
    spawner's accumulator and the elapsed time 0, and [ballsSpawned] is
    the initial ball count, whatever the state of play was. *)
Theorem resume_restarts_level (random : nat -> Q) (levels : list LevelConfig)
    (g : Game.t) lvl :
  (forall i, 0 <= random i /\ random i < 1) ->
  StateManager.getStatus g = PLAYING ->
  Game.getLevel levels (GameState.currentLevel (Game.state g)) = Some lvl ->
  levelColors lvl <> [] ->
  exists g1 g2 news,
    StateManager.pause random levels g = Some g1 /\
    g1 = Game.withState (GameState.set_status PAUSED (Game.state g)) g /\
    StateManager.resume random levels g1 = Some g2 /\
    StateManager.getStatus g2 = PLAYING /\
    getBalls (Game.heap g2) (Game.chain g2) = Some news /\
    length news = Z.to_nat (levelInitialBallCount lvl) /\
    (forall r, r ∈ news -> Game.heap g !! r = None) /\
    map (distOf (Game.heap g2)) news =
      spawnDistances (totalLength (levelPath lvl))
                     (Z.to_nat (levelInitialBallCount lvl)) /\
    velocity (Game.chain g2) = levelBallSpeed lvl /\
    isClosingGap (Game.chain g2) = false /\
    Game.firedBalls g2 = [] /\
    current (Game.score g2) = 0%Z /\ chainMultiplier (Game.score g2) = 1%Z /\
    accumulator (Game.spawner g2) = 0 /\
    GameState.ballsSpawned (Game.state g2) = levelInitialBallCount lvl /\
    GameState.timeElapsed (Game.state g2) = 0.
Proof.
  intros Hrand Hst Hlvl Hne.
  unfold StateManager.pause, StateManager.resume, StateManager.getStatus in *.
  rewrite Hst. destruct (decide (PLAYING <> PLAYING)) as [Hn|_]; [done|].
  unfold StateManager.transitionTo at 1. cbn [Game.onStateChange].
  set (g1 := Game.withState (GameState.set_status PAUSED (Game.state g)) g).
  exists g1.
  assert (Hst1 : GameState.status (Game.state g1) = PAUSED) by done.
  rewrite Hst1. destruct (decide (PAUSED <> PAUSED)) as [Hn|_]; [done|].
  unfold StateManager.transitionTo. cbn [Game.onStateChange].
  set (g1' := Game.withState (GameState.set_status PLAYING (Game.state g1)) g1).
  set (g1'' := if (GameState.currentLevel (Game.state g1') =? 1)%Z
               then Game.handleNewGame g1' else g1').
  assert (Hlvl' : Game.getLevel levels (GameState.currentLevel (Game.state g1''))
                  = Some lvl).
  { unfold g1''. by destruct (_ =? 1)%Z. }
  destruct (initializeLevel_spec random Hrand levels g1'' lvl Hlvl' Hne)
    as (g2 & news & Hrun & Hrepr & Hlen & Hnew & Hds & Hv & Hgap & Hfb & Hsc & Hacc
        & _ & _ & _ & Hstat & _ & Hbs & Hte).
  exists g2, news. split; [done|]. split; [done|]. split; [done|].
  split; [rewrite Hstat; unfold g1''; by destruct (_ =? 1)%Z|].
  split; [by apply getBalls_spec|]. split; [done|].
  split; [intros r Hr; specialize (Hnew r Hr); unfold g1'' in Hnew;
          by destruct (_ =? 1)%Z|].
  split; [done|]. split; [done|]. split; [done|]. split; [done|].
  rewrite Hsc. by repeat split.
Qed.

Lemma resume_restarts_level_witness :
  let g := exampleGame in
  let lvl := exampleLevel in
  exists g1 g2 news,
    StateManager.pause (fun _ => 0) [exampleLevel] g = Some g1 /\
    g1 = Game.withState (GameState.set_status PAUSED (Game.state g)) g /\
    StateManager.resume (fun _ => 0) [exampleLevel] g1 = Some g2 /\
    StateManager.getStatus g2 = PLAYING /\
    getBalls (Game.heap g2) (Game.chain g2) = Some news /\
    length news = Z.to_nat (levelInitialBallCount lvl) /\
    (forall r, r ∈ news -> Game.heap g !! r = None) /\
    map (distOf (Game.heap g2)) news =
      spawnDistances (totalLength (levelPath lvl))
                     (Z.to_nat (levelInitialBallCount lvl)) /\
    velocity (Game.chain g2) = levelBallSpeed lvl /\
    isClosingGap (Game.chain g2) = false /\
    Game.firedBalls g2 = [] /\
    current (Game.score g2) = 0%Z /\ chainMultiplier (Game.score g2) = 1%Z /\
    accumulator (Game.spawner g2) = 0 /\
    GameState.ballsSpawned (Game.state g2) = levelInitialBallCount lvl /\
    GameState.timeElapsed (Game.state g2) = 0.
Proof.
  apply (resume_restarts_level (fun _ => 0) [exampleLevel] exampleGame exampleLevel).
  - intros _. split; [by vm_compute|by vm_compute].
  - done.
  - done.
  - done.
Defined.

(** * Properties of match processing *)

Section Matches.

Implicit Types (h : gmap positive Ball) (l : list positive) (r : positive).

Lemma startExploding_links r h b :
  h !! r = Some b ->
  startExploding r h = Some (<[r := set_state EXPLODING b]> h).
Proof. intros Hb. unfold startExploding. by apply assign_Some. Qed.

(** Exploding changes the state of balls and nothing else. *)
Lemma explodeEach_spec batch : forall h,
  (forall r, r ∈ batch -> is_Some (h !! r)) ->
  exists h', explodeEach batch h = Some h' /\
    (forall r b, h !! r = Some b ->
       exists b', h' !! r = Some b' /\ prev b' = prev b /\ next b' = next b /\
                  color b' = color b /\
                  distanceAlongPath b' = distanceAlongPath b) /\
    (forall r, h !! r = None -> h' !! r = None).
Proof.
  induction batch as [|x batch IH]; intros h Hin; simpl.
  - exists h. split; [done|]. split; [|done]. intros r b Hb. by exists b.
  - destruct (Hin x) as [xb Hxb]; [by left|].
    rewrite (startExploding_links x h xb Hxb). cbn [mbind option_bind].
    destruct (IH (<[x := set_state EXPLODING xb]> h)) as (h' & Hrun & Hsome & Hnone).
    { intros r Hr. destruct (decide (r = x)) as [->|Hne].
      - rewrite lookup_insert_eq. by eexists.
      - rewrite lookup_insert_ne by done. apply Hin. by right. }
    exists h'. split; [done|]. split.
    + intros r b Hb. destruct (decide (r = x)) as [->|Hne].
      * destruct (Hsome x (set_state EXPLODING xb)) as (b' & ? & ? & ? & ? & ?);
          [apply lookup_insert_eq|].
        assert (b = xb) by congruence. subst b. by exists b'.
      * apply Hsome. by rewrite lookup_insert_ne.
    + intros r Hr. apply Hnone. destruct (decide (r = x)) as [->|Hne].
      * congruence.
      * by rewrite lookup_insert_ne.
Qed.

Lemma explodeEach_repr batch h c l :
  chain_repr h c l -> (forall r, r ∈ batch -> r ∈ l) ->
  exists h', explodeEach batch h = Some h' /\ chain_repr h' c l /\
    (forall r, distOf h' r = distOf h r) /\
    (forall r, colorOf h' r = colorOf h r).
Proof.
  intros Hrepr Hsub.
  destruct (explodeEach_spec batch h) as (h' & Hrun & Hsome & Hnone).
  { intros r Hr. eapply chain_repr_elem_lookup; [exact Hrepr|by apply Hsub]. }
  exists h'. split; [done|]. split.
  - destruct Hrepr as (Hnd & Hh & Ht & Hd). repeat split; try done.
    eapply dseg_links; [|exact Hd]. intros r b _ Hb.
    destruct (Hsome r b Hb) as (b' & ? & ? & ? & _). by exists b'.
  - split; intros r; unfold distOf, colorOf; destruct (h !! r) as [b|] eqn:Hb.
    + destruct (Hsome r b Hb) as (b' & -> & _ & _ & _ & Hd). simpl. by rewrite Hd.
    + by rewrite (Hnone r Hb).
    + destruct (Hsome r b Hb) as (b' & -> & _ & _ & Hc & _). simpl. by rewrite Hc.
    + by rewrite (Hnone r Hb).
Qed.

Lemma addMatchPoints_run n s :
  (3 <= n)%Z ->
  snd (addMatchPoints n s) =
    mkScore (current s + basePoints n * chainMultiplier s) (total s)
            (chainMultiplier s) (highScore s).
Proof.
  intros Hn. unfold addMatchPoints, basePoints.
  destruct (n =? 3)%Z eqn:E3; [done|].
  destruct (n =? 4)%Z eqn:E4; [done|].
  destruct (5 <=? n)%Z eqn:E5; [done|]. lia.
Qed.

(** The common branch of the two match handlers. *)
Lemma processMatch_spec m isChainReaction (g : Game.t) l :
  chain_repr (Game.heap g) (Game.chain g) l ->
  NoDup (balls m) -> (forall r, r ∈ balls m -> r ∈ l) ->
  (3 <= length (balls m))%nat ->
  exists g', Game.processMatch m isChainReaction g = Some g' /\
    chain_repr (Game.heap g') (Game.chain g') (list_difference l (balls m)) /\
    (forall r, distOf (Game.heap g') r = distOf (Game.heap g) r) /\
    (forall r, colorOf (Game.heap g') r = colorOf (Game.heap g) r) /\
    velocity (Game.chain g') = velocity (Game.chain g) /\
    Game.score g' =
      (let sc := if isChainReaction
                 then incrementChainMultiplier (Game.score g) else Game.score g in
       mkScore (current sc + basePoints (Z.of_nat (length (balls m)))
                               * chainMultiplier sc)
               (total sc) (chainMultiplier sc) (highScore sc)) /\
    Game.state g' = Game.state g /\ Game.firedBalls g' = Game.firedBalls g /\
    Game.shooter g' = Game.shooter g /\ Game.spawner g' = Game.spawner g /\
    (Game.pendingChainReaction g' = Game.pendingChainReaction g /\
     gap_state_eq (Game.chain g) (Game.chain g') \/
     exists f b, Game.pendingChainReaction g' = Some (mkGapInfo (Some f) (Some b)) /\
       isClosingGap (Game.chain g') = true /\
       splitPoint (Game.chain g') =
         Some (distOf (Game.heap g) f + BALL_RADIUS * 2)).
Proof.
  intros Hrepr Hnd Hsub Hlen. unfold Game.processMatch.
  destruct (explodeEach_repr (balls m) (Game.heap g) (Game.chain g) l Hrepr Hsub)
    as (h1 & -> & Hrepr1 & Hd1 & Hc1).
  cbn [mbind option_bind].
  destruct (removeBalls_any h1 (Game.chain g) l (balls m) Hrepr1 Hnd Hsub)
    as (gi & h2 & c2 & -> & Hrepr2 & Hrel & Hv & Hgap).
  cbn [mbind option_bind]. eexists. split; [reflexivity|]. simpl.
  split; [done|].
  split; [intros r; by rewrite (relinked_distOf h1 h2 r Hrel)|].
  split; [intros r; rewrite <- Hc1; apply Hrel|].
  split; [done|]. split.
  { unfold Game.addMatchScore. simpl. rewrite addMatchPoints_run by lia. done. }
  split; [done|]. split; [done|]. split; [done|]. split; [done|].
  destruct Hgap as [[Hnone Hsame]|(f & Hf & [b Hb] & Hcl & Hsp & _)].
  - left. split; [|done].
    destruct Hnone as [->| ->]; [done|]. by destruct (frontBall gi).
  - right. exists f, b. rewrite Hf, Hb. split; [by destruct gi; simpl in *; subst|].
    split; [done|]. by rewrite Hsp, Hd1.
Qed.

Lemma colorRun_sub h col l1 s l2 :
  NoDup (l1 ++ s :: l2) -> colorOf h s = Some col ->
  NoDup (colorRun h col l1 s l2) /\
  (forall r, r ∈ colorRun h col l1 s l2 -> r ∈ l1 ++ s :: l2).
Proof.
  intros Hnd Hs.
  destruct (colorRun_maximal h col l1 s l2 Hs) as (before & after & Hl & _).
  rewrite Hl in Hnd |- *.
  apply NoDup_app in Hnd as (_ & _ & Hnd). apply NoDup_app in Hnd as (Hnd & _).
  split; [done|]. intros r Hr. apply elem_of_app. right.
  apply elem_of_app. by left.
Qed.

Lemma colorRun_ext h h' col l1 s l2 :
  (forall r, colorOf h' r = colorOf h r) ->
  colorRun h' col l1 s l2 = colorRun h col l1 s l2.
Proof.
  intros Hc.
  assert (Hp : forall l, colorPrefix h' col l = colorPrefix h col l).
  { induction l as [|x l IH]; simpl; [done|]. rewrite Hc, IH. done. }
  unfold colorRun. by rewrite !Hp.
Qed.

Lemma checkChainReaction_differ h c l1 f b l2 :
  chain_repr h c (l1 ++ f :: b :: l2) -> colorOf h f <> colorOf h b ->
  checkChainReaction (Some f) (Some b) h = Some None.
Proof.
  intros Hrepr Hne. destruct Hrepr as (_ & _ & _ & Hd).
  destruct (dseg_lookup _ _ _ _ f Hd) as [fb Hfb];
    [apply elem_of_app; right; by left|].
  destruct (dseg_lookup _ _ _ _ b Hd) as [bb Hbb];
    [apply elem_of_app; right; right; by left|].
  unfold checkChainReaction. rewrite Hfb, Hbb. simpl.
  rewrite (colorOf_lookup _ _ _ Hfb), (colorOf_lookup _ _ _ Hbb) in Hne.
  destruct (decide (color fb = color bb)) as [E|]; [|done].
  exfalso. apply Hne. by rewrite E.
Qed.

End Matches.

(** X25.  [checkAndProcessMatch] for a ball of a well-formed chain, on a
    level with a path: when the unbroken run of the ball's colour around it
    has three balls or more, exactly the balls of that run leave the chain,
    no other ball moves or changes colour, and the level score grows by
    the tier value of the run's length times the chain multiplier, which is
    kept; the removal either keeps the gap-closing state and the pending
    chain reaction, or opens a gap and records its two boundary balls as
    the pending chain reaction.  When the run is shorter, the chain is not
    touched and the multiplier is reset to 1. *)
Theorem checkAndProcessMatch_spec (g : Game.t) l1 s l2 col :
  chain_repr (Game.heap g) (Game.chain g) (l1 ++ s :: l2) ->
  colorOf (Game.heap g) s = Some col ->
  is_Some (Game.currentPath g) ->
  let run := colorRun (Game.heap g) col l1 s l2 in
  exists g', Game.checkAndProcessMatch s g = Some g' /\
    if decide (3 <= length run)%nat then
      getBalls (Game.heap g') (Game.chain g') =
        Some (list_difference (l1 ++ s :: l2) run) /\
      getLength (Game.heap g') (Game.chain g') =
        Some (Z.of_nat (length (l1 ++ s :: l2)) - Z.of_nat (length run))%Z /\
      (forall r, distOf (Game.heap g') r = distOf (Game.heap g) r) /\
      (forall r, colorOf (Game.heap g') r = colorOf (Game.heap g) r) /\
      current (Game.score g') =
        (current (Game.score g) +
         basePoints (Z.of_nat (length run)) * chainMultiplier (Game.score g))%Z /\
      chainMultiplier (Game.score g') = chainMultiplier (Game.score g) /\
      total (Game.score g') = total (Game.score g) /\
      (Game.pendingChainReaction g' = Game.pendingChainReaction g /\
       gap_state_eq (Game.chain g) (Game.chain g') \/
       exists f b,
         Game.pendingChainReaction g' = Some (mkGapInfo (Some f) (Some b)) /\
         isClosingGap (Game.chain g') = true /\
         splitPoint (Game.chain g') =
           Some (distOf (Game.heap g) f + BALL_RADIUS * 2))
    else
      g' = Game.withScore (resetChainMultiplier (Game.score g)) g.
Proof.
  intros Hrepr Hs [path Hpath] run. unfold Game.checkAndProcessMatch.
  rewrite Hpath, (findMatch_run _ _ l1 s l2 col Hrepr Hs).
  cbn [mbind option_bind]. fold run.
  destruct (decide (3 <= length run)%nat) as [Hlen|Hshort]; [|by eexists].
  pose proof Hrepr as (Hnd & _).
  destruct (colorRun_sub (Game.heap g) col l1 s l2 Hnd Hs) as [Hndr Hsub].
  fold run in Hndr, Hsub.
  destruct (processMatch_spec (mkMatchResult run col) false g (l1 ++ s :: l2)
              Hrepr Hndr Hsub Hlen)
    as (g' & Hrun & Hrepr' & Hd & Hc & _ & Hsc & _ & _ & _ & _ & Hpend).
  cbn [balls] in Hrepr', Hsc.
  exists g'. split; [done|]. split; [by apply getBalls_spec|].
  split.
  { rewrite (getLength_spec _ _ _ Hrepr'). f_equal.
    assert (Hcount : forall (l k : list positive), NoDup k ->
              (forall r, r ∈ k -> r ∈ l) -> NoDup l ->
              (length (list_difference l k) + length k = length l)%nat).
    { clear. intros l k Hk Hsub Hl.
      assert (Hperm : l ≡ₚ list_difference l k ++ k).
      { apply NoDup_Permutation; [done| |].
        - apply NoDup_app. split; [by apply NoDup_list_difference|].
          split; [|done]. intros x Hx Hxk.
          apply list_elem_of_difference in Hx as [_ Hn]. done.
        - intros x. rewrite elem_of_app, list_elem_of_difference.
          split.
          + intros Hx. destruct (decide (x ∈ k)); [by right|by left].
          + intros [[Hx _]|Hx]; [done|by apply Hsub]. }
      apply Permutation_length in Hperm. by rewrite length_app in Hperm. }
    specialize (Hcount (l1 ++ s :: l2) run Hndr Hsub Hnd). lia. }
  split; [done|]. split; [done|]. rewrite Hsc. simpl. done.
Qed.

Lemma checkAndProcessMatch_spec_witness :
  let g := Game.mk (GameState.set_status PLAYING GameState.new)
             (snd (chainOfThree 100 132 164))
             (mkShooter (mkPoint 400 300) 0 RED BLUE 0 [RED; BLUE])
             redBlueSpawner (mkScore 0 0 2 0) [] (Some exampleLevel)
             (Some (levelPath exampleLevel)) None
             (fst (chainOfThree 100 132 164)) 0 in
  let run := colorRun (Game.heap g) RED [1%positive] 2%positive [3%positive] in
  exists g', Game.checkAndProcessMatch 2%positive g = Some g' /\
    if decide (3 <= length run)%nat then
      getBalls (Game.heap g') (Game.chain g') =
        Some (list_difference ([1%positive] ++ 2%positive :: [3%positive]) run) /\
      getLength (Game.heap g') (Game.chain g') =
        Some (Z.of_nat (length ([1%positive] ++ 2%positive :: [3%positive]))
              - Z.of_nat (length run))%Z /\
      (forall r, distOf (Game.heap g') r = distOf (Game.heap g) r) /\
      (forall r, colorOf (Game.heap g') r = colorOf (Game.heap g) r) /\
      current (Game.score g') =
        (current (Game.score g) +
         basePoints (Z.of_nat (length run)) * chainMultiplier (Game.score g))%Z /\
      chainMultiplier (Game.score g') = chainMultiplier (Game.score g) /\
      total (Game.score g') = total (Game.score g) /\
      (Game.pendingChainReaction g' = Game.pendingChainReaction g /\
       gap_state_eq (Game.chain g) (Game.chain g') \/
       exists f b,
         Game.pendingChainReaction g' = Some (mkGapInfo (Some f) (Some b)) /\
         isClosingGap (Game.chain g') = true /\
         splitPoint (Game.chain g') =
           Some (distOf (Game.heap g) f + BALL_RADIUS * 2))
    else
      g' = Game.withScore (resetChainMultiplier (Game.score g)) g.
Proof.
  apply (checkAndProcessMatch_spec
           (Game.mk (GameState.set_status PLAYING GameState.new)
              (snd (chainOfThree 100 132 164))
              (mkShooter (mkPoint 400 300) 0 RED BLUE 0 [RED; BLUE])
              redBlueSpawner (mkScore 0 0 2 0) [] (Some exampleLevel)
              (Some (levelPath exampleLevel)) None
              (fst (chainOfThree 100 132 164)) 0)
           [1%positive] 2%positive [3%positive] RED).
  - concrete_repr.
  - by vm_compute.
  - by eexists.
Defined.

(** X26.  [Game.updateGapClosing] with a pending chain reaction whose two
    balls are adjacent in a well-formed chain, on a level with a path.
    While the chain's update leaves the gap open, only the chain moves:
    the pending reaction and the score are kept.  Once the gap is closed
    the pending reaction is consumed.  If the two balls have one colour and
    the run of that colour through them has three balls or more, that run
    leaves the chain, the multiplier grows by 1 and the level score by the
    run's tier value times the new multiplier.  Otherwise no ball leaves
    the chain and the multiplier is reset to 1. *)
Theorem updateGapClosing_chain_reaction (g : Game.t) dt l1 f b l2 :
  chain_repr (Game.heap g) (Game.chain g) (l1 ++ f :: b :: l2) ->
  Game.pendingChainReaction g = Some (mkGapInfo (Some f) (Some b)) ->
  is_Some (Game.currentPath g) ->
  exists h1 c1 g' cf cb,
    update dt (Game.heap g) (Game.chain g) = Some (h1, c1) /\
    Game.updateGapClosing dt g = Some g' /\
    colorOf (Game.heap g) f = Some cf /\ colorOf (Game.heap g) b = Some cb /\
    let run := colorRun (Game.heap g) cf l1 f (b :: l2) in
    if isClosingGap c1 then
      Game.heap g' = h1 /\ Game.chain g' = c1 /\
      getBalls h1 c1 = Some (l1 ++ f :: b :: l2) /\
      Game.pendingChainReaction g' = Game.pendingChainReaction g /\
      Game.score g' = Game.score g
    else if decide (cf = cb /\ (3 <= length run)%nat) then
      getBalls (Game.heap g') (Game.chain g') =
        Some (list_difference (l1 ++ f :: b :: l2) run) /\
      (forall r, distOf (Game.heap g') r = distOf h1 r) /\
      chainMultiplier (Game.score g') = (chainMultiplier (Game.score g) + 1)%Z /\
      current (Game.score g') =
        (current (Game.score g) +
         basePoints (Z.of_nat (length run)) *
         (chainMultiplier (Game.score g) + 1))%Z /\
      (Game.pendingChainReaction g' = None \/
       exists f' b',
         Game.pendingChainReaction g' = Some (mkGapInfo (Some f') (Some b')) /\
         isClosingGap (Game.chain g') = true)
    else
      Game.heap g' = h1 /\ Game.chain g' = c1 /\
      getBalls h1 c1 = Some (l1 ++ f :: b :: l2) /\
      Game.pendingChainReaction g' = None /\
      chainMultiplier (Game.score g') = 1%Z /\
      current (Game.score g') = current (Game.score g).
Proof.
  intros Hrepr Hpend [path Hpath].
  destruct (update_total dt _ _ _ Hrepr) as (h1 & c1 & Hupd & Hrepr1 & Hu).
  assert (Hcol : forall r, colorOf h1 r = colorOf (Game.heap g) r)
    by (intros r; by apply dist_update_color).
  pose proof Hrepr as (_ & _ & _ & Hd).
  destruct (dseg_lookup _ _ _ _ f Hd) as [fb Hfb];
    [apply elem_of_app; right; by left|].
  destruct (dseg_lookup _ _ _ _ b Hd) as [bb Hbb];
    [apply elem_of_app; right; right; by left|].
  exists h1, c1. unfold Game.updateGapClosing. rewrite Hupd.
  cbn [mbind option_bind]. unfold isGapClosing. cbn [Game.pendingChainReaction].
  rewrite Hpend.
  destruct (isClosingGap c1) eqn:Hclosing.
  { eexists _, (color fb), (color bb). split; [done|]. split; [reflexivity|].
    split; [by apply colorOf_lookup|]. split; [by apply colorOf_lookup|].
    simpl. split; [done|]. split; [done|]. split; [by apply getBalls_spec|]. done. }
  cbn [frontBall backBall Game.heap Game.currentPath]. rewrite Hpath.
  destruct (decide (color fb = color bb)) as [Heq|Hne].
  - assert (Hf1 : colorOf h1 f = Some (color fb))
      by (rewrite Hcol; by apply colorOf_lookup).
    assert (Hb1 : colorOf h1 b = Some (color fb))
      by (rewrite Hcol, Heq; by apply colorOf_lookup).
    rewrite (checkChainReaction_run h1 c1 l1 f b l2 (color fb) Hrepr1 Hf1 Hb1).
    cbn [mbind option_bind].
    rewrite (colorRun_ext (Game.heap g) h1 (color fb) l1 f (b :: l2) Hcol).
    set (run := colorRun (Game.heap g) (color fb) l1 f (b :: l2)).
    destruct (decide (3 <= length run)%nat) as [Hlen|Hshort].
    + set (g1 := Game.mk (Game.state g) c1 (Game.shooter g) (Game.spawner g)
                   (Game.score g) (Game.firedBalls g) (Game.currentLevel g)
                   (Some path) None h1 (Game.draws g)).
      pose proof Hrepr as (Hnd & _).
      destruct (colorRun_sub (Game.heap g) (color fb) l1 f (b :: l2) Hnd)
        as [Hndr Hsub]; [by apply colorOf_lookup|].
      fold run in Hndr, Hsub.
      destruct (processMatch_spec (mkMatchResult run (color fb)) true g1
                  (l1 ++ f :: b :: l2) Hrepr1 Hndr Hsub Hlen)
        as (g' & Hrun & Hrepr' & Hdist & _ & _ & Hsc & _ & _ & _ & _ & Hp).
      cbn [balls] in Hrepr', Hsc.
      exists g', (color fb), (color bb). split; [done|]. split; [exact Hrun|].
      split; [by apply colorOf_lookup|]. split; [by apply colorOf_lookup|].
      cbn zeta. fold run.
      destruct (decide (color fb = color bb /\ (3 <= length run)%nat)) as [_|Hn];
        [|exfalso; by apply Hn].
      split; [by apply getBalls_spec|]. split; [done|].
      rewrite Hsc. simpl. split; [done|]. split; [done|].
      destruct Hp as [[-> _]|(f' & b' & -> & Hcl & _)]; [by left|].
      right. by exists f', b'.
    + eexists _, (color fb), (color bb). split; [done|]. split; [reflexivity|].
      split; [by apply colorOf_lookup|]. split; [by apply colorOf_lookup|].
      cbn zeta. fold run.
      destruct (decide (color fb = color bb /\ (3 <= length run)%nat)) as [[_ Hl]|_];
        [done|].
      simpl. split; [done|]. split; [done|]. split; [by apply getBalls_spec|]. done.
  - rewrite (checkChainReaction_differ h1 c1 l1 f b l2 Hrepr1).
    2:{ rewrite !Hcol, (colorOf_lookup _ _ _ Hfb), (colorOf_lookup _ _ _ Hbb).
        by intros [= ?]. }
    cbn [mbind option_bind].
    eexists _, (color fb), (color bb). split; [done|]. split; [reflexivity|].
    split; [by apply colorOf_lookup|]. split; [by apply colorOf_lookup|].
    cbn zeta.
    destruct (decide (color fb = color bb /\ _)) as [[He _]|_]; [done|].
    simpl. split; [done|]. split; [done|]. split; [by apply getBalls_spec|]. done.
Qed.

Lemma updateGapClosing_chain_reaction_witness :
  let g := Game.mk (GameState.set_status PLAYING GameState.new)
             (snd openGap)
             (mkShooter (mkPoint 400 300) 0 RED BLUE 0 [RED; BLUE])
             redBlueSpawner (mkScore 100 0 1 0) [] (Some exampleLevel)
             (Some (levelPath exampleLevel))
             (Some (mkGapInfo (Some 1%positive) (Some 2%positive)))
             (fst openGap) 0 in
  exists h1 c1 g' cf cb,
    update 1 (Game.heap g) (Game.chain g) = Some (h1, c1) /\
    Game.updateGapClosing 1 g = Some g' /\
    colorOf (Game.heap g) 1%positive = Some cf /\
    colorOf (Game.heap g) 2%positive = Some cb /\
    let run := colorRun (Game.heap g) cf [] 1%positive (2%positive :: [3%positive]) in
    if isClosingGap c1 then
      Game.heap g' = h1 /\ Game.chain g' = c1 /\
      getBalls h1 c1 = Some ([] ++ 1%positive :: 2%positive :: [3%positive]) /\
      Game.pendingChainReaction g' = Game.pendingChainReaction g /\
      Game.score g' = Game.score g
    else if decide (cf = cb /\ (3 <= length run)%nat) then
      getBalls (Game.heap g') (Game.chain g') =
        Some (list_difference ([] ++ 1%positive :: 2%positive :: [3%positive]) run) /\
      (forall r, distOf (Game.heap g') r = distOf h1 r) /\
      chainMultiplier (Game.score g') = (chainMultiplier (Game.score g) + 1)%Z /\
      current (Game.score g') =
        (current (Game.score g) +
         basePoints (Z.of_nat (length run)) *
         (chainMultiplier (Game.score g) + 1))%Z /\
      (Game.pendingChainReaction g' = None \/
       exists f' b',
         Game.pendingChainReaction g' = Some (mkGapInfo (Some f') (Some b')) /\
         isClosingGap (Game.chain g') = true)
    else
      Game.heap g' = h1 /\ Game.chain g' = c1 /\
      getBalls h1 c1 = Some ([] ++ 1%positive :: 2%positive :: [3%positive]) /\
      Game.pendingChainReaction g' = None /\
      chainMultiplier (Game.score g') = 1%Z /\
      current (Game.score g') = current (Game.score g).
Proof.
  apply (updateGapClosing_chain_reaction
           (Game.mk (GameState.set_status PLAYING GameState.new)
              (snd openGap)
              (mkShooter (mkPoint 400 300) 0 RED BLUE 0 [RED; BLUE])
              redBlueSpawner (mkScore 100 0 1 0) [] (Some exampleLevel)
              (Some (levelPath exampleLevel))
              (Some (mkGapInfo (Some 1%positive) (Some 2%positive)))
              (fst openGap) 0)
           1 [] 1%positive 2%positive [3%positive]).
  - concrete_repr.
  - done.
  - by eexists.
Defined.

(** * Properties of the path *)

Section PathTable.

Variable sqrt : Q -> Q.
Hypothesis sqrt_nonneg : forall q, 0 <= sqrt q.

(** The entries [chordLoop] appends do not depend on the table it appends
    them to, and they never decrease. *)
Lemma chordLoop_suffix cps steps todo : forall i prevPoint len,
  (4 <= length cps)%nat ->
  exists len' suffix,
    (forall table, chordLoop sqrt cps steps todo i prevPoint len table
                   = Some (len', table ++ suffix)) /\
    length suffix = todo /\
    last (len :: suffix) = Some len' /\
    StronglySorted Qle (len :: suffix).
Proof.
  induction todo as [|todo IH]; intros i prevPoint len Hl.
  - exists len, []. split; [intros table; simpl; by rewrite app_nil_r|].
    split; [done|]. split; [done|]. repeat constructor.
  - destruct (getPointAtT_is_Some cps (inject_Z i / inject_Z steps) Hl) as [pt Hpt].
    set (len1 := len + sqrt ((x pt - x prevPoint) * (x pt - x prevPoint) +
                             (y pt - y prevPoint) * (y pt - y prevPoint))).
    destruct (IH (i + 1)%Z pt len1 Hl) as (len' & suffix & Hrun & Hlen & Hlast & Hs).
    exists len', (len1 :: suffix). split.
    { intros table. cbn [chordLoop]. rewrite Hpt. cbn [mbind option_bind].
      fold len1. rewrite Hrun. by rewrite <- app_assoc. }
    split; [simpl; by rewrite Hlen|]. split; [by rewrite last_cons, Hlast|].
    assert (Hle : len <= len1).
    { unfold len1. pose proof (sqrt_nonneg ((x pt - x prevPoint) * (x pt - x prevPoint) +
                             (y pt - y prevPoint) * (y pt - y prevPoint))). lra. }
    constructor; [done|].
    apply StronglySorted_inv in Hs as [Hs Hall].
    constructor; [done|]. eapply Forall_impl; [exact Hall|].
    intros e He. simpl in He. lra.
Qed.

End PathTable.

(** X27.  With a square root that is never negative, a path that
    [new Path] returns has an arc-length table of
    [50 * numSegments + 1] entries, 51 at least, that starts at 0, never
    decreases and ends at [totalLength]; so [totalLength] is not
    negative. *)
Theorem newPath_table (sqrt : Q -> Q) (ident : string) (cps : list Point) p :
  (forall q, 0 <= sqrt q) ->
  newPath sqrt ident cps = Ok p ->
  length (arcLengthTable p) =
    S (Z.to_nat (SEGMENTS_PER_CURVE * numSegments cps)) /\
  (51 <= length (arcLengthTable p))%nat /\
  list.head (arcLengthTable p) = Some 0 /\
  last (arcLengthTable p) = Some (totalLength p) /\
  StronglySorted Qle (arcLengthTable p) /\
  0 <= totalLength p.
Proof.
  intros Hsqrt. unfold newPath.
  destruct (Nat.ltb_spec (length cps) 4) as [Hlt|Hge]; [done|].
  unfold calculateTotalLength, buildArcLengthTable.
  destruct (getPointAtT_is_Some cps 0 Hge) as [p0 ->].
  destruct (getPointAtT_is_Some cps 1 Hge) as [p1 ->].
  cbn [mbind option_bind].
  destruct (chordLoop_suffix sqrt Hsqrt cps (SEGMENTS_PER_CURVE * numSegments cps)
              (Z.to_nat (SEGMENTS_PER_CURVE * numSegments cps)) 1 p0 0 Hge)
    as (len' & suffix & Hrun & Hlen & Hlast & Hs).
  rewrite (Hrun []), (Hrun [0]). cbn [mbind option_bind].
  intros [= <-]. cbn [arcLengthTable totalLength].
  change ([0] ++ suffix) with (0 :: suffix).
  split; [simpl; by rewrite Hlen|]. split.
  { simpl. rewrite Hlen. pose proof (numSegments_pos cps Hge).
    unfold SEGMENTS_PER_CURVE. lia. }
  split; [done|]. split; [done|]. split; [done|].
  apply StronglySorted_inv in Hs as [_ Hall].
  rewrite last_cons in Hlast. destruct (last suffix) as [e|] eqn:He.
  - injection Hlast as <-. rewrite Forall_forall in Hall. apply Hall.
    by apply last_Some_elem_of.
  - injection Hlast as <-. lra.
Qed.

Lemma newPath_table_witness :
  let cps := [mkPoint 0 0; mkPoint 1 0; mkPoint 2 0; mkPoint 3 0] in
  let p := match newPath integerSqrt "line" cps with
           | Ok p => p
           | Throw _ => mkPath "" [] 0 (mkPoint 0 0) (mkPoint 0 0) []
           end in
  length (arcLengthTable p) =
    S (Z.to_nat (SEGMENTS_PER_CURVE * numSegments cps)) /\
  (51 <= length (arcLengthTable p))%nat /\
  list.head (arcLengthTable p) = Some 0 /\
  last (arcLengthTable p) = Some (totalLength p) /\
  StronglySorted Qle (arcLengthTable p) /\
  0 <= totalLength p.
Proof.
  apply (newPath_table integerSqrt "line"
           [mkPoint 0 0; mkPoint 1 0; mkPoint 2 0; mkPoint 3 0]).
  - intros q. unfold integerSqrt. change 0 with (inject_Z 0).
    rewrite <- Zle_Qle. apply Z.sqrt_nonneg.
  - by vm_compute.
Defined.

Section PathSearch.

Lemma Qfloor_between (q : Q) (k : Z) :
  inject_Z k <= q -> q < inject_Z (k + 1) -> Qfloor q = k.
Proof.
  intros Hlo Hhi.
  assert (H1 : (k <= Qfloor q)%Z).
  { rewrite <- (Qfloor_Z k). by apply Qfloor_resp_le. }
  assert (H2 : (Qfloor q < k + 1)%Z).
  { rewrite Zlt_Qlt. eapply Qle_lt_trans; [apply Qfloor_le|done]. }
  lia.
Qed.

Lemma Qceiling_between (q : Q) (k : Z) :
  inject_Z k < q -> q <= inject_Z (k + 1) -> Qceiling q = (k + 1)%Z.
Proof.
  intros Hlo Hhi. unfold Qceiling.
  assert (Hf : Qfloor (- q) = (- (k + 1))%Z).
  { apply Qfloor_between.
    - rewrite inject_Z_opp. lra.
    - replace (- (k + 1) + 1)%Z with (- k)%Z by lia. rewrite inject_Z_opp. lra. }
  rewrite Hf. lia.
Qed.

Lemma elementAt_lookup_Z {A} (l : list A) (i : Z) :
  (0 <= i < Z.of_nat (length l))%Z -> exists v, elementAt l i = Some v.
Proof. intros Hi. by apply elementAt_is_Some. Qed.

(** The binary search ends, at the first entry that is not below the
    distance. *)
Lemma searchLoop_spec table distance : forall fuel low high,
  (0 <= low <= high)%Z -> (high < Z.of_nat (length table))%Z ->
  (high - low <= Z.of_nat fuel)%Z ->
  (low = 0%Z \/ exists v, elementAt table (low - 1) = Some v /\ v < distance) ->
  (exists v, elementAt table high = Some v /\ distance <= v) ->
  exists res, searchLoop fuel table distance low high = Some res /\
    (low <= res <= high)%Z /\
    (res = 0%Z \/ exists v, elementAt table (res - 1) = Some v /\ v < distance) /\
    (exists v, elementAt table res = Some v /\ distance <= v).
Proof.
  induction fuel as [|fuel IH]; intros low high Hlh Hhi Hfuel HA HB.
  - assert (low = high) as -> by lia. exists high. simpl.
    rewrite Z.ltb_irrefl. split; [done|]. split; [lia|]. done.
  - cbn [searchLoop]. destruct (Z.ltb_spec low high) as [Hlt|Hge].
    2:{ assert (low = high) as -> by lia. exists high.
        split; [done|]. split; [lia|]. done. }
    set (mid := ((low + high) / 2)%Z).
    assert (Hmid : (low <= mid < high)%Z).
    { unfold mid. split.
      - apply Z.div_le_lower_bound; lia.
      - apply Z.div_lt_upper_bound; lia. }
    destruct (elementAt_lookup_Z table mid) as [v Hv]; [lia|]. rewrite Hv.
    destruct (Qltb v distance) eqn:E.
    + apply Qltb_true in E.
      destruct (IH (mid + 1)%Z high) as (res & Hrun & Hres & HA' & HB');
        [lia|lia|lia| |done|].
      { right. exists v. split; [|done]. by replace (mid + 1 - 1)%Z with mid by lia. }
      exists res. split; [done|]. split; [lia|]. done.
    + apply Qltb_false in E.
      destruct (IH low mid) as (res & Hrun & Hres & HA' & HB');
        [lia|lia|lia|done| |].
      { by exists v. }
      exists res. split; [done|]. split; [lia|]. done.
Qed.

(** [distanceToT] on a table that ends at [totalLength]. *)
Lemma distanceToT_result p distance :
  last (arcLengthTable p) = Some (totalLength p) -> 0 <= totalLength p ->
  let d := Qmax 0 (Qmin (totalLength p) distance) in
  let N := (Z.of_nat (length (arcLengthTable p)) - 1)%Z in
  exists t, distanceToT p distance = Some t /\
    ((t = 0 /\ exists v, elementAt (arcLengthTable p) 0 = Some v /\ d <= v) \/
     exists low d0 d1,
       (1 <= low <= N)%Z /\
       elementAt (arcLengthTable p) (low - 1) = Some d0 /\
       elementAt (arcLengthTable p) low = Some d1 /\
       d0 < d /\ d <= d1 /\
       t = (inject_Z (low - 1) + (d - d0) / (d1 - d0)) / inject_Z N).
Proof.
  intros Hlast Htot d N. unfold distanceToT. cbv zeta.
  set (table := arcLengthTable p) in *. fold d. fold N.
  assert (Hne : (1 <= length table)%nat).
  { destruct table; [done|simpl; lia]. }
  assert (Hd : 0 <= d /\ d <= totalLength p).
  { unfold d. split; [apply Q.le_max_l|].
    apply Q.max_lub; [done|apply Q.le_min_l]. }
  destruct (searchLoop_spec table d (length table) 0 N)
    as (low & -> & Hlow & HA & HB); [unfold N; lia|unfold N; lia|unfold N; lia| | |].
  { by left. }
  { exists (totalLength p). split; [|by destruct Hd].
    unfold elementAt, N. destruct (Z.ltb_spec (Z.of_nat (length table) - 1) 0); [lia|].
    rewrite last_lookup in Hlast. rewrite <- Hlast. f_equal. lia. }
  cbn [mbind option_bind]. fold N.
  destruct (Z.eqb_spec low 0) as [->|Hnz].
  { exists 0. split; [done|]. by left. }
  destruct HA as [?|(d0 & Hd0 & Hlt)]; [done|].
  destruct HB as (d1 & Hd1 & Hle).
  rewrite Hd0, Hd1. cbn [mbind option_bind]. unfold finiteQuotient.
  assert (Hgap : 0 < d1 - d0) by lra.
  destruct (Qeq_bool (d1 - d0) 0) eqn:E1.
  { apply Qeq_bool_eq in E1. lra. }
  cbn [mbind option_bind].
  assert (HN : 0 < inject_Z N).
  { change 0 with (inject_Z 0). rewrite <- Zlt_Qlt. lia. }
  destruct (Qeq_bool (inject_Z N) 0) eqn:E2.
  { apply Qeq_bool_eq in E2. lra. }
  eexists. split; [reflexivity|]. right. exists low, d0, d1.
  split; [lia|]. done.
Qed.

Lemma distanceToT_bounds p distance t :
  last (arcLengthTable p) = Some (totalLength p) -> 0 <= totalLength p ->
  distanceToT p distance = Some t -> 0 <= t /\ t <= 1.
Proof.
  intros Hlast Htot Hrun.
  destruct (distanceToT_result p distance Hlast Htot) as (t' & Hrun' & Hcase).
  assert (t' = t) as -> by congruence.
  destruct Hcase as [[-> _]|(low & d0 & d1 & Hlow & _ & _ & Hlt & Hle & ->)];
    [lra|].
  set (N := (Z.of_nat (length (arcLengthTable p)) - 1)%Z) in *.
  set (d := Qmax 0 (Qmin (totalLength p) distance)) in *.
  assert (HN : 0 < inject_Z N).
  { change 0 with (inject_Z 0). rewrite <- Zlt_Qlt. lia. }
  assert (Hfrac : 0 < (d - d0) / (d1 - d0) /\ (d - d0) / (d1 - d0) <= 1).
  { split.
    - apply Qlt_shift_div_l; lra.
    - apply Qle_shift_div_r; lra. }
  assert (Hl1 : 0 <= inject_Z (low - 1)).
  { change 0 with (inject_Z 0). rewrite <- Zle_Qle. lia. }
  assert (Hl2 : inject_Z (low - 1) + 1 <= inject_Z N).
  { change 1 with (inject_Z 1). rewrite <- inject_Z_plus, <- Zle_Qle. lia. }
  split.
  - apply Qle_shift_div_l; [done|]. lra.
  - apply Qle_shift_div_r; [done|]. lra.
Qed.

End PathSearch.

(** X28.  On a path whose arc-length table ends at [totalLength], with
    [totalLength] not negative (every constructed path is so),
    [distanceToT] returns for every distance, a negative or an overlong one
    too, a parameter between 0 and 1: the binary search ends, the two table
    entries it interpolates between differ, so nothing is divided by 0.
    With four control points or more, [getPointAtDistance] then returns a
    point for every distance. *)
Theorem distanceToT_in_range (p : Path) (distance : Q) :
  last (arcLengthTable p) = Some (totalLength p) -> 0 <= totalLength p ->
  exists t, distanceToT p distance = Some t /\ 0 <= t /\ t <= 1 /\
    ((4 <= length (controlPoints p))%nat ->
     is_Some (getPointAtDistance p distance)).
Proof.
  intros Hlast Htot.
  destruct (distanceToT_result p distance Hlast Htot) as (t & Hrun & _).
  destruct (distanceToT_bounds p distance t Hlast Htot Hrun) as [H0 H1].
  exists t. split; [done|]. split; [done|]. split; [done|].
  intros Hcps. unfold getPointAtDistance. rewrite Hrun. cbn [mbind option_bind].
  by apply getPointAtT_is_Some.
Qed.

Lemma distanceToT_in_range_witness :
  let p := mkPath "line" [mkPoint 0 0; mkPoint 1 0; mkPoint 2 0; mkPoint 3 0]
                  3 (mkPoint 0 0) (mkPoint 3 0) [0; 1; 3] in
  exists t, distanceToT p 2 = Some t /\ 0 <= t /\ t <= 1 /\
    ((4 <= length (controlPoints p))%nat -> is_Some (getPointAtDistance p 2)).
Proof.
  apply (distanceToT_in_range
           (mkPath "line" [mkPoint 0 0; mkPoint 1 0; mkPoint 2 0; mkPoint 3 0]
                   3 (mkPoint 0 0) (mkPoint 3 0) [0; 1; 3]) 2).
  - done.
  - by vm_compute.
Defined.

(** X29.  [tToDistance] undoes [distanceToT]: on a path whose arc-length
    table starts at 0 and ends at a non-negative [totalLength], converting
    a distance to a parameter and back gives the distance clamped to
    [0, totalLength]. *)
Theorem distance_round_trip (p : Path) (distance : Q) :
  list.head (arcLengthTable p) = Some 0 ->
  last (arcLengthTable p) = Some (totalLength p) -> 0 <= totalLength p ->
  exists t d', distanceToT p distance = Some t /\ tToDistance p t = Some d' /\
    d' == Qmax 0 (Qmin (totalLength p) distance).
Proof.
  intros Hhead Hlast Htot.
  destruct (distanceToT_result p distance Hlast Htot) as (t & Hrun & Hcase).
  destruct (distanceToT_bounds p distance t Hlast Htot Hrun) as [H0 H1].
  set (d := Qmax 0 (Qmin (totalLength p) distance)) in *.
  set (N := (Z.of_nat (length (arcLengthTable p)) - 1)%Z) in *.
  assert (Hd0 : 0 <= d) by apply Q.le_max_l.
  exists t. unfold tToDistance. fold N.
  assert (Hclamp : Qmax 0 (Qmin 1 t) == t).
  { rewrite Q.min_r by done. by rewrite Q.max_r. }
  set (index := Qmax 0 (Qmin 1 t) * inject_Z N).
  assert (Hindex : index == t * inject_Z N) by (unfold index; by rewrite Hclamp).
  destruct Hcase as [[-> (v & Hv & Hle)]|(low & d0 & d1 & Hlow & Hd0' & Hd1 & Hlt
                       & Hle & ->)].
  - assert (Hi0 : index == 0) by (rewrite Hindex; ring).
    assert (Hf : Qfloor index = 0%Z) by (rewrite Hi0; done).
    assert (Hc : Qceiling index = 0%Z) by (rewrite Hi0; done).
    rewrite Hf, Hc. cbn [Z.eqb]. exists v. split; [done|]. split; [done|].
    assert (v = 0).
    { unfold elementAt in Hv. simpl in Hv.
      destruct (arcLengthTable p); simpl in *; congruence. }
    subst v. lra.
  - assert (HN : 0 < inject_Z N).
    { change 0 with (inject_Z 0). rewrite <- Zlt_Qlt. lia. }
    set (frac := (d - d0) / (d1 - d0)) in *.
    assert (Hfrac : 0 < frac /\ frac <= 1).
    { unfold frac. split.
      - apply Qlt_shift_div_l; lra.
      - apply Qle_shift_div_r; lra. }
    assert (Hfd : frac * (d1 - d0) == d - d0).
    { unfold frac. field. lra. }
    assert (Hi : index == inject_Z (low - 1) + frac).
    { rewrite Hindex. field. lra. }
    assert (Hlow1 : inject_Z (low - 1 + 1) == inject_Z (low - 1) + 1).
    { rewrite inject_Z_plus. reflexivity. }
    destruct (Qlt_le_dec frac 1) as [Hlt1|Hge1].
    + assert (Hf : Qfloor index = (low - 1)%Z).
      { apply Qfloor_between; rewrite Hi; [lra|]. rewrite Hlow1. lra. }
      assert (Hc : Qceiling index = (low - 1 + 1)%Z).
      { apply Qceiling_between; rewrite Hi; [lra|]. rewrite Hlow1. lra. }
      rewrite Hf, Hc. destruct (Z.eqb_spec (low - 1) (low - 1 + 1)); [lia|].
      replace (low - 1 + 1)%Z with low by lia.
      rewrite Hd0', Hd1. cbn [mbind option_bind].
      eexists. split; [done|]. split; [reflexivity|].
      rewrite Hi. 
      assert (Hg : (inject_Z (low - 1) + frac - inject_Z (low - 1)) * (d1 - d0)
                   == frac * (d1 - d0)) by ring.
      rewrite Hg, Hfd. ring.
    + assert (Hfrac1 : frac == 1) by lra.
      assert (Hil : index == inject_Z low).
      { rewrite Hi, Hfrac1. replace low with (low - 1 + 1)%Z at 2 by lia.
        rewrite Hlow1. reflexivity. }
      assert (Hf : Qfloor index = low) by (rewrite Hil; apply Qfloor_Z).
      assert (Hc : Qceiling index = low) by (rewrite Hil; apply Qceiling_Z).
      rewrite Hf, Hc, Z.eqb_refl. exists d1. split; [done|]. split; [done|].
      rewrite Hfrac1 in Hfd. lra.
Qed.

Lemma distance_round_trip_witness :
  let p := mkPath "line" [mkPoint 0 0; mkPoint 1 0; mkPoint 2 0; mkPoint 3 0]
                  3 (mkPoint 0 0) (mkPoint 3 0) [0; 1; 3] in
  exists t d', distanceToT p 2 = Some t /\ tToDistance p t = Some d' /\
    d' == Qmax 0 (Qmin (totalLength p) 2).
Proof.
  apply (distance_round_trip
           (mkPath "line" [mkPoint 0 0; mkPoint 1 0; mkPoint 2 0; mkPoint 3 0]
                   3 (mkPoint 0 0) (mkPoint 3 0) [0; 1; 3]) 2).
  - done.
  - done.
  - by vm_compute.
Defined.

(** * Properties of the level paths *)

Section LevelPaths.

Lemma sCurve_rounds_length startX startY width segmentHeight n : forall start,
  (1 <= start)%nat ->
  length (flat_map (sCurveRound startX startY width segmentHeight) (seq start n))
    = (3 * n)%nat.
Proof.
  induction n as [|n IH]; intros start Hs; cbn [seq flat_map]; [done|].
  rewrite length_app, IH by lia. destruct start as [|s]; [lia|].
  unfold sCurveRound. cbn [length]. lia.
Qed.

Variable sqrt : Q -> Q.

Lemma newPath_Ok ident cps :
  (4 <= length cps)%nat ->
  exists p, newPath sqrt ident cps = Ok p /\ controlPoints p = cps.
Proof.
  intros Hge. unfold newPath.
  destruct (Nat.ltb_spec (length cps) 4) as [Hlt|_]; [lia|].
  unfold calculateTotalLength, buildArcLengthTable.
  destruct (getPointAtT_is_Some cps 0 Hge) as [p0 ->].
  destruct (getPointAtT_is_Some cps 1 Hge) as [p1 ->]. simpl.
  destruct (chordLoop_is_Some sqrt cps (SEGMENTS_PER_CURVE * numSegments cps)
              (Z.to_nat (SEGMENTS_PER_CURVE * numSegments cps)) 1 p0 0 [] Hge)
    as [[len t1] ->].
  simpl.
  destruct (chordLoop_is_Some sqrt cps (SEGMENTS_PER_CURVE * numSegments cps)
              (Z.to_nat (SEGMENTS_PER_CURVE * numSegments cps)) 1 p0 0 [0] Hge)
    as [[len2 t2] ->].
  simpl. by eexists.
Qed.

End LevelPaths.

(** X30.  For a whole number of waves, one at least,
    [generateSCurvePath] returns [3 * waves + 1] control points, the first
    of them the start point, and [createPath] makes a path of them without
    throwing, one of [waves] curve segments.  Level 2, with three waves,
    gets a path of ten control points. *)
Theorem generateSCurvePath_makes_path (sqrt : Q -> Q) (ident : string)
    (startX startY width height : Q) (waves : nat) :
  (1 <= waves)%nat ->
  exists points p,
    generateSCurvePath startX startY width height waves = Some points /\
    length points = (3 * waves + 1)%nat /\
    (exists p0, list.head points = Some p0 /\ x p0 = startX /\ y p0 == startY) /\
    createPath sqrt ident points = Ok p /\
    controlPoints p = points /\ numSegments points = Z.of_nat waves.
Proof.
  intros Hw. unfold generateSCurvePath, finiteQuotient.
  destruct (Qeq_bool (inject_Z (Z.of_nat waves)) 0) eqn:E.
  { apply Qeq_bool_eq in E. change 0 with (inject_Z 0) in E.
    rewrite inject_Z_injective in E. lia. }
  cbn [mbind option_bind].
  set (segmentHeight := height / inject_Z (Z.of_nat waves)).
  set (points := flat_map _ _).
  assert (Hlen : length points = (3 * waves + 1)%nat).
  { unfold points. cbn [seq flat_map]. rewrite length_app.
    rewrite sCurve_rounds_length by lia. unfold sCurveRound. cbn [length]. lia. }
  unfold createPath.
  destruct (newPath_Ok sqrt ident points) as (p & Hp & Hcp); [lia|].
  exists points, p. split; [done|]. split; [done|]. split.
  { eexists. split; [reflexivity|]. simpl. split; [done|]. ring. }
  split; [done|]. split; [done|].
  unfold numSegments. rewrite Hlen.
  replace (Z.of_nat (3 * waves + 1) - 1)%Z with (Z.of_nat waves * 3)%Z by lia.
  by rewrite Z.div_mul.
Qed.

Lemma generateSCurvePath_makes_path_witness :
  exists points p,
    generateSCurvePath (CANVAS_WIDTH / 2) 50 250 (CANVAS_HEIGHT - 100) 3
      = Some points /\
    length points = (3 * 3 + 1)%nat /\
    (exists p0, list.head points = Some p0 /\ x p0 = CANVAS_WIDTH / 2 /\
                y p0 == 50) /\
    createPath integerSqrt "level2" points = Ok p /\
    controlPoints p = points /\ numSegments points = Z.of_nat 3.
Proof.
  apply (generateSCurvePath_makes_path integerSqrt "level2"
           (CANVAS_WIDTH / 2) 50 250 (CANVAS_HEIGHT - 100) 3).
  lia.
Defined.
